(** * DESCHRAMBLER: adjacency inference and greedy chain assembly

    A shallow embedding of [code/inferAdjProb.c] (stage 1) and
    [code/deschrambler.cpp] (stage 2), followed by the properties
    established about them.

    Conventions.
    - C [int] values are modelled as [Z]; the programs never rely on
      wrap-around, and the statements carry the range in which the C
      arithmetic stays inside [int].
    - C [double] values that are only copied and compared (edge weights,
      scores) are modelled as [Q]; those on which the program computes
      ([exp], sums, quotients) are modelled as ideal reals [R].
    - [std::map<int,int>] is a [gmap Z Z]; [std::list<Edge>] is a
      [list Edge]; [std::map<int, list<Edge>>] is a key-sorted association
      list, because the program iterates over it in key order. *)

From Stdlib Require Import ZArith QArith List Lia Bool Permutation Sorting.Sorted.
From Stdlib Require Import Reals Lra String.
From stdpp Require Import gmap.
Import ListNotations.

Local Open Scope Z_scope.

(* ===================================================================== *)
(** * Stage 1: canonical index space ([inferAdjProb.c]) *)
(* ===================================================================== *)

Module Index.

Section WithT.
  (** [T] is the global total element count; [A], [Zhi] (the source's [Z])
      and [N] are the globals derived from it in [initSets]. *)
  Variable T : Z.

Definition A : Z := 0.
Definition Zhi : Z := 2 * T + 1.
Definition N : Z := Zhi + 1.

  (** [static int map(int i)] *)
Definition map (i : Z) : Z :=
    if i =? A then Zhi
    else if i =? Zhi then A
    else if i <=? T then i + T else i - T.

  (** [static int pam(int i)] *)
Definition pam (i : Z) : Z :=
    if i =? Zhi then A
    else if i <=? T then i else - (i - T).

  (** The argument normalisation shared by [Set], [PSet], [SSet] and
      [updatePS]: a negative (reversed) element reference is folded into
      the canonical space. *)
Definition fold (i : Z) : Z := if i <? 0 then map (- i) else i.

  (** Column normalisation of [Set]/[PSet]/[SSet]: [if (j == A) j = Z]. *)
Definition foldcol (j : Z) : Z :=
    let j := fold j in if j =? A then Zhi else j.
End WithT.

End Index.

(* ===================================================================== *)
(** * Stage 1: the likelihood engine ([inferAdjProb.c]) *)
(* ===================================================================== *)

Module Inference.
Import Index.

(** [#define YES 0x01], [#define NO 0x00], and [X = 8 * sizeof(unsigned char)]. *)
Definition YES : Z := 1.
Definition NO : Z := 0.
Definition X : Z := 8.

(** An [unsigned char] array, by index. *)
Definition bytes := Z -> Z.

(** [static unsigned char Val(unsigned char *H, int i, int j)], with the
    global [N] passed explicitly.  The position [i * N + j] is the exact
    one; it is the [int] the program computes as long as [N * N] fits an
    [int], the range the statements about single bits carry. *)
Definition Val (N : Z) (H : bytes) (i j : Z) : Z :=
  let pos := i * N + j in
  let a := Z.quot pos X in
  let b := Z.rem pos X in
  Z.land (Z.shiftr (H a) b) 1.

(** [struct phyloTree], as the likelihood recursion sees it: the node's
    address (its identity in the caches), its name, its [distalpha] and
    its two children. *)
#[local] Unset Elimination Schemes.
Inductive phyloTree : Type :=
  mkNode (addr : Z) (name : string) (distalpha : R)
         (childL childR : option phyloTree).
#[local] Set Elimination Schemes.

Definition addrOf (t : phyloTree) : Z := let 'mkNode a _ _ _ _ := t in a.
Definition nameOf (t : phyloTree) : string := let 'mkNode _ n _ _ _ := t in n.
Definition distOf (t : phyloTree) : R := let 'mkNode _ _ d _ _ := t in d.

(** [static boolean isLeaf(struct phyloTree *node)] *)
Definition isLeaf (t : phyloTree) : bool :=
  match t with
  | mkNode _ _ _ None None => true
  | _ => false
  end.

(** [struct nodeList]: a leaf (by the name of the node it points to), its
    adjacency bit matrix [P] and its end-membership markers [there]. *)
Record nodeList := mkLeaf { leafName : string; P : bytes; there : bytes }.

(** [static struct nodeList *findTreeNode(char *name)]; [None] stands for
    [errAbort]. *)
Fixpoint findTreeNode (Leaf : list nodeList) (name : string) : option nodeList :=
  match Leaf with
  | [] => None
  | lf :: rest =>
      if String.eqb (leafName lf) name then Some lf else findTreeNode rest name
  end.

Local Open Scope R_scope.

(** [static double prob(struct phyloTree *son, int i, int s)], with the
    global [T]. *)
Definition prob (T : Z) (son : phyloTree) (i s : Z) : R :=
  let n := IZR T in
  let ttaa := distOf son in
  if (i =? s)%Z
  then 1 / (2 * n - 1) + (2 * n - 2) / (2 * n - 1) * exp (- (2 * n - 1) * ttaa)
  else 1 / (2 * n - 1) - 1 / (2 * n - 1) * exp (- (2 * n - 1) * ttaa).

(** The two hash tables [lp_cache] and [ll_cache], keyed by
    (node, i, j). *)
Record caches := mkCaches {
  lp_cache : gmap (Z * Z * Z) R;
  ll_cache : gmap (Z * Z * Z) R
}.

(** Computations that read and extend the caches and may abort. *)
Definition M (A : Type) : Type := caches -> option (A * caches).
Definition ret {A} (x : A) : M A := fun st => Some (x, st).
Definition bind {A B} (m : M A) (k : A -> M B) : M B :=
  fun st => match m st with
            | Some (x, st') => k x st'
            | None => None
            end.
Definition abort {A} : M A := fun _ => None.

Notation "x <- m ;; k" := (bind m (fun x => k))
  (at level 100, m at next level, right associativity).

(** [static double getLP(struct phyloTree* node, int i, int j)] *)
Definition getLP (T : Z) (node : phyloTree) (i j : Z) : M R :=
  fun st =>
    match lp_cache st !! (addrOf node, i, j) with
    | Some val => Some (val, st)
    | None =>
        let val := prob T node i j in
        Some (val, mkCaches (<[(addrOf node, i, j) := val]> (lp_cache st))
                            (ll_cache st))
    end.

(** [static double getLL(struct phyloTree *node, int i, int j)]; the call
    to [preLikelihood(node, ., .)] is the parameter [pre]. *)
Definition getLL (pre : Z -> Z -> M R) (node : phyloTree) (i j : Z) : M R :=
  fun st =>
    match ll_cache st !! (addrOf node, i, j) with
    | Some val => Some (val, st)
    | None =>
        match pre i j st with
        | Some (val, st') =>
            Some (val, mkCaches (lp_cache st')
                                (<[(addrOf node, i, j) := val]> (ll_cache st')))
        | None => None
        end
    end.

(** The integers [lo, lo+1, ..., hi-1]. *)
Definition range (lo hi : Z) : list Z :=
  List.map (fun k => (lo + Z.of_nat k)%Z) (seq 0 (Z.to_nat (hi - lo))).

(** [for (s = A; s < Z; s++) if (Val(DPPI, s, j) == YES) acc += term(s);] *)
Fixpoint sumLoop (N : Z) (DPPI : bytes) (j : Z) (term : Z -> M R)
    (ss : list Z) (acc : R) : M R :=
  match ss with
  | [] => ret acc
  | s :: ss' =>
      if (Val N DPPI s j =? YES)%Z
      then v <- term s ;; sumLoop N DPPI j term ss' (acc + v)
      else sumLoop N DPPI j term ss' acc
  end.

(** The loop of [preLikelihood] over one child [c]:
    [for (s = A; s < Z; s++) if (Val(DPPI, s, j) == YES)
       acc += getLP(c, i, s) * getLL(c, s, j);]
    starting from [acc = 0].  The two calls touch different caches, so
    their order does not matter. *)
Definition childSum (T : Z) (DPPI : bytes) (pre : Z -> Z -> M R)
    (c : phyloTree) (i j : Z) : M R :=
  sumLoop (N T) DPPI j
    (fun s => lp <- getLP T c i s ;;
              ll <- getLL pre c s j ;;
              ret (lp * ll))
    (range A (Zhi T)) 0.

Section Engine.
  (** The globals the recursion reads. *)
  Variable T : Z.
  Variable DPPI : bytes.
  Variable Leaf : list nodeList.

(** [static double preLikelihood(struct phyloTree *anc, int i, int j)] *)
Fixpoint preLikelihood (anc : phyloTree) (i j : Z) {struct anc} : M R :=
  match anc with
  | mkNode _ name _ None None =>
      match findTreeNode Leaf name with
      | None => abort
      | Some lf =>
          if (there lf j =? YES)%Z then ret (IZR (Val (N T) (P lf) i j))
          else ret 1
      end
  | mkNode _ _ _ childL childR =>
      left <- match childL with
              | None => ret 1
              | Some c => childSum T DPPI (preLikelihood c) c i j
              end ;;
      right <- match childR with
               | None => ret 1
               | Some c => childSum T DPPI (preLikelihood c) c i j
               end ;;
      ret (left * right)
  end.

End Engine.

(** ** The recursion as the specification words it *)

Section EngineSpec.
  Variable T : Z.
  Variable DPPI : bytes.
  Variable Leaf : list nodeList.

(** [compatible(s, j)]: the pair is marked in the compatibility matrix. *)
Definition compatible (s j : Z) : bool := (Val (N T) DPPI s j =? YES)%Z.

(** All states of the canonical index space, [0 .. Z]. *)
Definition states : list Z := range 0 (N T).

(** Sum of [f s] over the states [s] of [ss] compatible with [j]. *)
Definition sumCompatible (j : Z) (f : Z -> R) (ss : list Z) : R :=
  fold_right Rplus 0 (List.map f (List.filter (fun s => compatible s j) ss)).

(** Modelled on the wording of the specification: at a leaf, 1 when the
    leaf's end-membership marker does not constrain column [j], else the
    leaf's observed bit for [(i, j)]; at an internal node, the product over
    the existing children of the sum over the compatible states [s] of
    [branchProb(child, i, s) * preLikelihood(child, s, j)], a missing
    child contributing the factor 1.  (A leaf without leaf data has no
    value in the program, which aborts; the value 0 stands there.) *)
Fixpoint likelihoodSpec (t : phyloTree) (i j : Z) {struct t} : R :=
  match t with
  | mkNode _ name _ None None =>
      match findTreeNode Leaf name with
      | None => 0
      | Some lf =>
          if (there lf j =? YES)%Z then IZR (Val (N T) (P lf) i j) else 1
      end
  | mkNode _ _ _ childL childR =>
      (match childL with
       | None => 1
       | Some c =>
           sumCompatible j (fun s => prob T c i s * likelihoodSpec c s j) states
       end) *
      (match childR with
       | None => 1
       | Some c =>
           sumCompatible j (fun s => prob T c i s * likelihoodSpec c s j) states
       end)
  end.

(** The nodes of a tree. *)
Fixpoint nodes (t : phyloTree) : list phyloTree :=
  match t with
  | mkNode _ _ _ childL childR =>
      t :: (match childL with Some c => nodes c | None => [] end)
        ++ (match childR with Some c => nodes c | None => [] end)
  end.

(** Distinct nodes of the tree have distinct addresses. *)
Definition distinctAddrs (root : phyloTree) : Prop :=
  forall n n', In n (nodes root) -> In n' (nodes root) ->
               addrOf n = addrOf n' -> n = n'.

(** Every leaf of the tree is in the leaf list. *)
Definition leavesListed (root : phyloTree) : Prop :=
  forall n, In n (nodes root) -> isLeaf n = true ->
            findTreeNode Leaf (nameOf n) <> None.

(** Every cache entry of a node of the tree holds the value the
    uncached computation gives. *)
Definition cachesSound (root : phyloTree) (st : caches) : Prop :=
  (forall n i j v, In n (nodes root) ->
     lp_cache st !! (addrOf n, i, j) = Some v -> v = prob T n i j) /\
  (forall n i j v, In n (nodes root) ->
     ll_cache st !! (addrOf n, i, j) = Some v -> v = likelihoodSpec n i j).

End EngineSpec.

(** Induction over trees. *)
Definition onChild (Q : phyloTree -> Prop) (c : option phyloTree) : Prop :=
  match c with Some t => Q t | None => True end.

Fixpoint phyloTree_induction (Q : phyloTree -> Prop)
    (step : forall a n d l r, onChild Q l -> onChild Q r -> Q (mkNode a n d l r))
    (t : phyloTree) {struct t} : Q t :=
  match t with
  | mkNode a n d l r =>
      step a n d l r
        (match l return onChild Q l with
         | Some c => phyloTree_induction Q step c
         | None => I
         end)
        (match r return onChild Q r with
         | Some c => phyloTree_induction Q step c
         | None => I
         end)
  end.

End Inference.

(* ===================================================================== *)
(** * Stage 1: the sparse tables and their normalisation *)
(* ===================================================================== *)

Module Posterior.
Import Index Inference.

Local Open Scope R_scope.

(** [struct matrix]: one cell of a sparse row or column. *)
Record cell := mkCell { cx : Z; cval : R }.

(** [PLH], [SLH], [PPP], [SPP]: arrays of [N] list heads.  The head cell
    of every list is the array element itself, so a list is never empty;
    [AllocArray] fills it with zeros. *)
Definition matrix := Z -> list cell.
Definition zeroMatrix : matrix := fun _ => [mkCell 0 0].

(** The search loop [for (pt = ...; pt; pt = pt->next) if (pt->x == i) break;]
    followed by the read of [pt->val]. *)
Fixpoint lookupCell (i : Z) (l : list cell) : option R :=
  match l with
  | [] => None
  | c :: rest => if (cx c =? i)%Z then Some (cval c) else lookupCell i rest
  end.

(** The search loop followed by the write: the cell found is overwritten,
    a new cell is appended at the end otherwise. *)
Fixpoint setCell (i : Z) (v : R) (l : list cell) : list cell :=
  match l with
  | [] => [mkCell i v]
  | c :: rest =>
      if (cx c =? i)%Z then mkCell (cx c) v :: rest else c :: setCell i v rest
  end.

(** The cells [cells] written one after the other into the list [l], the
    cell [c] at index [ix (cx c)] with value [f c]. *)
Definition writes (ix : Z -> Z) (f : cell -> R) (cells l : list cell)
  : list cell :=
  fold_left (fun l c => setCell (ix (cx c)) (f c) l) cells l.

Section Tables.
  Variable T : Z.

(** [static double PVal(struct matrix *H, int i, int j)] *)
Definition PVal (H : matrix) (i j : Z) : R :=
  match lookupCell i (H j) with Some v => v | None => 0 end.

(** [static void PSet(struct matrix *H, int i, int j, double value)] *)
Definition PSet (H : matrix) (i j : Z) (value : R) : matrix :=
  let i := fold T i in
  let j := foldcol T j in
  fun k => if (k =? j)%Z then setCell i value (H j) else H k.

(** [static double SVal(struct matrix *H, int i, int j)] *)
Definition SVal (H : matrix) (i j : Z) : R :=
  match lookupCell j (H i) with Some v => v | None => 0 end.

(** [static void SSet(struct matrix *H, int i, int j, double value)] *)
Definition SSet (H : matrix) (i j : Z) (value : R) : matrix :=
  let i := fold T i in
  let j := foldcol T j in
  fun k => if (k =? i)%Z then setCell j value (H i) else H k.

(** [psum = 0; for (pt = PLH+i; pt; pt = pt->next) psum += pt->val;] *)
Definition listSum (l : list cell) : R :=
  fold_left (fun acc pt => acc + cval pt) l 0.

(** The body of the first loop of [normalize], for index [i]. *)
Definition normP (PLH PPP : matrix) (i : Z) : matrix :=
  let psum := listSum (PLH i) in
  fold_left (fun H pt => PSet H (cx pt) i (cval pt / psum)) (PLH i) PPP.

(** The body of the second loop. *)
Definition normS (SLH SPP : matrix) (i : Z) : matrix :=
  let ssum := listSum (SLH i) in
  fold_left (fun H pt => SSet H i (cx pt) (cval pt / ssum)) (SLH i) SPP.

(** The four loops of [normalize], in order. *)
Definition normalize1 (PLH PPP : matrix) : matrix :=
  fold_left (normP PLH) (range (A + 1) (Zhi T)) PPP.

Definition normalize2 (SLH SPP : matrix) : matrix :=
  fold_left (normS SLH) (range (A + 1) (Zhi T)) SPP.

Definition normalize3 (DPPI : bytes) (PPP SPP : matrix) : matrix :=
  fold_left (fun H i => if (Val (N T) DPPI A i =? YES)%Z
                        then SSet H A i (PVal PPP A i) else H)
            (range (A + 1) (Zhi T)) SPP.

Definition normalize4 (DPPI : bytes) (SPP PPP : matrix) : matrix :=
  fold_left (fun H i => if (Val (N T) DPPI i (Zhi T) =? YES)%Z
                        then PSet H i (Zhi T) (SVal SPP i (Zhi T)) else H)
            (range (A + 1) (Zhi T)) PPP.

(** [static void normalize()], from the likelihood tables [PLH], [SLH]
    and the current posterior tables to the new posterior tables
    [(PPP, SPP)]. *)
Definition normalize (DPPI : bytes) (PLH SLH PPP SPP : matrix)
  : matrix * matrix :=
  let PPP := normalize1 PLH PPP in
  let SPP := normalize2 SLH SPP in
  let SPP := normalize3 DPPI PPP SPP in
  let PPP := normalize4 DPPI SPP PPP in
  (PPP, SPP).

(** The value [calculatePostProb] prints for the pair [(i, j)]:
    [pprob = PVal(PPP, i, j) * SVal(SPP, i, j)]. *)
Definition pprob (PPP SPP : matrix) (i j : Z) : R :=
  PVal PPP i j * SVal SPP i j.

(** The pairs [calculatePostProb] prints: those marked in [DPPI], unless
    both ends are chromosome ends. *)
Definition printed (DPPI : bytes) (i j : Z) : bool :=
  negb ((pam T i =? 0)%Z && (pam T j =? 0)%Z)
  && negb (Val (N T) DPPI i j =? 0)%Z.

End Tables.

(** A list of cells as [PSet]/[SSet] build it: it starts with the head
    cell, of index 0, and holds every index once, none negative. *)
Definition wfList (l : list cell) : Prop :=
  (exists c rest, l = c :: rest /\ cx c = 0%Z) /\
  List.NoDup (List.map cx l) /\ Forall (fun c => (0 <= cx c)%Z) l.

(** All values of the list are non-negative. *)
Definition nonneg (l : list cell) : Prop := Forall (fun c => 0 <= cval c) l.

(** ** Filling the bit matrices and the likelihood tables *)

(** [#define HI 0xFF] *)
Definition HI : Z := 255.

Section Pipeline.
  Variable T : Z.

(** [static void Set(unsigned char *H, int i, int j, unsigned char value)]
    ([Set] is reserved, hence the name).  The position is the exact one,
    as in [Val]. *)
Definition setBit (H : bytes) (i j value : Z) : bytes :=
  let i := fold T i in
  let j := foldcol T j in
  let pos := (i * N T + j)%Z in
  let a := Z.quot pos X in
  let b := Z.rem pos X in
  let g := Z.shiftl 1 b in
  fun k =>
    if (k =? a)%Z
    then if (value =? 1)%Z then Z.lor (H k) g else Z.land (H k) (HI - g)
    else H k.

(** [b->there[k] = YES] *)
Definition setThere (k : Z) (b : nodeList) : nodeList :=
  mkLeaf (leafName b) (P b)
         (fun a => if (a =? k)%Z then YES else there b a).

(** [static void updatePS(struct nodeList *b, int i, int j)] *)
Definition updatePS (b : nodeList) (i j : Z) : nodeList :=
  let j := fold T j in
  let i := fold T i in
  if (i =? A)%Z then setThere j b
  else if (j =? Zhi T)%Z then setThere (map T i) b
  else setThere j (setThere (map T i) b).

(** The four [Set] calls and the [updatePS] call [initSets] makes for one
    adjacency [x -> y] of a leaf: [Set(b->P, x, y, YES)],
    [Set(b->P, x', y', YES)], the same two on [DPPI], and
    [updatePS(b, x, y)]; [(x', y')] is the adjacency read on the other
    strand. *)
Definition record (st : bytes * nodeList) (x y x' y' : Z) : bytes * nodeList :=
  let (DPPI, b) := st in
  let Pb := setBit (setBit (P b) x y YES) x' y' YES in
  let DPPI := setBit (setBit DPPI x y YES) x' y' YES in
  (DPPI, updatePS (mkLeaf (leafName b) Pb (there b)) x y).

(** The loop [for (++i; i < ch->eleNum; ++i)] over the inner adjacencies
    of a chromosome; [prev] is [ch->eleOrder[i-1]].  Returns the last
    element as well. *)
Fixpoint initInner (st : bytes * nodeList) (prev : Z) (rest : list Z)
  : (bytes * nodeList) * Z :=
  match rest with
  | [] => (st, prev)
  | e :: rest' => initInner (record st prev e (- e) (- prev)) e rest'
  end.

(** The body of [for (ch = node->genome; ch; ch = ch->next)] in
    [initSets].  A stored chromosome has at least one element. *)
Definition initChrom (st : bytes * nodeList) (ch : list Z) : bytes * nodeList :=
  match ch with
  | [] => st
  | e0 :: rest =>
      let st := record st A e0 (- e0) (Zhi T) in
      let (st, last) := initInner st e0 rest in
      record st last (Zhi T) A (- last)
  end.

(** The first loop of [initSets] over the leaves, each given by its name
    and genome; all arrays start zeroed.  (No leaf is read from a joins
    file here: every leaf lies below the ancestor.) *)
Definition initSets (genomes : list (string * list (list Z)))
  : bytes * list nodeList :=
  fold_left
    (fun (acc : bytes * list nodeList) (g : string * list (list Z)) =>
       let (DPPI, Leaf) := acc in
       let b := mkLeaf (fst g) (fun _ => 0%Z) (fun _ => 0%Z) in
       let (DPPI, b) := fold_left initChrom (snd g) (DPPI, b) in
       (DPPI, Leaf ++ [b]))
    genomes (fun _ => 0%Z, []).

(** A [for] loop whose body runs in [M]. *)
Fixpoint forM {S : Type} (body : Z -> S -> M S) (l : list Z) (s : S) : M S :=
  match l with
  | [] => ret s
  | k :: l' => s' <- body k s ;; forM body l' s'
  end.

(** [static void getPredecessor()] *)
Definition getPredecessor (DPPI : bytes) (Leaf : list nodeList)
    (Ances : phyloTree) (PLH : matrix) : M matrix :=
  forM (fun j =>
          forM (fun i H =>
                  if (Val (N T) DPPI i j =? NO)%Z then ret H
                  else val <- preLikelihood T DPPI Leaf Ances i j ;;
                       ret (PSet T H i j val))
               (range A (Zhi T)))
       (range (A + 1) (Zhi T)) PLH.

(** [getPredecessor] with the value of [preLikelihood(Ances, i, j)] given
    by [val]. *)
Definition predTable (DPPI : bytes) (val : Z -> Z -> R)
    (PLH : matrix) : matrix :=
  fold_left
    (fun H j =>
       fold_left (fun H i => if (Val (N T) DPPI i j =? NO)%Z then H
                             else PSet T H i j (val i j))
                 (range A (Zhi T)) H)
    (range (A + 1) (Zhi T)) PLH.

(** [if (v > 0)] on doubles. *)
Definition positive (v : R) : bool := if Rlt_dec 0 v then true else false.

(** [static void getSuccessor()] *)
Definition getSuccessor (PLH SLH : matrix) : matrix :=
  let SLH :=
    fold_left (fun H j =>
                 let v := PVal PLH A (map T j) in
                 if positive v then SSet T H j (Zhi T) v else H)
              (range A (Zhi T + 1)) SLH in
  fold_left (fun H i =>
               fold_left (fun H pt =>
                            if positive (cval pt)
                            then SSet T H (map T i) (map T (cx pt)) (cval pt)
                            else H)
                         (PLH i) H)
            (range (A + 1) (Zhi T)) SLH.

(** The inference pass of [main], after [initSets]:
    [getPredecessor(); getSuccessor(); normalize();], from zeroed tables
    to the posterior tables [(PPP, SPP)]. *)
Definition inferPosteriors (DPPI : bytes) (Leaf : list nodeList)
    (Ances : phyloTree) : M (matrix * matrix) :=
  PLH <- getPredecessor DPPI Leaf Ances zeroMatrix ;;
  let SLH := getSuccessor PLH zeroMatrix in
  ret (normalize T DPPI PLH SLH zeroMatrix zeroMatrix).

End Pipeline.

(** ** Examples *)

Local Open Scope Z_scope.

(** A table with one informative column, for instantiating the result. *)
Definition sampleTable : matrix :=
  fun k => if (k =? 1)%Z then [mkCell 0 1; mkCell 2 3] else [mkCell 0 0].

(** The compatibility matrix of a single genome with the one
    chromosome [1]. *)
Definition sampleDPPI : bytes := fst (initSets 1 [("A"%string, [[1%Z]])]).

(** The tree [(A:0,B:0);], and the genomes [A = 1 2] and [B = 2 1] over
    two elements. *)
Definition zeroTree : phyloTree :=
  mkNode 0 "R" 0 (Some (mkNode 1 "A" 0 None None))
                 (Some (mkNode 2 "B" 0 None None)).
Definition twoGenomes : list (string * list (list Z)) :=
  [("A"%string, [[1; 2]%Z]); ("B"%string, [[2; 1]%Z])].
Definition twoDPPI : bytes := fst (initSets 2 twoGenomes).
Definition twoLeaves : list nodeList := snd (initSets 2 twoGenomes).

End Posterior.

(* ===================================================================== *)
(** * Stage 1: re-rooting the tree ([inferAdjProb.c]) *)
(* ===================================================================== *)

Module Reroot.
Import Inference.

(** [struct phyloTree] in memory: the links are addresses, [None] is
    [NULL].  ([next], [chromNum], [outgroup] and [genome] play no part in
    re-rooting.) *)
Record treeNode := mkTreeNode {
  parent : option Z;
  childL : option Z;
  childR : option Z;
  distalpha : R;
  name : string
}.

Definition setParent (p : option Z) (n : treeNode) : treeNode :=
  mkTreeNode p (childL n) (childR n) (distalpha n) (name n).
Definition setChildL (c : option Z) (n : treeNode) : treeNode :=
  mkTreeNode (parent n) c (childR n) (distalpha n) (name n).
Definition setChildR (c : option Z) (n : treeNode) : treeNode :=
  mkTreeNode (parent n) (childL n) c (distalpha n) (name n).
Definition setDist (d : R) (n : treeNode) : treeNode :=
  mkTreeNode (parent n) (childL n) (childR n) d (name n).

(** [p->field = ...]: a write through a pointer; [None] when the pointer
    does not point to a node. *)
Definition update (a : Z) (f : treeNode -> treeNode) (h : gmap Z treeNode)
  : option (gmap Z treeNode) :=
  match h !! a with
  | Some n => Some (<[a := f n]> h)
  | None => None
  end.

(** [static void modifyBranchLen(struct phyloTree *node,
                                 struct phyloTree *child)].
    The recursion climbs the parent links; [fuel] bounds its depth. *)
Fixpoint modifyBranchLen (fuel : nat) (h : gmap Z treeNode)
    (node : option Z) (child : Z) : option (gmap Z treeNode) :=
  match node with
  | None => Some h
  | Some p =>
      match fuel with
      | O => None
      | S fuel' =>
          match h !! p with
          | None => None
          | Some pn =>
              match modifyBranchLen fuel' h (parent pn) p with
              | None => None
              | Some h' =>
                  match h' !! child with
                  | None => None
                  | Some cn => update p (setDist (distalpha cn)) h'
                  end
              end
          end
      end
  end.

(** The [while (p)] loop of [rerootTree]; [fuel] bounds the number of
    iterations. *)
Fixpoint rerootLoop (fuel : nat) (h : gmap Z treeNode) (v : Z) (p : option Z)
  : option (gmap Z treeNode) :=
  match p with
  | None => Some h
  | Some p =>
      match fuel with
      | O => None
      | S fuel' =>
          match h !! p with
          | None => None
          | Some pn =>
              let h1 := if decide (childR pn = Some v)
                        then <[p := setChildR None pn]> h
                        else <[p := setChildL None pn]> h in
              match h1 !! v with
              | None => None
              | Some vn =>
                  let h2 := match childR vn with
                            | None => <[v := setChildR (Some p) vn]> h1
                            | Some _ => <[v := setChildL (Some p) vn]> h1
                            end in
                  match h2 !! p with
                  | None => None
                  | Some pn2 =>
                      let g := parent pn2 in
                      rerootLoop fuel' (<[p := setParent (Some v) pn2]> h2) p g
                  end
              end
          end
      end
  end.

(** [static struct phyloTree *rerootTree(struct phyloTree *node)];
    the returned pointer is [node] itself. *)
Definition rerootTree (fuel : nat) (h : gmap Z treeNode) (node : Z)
  : option (gmap Z treeNode) :=
  match h !! node with
  | None => None
  | Some nn =>
      match rerootLoop fuel h node (parent nn) with
      | None => None
      | Some h' => update node (setParent None) h'
      end
  end.

(** [static void modifyTree()], on the heap and the global [Ances]; [anc]
    is the address [AllocVar] returns for the new root.  The result is
    the new heap; [Ances] and [Phylo] become [anc]. *)
Definition modifyTree (fuel : nat) (h : gmap Z treeNode) (Ances anc : Z)
  : option (gmap Z treeNode) :=
  let h := <[anc := mkTreeNode None None None 0 "NEWROOT"]> h in
  match h !! Ances with
  | None => None
  | Some an =>
  match modifyBranchLen fuel h (parent an) Ances with
  | None => None
  | Some h =>
  match update Ances (setDist 0) h with
  | None => None
  | Some h =>
  match h !! Ances with
  | None => None
  | Some an =>
  match parent an with
  | None => None
  | Some nr =>
  match h !! nr with
  | None => None
  | Some nrn =>
  let side := bool_decide (childR nrn = Some Ances) in
  match update anc (fun n => if side
                             then setChildR (Some Ances) (setChildL None n)
                             else setChildL (Some Ances) (setChildR None n)) h with
  | None => None
  | Some h =>
  match update Ances (setParent (Some anc)) h with
  | None => None
  | Some h =>
  match update nr (if side then setChildR None else setChildL None) h with
  | None => None
  | Some h =>
  match rerootTree fuel h nr with
  | None => None
  | Some h =>
  match h !! anc with
  | None => None
  | Some ancn =>
      match childL ancn with
      | None => update anc (setChildL (Some nr)) h
      | Some _ => update anc (setChildR (Some nr)) h
      end
  end end end end end end end end end end end.

(** ** Reading a tree back from the heap *)

(** The heap holds tree [t] at address [addrOf t], following the child
    links. *)
Fixpoint repr (h : gmap Z treeNode) (t : phyloTree) {struct t} : Prop :=
  match t with
  | mkNode a nm d l r =>
      (exists n, h !! a = Some n /\ name n = nm /\ distalpha n = d /\
                 childL n = option_map addrOf l /\
                 childR n = option_map addrOf r) /\
      match l with Some c => repr h c | None => True end /\
      match r with Some c => repr h c | None => True end
  end.

(** The same, with the parent links: [par] is the parent of [t]'s root. *)
Fixpoint wf (h : gmap Z treeNode) (par : option Z) (t : phyloTree)
    {struct t} : Prop :=
  match t with
  | mkNode a nm d l r =>
      (exists n, h !! a = Some n /\ name n = nm /\ distalpha n = d /\
                 childL n = option_map addrOf l /\
                 childR n = option_map addrOf r /\ parent n = par) /\
      match l with Some c => wf h (Some a) c | None => True end /\
      match r with Some c => wf h (Some a) c | None => True end
  end.

(** Addresses, names of the leaves, [distalpha] values of a tree. *)
Definition addrs (t : phyloTree) : list Z :=
  List.map addrOf (nodes t).
Definition leafNames (t : phyloTree) : list string :=
  List.map nameOf (List.filter isLeaf (nodes t)).
Definition dists (t : phyloTree) : list R :=
  List.map distOf (nodes t).

(** The branch lengths of a tree: the [distalpha] of every node but the
    root, which hangs on no branch. *)
Definition branchLengths (t : phyloTree) : list R := tl (dists t).

(** ** The path from the designated ancestor up to the root *)

(** One node of the path: its address, name and [distalpha], whether the
    path continues below it through [child[RIGHT]] ([fside = true]) or
    [child[LEFT]], and the subtree hanging on its other side. *)
Record frame := mkFrame {
  fa : Z; fnm : string; fd : R; fside : bool; fsib : option phyloTree
}.

Definition plugFrame (f : frame) (sub : phyloTree) : phyloTree :=
  if fside f then mkNode (fa f) (fnm f) (fd f) (fsib f) (Some sub)
  else mkNode (fa f) (fnm f) (fd f) (Some sub) (fsib f).

(** The tree with subtree [sub] at the bottom of the path [fs] (listed
    from the parent of [sub] up to the root). *)
Fixpoint plug (sub : phyloTree) (fs : list frame) : phyloTree :=
  match fs with
  | [] => sub
  | f :: fs' => plug (plugFrame f sub) fs'
  end.

Definition setD (d : R) (t : phyloTree) : phyloTree :=
  let 'mkNode a nm _ l r := t in mkNode a nm d l r.

(** What [modifyBranchLen] does to the path: every node takes the
    [distalpha] of the node below it. *)
Fixpoint shift (d : R) (fs : list frame) : list frame :=
  match fs with
  | [] => []
  | f :: fs' => mkFrame (fa f) (fnm f) d (fside f) (fsib f) :: shift (fd f) fs'
  end.

(** What [rerootTree] does to the path: each node keeps its side subtree
    and takes its former parent as a child, in [child[RIGHT]] when that
    slot is empty and in [child[LEFT]] otherwise. *)
Fixpoint up (fs : list frame) : option phyloTree :=
  match fs with
  | [] => None
  | f :: fs' =>
      Some (match up fs' with
            | None =>
                if fside f then mkNode (fa f) (fnm f) (fd f) (fsib f) None
                else mkNode (fa f) (fnm f) (fd f) None (fsib f)
            | Some p =>
                if fside f then mkNode (fa f) (fnm f) (fd f) (fsib f) (Some p)
                else match fsib f with
                     | None => mkNode (fa f) (fnm f) (fd f) None (Some p)
                     | Some s => mkNode (fa f) (fnm f) (fd f) (Some p) (Some s)
                     end
            end)
  end.

(** The tree [modifyTree] builds from the tree [plug sub fs], [sub] being
    the subtree of the designated ancestor and [anc] the new root. *)
Definition rerooted (anc : Z) (sub : phyloTree) (fs : list frame) : phyloTree :=
  match fs with
  | [] => sub
  | f :: _ =>
      if fside f
      then mkNode anc "NEWROOT" 0 (up (shift (distOf sub) fs)) (Some (setD 0 sub))
      else mkNode anc "NEWROOT" 0 (Some (setD 0 sub)) (up (shift (distOf sub) fs))
  end.

(** ** The path in the heap *)

Definition sibAddr (f : frame) : option Z := option_map addrOf (fsib f).

Definition parentOf (fs : list frame) (par : option Z) : option Z :=
  match fs with [] => par | f :: _ => Some (fa f) end.

(** The heap node of frame [f], whose path child is at [below] and whose
    parent link is [par]. *)
Definition frameAt (h : gmap Z treeNode) (below : Z) (par : option Z)
    (f : frame) : Prop :=
  exists n, h !! fa f = Some n /\ name n = fnm f /\ distalpha n = fd f /\
    childL n = (if fside f then sibAddr f else Some below) /\
    childR n = (if fside f then Some below else sibAddr f) /\
    parent n = par.

(** The nodes of the path [fs] above address [below], up to a node whose
    parent link is [par]. *)
Fixpoint pathOK (h : gmap Z treeNode) (par : option Z) (below : Z)
    (fs : list frame) : Prop :=
  match fs with
  | [] => True
  | f :: fs' => frameAt h below (parentOf fs' par) f /\ pathOK h par (fa f) fs'
  end.

(** The child slots of a path node after [rerootTree], [next] being its
    former parent. *)
Definition slots (f : frame) (next : option Z) : option Z * option Z :=
  match next with
  | None => (if fside f then sibAddr f else None,
             if fside f then None else sibAddr f)
  | Some p =>
      if fside f then (sibAddr f, Some p)
      else match sibAddr f with
           | None => (None, Some p)
           | Some s => (Some p, Some s)
           end
  end.

Definition upDone (h : gmap Z treeNode) (f : frame) (next : option Z) : Prop :=
  exists n, h !! fa f = Some n /\ name n = fnm f /\ distalpha n = fd f /\
    childL n = fst (slots f next) /\ childR n = snd (slots f next).

Fixpoint allDone (h : gmap Z treeNode) (fs : list frame) : Prop :=
  match fs with
  | [] => True
  | f :: fs' => upDone h f (parentOf fs' None) /\ allDone h fs'
  end.

(** The side subtrees of the path are in the heap. *)
Definition sidesOK (h : gmap Z treeNode) (fs : list frame) : Prop :=
  Forall (fun f => match fsib f with Some s => repr h s | None => True end) fs.

(** The addresses of the side subtrees. *)
Definition sideAddrs (fs : list frame) : list Z :=
  flat_map (fun f => match fsib f with Some s => addrs s | None => [] end) fs.

(** No side subtree is rooted at one of the addresses [xs]. *)
Definition sibsApart (xs : list Z) (fs : list frame) : Prop :=
  Forall (fun f => forall x, sibAddr f = Some x -> ~ In x xs) fs.

(** ** Two parsed trees

    What [readTreeString] builds, with [alpha = 1], from
    [((A:1,B:2)@:3,C:4);] and from [((A:1,B:2)@:3);].  Nodes are numbered
    in allocation order: 1 the root ([IN2], [distalpha] never assigned,
    so 0), 2 the designated ancestor ([IN1]), 3 and 4 the leaves [A] and
    [B], 5 the leaf [C].  A child read before a comma goes to
    [child[LEFT]], the one read before the closing parenthesis to
    [child[RIGHT]]. *)
Definition exSub : phyloTree :=
  mkNode 2 "IN1" 3 (Some (mkNode 3 "A" 1 None None))
                   (Some (mkNode 4 "B" 2 None None)).

Definition exPath : list frame :=
  [mkFrame 1 "IN2" 0 false (Some (mkNode 5 "C" 4 None None))].

Definition exHeap : gmap Z treeNode :=
  <[1%Z := mkTreeNode None (Some 2%Z) (Some 5%Z) 0 "IN2"]>
  (<[2%Z := mkTreeNode (Some 1%Z) (Some 3%Z) (Some 4%Z) 3 "IN1"]>
  (<[3%Z := mkTreeNode (Some 2%Z) None None 1 "A"]>
  (<[4%Z := mkTreeNode (Some 2%Z) None None 2 "B"]>
  (<[5%Z := mkTreeNode (Some 1%Z) None None 4 "C"]> ∅)))).

Definition exPathUnary : list frame := [mkFrame 1 "IN2" 0 true None].

Definition exHeapUnary : gmap Z treeNode :=
  <[1%Z := mkTreeNode None None (Some 2%Z) 0 "IN2"]>
  (<[2%Z := mkTreeNode (Some 1%Z) (Some 3%Z) (Some 4%Z) 3 "IN1"]>
  (<[3%Z := mkTreeNode (Some 2%Z) None None 1 "A"]>
  (<[4%Z := mkTreeNode (Some 2%Z) None None 2 "B"]> ∅))).

(** A per-node attribute collected over a tree; the attribute depends on
    the node's address, its name, its [distalpha] and on whether it is a
    leaf. *)
Definition collect {A} (g : Z -> string -> R -> bool -> list A)
    (t : phyloTree) : list A :=
  flat_map (fun n => g (addrOf n) (nameOf n) (distOf n) (isLeaf n)) (nodes t).

Definition collectOpt {A} (g : Z -> string -> R -> bool -> list A)
    (o : option phyloTree) : list A :=
  match o with Some t => collect g t | None => [] end.

(** The name of the last node of the path (the old root) if it ends up
    without children, which happens when it had no second child. *)
Fixpoint extraLeaf (fs : list frame) : list string :=
  match fs with
  | [] => []
  | [f] => match fsib f with None => [fnm f] | Some _ => [] end
  | _ :: fs' => extraLeaf fs'
  end.

(** The [distalpha] at the top of the path [fs] above a node with
    [distalpha] [d]. *)
Fixpoint lastD (d : R) (fs : list frame) : R :=
  match fs with
  | [] => d
  | f :: fs' => lastD (fd f) fs'
  end.

End Reroot.

(* ===================================================================== *)
(** * Stage 2: the chain assembler ([deschrambler.cpp]) *)
(* ===================================================================== *)

Module Assembler.

(** [class Edge] *)
Record Edge := mkEdge {
  bid1 : Z; dir1 : Z; bid2 : Z; dir2 : Z;
  score1 : Q; score2 : Q; weight : Q
}.

(** The constructor [Edge(bid1, dir1, bid2, dir2)]. *)
Definition newEdge (b1 d1 b2 d2 : Z) : Edge :=
  mkEdge b1 d1 b2 d2 0%Q 0%Q 0%Q.

(** [if (dir == 1) dir = -1; else dir = 1;] *)
Definition flip (d : Z) : Z := if d =? 1 then -1 else 1.

(** [void Edge::reverse()] *)
Definition reverse (e : Edge) : Edge :=
  {| bid1 := bid2 e; dir1 := flip (dir2 e);
     bid2 := bid1 e; dir2 := flip (dir1 e);
     score1 := score1 e; score2 := score2 e; weight := weight e |}.

(** [enum {SUCCESS, FAIL, CYCLE}] *)
Inductive result := SUCCESS | FAIL | CYCLE.

(** [mapUsed[k] = 1] *)
Definition mark (k : Z) (used : gmap Z Z) : gmap Z Z := <[k := 1]> used.

(** [mapUsed.find(k) != mapUsed.end()] *)
Definition isUsed (k : Z) (used : gmap Z Z) : bool :=
  match used !! k with Some _ => true | None => false end.

(** Registration of the open end on the left of a chain:
    [if (e.dir1 == 1) mapUsed[-e.bid1] = 1; else mapUsed[e.bid1] = 1;] *)
Definition markOut (e : Edge) (used : gmap Z Z) : gmap Z Z :=
  if dir1 e =? 1 then mark (- bid1 e) used else mark (bid1 e) used.

(** Registration of the open end on the right of a chain:
    [if (e.dir2 == 1) mapUsed[e.bid2] = 1; else mapUsed[-e.bid2] = 1;] *)
Definition markIn (e : Edge) (used : gmap Z Z) : gmap Z Z :=
  if dir2 e =? 1 then mark (bid2 e) used else mark (- bid2 e) used.

(** The outcome of one call: the result code together with the three
    objects the function receives by reference. *)
Record outcome := mkOutcome {
  res : result; chain : list Edge; edge : Edge; used : gmap Z Z
}.

(** [int insertEdge(list<Edge>& le, Edge& e, map<int,int>& mapUsed)].
    [le.front()] and [le.back()] on an empty list are undefined; the model
    returns [None] there. *)
Definition insertEdge (le : list Edge) (e : Edge) (mapUsed : gmap Z Z)
  : option outcome :=
  match head le, last le with
  | Some fe, Some be =>
    Some (
      if (bid1 fe =? bid1 e) && negb (dir1 fe =? dir1 e) then
        if (bid2 be =? bid2 e) && negb (dir2 be =? dir2 e) then
          mkOutcome CYCLE le e mapUsed
        else
          let e' := reverse e in
          mkOutcome SUCCESS (e' :: le) e'
            (markOut e' (mark (- bid1 fe) (mark (bid1 fe) mapUsed)))
      else if (bid1 fe =? bid2 e) && (dir1 fe =? dir2 e) then
        if bid1 fe =? 0 then mkOutcome FAIL le e mapUsed
        else if (bid2 be =? bid1 e) && (dir2 be =? dir1 e) then
          mkOutcome CYCLE le e mapUsed
        else
          mkOutcome SUCCESS (e :: le) e
            (markOut e (mark (- bid1 fe) (mark (bid1 fe) mapUsed)))
      else if (bid2 be =? bid1 e) && (dir2 be =? dir1 e) then
        if bid2 be =? 0 then mkOutcome FAIL le e mapUsed
        else if (bid1 fe =? bid2 e) && (dir1 fe =? dir2 e) then
          mkOutcome CYCLE le e mapUsed
        else
          mkOutcome SUCCESS (le ++ [e]) e
            (markIn e (mark (- bid2 be) (mark (bid2 be) mapUsed)))
      else if (bid2 be =? bid2 e) && negb (dir2 be =? dir2 e) then
        if (bid1 fe =? bid1 e) && negb (dir1 fe =? dir1 e) then
          mkOutcome CYCLE le e mapUsed
        else
          let e' := reverse e in
          mkOutcome SUCCESS (le ++ [e']) e'
            (markIn e' (mark (- bid2 be) (mark (bid2 be) mapUsed)))
      else mkOutcome FAIL le e mapUsed)
  | _, _ => None
  end.

(** ** [std::map<int, list<Edge>>] as a key-sorted association list *)

Definition classes := list (Z * list Edge).

(** [mapClasses.find(j)] *)
Fixpoint find (j : Z) (m : classes) : option (list Edge) :=
  match m with
  | [] => None
  | (k, le) :: m' => if k =? j then Some le else find j m'
  end.

(** [mapClasses.erase(j)] *)
Fixpoint erase (j : Z) (m : classes) : classes :=
  match m with
  | [] => []
  | (k, le) :: m' => if k =? j then m' else (k, le) :: erase j m'
  end.

(** [mapClasses[j] = le]: overwrite the entry of key [j], or insert it at
    its place in key order. *)
Fixpoint assign (j : Z) (le : list Edge) (m : classes) : classes :=
  match m with
  | [] => [(j, le)]
  | (k, le') :: m' =>
      if k =? j then (j, le) :: m'
      else if j <? k then (j, le) :: (k, le') :: m'
      else (k, le') :: assign j le m'
  end.

(** ** [mergeLists] *)

(** The four splice loops of [mergeLists]. *)
Definition spliceFrontReversed (le1 le2 : list Edge) : list Edge :=
  fold_left (fun acc e2 => reverse e2 :: acc) le2 le1.
Definition spliceFront (le1 le2 : list Edge) : list Edge :=
  fold_left (fun acc e2 => e2 :: acc) (rev le2) le1.
Definition spliceBack (le1 le2 : list Edge) : list Edge :=
  fold_left (fun acc e2 => acc ++ [e2]) le2 le1.
Definition spliceBackReversed (le1 le2 : list Edge) : list Edge :=
  fold_left (fun acc e2 => acc ++ [reverse e2]) (rev le2) le1.

(** The body of the [for j] loop once [le2] has been found: the new [le1]
    and whether [mapClasses.erase(j)] was executed. *)
Definition mergePair (le1 le2 : list Edge) : option (list Edge * bool) :=
  match head le1, last le1, head le2, last le2 with
  | Some e1front, Some e1back, Some e2front, Some e2back =>
    Some (
      if (bid1 e1front =? bid1 e2front) && negb (dir1 e1front =? dir1 e2front) then
        if (bid2 e1back =? 0) || (bid2 e2back =? 0)
           || negb (bid2 e1back =? bid2 e2back)
        then (spliceFrontReversed le1 le2, true) else (le1, false)
      else if (bid1 e1front =? bid2 e2back) && (dir1 e1front =? dir2 e2back) then
        if negb (bid1 e1front =? 0) &&
           ((bid2 e1back =? 0) || (bid1 e2front =? 0)
            || negb (bid2 e1back =? bid1 e2front))
        then (spliceFront le1 le2, true) else (le1, false)
      else if (bid2 e1back =? bid1 e2front) && (dir2 e1back =? dir1 e2front) then
        if negb (bid2 e1back =? 0) &&
           ((bid1 e1front =? 0) || (bid2 e2back =? 0)
            || negb (bid1 e1front =? bid2 e2back))
        then (spliceBack le1 le2, true) else (le1, false)
      else if (bid2 e1back =? bid2 e2back) && negb (dir2 e1back =? dir2 e2back) then
        if (bid1 e1front =? 0) || (bid1 e2front =? 0)
           || negb (bid1 e1front =? bid1 e2front)
        then (spliceBackReversed le1 le2, true) else (le1, false)
      else (le1, false))
  | _, _, _, _ => None
  end.

(** One iteration of [for (int j = 1; j <= clscnt; j++)].  [le1] is the
    chain of class [clsid], held by reference; the other classes are read
    from and erased in [m]. *)
Definition mergeIter (clsid : Z) (acc : option (list Edge * classes)) (j : Z)
  : option (list Edge * classes) :=
  match acc with
  | None => None
  | Some (le1, m) =>
      if j =? clsid then Some (le1, m)
      else match find j m with
           | None => Some (le1, m)
           | Some le2 =>
               match mergePair le1 le2 with
               | None => None
               | Some (le1', true) => Some (le1', erase j m)
               | Some (le1', false) => Some (le1', m)
               end
           end
  end.

(** The integers [1, 2, ..., n]. *)
Definition upto (n : Z) : list Z :=
  List.map Z.of_nat (seq 1 (Z.to_nat n)).

(** [void mergeLists(int clscnt, int clsid, list<Edge>& le,
                     map<int, list<Edge>>& mapClasses)] *)
Definition mergeLists (clscnt clsid : Z) (le : list Edge) (m : classes)
  : option (list Edge * classes) :=
  fold_left (mergeIter clsid) (upto clscnt) (Some (le, m)).

(** ** The greedy loop of [main] *)

Record state := mkState {
  mapClasses : classes; clscnt : Z; mapUsed : gmap Z Z
}.

Definition initState : state := mkState [] 0 ∅.

(** The registry key of the end an edge leaves its first block by, and of
    the end it enters its second block by. *)
Definition keyOut (e : Edge) : Z := if dir1 e =? 1 then - bid1 e else bid1 e.
Definition keyIn (e : Edge) : Z := if dir2 e =? 1 then bid2 e else - bid2 e.

(** The loop over [mapClasses] in key order: the first class on which
    [insertEdge] does not return [FAIL], with the outcome; [e] and
    [mapUsed] are threaded through the failed attempts. *)
Fixpoint scan (cs : classes) (e : Edge) (u : gmap Z Z)
  : option (option (Z * outcome) * Edge * gmap Z Z) :=
  match cs with
  | [] => Some (None, e, u)
  | (k, le) :: cs' =>
      match insertEdge le e u with
      | None => None
      | Some o =>
          match res o with
          | FAIL => scan cs' (edge o) (used o)
          | _ => Some (Some (k, o), edge o, used o)
          end
      end
  end.

(** Replace the chain stored under [k] (the write through the reference
    [le] into the map entry). *)
Fixpoint store (k : Z) (le : list Edge) (m : classes) : classes :=
  match m with
  | [] => []
  | (k', le') :: m' =>
      if k' =? k then (k', le) :: m' else (k', le') :: store k le m'
  end.

(** The part of the loop body after the weight and the score of [e] have
    been filled in and the threshold test has passed. *)
Definition place (st : state) (e : Edge) : option state :=
  if negb (bid1 e =? 0) && isUsed (keyOut e) (mapUsed st) then Some st
  else if negb (bid2 e =? 0) && isUsed (keyIn e) (mapUsed st) then Some st
  else
    match scan (mapClasses st) e (mapUsed st) with
    | None => None
    | Some (Some (k, o), _, u) =>
        match res o with
        | SUCCESS =>
            match mergeLists (clscnt st) k (chain o)
                             (store k (chain o) (mapClasses st)) with
            | None => None
            | Some (le', m') => Some (mkState (store k le' m') (clscnt st) u)
            end
        | _ => Some (mkState (mapClasses st) (clscnt st) u)
        end
    | Some (None, e', u) =>
        let n := clscnt st + 1 in
        let u := if negb (bid1 e' =? 0) then markOut e' u else u in
        let u := if negb (bid2 e' =? 0) then markIn e' u else u in
        Some (mkState (assign n [e'] (mapClasses st)) n u)
    end.

(** ** [std::map<Edge, double>] and the preparation of the edge vector *)

(** [bool Edge::operator<(const Edge& p) const] *)
Definition Edge_lt (e p : Edge) : bool :=
  if (bid1 e =? bid1 p) && (dir1 e =? dir1 p) && (bid2 e =? bid2 p)
  then dir2 e <? dir2 p
  else if (bid1 e =? bid1 p) && (dir1 e =? dir1 p) then bid2 e <? bid2 p
  else if bid1 e =? bid1 p then dir1 e <? dir1 p
  else bid1 e <? bid1 p.

(** A map keyed by [Edge] is kept as a list sorted by [Edge_lt]. *)
Definition emap := list (Edge * Q).

(** [m.find(e)]: the entry whose key is equivalent to [e]. *)
Fixpoint efind (e : Edge) (m : emap) : option Q :=
  match m with
  | [] => None
  | (k, v) :: m' =>
      if negb (Edge_lt k e) && negb (Edge_lt e k) then Some v else efind e m'
  end.

(** [m[e] = v] *)
Fixpoint eset (e : Edge) (v : Q) (m : emap) : emap :=
  match m with
  | [] => [(e, v)]
  | (k, w) :: m' =>
      if Edge_lt e k then (e, v) :: (k, w) :: m'
      else if Edge_lt k e then (k, w) :: eset e v m'
      else (k, v) :: m'
  end.

(** [a < b] on scores. *)
Definition Qltb (a b : Q) : bool := negb (Qle_bool b a).

(** One line [bid1 bid2 adjscore] of the conservation score file. *)
Definition readLine (acc : emap * Z) (line : Z * Z * Q) : emap * Z :=
  let '(mapAdjScores, numblocks) := acc in
  let '(b1, b2, adjscore) := line in
  let bindex1 := Z.abs b1 in
  let bindex2 := Z.abs b2 in
  let intdir1 := if b1 <? 0 then -1 else 1 in
  let intdir2 := if b2 <? 0 then -1 else 1 in
  let bpf := newEdge bindex1 intdir1 bindex2 intdir2 in
  let bpr := newEdge bindex2 (- intdir2) bindex1 (- intdir1) in
  let mapAdjScores := eset bpr adjscore (eset bpf adjscore mapAdjScores) in
  let numblocks := if Z.abs b1 >? numblocks then Z.abs b1 else numblocks in
  let numblocks := if Z.abs b2 >? numblocks then Z.abs b2 else numblocks in
  (mapAdjScores, numblocks).

Definition readScores (lines : list (Z * Z * Q)) : emap * Z :=
  fold_left readLine lines ([], 0).

(** [double compute_weight(bid1, dir1, bid2, dir2, mapscore1)] *)
Definition compute_weight (b1 d1 b2 d2 : Z) (mapscore1 : emap) : Q :=
  match efind (newEdge b1 d1 b2 d2) mapscore1 with
  | Some v => v
  | None => 0%Q
  end.

(** [weight = compute_weight(i,d1,j,d2,...);
     if (weight > 0.0) mapWeights[Edge(i,d1,j,d2)] = weight;] *)
Definition addWeight (scores : emap) (i j : Z) (mapWeights : emap)
    (d : Z * Z) : emap :=
  let w := compute_weight i (fst d) j (snd d) scores in
  if Qltb 0 w then eset (newEdge i (fst d) j (snd d)) w mapWeights
  else mapWeights.

(** The integers [0, 1, ..., n]. *)
Definition from0 (n : Z) : list Z :=
  List.map Z.of_nat (seq 0 (Z.to_nat (n + 1))).

(** The double loop computing [mapWeights]. *)
Definition computeWeights (numblocks : Z) (scores : emap) : emap :=
  fold_left (fun mw i =>
    fold_left (fun mw j =>
      if i =? j then mw
      else fold_left (addWeight scores i j)
             [(1, 1); (1, -1); (-1, 1); (-1, -1)] mw)
      (from0 numblocks) mw)
    (from0 numblocks) [].

(** [bool cmp(const pair<Edge,double>& p1, const pair<Edge,double>& p2)] *)
Definition cmp (p1 p2 : Edge * Q) : bool := Qltb (snd p2) (snd p1).

(** The head of the loop body: copy the pair, fill in weight and score,
    test the threshold. *)
Definition loadEdge (scores : emap) (p : Edge * Q) : Edge :=
  let e := fst p in
  let e := mkEdge (bid1 e) (dir1 e) (bid2 e) (dir2 e)
                  (score1 e) (score2 e) (snd p) in
  match efind e scores with
  | Some v => mkEdge (bid1 e) (dir1 e) (bid2 e) (dir2 e) v (score2 e) (weight e)
  | None => e
  end.

Definition body (gMIN_WEIGHT : Q) (scores : emap) (acc : option state)
    (p : Edge * Q) : option state :=
  match acc with
  | None => None
  | Some st =>
      let e := loadEdge scores p in
      if Qltb (weight e) gMIN_WEIGHT then Some st else place st e
  end.

(** [for (int i = 0; i < vecEdges.size(); i++) { ... }] *)
Definition greedy (gMIN_WEIGHT : Q) (scores : emap)
    (vecEdges : list (Edge * Q)) : option state :=
  fold_left (body gMIN_WEIGHT scores) vecEdges (Some initState).

Section Main.
  (** [std::sort(first, last, cmp)] belongs to the C++ library.  It is
      taken as a parameter here; [sort_contract] states what the library
      promises about it. *)
  Variable sort : list (Edge * Q) -> list (Edge * Q).

  (** [main], from the parsed lines of the score file to the final chains. *)
Definition main (gMIN_WEIGHT : Q) (lines : list (Z * Z * Q)) : option state :=
    let '(mapAdjScores, numblocks) := readScores lines in
    let mapWeights := computeWeights numblocks mapAdjScores in
    let vecEdges := sort mapWeights in
    greedy gMIN_WEIGHT mapAdjScores vecEdges.
End Main.

(** What the C++ standard guarantees of [std::sort] with comparator [cmp]:
    the result is a rearrangement of the input in which no element
    compares before an earlier one.  The relative order of elements that
    compare equivalent is not specified. *)
Definition sort_contract (sort : list (Edge * Q) -> list (Edge * Q)) : Prop :=
  forall l, Permutation (sort l) l /\
            StronglySorted (fun p q => cmp q p = false) (sort l).

(** A stable insertion sort, one admissible behaviour of [std::sort]. *)
Fixpoint insertSorted (p : Edge * Q) (l : list (Edge * Q)) : list (Edge * Q) :=
  match l with
  | [] => [p]
  | q :: l' => if cmp q p then q :: insertSorted p l' else p :: q :: l'
  end.
Definition stableSort (l : list (Edge * Q)) : list (Edge * Q) :=
  fold_right insertSorted [] l.

(** Another admissible behaviour: an insertion sort that places an
    element after the elements it ties with. *)
Fixpoint insertAfterTies (p : Edge * Q) (l : list (Edge * Q)) : list (Edge * Q) :=
  match l with
  | [] => [p]
  | q :: l' => if cmp p q then p :: q :: l' else q :: insertAfterTies p l'
  end.
Definition tiesReversedSort (l : list (Edge * Q)) : list (Edge * Q) :=
  fold_right insertAfterTies [] l.

(** The edges that pass the threshold test of the loop. *)
Definition aboveThreshold (gMIN_WEIGHT : Q) (l : list (Edge * Q)) : list (Edge * Q) :=
  List.filter (fun p => negb (Qltb (snd p) gMIN_WEIGHT)) l.

(** The contigs written by [printLists]: for each class, the signed block
    ids of the chain with the sentinel left out. *)
Fixpoint contig (le : list Edge) : list Z :=
  match le with
  | [] => []
  | [e] =>
      (if bid1 e =? 0 then [] else [bid1 e * dir1 e]) ++
      (if bid2 e =? 0 then [] else [bid2 e * dir2 e])
  | e :: le' => (if bid1 e =? 0 then [] else [bid1 e * dir1 e]) ++ contig le'
  end.

Definition contigs (st : state) : list (list Z) :=
  List.map (fun c => contig (snd c)) (mapClasses st).

End Assembler.

(* ===================================================================== *)
(** * Stage 2: vocabulary for the assembler's invariants *)
(* ===================================================================== *)

Module ChainSpec.
Import Assembler.

(** Orientations are [+1] or [-1]. *)
Definition okDir (d : Z) : Prop := d = 1 \/ d = -1.

(** The edges [main] builds: orientations are signs, block ids are
    absolute values, and the double loop skips [i == j]. *)
Definition okEdge (e : Edge) : Prop :=
  okDir (dir1 e) /\ okDir (dir2 e) /\
  0 <= bid1 e /\ 0 <= bid2 e /\ bid1 e <> bid2 e.

(** The element-ends an edge consumes, as registry keys. *)
Definition edgeKeys (e : Edge) : list Z := [keyOut e; keyIn e].
Definition chainKeys (le : list Edge) : list Z := flat_map edgeKeys le.
Definition allKeys (chains : list (list Edge)) : list Z :=
  flat_map chainKeys chains.

(** Keys of the sentinel block [0] are left out of the registry. *)
Definition nonzero (l : list Z) : list Z :=
  List.filter (fun k => negb (k =? 0)) l.

(** The second end of each edge is the first end of the next one. *)
Fixpoint linked (le : list Edge) : Prop :=
  match le with
  | e1 :: ((e2 :: _) as rest) =>
      bid2 e1 = bid1 e2 /\ dir2 e1 = dir1 e2 /\ linked rest
  | _ => True
  end.

(** The block sequence of a chain. *)
Definition blocks (le : list Edge) : list Z :=
  match le with
  | [] => []
  | e :: _ => bid1 e :: List.map bid2 le
  end.

(** The two open ends of a chain are different blocks, unless the block
    is the sentinel. *)
Definition openEnds (le : list Edge) : Prop :=
  forall fe be, head le = Some fe -> last le = Some be ->
                bid1 fe = bid2 be -> bid1 fe = 0.

(** A chain is an open path when no block other than the sentinel occurs
    twice in its block sequence. *)
Definition openPath (le : list Edge) : Prop := List.NoDup (nonzero (blocks le)).

(** Block [0] stands at a junction between two consecutive edges. *)
Fixpoint sentinelInside (le : list Edge) : bool :=
  match le with
  | e1 :: ((_ :: _) as rest) => (bid2 e1 =? 0) || sentinelInside rest
  | _ => false
  end.

(** Edge [e], read forwards, leads from the back of the chain to its
    front with matching orientations. *)
Definition closesForward (le : list Edge) (e : Edge) : Prop :=
  exists fe be, head le = Some fe /\ last le = Some be /\
    bid2 be = bid1 e /\ dir2 be = dir1 e /\
    bid2 e = bid1 fe /\ dir2 e = dir1 fe.

(** Inserting [e], in one of its two readings, would close the chain into
    a cycle through two non-sentinel blocks. *)
Definition closes (le : list Edge) (e : Edge) : Prop :=
  bid1 e <> 0 /\ bid2 e <> 0 /\
  (closesForward le e \/ closesForward le (reverse e)).

Definition goodChain (le : list Edge) : Prop :=
  le <> [] /\ Forall okEdge le /\ linked le /\ openEnds le.

Definition registered (chains : list (list Edge)) (u : gmap Z Z) : Prop :=
  forall k, In k (allKeys chains) -> k <> 0 -> isUsed k u = true.

Definition Good (chains : list (list Edge)) (u : gmap Z Z) : Prop :=
  Forall goodChain chains /\ List.NoDup (nonzero (allKeys chains)) /\
  registered chains u.

(** The invariant of the greedy loop. *)
Definition Inv (st : state) : Prop :=
  List.NoDup (List.map fst (mapClasses st)) /\
  (forall k, In k (List.map fst (mapClasses st)) -> k <= clscnt st) /\
  Good (List.map snd (mapClasses st)) (mapUsed st).

End ChainSpec.

(* ===================================================================== *)
(** * Properties of the canonical index space *)
(* ===================================================================== *)

Module IndexFacts.
Import Index.

(** Largest value of a C [int]. *)
Definition INT_MAX : Z := 2147483647.

Lemma map_range T i :
  0 <= T -> 0 <= i <= Zhi T -> 0 <= map T i <= Zhi T.
Proof.
  unfold map, Zhi, A. intros HT Hi.
  repeat (case_match; try lia).
Qed.

Lemma map_map T i :
  0 <= T -> 0 <= i <= Zhi T -> map T (map T i) = i.
Proof.
  unfold map, Zhi, A. intros HT Hi.
  repeat (case_match; try lia).
Qed.

(** C9. The index folding [map] is an involution on the canonical space
    [0..Z] (with [Z = 2T+1] representable as an [int]), and for every
    element [e] in [1..T] the fold of [e] and the fold of its sign-flipped
    reverse [-e] both lie in the non-sentinel range [1..2T] and differ by
    exactly [T]. *)
Theorem map_involution_and_fold_offset (T : Z) :
  0 <= T -> Zhi T <= INT_MAX ->
  (forall i, 0 <= i <= Zhi T ->
     0 <= map T i <= Zhi T /\ map T (map T i) = i) /\
  (forall e, 1 <= e <= T ->
     fold T (- e) - fold T e = T /\
     1 <= fold T e <= 2 * T /\ 1 <= fold T (- e) <= 2 * T /\
     fold T (- e) = map T (fold T e) /\ fold T e = map T (fold T (- e))).
Proof.
  intros HT _. split.
  - intros i Hi. split; [apply map_range | apply map_map]; assumption.
  - intros e He. unfold fold, map, Zhi, A.
    repeat (case_match; try lia).
Qed.

Lemma map_involution_and_fold_offset_witness :
  map 3 (map 3 5) = 5 /\ fold 3 (- 2) - fold 3 2 = 3.
Proof.
  assert (H0 : 0 <= 3) by lia.
  assert (H1 : Zhi 3 <= INT_MAX) by (unfold Zhi, INT_MAX; lia).
  destruct (map_involution_and_fold_offset 3 H0 H1) as [Hm Hf].
  split.
  - apply (Hm 5). unfold Zhi. lia.
  - apply (Hf 2). lia.
Defined.

End IndexFacts.


(* ===================================================================== *)
(** * Properties of the chain assembler *)
(* ===================================================================== *)

Module AssemblerFacts.
Import Assembler ChainSpec.

(** ** Edge reversal *)

Lemma flip_okDir d : okDir (flip d).
Proof. unfold flip, okDir. case_match; auto. Qed.

Lemma flip_ne d d' : okDir d -> okDir d' -> d <> d' -> flip d' = d.
Proof. unfold flip, okDir. intros [->| ->] [->| ->]; simpl; congruence. Qed.

Lemma reverse_okEdge e : okEdge e -> okEdge (reverse e).
Proof.
  unfold okEdge, reverse; simpl. intros (?&?&?&?&?).
  repeat split; auto using flip_okDir.
Qed.

Lemma keyOut_reverse e : keyOut (reverse e) = keyIn e.
Proof.
  unfold keyOut, keyIn, reverse, flip; simpl.
  destruct (dir2 e =? 1) eqn:E; simpl; lia.
Qed.

Lemma keyIn_reverse e : keyIn (reverse e) = keyOut e.
Proof.
  unfold keyOut, keyIn, reverse, flip; simpl.
  destruct (dir1 e =? 1) eqn:E; simpl; lia.
Qed.

Lemma edgeKeys_reverse e : Permutation (edgeKeys (reverse e)) (edgeKeys e).
Proof.
  unfold edgeKeys. rewrite keyOut_reverse, keyIn_reverse. apply perm_swap.
Qed.

(** ** The splice loops in closed form *)

Lemma spliceFrontReversed_eq le1 le2 :
  spliceFrontReversed le1 le2 = rev (List.map reverse le2) ++ le1.
Proof.
  unfold spliceFrontReversed. revert le1.
  induction le2 as [|e le2 IH]; intros le1; simpl; [reflexivity|].
  rewrite IH, <- app_assoc. reflexivity.
Qed.

Lemma spliceFront_eq le1 le2 : spliceFront le1 le2 = le2 ++ le1.
Proof.
  unfold spliceFront. rewrite <- (rev_involutive le2) at 2.
  generalize (rev le2) as l. intros l. revert le1.
  induction l as [|e l IH]; intros le1; simpl; [reflexivity|].
  rewrite IH, <- app_assoc. reflexivity.
Qed.

Lemma spliceBack_eq le1 le2 : spliceBack le1 le2 = le1 ++ le2.
Proof.
  unfold spliceBack. revert le1.
  induction le2 as [|e le2 IH]; intros le1; simpl.
  - now rewrite app_nil_r.
  - rewrite IH, <- app_assoc. reflexivity.
Qed.

Lemma spliceBackReversed_eq le1 le2 :
  spliceBackReversed le1 le2 = le1 ++ List.map reverse (rev le2).
Proof.
  unfold spliceBackReversed. generalize (rev le2) as l. intros l. revert le1.
  induction l as [|e l IH]; intros le1; simpl.
  - now rewrite app_nil_r.
  - rewrite IH, <- app_assoc. reflexivity.
Qed.

(** ** Keys of chains *)

Lemma chainKeys_app l1 l2 : chainKeys (l1 ++ l2) = chainKeys l1 ++ chainKeys l2.
Proof. unfold chainKeys. apply flat_map_app. Qed.

Lemma chainKeys_map_reverse le :
  Permutation (chainKeys (List.map reverse le)) (chainKeys le).
Proof.
  induction le as [|e le IH]; simpl; [constructor|].
  change (Permutation (edgeKeys (reverse e) ++ chainKeys (List.map reverse le))
                      (edgeKeys e ++ chainKeys le)).
  apply Permutation_app; [apply edgeKeys_reverse | exact IH].
Qed.

Lemma chainKeys_perm l1 l2 :
  Permutation l1 l2 -> Permutation (chainKeys l1) (chainKeys l2).
Proof. unfold chainKeys. apply Permutation_flat_map. Qed.

Lemma nonzero_perm l1 l2 :
  Permutation l1 l2 -> Permutation (nonzero l1) (nonzero l2).
Proof.
  unfold nonzero. induction 1; simpl.
  - constructor.
  - destruct (negb (x =? 0)); [constructor|]; assumption.
  - destruct (negb (x =? 0)), (negb (y =? 0)); try constructor;
      apply Permutation_refl.
  - eapply perm_trans; eassumption.
Qed.

Lemma nonzero_app l1 l2 : nonzero (l1 ++ l2) = nonzero l1 ++ nonzero l2.
Proof. unfold nonzero. apply List.filter_app. Qed.

Lemma in_nonzero k l : In k (nonzero l) <-> In k l /\ k <> 0.
Proof.
  unfold nonzero. rewrite List.filter_In.
  destruct (Z.eqb_spec k 0); simpl; intuition congruence.
Qed.

(** ** Fronts and backs *)

Lemma head_rev (l : list Edge) : head (rev l) = last l.
Proof.
  induction l as [|x l IH]; simpl; [reflexivity|].
  destruct l as [|y l]; [reflexivity|].
  rewrite last_cons_cons, <- IH. simpl.
  destruct (rev l ++ [y]) eqn:E; [|reflexivity].
  destruct (rev l); discriminate.
Qed.

Lemma last_rev (l : list Edge) : last (rev l) = head l.
Proof. rewrite <- head_rev, rev_involutive. reflexivity. Qed.

Lemma head_map_reverse (l : list Edge) :
  head (List.map reverse l) = option_map reverse (head l).
Proof. destruct l; reflexivity. Qed.

Lemma last_map_reverse (l : list Edge) :
  last (List.map reverse l) = option_map reverse (last l).
Proof.
  induction l as [|x l IH]; [reflexivity|].
  destruct l as [|y l]; [reflexivity|].
  change (List.map reverse (x :: y :: l))
    with (reverse x :: reverse y :: List.map reverse l).
  rewrite !last_cons_cons. exact IH.
Qed.

Lemma head_app_ne (l1 l2 : list Edge) : l1 <> [] -> head (l1 ++ l2) = head l1.
Proof. destruct l1; [congruence | reflexivity]. Qed.

Lemma last_app_ne (l1 l2 : list Edge) : l2 <> [] -> last (l1 ++ l2) = last l2.
Proof.
  intros H. rewrite last_app. destruct (last l2) eqn:E; [reflexivity|].
  apply last_None in E. contradiction.
Qed.

Lemma nonempty_ends (l : list Edge) :
  l <> [] -> exists fe be, head l = Some fe /\ last l = Some be.
Proof.
  intros H. destruct (head l) as [fe|] eqn:Eh.
  - destruct (last l) as [be|] eqn:El; [eauto|].
    apply last_None in El. contradiction.
  - apply head_None in Eh. contradiction.
Qed.

Lemma head_In (l : list Edge) x : head l = Some x -> In x l.
Proof. destruct l; simpl; [discriminate|]. intros [= ->]. now left. Qed.

Lemma last_In (l : list Edge) x : last l = Some x -> In x l.
Proof.
  intros H. apply last_Some in H as [l' ->]. apply in_or_app. right. now left.
Qed.

(** ** Linked chains *)

Definition joint (a b : Edge) : Prop := bid2 a = bid1 b /\ dir2 a = dir1 b.

Lemma linked_cons e l :
  linked (e :: l) <-> linked l /\ (forall b, head l = Some b -> joint e b).
Proof.
  destruct l as [|b l]; simpl.
  - split; [intros _; split; [exact I | discriminate] | intros _; exact I].
  - unfold joint. split.
    + intros (H1 & H2 & H3). split; [assumption|]. intros ? [= <-]. auto.
    + intros [H1 H2]. destruct (H2 b eq_refl). auto.
Qed.

Lemma linked_app l1 l2 :
  linked (l1 ++ l2) <->
  linked l1 /\ linked l2 /\
  (forall a b, last l1 = Some a -> head l2 = Some b -> joint a b).
Proof.
  induction l1 as [|x l1 IH].
  - simpl. split; [intros H; repeat split; auto; discriminate | tauto].
  - change ((x :: l1) ++ l2) with (x :: (l1 ++ l2)).
    rewrite !linked_cons, IH. destruct l1 as [|y l1].
    + simpl. split.
      * intros ((_ & H2 & _) & H4). split; [split; [exact I|discriminate]|].
        split; [exact H2|]. intros a' b' [= <-] Hb. auto.
      * intros ((_ & _) & H2 & H3). split; [|intros b' Hb; apply H3; auto].
        split; [exact I|]. split; [exact H2|]. discriminate.
    + change (head ((y :: l1) ++ l2)) with (Some y).
      change (head (y :: l1)) with (Some y).
      rewrite last_cons_cons. tauto.
Qed.

Lemma linked_rev_reverse l : linked l -> linked (rev (List.map reverse l)).
Proof.
  induction l as [|e l IH]; intros H; [exact I|].
  apply linked_cons in H as [Hl Hj]. simpl.
  apply linked_app. split; [auto|]. split; [exact I|].
  intros a b Ha [= <-]. rewrite last_rev, head_map_reverse in Ha.
  destruct (head l) as [h|]; [|discriminate]. injection Ha as <-.
  destruct (Hj h eq_refl) as [H1 H2]. unfold joint, reverse; simpl.
  split; congruence.
Qed.

Lemma okEdge_map_reverse l :
  Forall okEdge l -> Forall okEdge (List.map reverse l).
Proof.
  intros H. apply List.Forall_map.
  eapply List.Forall_impl; [|exact H]. apply reverse_okEdge.
Qed.

(** ** Gluing two chains *)

(** A chain traversed backwards: [rev (map reverse le)]. *)
Definition revChain (le : list Edge) : list Edge := rev (List.map reverse le).

Lemma revChain_nonempty le : le <> [] -> revChain le <> [].
Proof.
  unfold revChain. destruct le as [|e le]; [congruence|]. simpl.
  intros _ H. destruct (rev (List.map reverse le)); discriminate.
Qed.

Lemma head_revChain le : head (revChain le) = option_map reverse (last le).
Proof. unfold revChain. rewrite head_rev. apply last_map_reverse. Qed.

Lemma last_revChain le : last (revChain le) = option_map reverse (head le).
Proof. unfold revChain. rewrite last_rev. apply head_map_reverse. Qed.

Lemma okEdge_revChain le : Forall okEdge le -> Forall okEdge (revChain le).
Proof. intros H. apply List.Forall_rev, okEdge_map_reverse, H. Qed.

Lemma chainKeys_revChain le : Permutation (chainKeys (revChain le)) (chainKeys le).
Proof.
  unfold revChain. eapply perm_trans; [|apply chainKeys_map_reverse].
  apply chainKeys_perm. symmetry. apply Permutation_rev.
Qed.

Lemma revChain_alt le : List.map reverse (rev le) = revChain le.
Proof. unfold revChain. apply List.map_rev. Qed.

Lemma goodChain_app l1 l2 :
  l1 <> [] -> l2 <> [] -> Forall okEdge l1 -> Forall okEdge l2 ->
  linked l1 -> linked l2 ->
  (forall a b, last l1 = Some a -> head l2 = Some b -> joint a b) ->
  (forall f b, head l1 = Some f -> last l2 = Some b ->
               bid1 f = bid2 b -> bid1 f = 0) ->
  goodChain (l1 ++ l2).
Proof.
  intros N1 N2 O1 O2 L1 L2 J E. unfold goodChain. split; [|split; [|split]].
  - destruct l1; [congruence | discriminate].
  - apply List.Forall_app. split; assumption.
  - apply linked_app. auto.
  - intros fe be Hf Hb. rewrite head_app_ne in Hf by assumption.
    rewrite last_app_ne in Hb by assumption. eauto.
Qed.

Lemma allKeys_cons le cs : allKeys (le :: cs) = chainKeys le ++ allKeys cs.
Proof. reflexivity. Qed.

Lemma Good_perm cs cs' u : Permutation cs cs' -> Good cs u -> Good cs' u.
Proof.
  intros P (G & D & R). unfold Good. split; [|split].
  - eapply Permutation_Forall; eassumption.
  - eapply Permutation_NoDup; [|exact D].
    apply nonzero_perm. unfold allKeys. apply Permutation_flat_map, P.
  - intros k Hk. apply R. eapply Permutation_in; [|exact Hk].
    unfold allKeys. apply Permutation_flat_map. symmetry. exact P.
Qed.

Lemma Good_merge le1 le2 le' rest u :
  Good (le1 :: le2 :: rest) u -> goodChain le' ->
  Permutation (chainKeys le') (chainKeys le1 ++ chainKeys le2) ->
  Good (le' :: rest) u.
Proof.
  intros (G & D & R) G' P.
  assert (P' : Permutation (allKeys (le' :: rest)) (allKeys (le1 :: le2 :: rest))).
  { rewrite !allKeys_cons, app_assoc. apply Permutation_app_tail, P. }
  unfold Good. split; [|split].
  - constructor; [assumption|]. inversion G as [|? ? _ G2]; subst.
    inversion G2; subst. assumption.
  - eapply Permutation_NoDup; [|exact D]. apply nonzero_perm. symmetry. exact P'.
  - intros k Hk. apply R. eapply Permutation_in; [exact P' | exact Hk].
Qed.

(** ** [mergePair] keeps the chains good *)

Ltac bool_to_prop :=
  repeat match goal with
  | H : _ && _ = true |- _ => apply andb_true_iff in H as [? ?]
  | H : _ || _ = true |- _ => apply orb_true_iff in H
  | H : negb _ = true |- _ => apply negb_true_iff in H
  | H : (_ =? _) = true |- _ => apply Z.eqb_eq in H
  | H : (_ =? _) = false |- _ => apply Z.eqb_neq in H
  end.

Lemma okEdge_head le e : Forall okEdge le -> head le = Some e -> okEdge e.
Proof. intros H He. eapply List.Forall_forall; [exact H | apply head_In, He]. Qed.

Lemma okEdge_last le e : Forall okEdge le -> last le = Some e -> okEdge e.
Proof. intros H He. eapply List.Forall_forall; [exact H | apply last_In, He]. Qed.

Lemma mergePair_Good le1 le2 rest u :
  Good (le1 :: le2 :: rest) u ->
  exists le1' b, mergePair le1 le2 = Some (le1', b) /\
                 (if b then Good (le1' :: rest) u else le1' = le1).
Proof.
  intros HG. pose proof HG as (G & _ & _).
  inversion G as [|? ? G1 G']; subst. inversion G' as [|? ? G2 _]; subst.
  destruct G1 as (N1 & O1 & L1 & E1). destruct G2 as (N2 & O2 & L2 & E2).
  destruct (nonempty_ends le1 N1) as (f1 & b1 & Hf1 & Hb1).
  destruct (nonempty_ends le2 N2) as (f2 & b2 & Hf2 & Hb2).
  pose proof (okEdge_head _ _ O1 Hf1) as (Df1 & _).
  pose proof (okEdge_last _ _ O1 Hb1) as (_ & Db1 & _).
  pose proof (okEdge_head _ _ O2 Hf2) as (Df2 & _).
  pose proof (okEdge_last _ _ O2 Hb2) as (_ & Db2 & _).
  unfold mergePair. rewrite Hf1, Hb1, Hf2, Hb2.
  destruct ((bid1 f1 =? bid1 f2) && negb (dir1 f1 =? dir1 f2)) eqn:C1.
  { destruct ((bid2 b1 =? 0) || (bid2 b2 =? 0) || negb (bid2 b1 =? bid2 b2)) eqn:K;
      [|exists le1, false; auto].
    exists (spliceFrontReversed le1 le2), true. split; [reflexivity|].
    rewrite spliceFrontReversed_eq. fold (revChain le2).
    eapply Good_merge; [exact HG| |].
    - apply goodChain_app; auto using revChain_nonempty, okEdge_revChain.
      + apply linked_rev_reverse, L2.
      + intros a b. rewrite last_revChain, Hf2, Hf1. simpl.
        intros [= <-] [= <-]. bool_to_prop. unfold joint; simpl. split; [lia|].
        apply flip_ne; auto.
      + intros f b. rewrite head_revChain, Hb2, Hb1. simpl.
        intros [= <-] [= <-]. simpl. intros Heq.
        destruct (Z.eqb_spec (bid2 b1) 0), (Z.eqb_spec (bid2 b2) 0),
          (Z.eqb_spec (bid2 b1) (bid2 b2)); simpl in K; try lia; discriminate.
    - rewrite chainKeys_app. eapply perm_trans; [apply Permutation_app_comm|].
      apply Permutation_app_head, chainKeys_revChain. }
  destruct ((bid1 f1 =? bid2 b2) && (dir1 f1 =? dir2 b2)) eqn:C2.
  { destruct (negb (bid1 f1 =? 0) &&
              ((bid2 b1 =? 0) || (bid1 f2 =? 0) || negb (bid2 b1 =? bid1 f2))) eqn:K;
      [|exists le1, false; auto].
    exists (spliceFront le1 le2), true. split; [reflexivity|].
    rewrite spliceFront_eq.
    eapply Good_merge; [exact HG| |].
    - apply goodChain_app; auto.
      + intros a b. rewrite Hb2, Hf1. intros [= <-] [= <-].
        bool_to_prop. unfold joint. split; lia.
      + intros f b. rewrite Hf2, Hb1. intros [= <-] [= <-] Heq.
        destruct (Z.eqb_spec (bid1 f1) 0), (Z.eqb_spec (bid2 b1) 0),
          (Z.eqb_spec (bid1 f2) 0), (Z.eqb_spec (bid2 b1) (bid1 f2));
          simpl in K; try lia; discriminate.
    - rewrite chainKeys_app. apply Permutation_app_comm. }
  destruct ((bid2 b1 =? bid1 f2) && (dir2 b1 =? dir1 f2)) eqn:C3.
  { destruct (negb (bid2 b1 =? 0) &&
              ((bid1 f1 =? 0) || (bid2 b2 =? 0) || negb (bid1 f1 =? bid2 b2))) eqn:K;
      [|exists le1, false; auto].
    exists (spliceBack le1 le2), true. split; [reflexivity|].
    rewrite spliceBack_eq.
    eapply Good_merge; [exact HG| |].
    - apply goodChain_app; auto.
      + intros a b. rewrite Hb1, Hf2. intros [= <-] [= <-].
        bool_to_prop. unfold joint. split; lia.
      + intros f b. rewrite Hf1, Hb2. intros [= <-] [= <-] Heq.
        destruct (Z.eqb_spec (bid2 b1) 0), (Z.eqb_spec (bid1 f1) 0),
          (Z.eqb_spec (bid2 b2) 0), (Z.eqb_spec (bid1 f1) (bid2 b2));
          simpl in K; try lia; discriminate.
    - rewrite chainKeys_app. apply Permutation_refl. }
  destruct ((bid2 b1 =? bid2 b2) && negb (dir2 b1 =? dir2 b2)) eqn:C4.
  { destruct ((bid1 f1 =? 0) || (bid1 f2 =? 0) || negb (bid1 f1 =? bid1 f2)) eqn:K;
      [|exists le1, false; auto].
    exists (spliceBackReversed le1 le2), true. split; [reflexivity|].
    rewrite spliceBackReversed_eq, revChain_alt.
    eapply Good_merge; [exact HG| |].
    - apply goodChain_app; auto using revChain_nonempty, okEdge_revChain.
      + apply linked_rev_reverse, L2.
      + intros a b. rewrite head_revChain, Hb2, Hb1. simpl.
        intros [= <-] [= <-]. bool_to_prop. unfold joint; simpl. split; [lia|].
        symmetry. apply flip_ne; auto.
      + intros f b. rewrite last_revChain, Hf2, Hf1. simpl.
        intros [= <-] [= <-]. simpl. intros Heq.
        destruct (Z.eqb_spec (bid1 f1) 0), (Z.eqb_spec (bid1 f2) 0),
          (Z.eqb_spec (bid1 f1) (bid1 f2)); simpl in K; try lia; discriminate.
    - rewrite chainKeys_app. apply Permutation_app_head, chainKeys_revChain. }
  exists le1, false. auto.
Qed.

(** ** The class map *)

Lemma find_perm j m le :
  find j m = Some le -> Permutation m ((j, le) :: erase j m).
Proof.
  induction m as [|[k l] m IH]; simpl; [discriminate|].
  destruct (Z.eqb_spec k j) as [->|Hne].
  - intros [= ->]. apply Permutation_refl.
  - intros H. eapply perm_trans; [|apply perm_swap]. constructor. auto.
Qed.

Lemma erase_keys_incl j m k :
  In k (List.map fst (erase j m)) -> In k (List.map fst m).
Proof.
  induction m as [|[k' l] m IH]; simpl; [tauto|].
  destruct (k' =? j); simpl; tauto.
Qed.

Lemma erase_NoDup j m :
  List.NoDup (List.map fst m) -> List.NoDup (List.map fst (erase j m)).
Proof.
  induction m as [|[k l] m IH]; simpl; [auto|].
  intros H. inversion H as [|? ? Hn Hd]; subst.
  destruct (k =? j); [assumption|]. simpl. constructor; [|auto].
  intros Hin. apply Hn. eapply erase_keys_incl, Hin.
Qed.

Lemma find_erase_ne j k m : j <> k -> find k (erase j m) = find k m.
Proof.
  intros Hne. induction m as [|[k' l] m IH]; simpl; [reflexivity|].
  destruct (Z.eqb_spec k' j) as [->|Hj]; simpl.
  - destruct (Z.eqb_spec j k); [contradiction | reflexivity].
  - destruct (k' =? k); auto.
Qed.

Lemma erase_comm j k m : erase j (erase k m) = erase k (erase j m).
Proof.
  induction m as [|[k' l] m IH]; simpl; [reflexivity|].
  destruct (k' =? k) eqn:Ek, (k' =? j) eqn:Ej; simpl; rewrite ?Ek, ?Ej;
    try reflexivity.
  - apply Z.eqb_eq in Ek, Ej. congruence.
  - now rewrite IH.
Qed.

Lemma find_None_erase j m : find j m = None -> erase j m = m.
Proof.
  induction m as [|[k l] m IH]; simpl; [reflexivity|].
  destruct (k =? j); [discriminate|]. intros H. now rewrite IH.
Qed.

Lemma store_keys k le m : List.map fst (store k le m) = List.map fst m.
Proof.
  induction m as [|[k' l] m IH]; simpl; [reflexivity|].
  destruct (k' =? k); simpl; [reflexivity | now rewrite IH].
Qed.

Lemma find_store k le m old : find k m = Some old -> find k (store k le m) = Some le.
Proof.
  induction m as [|[k' l] m IH]; simpl; [discriminate|].
  destruct (Z.eqb_spec k' k) as [->|Hne]; simpl.
  - now rewrite Z.eqb_refl.
  - destruct (Z.eqb_spec k' k); [contradiction | exact IH].
Qed.

Lemma erase_store k le m : erase k (store k le m) = erase k m.
Proof.
  induction m as [|[k' l] m IH]; simpl; [reflexivity|].
  destruct (Z.eqb_spec k' k) as [->|Hne]; simpl.
  - now rewrite Z.eqb_refl.
  - destruct (Z.eqb_spec k' k); [contradiction | now rewrite IH].
Qed.

Lemma find_In_key k m le : find k m = Some le -> In k (List.map fst m).
Proof.
  induction m as [|[k' l] m IH]; simpl; [discriminate|].
  destruct (Z.eqb_spec k' k); [auto | intros H; right; auto].
Qed.

Lemma assign_fresh n le m :
  (forall k, In k (List.map fst m) -> k < n) ->
  Permutation (assign n le m) ((n, le) :: m) /\
  (forall k, In k (List.map fst (assign n le m)) <-> k = n \/ In k (List.map fst m)).
Proof.
  induction m as [|[k' l] m IH]; simpl; intros Hlt.
  - split; [apply Permutation_refl | intros k; simpl; intuition congruence].
  - assert (Hk : k' < n) by (apply Hlt; auto).
    destruct (Z.eqb_spec k' n); [lia|]. destruct (Z.ltb_spec n k'); [lia|].
    destruct IH as [IH1 IH2]; [intros; apply Hlt; auto|]. split.
    + eapply perm_trans; [|apply perm_swap]. constructor. exact IH1.
    + intros k. simpl. rewrite IH2. intuition congruence.
Qed.

(** ** [mergeLists] keeps the chains good *)

(** The loop invariant of [mergeLists]: [le1] is the chain of class [k],
    held outside the map, and together with the other classes it is good. *)
Definition mergeInv (k : Z) (u : gmap Z Z) (le1 : list Edge) (m : classes) : Prop :=
  List.NoDup (List.map fst m) /\ (exists old, find k m = Some old) /\
  Good (le1 :: List.map snd (erase k m)) u.

Lemma mergeIter_inv k u le1 m j :
  mergeInv k u le1 m ->
  exists le1' m', mergeIter k (Some (le1, m)) j = Some (le1', m') /\
                  mergeInv k u le1' m' /\
                  (forall x, In x (List.map fst m') -> In x (List.map fst m)).
Proof.
  intros HJ. pose proof HJ as (ND & [old Hk] & HG). unfold mergeIter.
  destruct (Z.eqb_spec j k) as [->|Hne].
  { exists le1, m. split; [reflexivity|]. split; [exact HJ | auto]. }
  destruct (find j m) as [le2|] eqn:Hj.
  2:{ exists le1, m. split; [reflexivity|]. split; [exact HJ | auto]. }
  assert (Hj' : find j (erase k m) = Some le2).
  { rewrite find_erase_ne by congruence. exact Hj. }
  assert (HG2 : Good (le1 :: le2 :: List.map snd (erase j (erase k m))) u).
  { eapply Good_perm; [|exact HG]. constructor.
    pose proof (find_perm _ _ _ Hj') as P.
    apply (Permutation_map snd) in P. exact P. }
  destruct (mergePair_Good _ _ _ _ HG2) as (le1' & b & -> & Hb).
  destruct b.
  - exists le1', (erase j m). split; [reflexivity|]. split.
    + split; [apply erase_NoDup, ND|]. split.
      * exists old. rewrite find_erase_ne by assumption. exact Hk.
      * rewrite erase_comm. exact Hb.
    + apply erase_keys_incl.
  - subst le1'. exists le1, m. split; [reflexivity|]. split; [exact HJ | auto].
Qed.

Lemma mergeLoop_inv k u js : forall le1 m,
  mergeInv k u le1 m ->
  exists le1' m', fold_left (mergeIter k) js (Some (le1, m)) = Some (le1', m') /\
                  mergeInv k u le1' m' /\
                  (forall x, In x (List.map fst m') -> In x (List.map fst m)).
Proof.
  induction js as [|j js IH]; intros le1 m HJ; cbn [fold_left].
  - exists le1, m. auto.
  - destruct (mergeIter_inv k u le1 m j HJ) as (le2 & m2 & -> & HJ2 & I2).
    destruct (IH le2 m2 HJ2) as (le3 & m3 & -> & HJ3 & I3).
    exists le3, m3. auto.
Qed.

Lemma mergeLists_inv c k u le m :
  mergeInv k u le m ->
  exists le' m', mergeLists c k le m = Some (le', m') /\
                 mergeInv k u le' m' /\
                 (forall x, In x (List.map fst m') -> In x (List.map fst m)).
Proof. apply mergeLoop_inv. Qed.

Lemma store_perm k le m old :
  find k m = Some old ->
  Permutation (List.map snd (store k le m)) (le :: List.map snd (erase k m)).
Proof.
  intros H. pose proof (find_store k le m old H) as Hs.
  apply find_perm in Hs. apply (Permutation_map snd) in Hs.
  rewrite erase_store in Hs. exact Hs.
Qed.

(** ** The registry *)

Lemma isUsed_mark k k' u : isUsed k (mark k' u) = true <-> k = k' \/ isUsed k u = true.
Proof.
  unfold isUsed, mark. destruct (decide (k' = k)) as [->|Hne].
  - rewrite lookup_insert_eq. tauto.
  - rewrite lookup_insert_ne by assumption.
    destruct (u !! k); intuition congruence.
Qed.

Lemma isUsed_markOut k e u :
  isUsed k (markOut e u) = true <-> k = keyOut e \/ isUsed k u = true.
Proof. unfold markOut, keyOut. destruct (dir1 e =? 1); apply isUsed_mark. Qed.

Lemma isUsed_markIn k e u :
  isUsed k (markIn e u) = true <-> k = keyIn e \/ isUsed k u = true.
Proof. unfold markIn, keyIn. destruct (dir2 e =? 1); apply isUsed_mark. Qed.

Lemma keyOut_cases e : keyOut e = bid1 e \/ keyOut e = - bid1 e.
Proof. unfold keyOut. destruct (dir1 e =? 1); auto. Qed.

Lemma keyIn_cases e : keyIn e = bid2 e \/ keyIn e = - bid2 e.
Proof. unfold keyIn. destruct (dir2 e =? 1); auto. Qed.

Lemma okEdge_keys_ne e : okEdge e -> keyOut e <> keyIn e.
Proof.
  intros (_ & _ & ? & ? & ?).
  destruct (keyOut_cases e), (keyIn_cases e); lia.
Qed.

Lemma registered_edge le rest u x k :
  registered (le :: rest) u -> In x le -> In k (edgeKeys x) -> k <> 0 ->
  isUsed k u = true.
Proof.
  intros R Hx Hk Hz. apply R; [|assumption].
  rewrite allKeys_cons. apply in_or_app. left.
  unfold chainKeys. apply in_flat_map. eauto.
Qed.

(** Adding one edge to a good family of chains. *)
Lemma Good_extend le rest u le' u' e' :
  Good (le :: rest) u -> goodChain le' -> okEdge e' ->
  Permutation (chainKeys le') (edgeKeys e' ++ chainKeys le) ->
  (forall k, In k (edgeKeys e') -> k <> 0 -> isUsed k u = false) ->
  (forall k, isUsed k u = true -> isUsed k u' = true) ->
  (forall k, In k (edgeKeys e') -> k <> 0 -> isUsed k u' = true) ->
  Good (le' :: rest) u'.
Proof.
  intros (G & D & R) G' Oe P Hfree Hmono Hreg.
  assert (P' : Permutation (allKeys (le' :: rest))
                           (edgeKeys e' ++ allKeys (le :: rest))).
  { rewrite !allKeys_cons, app_assoc. apply Permutation_app_tail, P. }
  unfold Good. split; [|split].
  - constructor; [assumption|]. inversion G; assumption.
  - eapply Permutation_NoDup; [apply nonzero_perm; symmetry; exact P'|].
    rewrite nonzero_app. apply List.NoDup_app; [| exact D |].
    + pose proof (okEdge_keys_ne e' Oe) as Hne.
      unfold edgeKeys, nonzero; simpl.
      destruct (negb (keyOut e' =? 0)), (negb (keyIn e' =? 0));
        repeat constructor; simpl; intuition.
    + intros k Hk Hk'. apply in_nonzero in Hk as [Hk Hz].
      apply in_nonzero in Hk' as [Hk' _].
      pose proof (Hfree k Hk Hz) as F. rewrite (R k Hk' Hz) in F. discriminate.
  - intros k Hk Hz. eapply Permutation_in in Hk; [|exact P'].
    apply in_app_or in Hk as [Hk|Hk]; [apply Hreg | apply Hmono, R]; auto.
Qed.

(** ** [insertEdge] keeps the chains good *)

Lemma keyIn_eq a b : bid2 a = bid2 b -> dir2 a = dir2 b -> keyIn a = keyIn b.
Proof. unfold keyIn. intros -> ->. reflexivity. Qed.

Lemma keyOut_eq a b : bid1 a = bid1 b -> dir1 a = dir1 b -> keyOut a = keyOut b.
Proof. unfold keyOut. intros -> ->. reflexivity. Qed.

Lemma keyIn_keyOut_eq a b :
  okDir (dir2 a) -> okDir (dir1 b) -> bid2 a = bid1 b -> dir2 a <> dir1 b ->
  keyIn a = keyOut b.
Proof.
  unfold keyIn, keyOut, okDir. intros [->| ->] [->| ->] -> H; simpl; congruence.
Qed.

Lemma keyOut_nz e : bid1 e <> 0 -> keyOut e <> 0.
Proof. destruct (keyOut_cases e); lia. Qed.

Lemma keyIn_nz e : bid2 e <> 0 -> keyIn e <> 0.
Proof. destruct (keyIn_cases e); lia. Qed.

Lemma andb_false_eq (x y x' y' : Z) :
  (x =? y) && (x' =? y') = false -> x = y -> x' <> y'.
Proof.
  intros H -> ->. rewrite !Z.eqb_refl in H. discriminate.
Qed.

Lemma andb_false_ne (x y x' y' : Z) :
  (x =? y) && negb (x' =? y') = false -> x = y -> x' = y'.
Proof.
  intros H ->. rewrite Z.eqb_refl in H. simpl in H.
  apply negb_false_iff, Z.eqb_eq in H. exact H.
Qed.

Section InsertGood.
  Variables (le : list Edge) (rest : list (list Edge)) (u : gmap Z Z) (e : Edge).
  Hypothesis HG : Good (le :: rest) u.
  Hypothesis Oe : okEdge e.
  Hypothesis Hfree : forall k, In k (edgeKeys e) -> k <> 0 -> isUsed k u = false.

  Variables fe be : Edge.
  Hypothesis Hf : head le = Some fe.
  Hypothesis Hb : last le = Some be.

Local Lemma ig_chain : goodChain le.
  Proof. destruct HG as (G & _). inversion G; assumption. Qed.

Local Lemma ig_used x k :
    In x le -> In k (edgeKeys x) -> k <> 0 -> isUsed k u = true.
  Proof. destruct HG as (_ & _ & R). intros. eapply registered_edge; eauto. Qed.

Local Lemma ig_clash x kx ke :
    In x le -> In kx (edgeKeys x) -> In ke (edgeKeys e) -> kx = ke -> ke <> 0 -> False.
  Proof.
    intros Hx Hkx Hke -> Hz. pose proof (ig_used x ke Hx Hkx Hz) as H1.
    rewrite (Hfree ke Hke Hz) in H1. discriminate.
  Qed.

Local Lemma ig_free_rev k :
    In k (edgeKeys (reverse e)) -> k <> 0 -> isUsed k u = false.
  Proof.
    intros Hk. apply Hfree. eapply Permutation_in; [apply edgeKeys_reverse|exact Hk].
  Qed.

  (** Prepending [reverse e] (first branch of [insertEdge]). *)
Local Lemma ig_front_rev :
    bid1 fe = bid1 e -> dir1 fe <> dir1 e ->
    (bid2 be =? bid2 e) && negb (dir2 be =? dir2 e) = false ->
    goodChain (reverse e :: le).
  Proof.
    intros B D C. destruct ig_chain as (N & O & L & E).
    pose proof (okEdge_head _ _ O Hf) as (Df & _).
    destruct Oe as (De1 & De2 & _).
    apply (goodChain_app [reverse e] le); auto; try discriminate.
    - constructor; [apply reverse_okEdge, Oe | constructor].
    - exact I.
    - intros a b [= <-]. rewrite Hf. intros [= <-]. unfold joint; simpl.
      split; [congruence | apply flip_ne; auto].
    - intros f b [= <-]. rewrite Hb. intros [= <-]. simpl. intros Heq.
      destruct (Z.eq_dec (bid2 e) 0) as [|Hz]; [assumption|]. exfalso.
      apply (ig_clash be (keyIn be) (keyIn e)).
      + apply last_In, Hb.
      + right; left; reflexivity.
      + right; left; reflexivity.
      + apply keyIn_eq; [congruence|]. eapply andb_false_ne; eauto.
      + apply keyIn_nz, Hz.
  Qed.

  (** Prepending [e] (second branch). *)
Local Lemma ig_front :
    bid1 fe = bid2 e -> dir1 fe = dir2 e ->
    (bid2 be =? bid1 e) && (dir2 be =? dir1 e) = false ->
    goodChain (e :: le).
  Proof.
    intros B D C. destruct ig_chain as (N & O & L & E).
    pose proof (okEdge_last _ _ O Hb) as (_ & Db & _).
    destruct Oe as (De1 & De2 & _).
    apply (goodChain_app [e] le); auto; try discriminate.
    - exact I.
    - intros a b [= <-]. rewrite Hf. intros [= <-]. unfold joint. auto.
    - intros f b [= <-]. rewrite Hb. intros [= <-] Heq.
      destruct (Z.eq_dec (bid1 e) 0) as [|Hz]; [assumption|]. exfalso.
      apply (ig_clash be (keyIn be) (keyOut e)).
      + apply last_In, Hb.
      + right; left; reflexivity.
      + left; reflexivity.
      + apply keyIn_keyOut_eq; auto. eapply andb_false_eq; eauto.
      + apply keyOut_nz, Hz.
  Qed.

  (** Appending [e] (third branch). *)
Local Lemma ig_back :
    bid2 be = bid1 e -> dir2 be = dir1 e ->
    (bid1 fe =? bid2 e) && (dir1 fe =? dir2 e) = false ->
    goodChain (le ++ [e]).
  Proof.
    intros B D C. destruct ig_chain as (N & O & L & E).
    pose proof (okEdge_head _ _ O Hf) as (Df & _).
    destruct Oe as (De1 & De2 & _).
    apply (goodChain_app le [e]); auto; try discriminate.
    - exact I.
    - intros a b. rewrite Hb. intros [= <-] [= <-]. unfold joint. auto.
    - intros f b. rewrite Hf. intros [= <-] [= <-] Heq.
      destruct (Z.eq_dec (bid1 fe) 0) as [|Hz]; [assumption|]. exfalso.
      apply (ig_clash fe (keyOut fe) (keyIn e)).
      + apply head_In, Hf.
      + left; reflexivity.
      + right; left; reflexivity.
      + symmetry. apply keyIn_keyOut_eq; auto.
        intros Hd. eapply andb_false_eq; eauto.
      + apply keyIn_nz. congruence.
  Qed.

  (** Appending [reverse e] (fourth branch). *)
Local Lemma ig_back_rev :
    bid2 be = bid2 e -> dir2 be <> dir2 e ->
    (bid1 fe =? bid1 e) && negb (dir1 fe =? dir1 e) = false ->
    goodChain (le ++ [reverse e]).
  Proof.
    intros B D C. destruct ig_chain as (N & O & L & E).
    pose proof (okEdge_last _ _ O Hb) as (_ & Db & _).
    destruct Oe as (De1 & De2 & _).
    apply (goodChain_app le [reverse e]); auto; try discriminate.
    - constructor; [apply reverse_okEdge, Oe | constructor].
    - exact I.
    - intros a b. rewrite Hb. intros [= <-] [= <-]. unfold joint; simpl.
      split; [congruence | symmetry; apply flip_ne; auto].
    - intros f b. rewrite Hf. intros [= <-] [= <-]. simpl. intros Heq.
      destruct (Z.eq_dec (bid1 fe) 0) as [|Hz]; [assumption|]. exfalso.
      apply (ig_clash fe (keyOut fe) (keyOut e)).
      + apply head_In, Hf.
      + left; reflexivity.
      + left; reflexivity.
      + apply keyOut_eq; [congruence|]. eapply andb_false_ne; eauto.
      + apply keyOut_nz. congruence.
  Qed.
End InsertGood.

Ltac used_mono :=
  let k := fresh "k" in let Hk := fresh "Hk" in
  intros k Hk; simpl;
  rewrite ?isUsed_markOut, ?isUsed_markIn, ?isUsed_mark; auto 6.

Lemma insertEdge_Good le rest u e :
  Good (le :: rest) u -> okEdge e ->
  (forall k, In k (edgeKeys e) -> k <> 0 -> isUsed k u = false) ->
  exists o, insertEdge le e u = Some o /\
    match res o with
    | SUCCESS => Good (chain o :: rest) (used o) /\
                 (forall k, isUsed k u = true -> isUsed k (used o) = true)
    | _ => chain o = le /\ edge o = e /\ used o = u
    end.
Proof.
  intros HG Oe Hfree.
  assert (GC : goodChain le) by (destruct HG as (G & _); inversion G; assumption).
  destruct GC as (N & O & L & E).
  destruct (nonempty_ends le N) as (fe & be & Hf & Hb).
  unfold insertEdge. rewrite Hf, Hb.
  destruct ((bid1 fe =? bid1 e) && negb (dir1 fe =? dir1 e)) eqn:C1.
  { destruct ((bid2 be =? bid2 e) && negb (dir2 be =? dir2 e)) eqn:K.
    { eexists. split; [reflexivity|]. simpl. auto. }
    eexists. split; [reflexivity|]. simpl. bool_to_prop. split; [|used_mono].
    eapply Good_extend with (e' := reverse e); [exact HG | | | | | |].
    - eapply ig_front_rev; eauto.
    - apply reverse_okEdge, Oe.
    - apply Permutation_refl.
    - eapply ig_free_rev; eauto.
    - used_mono.
    - intros k [<-|[<-|[]]] Hz; rewrite isUsed_markOut, !isUsed_mark.
      + left. reflexivity.
      + rewrite !keyIn_reverse, keyOut_reverse. right.
        destruct (keyOut_cases e) as [-> | ->]; [right; left | left]; congruence. }
  destruct ((bid1 fe =? bid2 e) && (dir1 fe =? dir2 e)) eqn:C2.
  { destruct (bid1 fe =? 0) eqn:Z0.
    { eexists. split; [reflexivity|]. simpl. auto. }
    destruct ((bid2 be =? bid1 e) && (dir2 be =? dir1 e)) eqn:K.
    { eexists. split; [reflexivity|]. simpl. auto. }
    eexists. split; [reflexivity|]. simpl. bool_to_prop. split; [|used_mono].
    eapply Good_extend with (e' := e); [exact HG | | exact Oe | | exact Hfree | |].
    - eapply ig_front; eauto.
    - apply Permutation_refl.
    - used_mono.
    - intros k [<-|[<-|[]]] Hz; rewrite isUsed_markOut, !isUsed_mark.
      + left. reflexivity.
      + right.
        destruct (keyIn_cases e) as [-> | ->]; [right; left | left]; congruence. }
  destruct ((bid2 be =? bid1 e) && (dir2 be =? dir1 e)) eqn:C3.
  { destruct (bid2 be =? 0) eqn:Z0.
    { eexists. split; [reflexivity|]. simpl. auto. }
    eexists. split; [reflexivity|]. simpl. bool_to_prop. split; [|used_mono].
    eapply Good_extend with (e' := e); [exact HG | | exact Oe | | exact Hfree | |].
    - eapply ig_back; eauto.
    - rewrite chainKeys_app. apply Permutation_app_comm.
    - used_mono.
    - intros k [<-|[<-|[]]] Hz; rewrite isUsed_markIn, !isUsed_mark.
      + right.
        destruct (keyOut_cases e) as [-> | ->]; [right; left | left]; congruence.
      + left. reflexivity. }
  destruct ((bid2 be =? bid2 e) && negb (dir2 be =? dir2 e)) eqn:C4.
  { eexists. split; [reflexivity|]. simpl. bool_to_prop. split; [|used_mono].
    eapply Good_extend with (e' := reverse e); [exact HG | | | | | |].
    - eapply ig_back_rev; eauto.
    - apply reverse_okEdge, Oe.
    - rewrite chainKeys_app. apply Permutation_app_comm.
    - eapply ig_free_rev; eauto.
    - used_mono.
    - intros k [<-|[<-|[]]] Hz; rewrite isUsed_markIn, !isUsed_mark.
      + rewrite !keyOut_reverse. right.
        destruct (keyIn_cases e) as [-> | ->]; [right; left | left]; congruence.
      + left. reflexivity. }
  eexists. split; [reflexivity|]. simpl. auto.
Qed.

(** ** The scan over the classes *)

Lemma insertEdge_unchanged le e u o :
  insertEdge le e u = Some o -> res o <> SUCCESS ->
  chain o = le /\ edge o = e /\ used o = u.
Proof.
  unfold insertEdge. intros H.
  destruct (head le) as [fe|]; [|discriminate].
  destruct (last le) as [be|]; [|discriminate].
  injection H as <-.
  repeat case_match; simpl; intros; try congruence; auto.
Qed.

Lemma scan_defined cs : forall e u,
  Forall (fun c => snd c <> []) cs -> exists r, scan cs e u = Some r.
Proof.
  induction cs as [|[k le] cs IH]; intros e u H; simpl; [eauto|].
  inversion H as [|? ? Hle Hcs]; subst. simpl in Hle.
  destruct (nonempty_ends le Hle) as (fe & be & Hf & Hb).
  destruct (insertEdge le e u) as [o|] eqn:Ho.
  - destruct (res o); eauto.
  - unfold insertEdge in Ho. rewrite Hf, Hb in Ho. discriminate.
Qed.

Lemma scan_spec cs : forall e u r e' u',
  scan cs e u = Some (r, e', u') ->
  match r with
  | None => e' = e /\ u' = u
  | Some (k, o) =>
      exists le, In (k, le) cs /\ insertEdge le e u = Some o /\
                 res o <> FAIL /\ e' = edge o /\ u' = used o
  end.
Proof.
  induction cs as [|[k le] cs IH]; intros e u r e' u'; simpl.
  - intros [= <- <- <-]. auto.
  - destruct (insertEdge le e u) as [o|] eqn:Ho; [|discriminate].
    destruct (res o) eqn:Hr.
    + intros [= <- <- <-]. exists le. rewrite Hr. repeat split; auto; discriminate.
    + destruct (insertEdge_unchanged le e u o Ho) as (_ & -> & ->);
        [rewrite Hr; discriminate|].
      intros H. apply IH in H. destruct r as [[k' o']|]; [|exact H].
      destruct H as (le' & Hin & H). exists le'. split; [right; exact Hin | exact H].
    + intros [= <- <- <-]. exists le. rewrite Hr. repeat split; auto; discriminate.
Qed.

Lemma In_find k le m :
  List.NoDup (List.map fst m) -> In (k, le) m -> find k m = Some le.
Proof.
  induction m as [|[k' l] m IH]; simpl; [tauto|].
  intros ND [H|H].
  - injection H as -> ->. now rewrite Z.eqb_refl.
  - inversion ND as [|? ? Hn Hd]; subst.
    destruct (Z.eqb_spec k' k) as [->|Hne]; [|auto].
    exfalso. apply Hn. apply (in_map fst) in H. exact H.
Qed.

(** Opening a new chain with the single edge [e]. *)
Lemma Good_new cs u u' e :
  Good cs u -> okEdge e ->
  (forall k, In k (edgeKeys e) -> k <> 0 -> isUsed k u = false) ->
  (forall k, isUsed k u = true -> isUsed k u' = true) ->
  (forall k, In k (edgeKeys e) -> k <> 0 -> isUsed k u' = true) ->
  Good ([e] :: cs) u'.
Proof.
  intros (G & D & R) Oe Hfree Hmono Hreg. unfold Good. split; [|split].
  - constructor; [|assumption]. unfold goodChain. repeat split.
    + discriminate.
    + constructor; [assumption | constructor].
    + intros fe be [= <-] [= <-]. destruct Oe as (_ & _ & _ & _ & ?). contradiction.
  - rewrite allKeys_cons, nonzero_app. apply List.NoDup_app; [| exact D |].
    + pose proof (okEdge_keys_ne e Oe) as Hne.
      unfold chainKeys, edgeKeys, nonzero; simpl.
      destruct (negb (keyOut e =? 0)), (negb (keyIn e =? 0));
        repeat constructor; simpl; intuition.
    + intros k Hk Hk'. apply in_nonzero in Hk as [Hk Hz].
      apply in_nonzero in Hk' as [Hk' _].
      assert (Hk2 : In k (edgeKeys e)) by exact Hk.
      pose proof (Hfree k Hk2 Hz) as F. rewrite (R k Hk' Hz) in F. discriminate.
  - intros k Hk Hz. rewrite allKeys_cons in Hk.
    apply in_app_or in Hk as [Hk|Hk]; [apply Hreg | apply Hmono, R]; auto.
Qed.

(** ** One round of the greedy loop keeps the invariant *)

Lemma Inv_nonempty st :
  Inv st -> Forall (fun c => snd c <> []) (mapClasses st).
Proof.
  intros (_ & _ & G & _). apply List.Forall_forall. intros c Hc.
  apply (in_map snd) in Hc.
  destruct (proj1 (List.Forall_forall _ _) G _ Hc) as (N & _). exact N.
Qed.

Lemma free_of_checks e u :
  negb (bid1 e =? 0) && isUsed (keyOut e) u = false ->
  negb (bid2 e =? 0) && isUsed (keyIn e) u = false ->
  forall k, In k (edgeKeys e) -> k <> 0 -> isUsed k u = false.
Proof.
  intros U1 U2 k [<-|[<-|[]]] Hz.
  - destruct (Z.eqb_spec (bid1 e) 0) as [E0|]; simpl in U1; [|exact U1].
    destruct (keyOut_cases e); lia.
  - destruct (Z.eqb_spec (bid2 e) 0) as [E0|]; simpl in U2; [|exact U2].
    destruct (keyIn_cases e); lia.
Qed.

Lemma place_Inv st e :
  Inv st -> okEdge e -> exists st', place st e = Some st' /\ Inv st'.
Proof.
  intros HI Oe. pose proof HI as (ND & KB & HG). unfold place.
  destruct (negb (bid1 e =? 0) && isUsed (keyOut e) (mapUsed st)) eqn:U1; [eauto|].
  destruct (negb (bid2 e =? 0) && isUsed (keyIn e) (mapUsed st)) eqn:U2; [eauto|].
  pose proof (free_of_checks e _ U1 U2) as Hfree.
  destruct (scan_defined (mapClasses st) e (mapUsed st) (Inv_nonempty st HI))
    as [[[r e'] u'] Hs].
  rewrite Hs. pose proof (scan_spec _ _ _ _ _ _ Hs) as Sp.
  destruct r as [[k o]|].
  - destruct Sp as (le & Hin & Ho & Hr & -> & ->).
    pose proof (In_find k le _ ND Hin) as Hfind.
    assert (HG' : Good (le :: List.map snd (erase k (mapClasses st))) (mapUsed st)).
    { eapply Good_perm; [|exact HG].
      apply (Permutation_map snd (find_perm _ _ _ Hfind)). }
    destruct (insertEdge_Good le _ _ e HG' Oe Hfree) as (o' & Ho' & Hres).
    rewrite Ho in Ho'. injection Ho' as <-.
    destruct (res o) eqn:R.
    + destruct Hres as [HG2 _].
      assert (MI : mergeInv k (used o) (chain o) (store k (chain o) (mapClasses st))).
      { split; [rewrite store_keys; exact ND|]. split.
        - exists (chain o). eapply find_store; eauto.
        - rewrite erase_store. exact HG2. }
      destruct (mergeLists_inv (clscnt st) k _ _ _ MI)
        as (le' & m' & -> & (ND' & [old Hk'] & HG3) & Incl).
      eexists. split; [reflexivity|]. split; [|split]; simpl.
      * rewrite store_keys. exact ND'.
      * intros x Hx. rewrite store_keys in Hx. apply Incl in Hx.
        rewrite store_keys in Hx. auto.
      * eapply Good_perm; [symmetry; eapply store_perm; eauto | exact HG3].
    + contradiction.
    + destruct Hres as (_ & _ & ->). eexists. split; [reflexivity|].
      split; [|split]; simpl; auto.
  - destruct Sp as [-> ->].
    set (n := clscnt st + 1).
    assert (Hlt : forall k, In k (List.map fst (mapClasses st)) -> k < n).
    { intros k Hk. apply KB in Hk. unfold n. lia. }
    destruct (assign_fresh n [e] (mapClasses st) Hlt) as [PA KA].
    eexists. split; [reflexivity|]. split; [|split]; simpl.
    + eapply Permutation_NoDup;
        [symmetry; apply (Permutation_map fst PA)|]. simpl.
      constructor; [|exact ND]. intros Hin. apply Hlt in Hin. lia.
    + intros k Hk. apply KA in Hk as [->|Hk]; [lia|]. apply KB in Hk. lia.
    + eapply Good_perm; [symmetry; apply (Permutation_map snd PA)|]. simpl.
      eapply Good_new; [exact HG | exact Oe | exact Hfree | |].
      * intros k Hk. destruct (negb (bid1 e =? 0)), (negb (bid2 e =? 0));
          rewrite ?isUsed_markIn, ?isUsed_markOut; auto.
      * intros k [<-|[<-|[]]] Hz.
        -- destruct (Z.eqb_spec (bid1 e) 0) as [E0|]; simpl.
           { destruct (keyOut_cases e); lia. }
           destruct (negb (bid2 e =? 0));
             rewrite ?isUsed_markIn, ?isUsed_markOut; auto.
        -- destruct (Z.eqb_spec (bid2 e) 0) as [E0|]; simpl.
           { destruct (keyIn_cases e); lia. }
           rewrite isUsed_markIn. auto.
Qed.

(** ** From the invariant to open paths *)

Definition cnt (l : list Z) (x : Z) : nat := count_occ Z.eq_dec l x.

Lemma cnt_cons y l x :
  cnt (y :: l) x = ((if (y =? x)%Z then 1 else 0) + cnt l x)%nat.
Proof.
  unfold cnt. destruct (Z.eqb_spec y x).
  - now rewrite count_occ_cons_eq.
  - now rewrite count_occ_cons_neq.
Qed.

Ltac split_eqb :=
  repeat match goal with
  | |- context [?a =? ?b] => destruct (Z.eqb_spec a b)
  | H : context [?a =? ?b] |- _ => destruct (Z.eqb_spec a b)
  end.

Lemma cnt_nonzero l x : x <> 0 -> cnt (nonzero l) x = cnt l x.
Proof.
  intros Hx. induction l as [|y l IH]; [reflexivity|].
  unfold nonzero. cbn [List.filter]. fold (nonzero l).
  destruct (Z.eqb_spec y 0) as [->|Hy]; cbn [negb]; rewrite ?cnt_cons, IH.
  - split_eqb; lia.
  - reflexivity.
Qed.

Lemma cnt_keys le x :
  Forall okEdge le -> 0 < x ->
  (cnt (chainKeys le) x + cnt (chainKeys le) (- x) =
   cnt (List.map bid1 le) x + cnt (List.map bid2 le) x)%nat.
Proof.
  intros O Hx. induction O as [|e le Oe O IH]; [reflexivity|].
  destruct Oe as (_ & _ & H1 & H2 & _).
  change (chainKeys (e :: le)) with (keyOut e :: keyIn e :: chainKeys le).
  cbn [List.map]. rewrite !cnt_cons.
  destruct (keyOut_cases e) as [-> | ->], (keyIn_cases e) as [-> | ->];
    split_eqb; lia.
Qed.

(** The block the chain ends at. *)
Definition lastBid (le : list Edge) : Z :=
  match last le with Some b => bid2 b | None => 0 end.

Lemma cnt_linked le : forall e x,
  linked (e :: le) ->
  (cnt (List.map bid1 (e :: le)) x + cnt (List.map bid2 (e :: le)) x +
   (if (lastBid (e :: le) =? x)%Z then 1 else 0) =
   (if (bid1 e =? x)%Z then 1 else 0) +
   2 * cnt (List.map bid2 (e :: le)) x)%nat.
Proof.
  induction le as [|e2 le IH]; intros e x L.
  - unfold lastBid. cbn [List.map last]. rewrite !cnt_cons.
    change (cnt [] x) with 0%nat. split_eqb; lia.
  - destruct L as (B & _ & L). specialize (IH e2 x L).
    assert (Hl : lastBid (e :: e2 :: le) = lastBid (e2 :: le)).
    { unfold lastBid. now rewrite last_cons_cons. }
    rewrite Hl. change (List.map bid1 (e :: e2 :: le))
      with (bid1 e :: List.map bid1 (e2 :: le)).
    change (List.map bid2 (e :: e2 :: le))
      with (bid2 e :: List.map bid2 (e2 :: le)).
    rewrite !(cnt_cons (bid1 e)), !(cnt_cons (bid2 e)).
    change (List.map bid1 (e2 :: le)) with (bid1 e2 :: List.map bid1 le) in *.
    rewrite !(cnt_cons (bid1 e2)) in *. rewrite B in *.
    destruct (bid1 e =? x), (bid1 e2 =? x), (lastBid (e2 :: le) =? x); lia.
Qed.

Lemma goodChain_openPath le :
  goodChain le -> List.NoDup (nonzero (chainKeys le)) -> openPath le.
Proof.
  intros (N & O & L & E) D. unfold openPath.
  apply (NoDup_count_occ Z.eq_dec). intros x. fold (cnt (nonzero (blocks le)) x).
  destruct (Z.eq_dec x 0) as [->|Hx0].
  { assert (H : ~ In 0 (nonzero (blocks le))).
    { intros H. apply in_nonzero in H. tauto. }
    apply (count_occ_not_In Z.eq_dec) in H. unfold cnt. lia. }
  rewrite cnt_nonzero by assumption.
  destruct le as [|e le]; [congruence|].
  destruct (Z.ltb_spec 0 x) as [Hpos|Hneg].
  2:{ assert (H : ~ In x (blocks (e :: le))).
      { intros H.
        assert (Hb : forall y, In y (e :: le) -> 0 <= bid1 y /\ 0 <= bid2 y).
        { intros y Hy. apply (proj1 (List.Forall_forall _ _) O) in Hy.
          destruct Hy as (_ & _ & ? & ? & _). auto. }
        destruct H as [H|H].
        - destruct (Hb e (or_introl eq_refl)). lia.
        - apply in_map_iff in H as (y & Hy & Hin). destruct (Hb y Hin). lia. }
      apply (count_occ_not_In Z.eq_dec) in H. unfold cnt. lia. }
  pose proof (cnt_keys (e :: le) x O Hpos) as K.
  pose proof (cnt_linked le e x L) as C.
  pose proof (proj1 (NoDup_count_occ Z.eq_dec _) D x) as D1.
  pose proof (proj1 (NoDup_count_occ Z.eq_dec _) D (- x)) as D2.
  fold (cnt (nonzero (chainKeys (e :: le))) x) in D1.
  fold (cnt (nonzero (chainKeys (e :: le))) (- x)) in D2.
  rewrite cnt_nonzero in D1, D2 by lia.
  assert (Ends : bid1 e = x -> lastBid (e :: le) = x -> False).
  { unfold lastBid. destruct (last (e :: le)) as [b|] eqn:Hb; [|lia].
    intros H1 H2. specialize (E e b eq_refl Hb). lia. }
  change (blocks (e :: le)) with (bid1 e :: List.map bid2 (e :: le)).
  rewrite cnt_cons.
  destruct (Z.eqb_spec (bid1 e) x), (Z.eqb_spec (lastBid (e :: le)) x);
    try (exfalso; auto; fail); lia.
Qed.

(** ** The whole greedy loop *)

Lemma loadEdge_okEdge scores p : okEdge (fst p) -> okEdge (loadEdge scores p).
Proof. unfold loadEdge, okEdge. destruct (efind _ scores); simpl; auto. Qed.

Lemma Inv_init : Inv initState.
Proof.
  unfold Inv, Good, registered; simpl. repeat split; try constructor; tauto.
Qed.

Lemma body_Inv w scores st p :
  Inv st -> okEdge (fst p) ->
  exists st', body w scores (Some st) p = Some st' /\ Inv st'.
Proof.
  intros HI Op. unfold body.
  destruct (Qltb (weight (loadEdge scores p)) w); [eauto|].
  apply place_Inv; [exact HI | apply loadEdge_okEdge, Op].
Qed.

Lemma loop_Inv w scores vecEdges : forall st,
  Inv st -> Forall (fun p => okEdge (fst p)) vecEdges ->
  exists st', fold_left (body w scores) vecEdges (Some st) = Some st' /\ Inv st'.
Proof.
  induction vecEdges as [|p l IH]; intros st HI HO; cbn [fold_left]; [eauto|].
  inversion HO as [|? ? Op Ol]; subst.
  destruct (body_Inv w scores st p HI Op) as (st1 & -> & HI1). auto.
Qed.

Lemma greedy_Inv w scores vecEdges :
  Forall (fun p => okEdge (fst p)) vecEdges ->
  exists st, greedy w scores vecEdges = Some st /\ Inv st.
Proof. apply loop_Inv, Inv_init. Qed.

Lemma allKeys_app cs1 cs2 : allKeys (cs1 ++ cs2) = allKeys cs1 ++ allKeys cs2.
Proof. unfold allKeys. apply flat_map_app. Qed.

Lemma NoDup_chain cs le :
  List.NoDup (nonzero (allKeys cs)) -> In le cs -> List.NoDup (nonzero (chainKeys le)).
Proof.
  intros D Hin. apply in_split in Hin as (c1 & c2 & ->).
  rewrite allKeys_app, allKeys_cons, !nonzero_app in D.
  apply NoDup_app_remove_l in D. apply NoDup_app_remove_r in D. exact D.
Qed.

Lemma Inv_openPath st k le : Inv st -> In (k, le) (mapClasses st) -> openPath le.
Proof.
  intros (_ & _ & G & D & _) Hin. apply (in_map snd) in Hin. simpl in Hin.
  apply goodChain_openPath.
  - apply (proj1 (List.Forall_forall _ _) G _ Hin).
  - eapply NoDup_chain; eauto.
Qed.

(** ** Edges that would close a cycle *)

Lemma keyOut_opp a b :
  okDir (dir1 a) -> okDir (dir1 b) -> bid1 a = bid1 b -> dir1 a <> dir1 b ->
  keyOut a = - keyOut b.
Proof.
  unfold keyOut, okDir. intros [->| ->] [->| ->] -> H; simpl; try congruence; lia.
Qed.

Lemma keyIn_opp a b :
  okDir (dir2 a) -> okDir (dir2 b) -> bid2 a = bid2 b -> dir2 a <> dir2 b ->
  keyIn a = - keyIn b.
Proof.
  unfold keyIn, okDir. intros [->| ->] [->| ->] -> H; simpl; try congruence; lia.
Qed.

Lemma keyOut_keyIn_opp a b :
  bid1 a = bid2 b -> dir1 a = dir2 b -> keyOut a = - keyIn b.
Proof.
  unfold keyOut, keyIn. intros -> ->. destruct (dir2 b =? 1); lia.
Qed.

Lemma head_key le fe : head le = Some fe -> In (keyOut fe) (chainKeys le).
Proof.
  intros H. unfold chainKeys. apply in_flat_map. exists fe.
  split; [apply head_In, H | left; reflexivity].
Qed.

Lemma last_key le be : last le = Some be -> In (keyIn be) (chainKeys le).
Proof.
  intros H. unfold chainKeys. apply in_flat_map. exists be.
  split; [apply last_In, H | right; left; reflexivity].
Qed.

(** An edge is only ever attached to a chain that holds the opposite end
    of one of its two blocks. *)
Lemma insertEdge_touch le e u o :
  Forall okEdge le -> okEdge e ->
  insertEdge le e u = Some o -> res o <> FAIL ->
  In (- keyOut e) (chainKeys le) \/ In (- keyIn e) (chainKeys le).
Proof.
  intros O Oe. unfold insertEdge.
  destruct (head le) as [fe|] eqn:Hf; [|discriminate].
  destruct (last le) as [be|] eqn:Hb; [|discriminate].
  pose proof (okEdge_head _ _ O Hf) as (Df & _).
  pose proof (okEdge_last _ _ O Hb) as (_ & Db & _).
  destruct Oe as (De1 & De2 & _).
  pose proof (head_key _ _ Hf) as Kf. pose proof (last_key _ _ Hb) as Kb.
  intros [= <-].
  destruct ((bid1 fe =? bid1 e) && negb (dir1 fe =? dir1 e)) eqn:C1.
  { intros _. bool_to_prop. left.
    rewrite <- (keyOut_opp fe e); auto. }
  destruct ((bid1 fe =? bid2 e) && (dir1 fe =? dir2 e)) eqn:C2.
  { intros _. bool_to_prop. right.
    rewrite <- (keyOut_keyIn_opp fe e); auto. }
  destruct ((bid2 be =? bid1 e) && (dir2 be =? dir1 e)) eqn:C3.
  { intros _. bool_to_prop. left.
    rewrite (keyOut_keyIn_opp e be) by auto. now rewrite Z.opp_involutive. }
  destruct ((bid2 be =? bid2 e) && negb (dir2 be =? dir2 e)) eqn:C4.
  { intros _. bool_to_prop. right.
    rewrite <- (keyIn_opp be e); auto. }
  simpl. congruence.
Qed.

Lemma closes_keys le e :
  Forall okEdge le -> okEdge e -> closes le e ->
  In (- keyOut e) (chainKeys le) /\ In (- keyIn e) (chainKeys le).
Proof.
  intros O Oe (_ & _ & [H|H]); destruct H as (fe & be & Hf & Hb & B1 & D1 & B2 & D2);
    pose proof (head_key _ _ Hf) as Kf; pose proof (last_key _ _ Hb) as Kb.
  - split.
    + rewrite (keyOut_keyIn_opp e be) by auto. now rewrite Z.opp_involutive.
    + rewrite <- (keyOut_keyIn_opp fe e); auto.
  - rewrite <- keyOut_reverse, <- keyIn_reverse. split.
    + rewrite <- (keyOut_keyIn_opp fe (reverse e)); auto.
    + rewrite (keyOut_keyIn_opp (reverse e) be) by auto.
      now rewrite Z.opp_involutive.
Qed.

Lemma flip_flip_ne d d' : okDir d' -> d = flip d' -> d <> d'.
Proof. unfold flip, okDir. intros [->| ->] ->; simpl; lia. Qed.

Lemma insertEdge_closes le e u :
  okEdge e -> closes le e ->
  exists o, insertEdge le e u = Some o /\ res o = CYCLE.
Proof.
  intros (De1 & De2 & _ & _ & Hne) (N1 & N2 & [H|H]);
    destruct H as (fe & be & Hf & Hb & B1 & D1 & B2 & D2);
    unfold insertEdge; rewrite Hf, Hb.
  - assert (C1 : (bid1 fe =? bid1 e) = false) by (apply Z.eqb_neq; congruence).
    rewrite C1. cbn [andb].
    rewrite <- B2, <- D2, B1, D1, !Z.eqb_refl. cbn [andb].
    assert (C0 : (bid2 e =? 0) = false) by (apply Z.eqb_neq; assumption).
    rewrite C0. eauto.
  - simpl in B1, D1, B2, D2.
    apply flip_flip_ne in D1; [|assumption].
    assert (D2' : dir1 fe <> dir1 e) by (apply flip_flip_ne; auto).
    rewrite <- B2, B1, !Z.eqb_refl.
    apply Z.eqb_neq in D1, D2'. rewrite D1, D2'. simpl. eauto.
Qed.

Lemma NoDup_app_disjoint (l1 l2 : list Z) a :
  List.NoDup (l1 ++ l2) -> In a l1 -> In a l2 -> False.
Proof.
  induction l1 as [|y l1 IH]; simpl; [tauto|].
  intros H [->|H1] H2; inversion H as [|? ? Hn Hd]; subst.
  - apply Hn. apply in_or_app. now right.
  - auto.
Qed.

Lemma chains_disjoint (m : classes) k le k0 le0 x :
  List.NoDup (List.map fst m) ->
  List.NoDup (nonzero (allKeys (List.map snd m))) ->
  In (k, le) m -> In (k0, le0) m -> k0 <> k ->
  In x (chainKeys le) -> In x (chainKeys le0) -> x = 0.
Proof.
  intros ND D H H0 Hne Hx Hx0.
  destruct (Z.eq_dec x 0) as [|Hz]; [assumption|exfalso].
  pose proof (In_find _ _ _ ND H) as F.
  pose proof (find_perm _ _ _ F) as P.
  assert (H0' : In (k0, le0) (erase k m)).
  { eapply Permutation_in in H0; [|exact P].
    destruct H0 as [E|]; [congruence | assumption]. }
  apply in_split in H0' as (c1 & c2 & Hc).
  assert (P2 : Permutation (List.map snd m)
                 (le :: le0 :: List.map snd (c1 ++ c2))).
  { eapply perm_trans; [apply (Permutation_map snd P)|]. simpl. constructor.
    rewrite Hc, !List.map_app. simpl. symmetry. apply Permutation_middle. }
  assert (D2 : List.NoDup (nonzero (allKeys (le :: le0 :: List.map snd (c1 ++ c2))))).
  { eapply Permutation_NoDup; [|exact D]. apply nonzero_perm.
    unfold allKeys. apply Permutation_flat_map, P2. }
  rewrite !allKeys_cons, !nonzero_app in D2.
  rewrite app_assoc in D2. apply NoDup_app_remove_r in D2.
  apply (NoDup_app_disjoint _ _ x D2); apply in_nonzero; auto.
Qed.

Lemma scan_cycle e u k le o : forall cs,
  List.NoDup (List.map fst cs) -> In (k, le) cs ->
  (forall k0 le0, In (k0, le0) cs -> k0 <> k ->
     exists o0, insertEdge le0 e u = Some o0 /\ res o0 = FAIL) ->
  insertEdge le e u = Some o -> res o = CYCLE ->
  scan cs e u = Some (Some (k, o), e, u).
Proof.
  intros cs ND Hin Hother Ho Hr.
  destruct (insertEdge_unchanged _ _ _ _ Ho) as (_ & He & Hu);
    [rewrite Hr; discriminate|].
  induction cs as [|[k' le'] cs IH]; [destruct Hin|].
  simpl in ND. apply NoDup_cons_iff in ND as [Hn Hd]. simpl.
  destruct (Z.eq_dec k' k) as [->|Hne].
  - assert (le' = le) as ->.
    { destruct Hin as [E|Hin]; [congruence|].
      exfalso. apply Hn. apply (in_map fst) in Hin. exact Hin. }
    rewrite Ho, Hr, He, Hu. reflexivity.
  - destruct (Hother k' le' (or_introl eq_refl) Hne) as (o0 & Ho0 & Hr0).
    rewrite Ho0, Hr0.
    destruct (insertEdge_unchanged _ _ _ _ Ho0) as (_ & -> & ->);
      [rewrite Hr0; discriminate|].
    apply IH; auto.
    + destruct Hin as [E|Hin]; [congruence | assumption].
    + intros k0 le0 H0. apply Hother. right. exact H0.
Qed.

Lemma place_closing st e k le :
  Inv st -> okEdge e -> In (k, le) (mapClasses st) -> closes le e ->
  place st e = Some st.
Proof.
  intros HI Oe Hin Hc. pose proof HI as (ND & _ & G & D & R). unfold place.
  destruct (negb (bid1 e =? 0) && isUsed (keyOut e) (mapUsed st)); [reflexivity|].
  destruct (negb (bid2 e =? 0) && isUsed (keyIn e) (mapUsed st)); [reflexivity|].
  assert (Ole : forall k0 le0, In (k0, le0) (mapClasses st) ->
                               le0 <> [] /\ Forall okEdge le0).
  { intros k0 le0 H0. apply (in_map snd) in H0.
    destruct (proj1 (List.Forall_forall _ _) G _ H0) as (? & ? & _). auto. }
  destruct (insertEdge_closes le e (mapUsed st) Oe Hc) as (o & Ho & Hr).
  destruct (closes_keys le e (proj2 (Ole _ _ Hin)) Oe Hc) as [K1 K2].
  destruct Hc as (N1 & N2 & _).
  rewrite (scan_cycle e (mapUsed st) k le o (mapClasses st) ND Hin); auto.
  - rewrite Hr. destruct st; reflexivity.
  - intros k0 le0 H0 Hne. destruct (Ole _ _ H0) as [Nn O0].
    destruct (nonempty_ends le0 Nn) as (f0 & b0 & Hf0 & Hb0).
    destruct (insertEdge le0 e (mapUsed st)) as [o0|] eqn:Ho0.
    2:{ unfold insertEdge in Ho0. rewrite Hf0, Hb0 in Ho0. discriminate. }
    exists o0. split; [reflexivity|].
    destruct (res o0) eqn:Hr0; [exfalso|reflexivity|exfalso];
      (destruct (insertEdge_touch le0 e _ o0 O0 Oe Ho0) as [T|T];
        [rewrite Hr0; discriminate| |]);
      [ pose proof (chains_disjoint _ _ _ _ _ _ ND D Hin H0 Hne K1 T) as Z0;
        pose proof (keyOut_nz e N1); lia
      | pose proof (chains_disjoint _ _ _ _ _ _ ND D Hin H0 Hne K2 T) as Z0;
        pose proof (keyIn_nz e N2); lia
      | pose proof (chains_disjoint _ _ _ _ _ _ ND D Hin H0 Hne K1 T) as Z0;
        pose proof (keyOut_nz e N1); lia
      | pose proof (chains_disjoint _ _ _ _ _ _ ND D Hin H0 Hne K2 T) as Z0;
        pose proof (keyIn_nz e N2); lia ].
Qed.

End AssemblerFacts.

(* ===================================================================== *)
(** * Sorting the edge vector *)
(* ===================================================================== *)

Module SortFacts.
Import Assembler ChainSpec.

(** [q] is not ordered before [p] by [cmp]: the weight of [q] is at most
    that of [p]. *)
Lemma cmp_false_iff p q : cmp q p = false <-> (snd q <= snd p)%Q.
Proof.
  unfold cmp, Qltb. rewrite negb_false_iff. apply Qle_bool_iff.
Qed.

Lemma cmp_true_iff p q : cmp q p = true <-> (snd p < snd q)%Q.
Proof.
  unfold cmp, Qltb. rewrite negb_true_iff. split.
  - intros H. apply Qnot_le_lt. intros Hle.
    apply Qle_bool_iff in Hle. congruence.
  - intros H. destruct (Qle_bool (snd q) (snd p)) eqn:E; [|reflexivity].
    apply Qle_bool_iff in E. exfalso. apply (Qlt_not_le _ _ H E).
Qed.

Lemma insertSorted_perm p l : Permutation (insertSorted p l) (p :: l).
Proof.
  induction l as [|q l IH]; simpl; [apply Permutation_refl|].
  destruct (cmp q p); [|apply Permutation_refl].
  eapply perm_trans; [|apply perm_swap]. constructor. exact IH.
Qed.

Lemma insertAfterTies_perm p l : Permutation (insertAfterTies p l) (p :: l).
Proof.
  induction l as [|q l IH]; simpl; [apply Permutation_refl|].
  destruct (cmp p q); [apply Permutation_refl|].
  eapply perm_trans; [|apply perm_swap]. constructor. exact IH.
Qed.

Lemma insertSorted_sorted p l :
  StronglySorted (fun a b => cmp b a = false) l ->
  StronglySorted (fun a b => cmp b a = false) (insertSorted p l).
Proof.
  induction 1 as [|q l Hs IH Hq]; simpl; [repeat constructor|].
  destruct (cmp q p) eqn:E.
  - constructor; [exact IH|].
    eapply Permutation_Forall; [symmetry; apply insertSorted_perm|].
    constructor; [|exact Hq].
    apply cmp_false_iff. apply cmp_true_iff in E. apply Qlt_le_weak, E.
  - constructor; [constructor; assumption|].
    constructor; [exact E|].
    eapply List.Forall_impl; [|exact Hq]. intros x Hx. simpl in Hx.
    apply cmp_false_iff. apply cmp_false_iff in Hx, E.
    eapply Qle_trans; eassumption.
Qed.

Lemma insertAfterTies_sorted p l :
  StronglySorted (fun a b => cmp b a = false) l ->
  StronglySorted (fun a b => cmp b a = false) (insertAfterTies p l).
Proof.
  induction 1 as [|q l Hs IH Hq]; simpl; [repeat constructor|].
  destruct (cmp p q) eqn:E.
  - assert (Hpq : cmp q p = false).
    { apply cmp_false_iff. apply cmp_true_iff in E. apply Qlt_le_weak, E. }
    constructor; [constructor; assumption|].
    constructor; [exact Hpq|].
    eapply List.Forall_impl; [|exact Hq]. intros x Hx. simpl in Hx.
    apply cmp_false_iff. apply cmp_false_iff in Hx, Hpq.
    eapply Qle_trans; eassumption.
  - constructor; [exact IH|].
    eapply Permutation_Forall; [symmetry; apply insertAfterTies_perm|].
    constructor; [exact E | exact Hq].
Qed.

Lemma stableSort_contract : sort_contract stableSort.
Proof.
  intros l. unfold stableSort. induction l as [|p l [IHp IHs]]; simpl.
  - split; constructor.
  - split.
    + eapply perm_trans; [apply insertSorted_perm|]. constructor. exact IHp.
    + apply insertSorted_sorted, IHs.
Qed.

Lemma tiesReversedSort_contract : sort_contract tiesReversedSort.
Proof.
  intros l. unfold tiesReversedSort. induction l as [|p l [IHp IHs]]; simpl.
  - split; constructor.
  - split.
    + eapply perm_trans; [apply insertAfterTies_perm|]. constructor. exact IHp.
    + apply insertAfterTies_sorted, IHs.
Qed.

(** Edges below the threshold do not change the state. *)
Lemma weight_loadEdge scores p : weight (loadEdge scores p) = snd p.
Proof. unfold loadEdge. destruct (efind _ scores); reflexivity. Qed.

Lemma loop_aboveThreshold w scores l : forall acc,
  fold_left (body w scores) l acc
  = fold_left (body w scores) (aboveThreshold w l) acc.
Proof.
  induction l as [|p l IH]; intros acc; [reflexivity|].
  unfold aboveThreshold. cbn [fold_left List.filter]. fold (aboveThreshold w l).
  destruct (Qltb (snd p) w) eqn:E; cbn [negb fold_left].
  - rewrite <- IH. f_equal. destruct acc as [st|]; [|reflexivity].
    unfold body. rewrite weight_loadEdge, E. reflexivity.
  - apply IH.
Qed.

Lemma aboveThreshold_sorted w l :
  StronglySorted (fun a b => cmp b a = false) l ->
  StronglySorted (fun a b => cmp b a = false) (aboveThreshold w l).
Proof.
  unfold aboveThreshold. induction 1 as [|q l Hs IH Hq]; simpl; [constructor|].
  destruct (negb (Qltb (snd q) w)); [|exact IH].
  constructor; [exact IH|].
  apply List.Forall_forall. intros x Hx. apply List.filter_In in Hx as [Hx _].
  apply (proj1 (List.Forall_forall _ _) Hq x Hx).
Qed.

Lemma aboveThreshold_perm w l l' :
  Permutation l l' -> Permutation (aboveThreshold w l) (aboveThreshold w l').
Proof.
  unfold aboveThreshold. induction 1; simpl.
  - constructor.
  - destruct (negb _); [constructor|]; assumption.
  - destruct (negb (Qltb (snd x) w)), (negb (Qltb (snd y) w));
      try constructor; apply Permutation_refl.
  - eapply perm_trans; eassumption.
Qed.

(** The edge vector of [main] consists of well-formed edges. *)
Lemma eset_ok e v m :
  okEdge e -> Forall (fun p => okEdge (fst p)) m ->
  Forall (fun p => okEdge (fst p)) (eset e v m).
Proof.
  intros Oe. induction 1 as [|[k x] m Hk Hm IH]; simpl.
  - constructor; [exact Oe | constructor].
  - destruct (Edge_lt e k);
      [constructor; [exact Oe | constructor; assumption]|].
    destruct (Edge_lt k e); constructor; assumption.
Qed.

Lemma fold_left_pres {A B} (P : A -> Prop) (Q : B -> Prop) (f : A -> B -> A) l :
  (forall a b, P a -> Q b -> P (f a b)) ->
  Forall Q l -> forall a, P a -> P (fold_left f l a).
Proof.
  intros Hf. induction 1 as [|b l Hb Hl IH]; intros a Ha; simpl; auto.
Qed.

Lemma from0_nonneg n : Forall (fun i => 0 <= i) (from0 n).
Proof.
  unfold from0. apply List.Forall_map, List.Forall_forall. intros; lia.
Qed.

Lemma computeWeights_ok n scores :
  Forall (fun p => okEdge (fst p)) (computeWeights n scores).
Proof.
  unfold computeWeights.
  apply (fold_left_pres _ (fun i => 0 <= i)); [|apply from0_nonneg|constructor].
  intros mw i Hmw Hi.
  apply (fold_left_pres _ (fun j => 0 <= j)); [|apply from0_nonneg|exact Hmw].
  intros mw' j Hmw' Hj. destruct (Z.eqb_spec i j) as [|Hne]; [exact Hmw'|].
  apply (fold_left_pres _ (fun d => okDir (fst d) /\ okDir (snd d)));
    [| |exact Hmw'].
  - intros a d Ha [D1 D2]. unfold addWeight.
    destruct (Qltb 0 _); [|exact Ha].
    apply eset_ok; [|exact Ha]. unfold okEdge; simpl. auto.
  - repeat (apply List.Forall_cons; [unfold okDir; simpl; split; auto|]).
    apply List.Forall_nil.
Qed.

Lemma sorted_weights_ok sort n scores :
  sort_contract sort ->
  Forall (fun p => okEdge (fst p)) (sort (computeWeights n scores)).
Proof.
  intros HC. destruct (HC (computeWeights n scores)) as [HP _].
  eapply Permutation_Forall; [symmetry; exact HP | apply computeWeights_ok].
Qed.

End SortFacts.

(* ===================================================================== *)
(** * Main results on the chain assembler *)
(* ===================================================================== *)

Module AssemblerClaims.
Import Assembler ChainSpec AssemblerFacts.

(** A small edge vector used to instantiate the results below: the
    triangle 1 -> 2 -> 3 -> 1 with decreasing weights. *)
Definition triangle : list (Edge * Q) :=
  [(newEdge 1 1 2 1, 9 # 10); (newEdge 2 1 3 1, 8 # 10);
   (newEdge 3 1 1 1, 7 # 10)]%Q.

Lemma triangle_ok : Forall (fun p => okEdge (fst p)) triangle.
Proof.
  unfold triangle. repeat constructor; unfold okDir; simpl; auto; lia.
Qed.

(** C10. [insertEdge] is atomic on rejection: whenever it returns [FAIL] or
    [CYCLE], the chain, the candidate edge (orientation fields included)
    and the used-ends registry come back exactly as they were passed;
    only a [SUCCESS] result carries a mutation, and then the chain has
    grown by exactly one edge. *)
Theorem insertEdge_rejection_atomic (le : list Edge) (e : Edge)
    (mapUsed : gmap Z Z) (o : outcome) :
  insertEdge le e mapUsed = Some o ->
  (res o <> SUCCESS -> chain o = le /\ edge o = e /\ used o = mapUsed) /\
  (res o = SUCCESS -> length (chain o) = S (length le)).
Proof.
  intros H. split; [apply insertEdge_unchanged; exact H|].
  revert H. unfold insertEdge.
  destruct (head le) as [fe|]; [|discriminate].
  destruct (last le) as [be|]; [|discriminate].
  intros [= <-].
  repeat case_match; simpl; intros; try congruence;
    rewrite ?length_app; simpl; lia.
Qed.

Lemma insertEdge_rejection_atomic_witness :
  let le := [newEdge 1 1 2 1; newEdge 2 1 3 1] in
  let e := newEdge 3 1 1 1 in
  exists o, insertEdge le e ∅ = Some o /\ res o = CYCLE /\
            chain o = le /\ edge o = e /\ used o = ∅.
Proof.
  intros le e. eexists. split; [reflexivity|]. split; [reflexivity|].
  apply (insertEdge_rejection_atomic le e ∅ _ eq_refl). discriminate.
Defined.

(** C5. Every non-sentinel element-end is consumed by at most one chain.
    An edge one of whose non-sentinel ends is already in the registry is
    skipped outright; on every edge vector built by [main] the greedy loop
    runs to completion, every non-sentinel end consumed by an edge of a
    chain is in the registry, no such end is consumed twice, and two
    different contigs share no element-end. *)
Theorem used_ends_at_most_once (w : Q) (scores : emap)
    (vecEdges : list (Edge * Q)) :
  Forall (fun p => okEdge (fst p)) vecEdges ->
  (forall st e,
     (bid1 e <> 0 /\ isUsed (keyOut e) (mapUsed st) = true) \/
     (bid2 e <> 0 /\ isUsed (keyIn e) (mapUsed st) = true) ->
     place st e = Some st) /\
  exists st, greedy w scores vecEdges = Some st /\
    registered (List.map snd (mapClasses st)) (mapUsed st) /\
    List.NoDup (nonzero (allKeys (List.map snd (mapClasses st)))) /\
    (forall k le k0 le0 x,
       In (k, le) (mapClasses st) -> In (k0, le0) (mapClasses st) -> k0 <> k ->
       In x (chainKeys le) -> In x (chainKeys le0) -> x = 0).
Proof.
  intros HO. split.
  - intros st e H. unfold place.
    destruct (Z.eqb_spec (bid1 e) 0) as [E1|N1]; simpl.
    + destruct H as [[H _]|[N2 H]]; [contradiction|].
      apply Z.eqb_neq in N2. rewrite N2, H. reflexivity.
    + destruct (isUsed (keyOut e) (mapUsed st)) eqn:U1; [reflexivity|].
      destruct H as [[_ H]|[N2 H]]; [discriminate|].
      apply Z.eqb_neq in N2. rewrite N2, H. reflexivity.
  - destruct (greedy_Inv w scores vecEdges HO) as (st & Hst & HI).
    exists st. pose proof HI as (ND & _ & _ & D & R).
    split; [exact Hst|]. split; [exact R|]. split; [exact D|].
    intros k le k0 le0 x H1 H2 Hne X1 X2.
    exact (chains_disjoint _ _ _ _ _ _ ND D H1 H2 Hne X1 X2).
Qed.

Lemma used_ends_at_most_once_witness :
  exists st, greedy 0 [] triangle = Some st /\
    List.NoDup (nonzero (allKeys (List.map snd (mapClasses st)))).
Proof.
  destruct (used_ends_at_most_once 0 [] triangle triangle_ok)
    as (_ & st & H & _ & D & _).
  exists st. split; assumption.
Defined.

Lemma reverse_bids e : bid1 (reverse e) = bid2 e /\ bid2 (reverse e) = bid1 e.
Proof. unfold reverse. repeat case_match; simpl; auto. Qed.

(** What [mergeLists] does with one other chain: it merges only when the
    chain that results does not carry one and the same non-sentinel block
    at its two open ends; a merge it refuses leaves the chain as it was. *)
Lemma mergePair_open_ends le1 le2 le1' b :
  mergePair le1 le2 = Some (le1', b) ->
  if b
  then exists fe be, head le1' = Some fe /\ last le1' = Some be /\
         (bid1 fe = 0 \/ bid2 be = 0 \/ bid1 fe <> bid2 be)
  else le1' = le1.
Proof.
  unfold mergePair.
  destruct (head le1) as [f1|] eqn:H1; [|discriminate].
  destruct (last le1) as [b1|] eqn:L1; [|discriminate].
  destruct (head le2) as [f2|] eqn:H2; [|discriminate].
  destruct (last le2) as [b2|] eqn:L2; [|discriminate].
  assert (N1 : le1 <> []) by (intros ->; discriminate).
  assert (N2 : le2 <> []) by (intros ->; discriminate).
  assert (R2 : rev (List.map reverse le2) <> [])
    by (apply (revChain_nonempty le2 N2)).
  assert (R2' : List.map reverse (rev le2) <> []).
  { intros E. apply N2. apply (f_equal (@length Edge)) in E.
    rewrite length_map, length_rev in E. destruct le2; [reflexivity|discriminate]. }
  destruct (reverse_bids f2) as [Rf1 Rf2]. destruct (reverse_bids b2) as [Rb1 Rb2].
  intros E. injection E as E.
  repeat match type of E with
         | (if ?c then _ else _) = _ => destruct c eqn:?
         end; injection E as <- <-; try reflexivity.
  - exists (reverse b2), b1.
    rewrite spliceFrontReversed_eq, head_app_ne, last_app_ne by assumption.
    fold (revChain le2). rewrite head_revChain, L2. repeat split; try assumption.
    rewrite Rb1. repeat match goal with
      | H : _ || _ = true |- _ => apply orb_true_iff in H as [H|H]
      | H : (_ =? _) = true |- _ => apply Z.eqb_eq in H
      | H : negb _ = true |- _ => apply negb_true_iff in H
      | H : (_ =? _) = false |- _ => apply Z.eqb_neq in H
      end; auto.
  - exists f2, b1.
    rewrite spliceFront_eq, head_app_ne, last_app_ne by assumption.
    repeat split; try assumption.
    repeat match goal with
      | H : _ && _ = true |- _ => apply andb_true_iff in H as [? H]
      | H : _ || _ = true |- _ => apply orb_true_iff in H as [H|H]
      | H : (_ =? _) = true |- _ => apply Z.eqb_eq in H
      | H : negb _ = true |- _ => apply negb_true_iff in H
      | H : (_ =? _) = false |- _ => apply Z.eqb_neq in H
      end; auto.
  - exists f1, b2.
    rewrite spliceBack_eq, head_app_ne, last_app_ne by assumption.
    repeat split; try assumption.
    repeat match goal with
      | H : _ && _ = true |- _ => apply andb_true_iff in H as [? H]
      | H : _ || _ = true |- _ => apply orb_true_iff in H as [H|H]
      | H : (_ =? _) = true |- _ => apply Z.eqb_eq in H
      | H : negb _ = true |- _ => apply negb_true_iff in H
      | H : (_ =? _) = false |- _ => apply Z.eqb_neq in H
      end; auto.
  - exists f1, (reverse f2).
    rewrite spliceBackReversed_eq, head_app_ne, last_app_ne by assumption.
    rewrite last_map_reverse, last_rev, H2. repeat split; try assumption.
    rewrite Rf2. repeat match goal with
      | H : _ || _ = true |- _ => apply orb_true_iff in H as [H|H]
      | H : (_ =? _) = true |- _ => apply Z.eqb_eq in H
      | H : negb _ = true |- _ => apply negb_true_iff in H
      | H : (_ =? _) = false |- _ => apply Z.eqb_neq in H
      end; auto.
Qed.

(** C4 (as amended).  No chain the assembler emits is a cycle.  On every
    edge vector built by [main] the greedy loop runs to completion and
    every final chain is a non-empty linked open path (no block other
    than the sentinel occurs twice in it).  At every round, an edge that
    would close one of the current chains into a cycle through two
    non-sentinel blocks leaves the whole state unchanged: it is added to
    no chain and seeds no new one.  [mergeLists] merges another chain
    into the extended one only when the chain that results does not carry
    one and the same non-sentinel block at its two open ends; a merge it
    refuses leaves the chain as it was. *)
Theorem no_chain_is_a_cycle (w : Q) (scores : emap)
    (vecEdges : list (Edge * Q)) :
  Forall (fun p => okEdge (fst p)) vecEdges ->
  (exists st, greedy w scores vecEdges = Some st /\
     forall k le, In (k, le) (mapClasses st) ->
       le <> [] /\ linked le /\ openPath le) /\
  (forall pre p post, vecEdges = pre ++ p :: post ->
     exists st, greedy w scores pre = Some st /\
       forall k le, In (k, le) (mapClasses st) ->
         closes le (loadEdge scores p) ->
         body w scores (Some st) p = Some st) /\
  (forall le1 le2 le1' b, mergePair le1 le2 = Some (le1', b) ->
     if b
     then exists fe be, head le1' = Some fe /\ last le1' = Some be /\
            (bid1 fe = 0 \/ bid2 be = 0 \/ bid1 fe <> bid2 be)
     else le1' = le1).
Proof.
  intros HO. split; [|split; [|apply mergePair_open_ends]].
  - destruct (greedy_Inv w scores vecEdges HO) as (st & Hst & HI).
    exists st. split; [exact Hst|]. intros k le Hin.
    pose proof (Inv_openPath st k le HI Hin) as OP.
    destruct HI as (_ & _ & G & _). apply (in_map snd) in Hin.
    destruct (proj1 (List.Forall_forall _ _) G _ Hin) as (? & _ & ? & _).
    auto.
  - intros pre p post ->. apply List.Forall_app in HO as [Hpre Hp].
    inversion Hp as [|? ? Op _]; subst.
    destruct (greedy_Inv w scores pre Hpre) as (st & Hst & HI).
    exists st. split; [exact Hst|]. intros k le Hin Hc. unfold body.
    destruct (Qltb (weight (loadEdge scores p)) w); [reflexivity|].
    eapply place_closing; eauto using loadEdge_okEdge.
Qed.

Lemma no_chain_is_a_cycle_witness :
  exists st, greedy 0 [] triangle = Some st /\
    forall k le, In (k, le) (mapClasses st) -> openPath le.
Proof.
  destruct (no_chain_is_a_cycle 0 [] triangle triangle_ok)
    as ((st & H & P) & _).
  exists st. split; [exact H|]. intros k le Hin. apply (P k le Hin).
Defined.

(** The four fields [Edge::operator<] compares. *)
Definition ends (e : Edge) : Z * Z * Z * Z := (bid1 e, dir1 e, bid2 e, dir2 e).

(** The chains of a state, by key, each edge by its four fields. *)
Definition shape (st : state) : list (Z * list (Z * Z * Z * Z)) :=
  List.map (fun c => (fst c, List.map ends (snd c))) (mapClasses st).

Definition sentinelLines : list (Z * Z * Q) :=
  [(-5, 0, (9 # 10)%Q); (3, 0, (8 # 10)%Q); (0, 3, (7 # 10)%Q)].

(** C4 (the claim as stated fails).  An edge that would close a chain
    through the sentinel block is not discarded.  On the score file with
    the lines [-5 0 0.9], [3 0 0.8] and [0 3 0.7], threshold 0, the chains
    are [0- 5+] (key 1) and [0- 3-] (key 2) when the edge [0+ 3+] comes
    up.  Read backwards it leads from the back of chain 2 to its front
    with matching orientations, and [insertEdge] answers [CYCLE] on chain
    2; but chain 1 is scanned first and its first branch accepts the
    edge, after which [mergeLists] joins chain 2: the edge ends up in the
    only chain, whose contig is [-3 5]. *)
Theorem closing_edge_joins_another_chain :
  let scores := fst (readScores sentinelLines) in
  let vecEdges :=
    stableSort (computeWeights (snd (readScores sentinelLines)) scores) in
  exists pre p post st le,
    vecEdges = pre ++ p :: post /\
    greedy 0 scores pre = Some st /\
    shape st = [(1, [(0, -1, 5, 1)]); (2, [(0, -1, 3, -1)])] /\
    ends (loadEdge scores p) = (0, 1, 3, 1) /\
    In (2, le) (mapClasses st) /\
    (closesForward le (loadEdge scores p) \/
     closesForward le (reverse (loadEdge scores p))) /\
    option_map res (insertEdge le (loadEdge scores p) (mapUsed st))
      = Some CYCLE /\
    option_map shape (body 0 scores (Some st) p)
      = Some [(1, [(0, -1, 3, -1); (3, -1, 0, -1); (0, -1, 5, 1)])] /\
    option_map contigs (main stableSort 0 sentinelLines) = Some [[-3; 5]].
Proof.
  intros scores vecEdges.
  exists (firstn 4 vecEdges), (nth 4 vecEdges (newEdge 0 0 0 0, 0%Q)),
         (skipn 5 vecEdges).
  destruct (greedy 0 scores (firstn 4 vecEdges)) as [st|] eqn:G;
    [|vm_compute in G; discriminate G].
  exists st.
  assert (S : mapClasses st <> [] /\ tl (mapClasses st) <> []).
  { vm_compute in G. injection G as <-. split; discriminate. }
  destruct (mapClasses st) as [|c1 [|[k le] m]] eqn:M;
    [destruct S as [S _]; congruence | destruct S as [_ S]; simpl in S; congruence|].
  exists le.
  vm_compute in G. injection G as <-. injection M as <- <- <- <-.
  split; [vm_compute; reflexivity|]. split; [reflexivity|].
  split; [vm_compute; reflexivity|]. split; [vm_compute; reflexivity|].
  split; [right; left; reflexivity|].
  split.
  - right. eexists. eexists. repeat split; reflexivity.
  - split; [vm_compute; reflexivity|]. split; vm_compute; reflexivity.
Qed.

(** C7 (the code departs from the claim).  [insertEdge] extends a chain
    through block [0] when the sentinel end matches with opposite
    orientation: the first and the fourth branch lack the test
    [if (bid == 0) return FAIL] of the second and the third.  The same
    holds of the first and fourth branch of [mergeLists].  On the score
    file with the two lines [0 5 0.9] and [7 0 0.8] the assembler emits the
    single contig [7 5], joined through the chromosome end. *)
Theorem sentinel_joined_through :
  let le := [newEdge 0 1 5 1] in
  let e := newEdge 0 (-1) 7 (-1) in
  let joined := [newEdge 7 1 0 1; newEdge 0 1 5 1] in
  sentinelInside le = false /\
  option_map (fun o => (res o, chain o)) (insertEdge le e ∅)
    = Some (SUCCESS, joined) /\
  mergePair le [e] = Some (joined, true) /\
  sentinelInside joined = true /\
  option_map contigs (main stableSort 0 [(0, 5, 9 # 10); (7, 0, 8 # 10)])
    = Some [[7; 5]].
Proof. vm_compute. repeat split; reflexivity. Qed.

(** C6 (as amended).  For every behaviour of [std::sort] that meets the
    library's contract, [main] processes exactly the edges of the weight
    map whose weight is not below the threshold, in an order of
    non-increasing weight; edges below the threshold leave the state
    untouched.  The order among edges of equal weight is the one the
    library's sort leaves them in; [main] is a function of the sort, the
    score lines and the threshold. *)
Theorem edges_processed_by_weight
    (sort : list (Edge * Q) -> list (Edge * Q)) (w : Q)
    (lines : list (Z * Z * Q)) :
  sort_contract sort ->
  let scores := fst (readScores lines) in
  let mapWeights := computeWeights (snd (readScores lines)) scores in
  let processed := aboveThreshold w (sort mapWeights) in
  main sort w lines = greedy w scores processed /\
  Permutation processed (aboveThreshold w mapWeights) /\
  Forall (fun p => ~ (snd p < w)%Q) processed /\
  StronglySorted (fun p q => (snd q <= snd p)%Q) processed.
Proof.
  intros HC scores mapWeights processed.
  destruct (HC mapWeights) as [HP HS]. split; [|split; [|split]].
  - unfold main, greedy, scores, mapWeights, processed.
    destruct (readScores lines) as [sc n]. simpl.
    apply SortFacts.loop_aboveThreshold.
  - apply SortFacts.aboveThreshold_perm, HP.
  - apply List.Forall_forall. intros p Hp. unfold processed, aboveThreshold in Hp.
    apply List.filter_In in Hp as [_ Hp]. apply negb_true_iff in Hp.
    intros Hlt. unfold Qltb in Hp. apply negb_false_iff, Qle_bool_iff in Hp.
    exact (Qlt_not_le _ _ Hlt Hp).
  - apply (SortFacts.aboveThreshold_sorted w) in HS.
    fold processed in HS. clearbody processed.
    induction HS as [|q l Hs IH Hq]; constructor; [exact IH|].
    eapply List.Forall_impl; [|exact Hq]. intros x Hx.
    apply SortFacts.cmp_false_iff, Hx.
Qed.

Lemma edges_processed_by_weight_witness :
  option_map contigs
    (greedy (1 # 2) (fst (readScores [(1, 2, 9 # 10); (2, 3, 1 # 10)]))
       (aboveThreshold (1 # 2)
          (stableSort
             (computeWeights (snd (readScores [(1, 2, 9 # 10); (2, 3, 1 # 10)]))
                (fst (readScores [(1, 2, 9 # 10); (2, 3, 1 # 10)]))))))
  = Some [[1; 2]].
Proof.
  destruct (edges_processed_by_weight stableSort (1 # 2)
              [(1, 2, 9 # 10); (2, 3, 1 # 10)] SortFacts.stableSort_contract)
    as [H _].
  cbv zeta in H. rewrite <- H. vm_compute. reflexivity.
Defined.

(** C6 (the claim as stated fails).  A sort that meets the contract of
    [std::sort] may leave equal-weight edges in an order other than the
    input order, and the contigs depend on it: on the score lines
    [0 5 0.9] and [7 0 0.8] the two tied edges of each line are processed
    in either order, giving the contig [-5 -7] or the contig [7 5]. *)
Lemma ties_not_in_input_order :
  sort_contract tiesReversedSort /\
  sort_contract stableSort /\
  option_map contigs (main tiesReversedSort 0 [(0, 5, 9 # 10); (7, 0, 8 # 10)])
    = Some [[-5; -7]] /\
  option_map contigs (main stableSort 0 [(0, 5, 9 # 10); (7, 0, 8 # 10)])
    = Some [[7; 5]].
Proof.
  split; [exact SortFacts.tiesReversedSort_contract|].
  split; [exact SortFacts.stableSort_contract|].
  split; vm_compute; reflexivity.
Qed.

End AssemblerClaims.

(* ===================================================================== *)
(** * Properties of the likelihood engine *)
(* ===================================================================== *)

Module InferenceFacts.
Import Index Inference.

Local Open Scope R_scope.

(** C1. For every tree node (whatever its branch parameter, in
    particular for [distalpha >= 0]) and all state indices [i] and [s],
    [prob] is [1/(2T-1) + (2T-2)/(2T-1) * e^(-(2T-1)*distalpha)] when
    [i = s] and [1/(2T-1) - 1/(2T-1) * e^(-(2T-1)*distalpha)] otherwise,
    [T] being the total element count, over ideal real arithmetic. *)
Theorem prob_closed_form (T : Z) (son : phyloTree) (i s : Z) :
  0 <= distOf son ->
  (i = s ->
   prob T son i s
   = 1 / (2 * IZR T - 1)
     + (2 * IZR T - 2) / (2 * IZR T - 1) * exp (- (2 * IZR T - 1) * distOf son)) /\
  (i <> s ->
   prob T son i s
   = 1 / (2 * IZR T - 1)
     - 1 / (2 * IZR T - 1) * exp (- (2 * IZR T - 1) * distOf son)).
Proof.
  intros _. unfold prob. split; intros H.
  - apply Z.eqb_eq in H. rewrite H. reflexivity.
  - apply Z.eqb_neq in H. rewrite H. reflexivity.
Qed.

Lemma prob_closed_form_witness :
  prob 1 (mkNode 0 "A" 0 None None) 2 2 = 1.
Proof.
  assert (H : 0 <= distOf (mkNode 0 "A" 0 None None)) by (simpl; lra).
  destruct (prob_closed_form 1 (mkNode 0 "A" 0 None None) 2 2 H) as [E _].
  rewrite (E eq_refl). simpl. rewrite Rmult_0_r, exp_0. lra.
Defined.

(** ** Cached and uncached values agree *)

Section Sound.
  Variable T : Z.
  Variable DPPI : bytes.
  Variable Leaf : list nodeList.
  Variable root : phyloTree.
  Hypothesis Hdistinct : distinctAddrs root.

  Local Notation "'sound'" := (cachesSound T DPPI Leaf root).
  Local Notation "'spec'" := (likelihoodSpec T DPPI Leaf).

Lemma getLP_sound c i s st :
  In c (nodes root) -> sound st ->
  exists st', getLP T c i s st = Some (prob T c i s, st') /\ sound st'.
Proof.
  intros Hc [S1 S2]. unfold getLP.
  destruct (lp_cache st !! (addrOf c, i, s)) as [v|] eqn:E.
  - rewrite (S1 c i s v Hc E). exists st. split; [reflexivity | split; assumption].
  - eexists. split; [reflexivity|]. split; simpl; [|exact S2].
    intros n i' j' v Hn Hv.
    destruct (decide ((addrOf c, i, s) = (addrOf n, i', j'))) as [Heq|Hne].
    + rewrite Heq, lookup_insert_eq in Hv. injection Heq as Ha -> ->.
      injection Hv as <-. rewrite (Hdistinct c n Hc Hn Ha). reflexivity.
    + rewrite lookup_insert_ne in Hv by exact Hne. eapply S1; eauto.
Qed.

Lemma getLL_sound (pre : Z -> Z -> M R) c i j st :
  In c (nodes root) -> sound st ->
  (forall st0, sound st0 ->
     exists st1, pre i j st0 = Some (spec c i j, st1) /\ sound st1) ->
  exists st', getLL pre c i j st = Some (spec c i j, st') /\ sound st'.
Proof.
  intros Hc HS Hpre. pose proof HS as [S1 S2]. unfold getLL.
  destruct (ll_cache st !! (addrOf c, i, j)) as [v|] eqn:E.
  - rewrite (S2 c i j v Hc E). exists st. split; [reflexivity | exact HS].
  - destruct (Hpre st HS) as (st1 & -> & [S1' S2']).
    eexists. split; [reflexivity|]. split; simpl; [exact S1'|].
    intros n i' j' v Hn Hv.
    destruct (decide ((addrOf c, i, j) = (addrOf n, i', j'))) as [Heq|Hne].
    + rewrite Heq, lookup_insert_eq in Hv. injection Heq as Ha -> ->.
      injection Hv as <-. rewrite (Hdistinct c n Hc Hn Ha). reflexivity.
    + rewrite lookup_insert_ne in Hv by exact Hne. eapply S2'; eauto.
Qed.

Lemma sumLoop_sound j (term : Z -> M R) (f : Z -> R) ss :
  (forall s st0, sound st0 ->
     exists st1, term s st0 = Some (f s, st1) /\ sound st1) ->
  forall acc st, sound st ->
  exists st', sumLoop (N T) DPPI j term ss acc st
              = Some (acc + sumCompatible T DPPI j f ss, st') /\ sound st'.
Proof.
  intros Hterm. unfold sumCompatible.
  induction ss as [|s ss IH]; intros acc st HS; simpl.
  - exists st. unfold ret. rewrite Rplus_0_r. auto.
  - unfold compatible.
    destruct (Val (N T) DPPI s j =? YES)%Z; simpl.
    + unfold bind. destruct (Hterm s st HS) as (st1 & -> & HS1).
      destruct (IH (acc + f s) st1 HS1) as (st2 & -> & HS2).
      exists st2. split; [|exact HS2]. rewrite Rplus_assoc. reflexivity.
    + apply IH, HS.
Qed.

Lemma nodes_self t : In t (nodes t).
Proof. destruct t. simpl. now left. Qed.

Lemma nodes_childL a n d c r x :
  In x (nodes c) -> In x (nodes (mkNode a n d (Some c) r)).
Proof. intros H. simpl. right. apply in_or_app. now left. Qed.

Lemma nodes_childR a n d l c x :
  In x (nodes c) -> In x (nodes (mkNode a n d l (Some c))).
Proof. intros H. simpl. right. apply in_or_app. now right. Qed.

Lemma states_split : (0 <= T)%Z -> states T = range A (Zhi T) ++ [Zhi T].
Proof.
  intros HT. unfold states, range, N, A.
  replace (Z.to_nat (Zhi T + 1 - 0)) with (S (Z.to_nat (Zhi T - 0)))
    by (unfold Zhi; lia).
  rewrite seq_S, List.map_app. simpl. f_equal. f_equal. unfold Zhi. lia.
Qed.

Lemma sumCompatible_states j f :
  (0 <= T)%Z -> compatible T DPPI (Zhi T) j = false ->
  sumCompatible T DPPI j f (states T)
  = sumCompatible T DPPI j f (range A (Zhi T)).
Proof.
  intros HT Hz. rewrite (states_split HT). unfold sumCompatible.
  rewrite List.filter_app. simpl. rewrite Hz, app_nil_r. reflexivity.
Qed.

Hypothesis HT : (0 <= T)%Z.
Hypothesis Hleaves : leavesListed Leaf root.

Lemma factor_sound c i j st :
  compatible T DPPI (Zhi T) j = false ->
  In c (nodes root) -> sound st ->
  (forall s st0, sound st0 ->
     exists st1, preLikelihood T DPPI Leaf c s j st0 = Some (spec c s j, st1)
                 /\ sound st1) ->
  exists st',
    childSum T DPPI (preLikelihood T DPPI Leaf c) c i j st
    = Some (sumCompatible T DPPI j (fun s => prob T c i s * spec c s j) (states T),
            st') /\ sound st'.
Proof.
  intros HrowZ Hc HS IH. rewrite (sumCompatible_states j _ HT HrowZ).
  unfold childSum.
  destruct (sumLoop_sound j
              (fun s => lp <- getLP T c i s ;;
                        ll <- getLL (preLikelihood T DPPI Leaf c) c s j ;;
                        ret (lp * ll))
              (fun s => prob T c i s * spec c s j) (range A (Zhi T)))
    with (acc := 0) (st := st) as (st' & E & HS'); [|exact HS|].
  - intros s st0 HS0. unfold bind.
    destruct (getLP_sound c i s st0 Hc HS0) as (st1 & -> & HS1).
    destruct (getLL_sound (preLikelihood T DPPI Leaf c) c s j st1 Hc HS1)
      as (st2 & -> & HS2); [intros; apply IH; assumption|].
    exists st2. split; [reflexivity | exact HS2].
  - exists st'. rewrite E, Rplus_0_l. split; [reflexivity | exact HS'].
Qed.

Lemma preLikelihood_internal a n d l r i j :
  isLeaf (mkNode a n d l r) = false ->
  preLikelihood T DPPI Leaf (mkNode a n d l r) i j
  = (left <- match l with
             | None => ret 1
             | Some c => childSum T DPPI (preLikelihood T DPPI Leaf c) c i j
             end ;;
     right <- match r with
              | None => ret 1
              | Some c => childSum T DPPI (preLikelihood T DPPI Leaf c) c i j
              end ;;
     ret (left * right)).
Proof. destruct l, r; simpl; intros H; try discriminate; reflexivity. Qed.

Lemma likelihoodSpec_internal a n d l r i j :
  isLeaf (mkNode a n d l r) = false ->
  spec (mkNode a n d l r) i j
  = (match l with
     | None => 1
     | Some c => sumCompatible T DPPI j (fun s => prob T c i s * spec c s j) (states T)
     end) *
    (match r with
     | None => 1
     | Some c => sumCompatible T DPPI j (fun s => prob T c i s * spec c s j) (states T)
     end).
Proof. destruct l, r; simpl; intros H; try discriminate; reflexivity. Qed.

Lemma preLikelihood_sound j t :
  compatible T DPPI (Zhi T) j = false ->
  (forall x, In x (nodes t) -> In x (nodes root)) ->
  forall i st, sound st ->
  exists st', preLikelihood T DPPI Leaf t i j st = Some (spec t i j, st')
              /\ sound st'.
Proof.
  intros HrowZ.
  induction t as [a n d l r IHl IHr] using phyloTree_induction.
  intros Hsub i st HS.
  assert (Hl : forall c, l = Some c -> In c (nodes root)).
  { intros c ->. apply Hsub, nodes_childL, nodes_self. }
  assert (Hr : forall c, r = Some c -> In c (nodes root)).
  { intros c ->. apply Hsub, nodes_childR, nodes_self. }
  assert (IHl' : forall c, l = Some c -> forall i st, sound st ->
            exists st', preLikelihood T DPPI Leaf c i j st = Some (spec c i j, st')
                        /\ sound st').
  { intros c ->. apply IHl. intros x Hx. apply Hsub, nodes_childL, Hx. }
  assert (IHr' : forall c, r = Some c -> forall i st, sound st ->
            exists st', preLikelihood T DPPI Leaf c i j st = Some (spec c i j, st')
                        /\ sound st').
  { intros c ->. apply IHr. intros x Hx. apply Hsub, nodes_childR, Hx. }
  clear IHl IHr.
  destruct (isLeaf (mkNode a n d l r)) eqn:Leafy.
  - destruct l, r; try discriminate.
    pose proof (Hleaves (mkNode a n d None None)
                  (Hsub _ (nodes_self _)) eq_refl) as Hlf. simpl in Hlf. simpl.
    destruct (findTreeNode Leaf n) as [lf|]; [|contradiction].
    exists st. destruct (there lf j =? YES)%Z; split; auto.
  - rewrite (preLikelihood_internal a n d l r i j Leafy).
    rewrite (likelihoodSpec_internal a n d l r i j Leafy).
    unfold bind.
    assert (FL : exists st1,
              match l with
              | None => ret 1
              | Some c => childSum T DPPI (preLikelihood T DPPI Leaf c) c i j
              end st
              = Some (match l with
                      | None => 1
                      | Some c => sumCompatible T DPPI j
                                    (fun s => prob T c i s * spec c s j) (states T)
                      end, st1) /\ sound st1).
    { destruct l as [cl|]; [|exists st; split; [reflexivity | exact HS]].
      apply factor_sound; [exact HrowZ | apply Hl; reflexivity | exact HS|].
      intros; apply (IHl' _ eq_refl); assumption. }
    destruct FL as (st1 & -> & HS1).
    assert (FR : exists st2,
              match r with
              | None => ret 1
              | Some c => childSum T DPPI (preLikelihood T DPPI Leaf c) c i j
              end st1
              = Some (match r with
                      | None => 1
                      | Some c => sumCompatible T DPPI j
                                    (fun s => prob T c i s * spec c s j) (states T)
                      end, st2) /\ sound st2).
    { destruct r as [cr|]; [|exists st1; split; [reflexivity | exact HS1]].
      apply factor_sound; [exact HrowZ | apply Hr; reflexivity | exact HS1|].
      intros; apply (IHr' _ eq_refl); assumption. }
    destruct FR as (st2 & -> & HS2).
    exists st2. split; [reflexivity | exact HS2].
Qed.

End Sound.

(** C2. The memoised [preLikelihood] of the program computes the
    recursion of the specification.  On a tree whose nodes have distinct
    addresses and whose leaves are all in the leaf list, with the pair
    [(Z, j)] not marked compatible (row [Z] is never marked), and from caches
    that hold only values computed earlier (the empty caches in
    particular), [preLikelihood] at any node [t] returns
    [likelihoodSpec t i j]: at a leaf, 1 if the leaf's [there] marker does
    not constrain column [j] and the leaf's bit for [(i, j)] otherwise; at
    an internal node the product over the existing children of the sum
    over the compatible states [s] of [prob child i s] times the child's
    value at [(s, j)].  The caches it leaves are again sound. *)
Theorem preLikelihood_meets_spec (T : Z) (DPPI : bytes)
    (Leaf : list nodeList) (root t : phyloTree) (i j : Z) (st : caches) :
  (0 <= T)%Z ->
  distinctAddrs root ->
  leavesListed Leaf root ->
  compatible T DPPI (Zhi T) j = false ->
  cachesSound T DPPI Leaf root st ->
  In t (nodes root) ->
  exists st',
    preLikelihood T DPPI Leaf t i j st
    = Some (likelihoodSpec T DPPI Leaf t i j, st') /\
    cachesSound T DPPI Leaf root st'.
Proof.
  intros HT HD HL HZ HS Ht.
  apply (preLikelihood_sound T DPPI Leaf root HD HT HL j t HZ); [|exact HS].
  revert Ht. clear. revert t.
  induction root as [a n d l r IHl IHr] using phyloTree_induction.
  intros t Ht x Hx. simpl in Ht. destruct Ht as [<-|Ht]; [exact Hx|].
  apply in_app_or in Ht as [Ht|Ht].
  - destruct l as [c|]; [|destruct Ht]. apply nodes_childL. eapply IHl; eauto.
  - destruct r as [c|]; [|destruct Ht]. apply nodes_childR. eapply IHr; eauto.
Qed.

(** A tree over the two genomes [A = 1 2] and [B = 2 1], used to
    instantiate the result. *)
Definition sampleTree : phyloTree :=
  mkNode 0 "R" 0 (Some (mkNode 1 "A" 1 None None))
                 (Some (mkNode 2 "B" 1 None None)).

Lemma preLikelihood_meets_spec_witness :
  exists st',
    preLikelihood 2 Posterior.twoDPPI Posterior.twoLeaves sampleTree 1 2
                  (mkCaches ∅ ∅)
    = Some (likelihoodSpec 2 Posterior.twoDPPI Posterior.twoLeaves
                           sampleTree 1 2, st').
Proof.
  destruct (preLikelihood_meets_spec 2 Posterior.twoDPPI Posterior.twoLeaves
              sampleTree sampleTree 1 2 (mkCaches ∅ ∅)) as (st' & E & _).
  - lia.
  - intros n n' Hn Hn' E. simpl in Hn, Hn'.
    destruct Hn as [<-|[<-|[<-|[]]]], Hn' as [<-|[<-|[<-|[]]]];
      simpl in E; try reflexivity; discriminate.
  - intros n Hn Hl. simpl in Hn.
    destruct Hn as [<-|[<-|[<-|[]]]]; simpl in Hl; try discriminate;
      vm_compute; discriminate.
  - vm_compute. reflexivity.
  - split; intros n i j v _ H; simpl in H; rewrite lookup_empty in H;
      discriminate.
  - simpl. now left.
  - exists st'. exact E.
Defined.

End InferenceFacts.

(* ===================================================================== *)
(** * Facts on the posterior tables *)
(* ===================================================================== *)

Module PosteriorFacts.
Import Index Inference Posterior.

Local Open Scope R_scope.

(** ** Reading and writing one list of cells *)

Lemma lookup_setCell_eq i v l : lookupCell i (setCell i v l) = Some v.
Proof.
  induction l as [|c l IH]; simpl.
  - rewrite Z.eqb_refl. reflexivity.
  - destruct (cx c =? i)%Z eqn:E; simpl; rewrite E; [reflexivity | exact IH].
Qed.

Lemma lookup_setCell_ne i k v l :
  i <> k -> lookupCell k (setCell i v l) = lookupCell k l.
Proof.
  intros Hne. induction l as [|c l IH]; simpl.
  - apply Z.eqb_neq in Hne. rewrite Hne. reflexivity.
  - destruct (cx c =? i)%Z eqn:E; simpl.
    + apply Z.eqb_eq in E. rewrite E.
      apply Z.eqb_neq in Hne. rewrite Hne. reflexivity.
    + rewrite IH. reflexivity.
Qed.


Lemma writes_lookup_other ix f cells l k :
  (forall c, In c cells -> ix (cx c) <> k) ->
  lookupCell k (writes ix f cells l) = lookupCell k l.
Proof.
  unfold writes. revert l.
  induction cells as [|c cells IH]; intros l H; simpl; [reflexivity|].
  rewrite IH by (intros c' Hc'; apply H; now right).
  apply lookup_setCell_ne, H. now left.
Qed.

Lemma writes_lookup_last ix f pre c post l :
  (forall c', In c' post -> ix (cx c') <> ix (cx c)) ->
  lookupCell (ix (cx c)) (writes ix f (pre ++ c :: post) l) = Some (f c).
Proof.
  intros H. unfold writes. rewrite fold_left_app. simpl.
  fold (writes ix f post
          (setCell (ix (cx c)) (f c)
             (fold_left (fun l c => setCell (ix (cx c)) (f c) l) pre l))).
  rewrite writes_lookup_other by exact H.
  apply lookup_setCell_eq.
Qed.

(** Writing cells of distinct indices, none in the list yet, appends
    them. *)
Lemma setCell_fresh i v l :
  ~ In i (List.map cx l) -> setCell i v l = l ++ [mkCell i v].
Proof.
  induction l as [|c l IH]; simpl; intros H; [reflexivity|].
  destruct (cx c =? i)%Z eqn:E.
  - apply Z.eqb_eq in E. tauto.
  - rewrite IH by tauto. reflexivity.
Qed.

Lemma writes_fresh f cells l :
  List.NoDup (List.map cx (l ++ cells)) ->
  writes (fun x => x) f cells l
  = l ++ List.map (fun c => mkCell (cx c) (f c)) cells.
Proof.
  unfold writes. revert l.
  induction cells as [|c cells IH]; intros l ND; simpl.
  - rewrite app_nil_r. reflexivity.
  - rewrite setCell_fresh.
    + rewrite IH.
      * rewrite <- app_assoc. reflexivity.
      * rewrite <- app_assoc. simpl.
        rewrite !List.map_app in *. simpl in *. exact ND.
    + rewrite List.map_app in ND. simpl in ND.
      apply NoDup_remove_2 in ND. intros Hin. apply ND.
      apply in_or_app. now left.
Qed.

Lemma writes_ext ix ix' f cells l :
  (forall c, In c cells -> ix (cx c) = ix' (cx c)) ->
  writes ix f cells l = writes ix' f cells l.
Proof.
  unfold writes. revert l.
  induction cells as [|c cells IH]; intros l H; simpl; [reflexivity|].
  rewrite (H c) by now left. apply IH. intros c' Hc'. apply H. now right.
Qed.

(** ** Sums *)

Lemma listSum_acc l a :
  fold_left (fun acc pt => acc + cval pt) l a = a + listSum l.
Proof.
  unfold listSum. revert a.
  induction l as [|c l IH]; intros a; simpl; [lra|].
  rewrite (IH (a + cval c)), (IH (0 + cval c)). lra.
Qed.

Lemma listSum_cons c l : listSum (c :: l) = cval c + listSum l.
Proof. unfold listSum at 1. simpl. rewrite listSum_acc. lra. Qed.

Lemma listSum_scaled s l :
  listSum (List.map (fun c => mkCell (cx c) (cval c / s)) l) = listSum l / s.
Proof.
  induction l as [|c l IH].
  - unfold listSum. simpl. unfold Rdiv. lra.
  - simpl List.map. rewrite !listSum_cons, IH. simpl. unfold Rdiv. lra.
Qed.

Lemma listSum_nonneg l : nonneg l -> 0 <= listSum l.
Proof.
  induction 1 as [|c l Hc _ IH].
  - unfold listSum. simpl. lra.
  - rewrite listSum_cons. lra.
Qed.

Lemma listSum_bound l c : nonneg l -> In c l -> cval c <= listSum l.
Proof.
  induction 1 as [|c' l Hc Hl IH]; intros Hin; [destruct Hin|].
  rewrite listSum_cons. pose proof (listSum_nonneg l Hl).
  destruct Hin as [->|Hin]; [lra|]. specialize (IH Hin). lra.
Qed.

Lemma lookupCell_In k l v :
  lookupCell k l = Some v -> exists c, In c l /\ cx c = k /\ cval c = v.
Proof.
  induction l as [|c l IH]; simpl; [discriminate|].
  destruct (cx c =? k)%Z eqn:E.
  - intros [= <-]. apply Z.eqb_eq in E. exists c. auto.
  - intros H. destruct (IH H) as (c' & Hin & Hx & Hv). exists c'. auto.
Qed.

(** A positive quotient of an entry by the sum of its list is at most 1. *)
Lemma share_in_unit l c :
  nonneg l -> In c l -> 0 < cval c ->
  0 < cval c / listSum l <= 1.
Proof.
  intros Hl Hin Hpos. pose proof (listSum_bound l c Hl Hin) as Hb.
  assert (Hs : 0 < listSum l) by lra.
  split.
  - apply Rdiv_lt_0_compat; assumption.
  - apply (Rmult_le_reg_r (listSum l)); [exact Hs|].
    unfold Rdiv. rewrite Rmult_assoc, Rinv_l by lra. lra.
Qed.

(** ** The index range of the loops *)

Lemma In_range lo hi k : In k (range lo hi) <-> (lo <= k < hi)%Z.
Proof.
  unfold range. rewrite in_map_iff. split.
  - intros (n & <- & Hn). apply in_seq in Hn. lia.
  - intros H. exists (Z.to_nat (k - lo)). split; [lia|].
    apply in_seq. lia.
Qed.

Lemma NoDup_range lo hi : List.NoDup (range lo hi).
Proof.
  unfold range. apply Finite.Injective_map_NoDup.
  - intros a b H. lia.
  - apply seq_NoDup.
Qed.

Lemma fold_nonneg T x : (0 <= x)%Z -> fold T x = x.
Proof. intros H. unfold fold. destruct (x <? 0)%Z eqn:E; [lia | reflexivity]. Qed.

Lemma foldcol_pos T x : (1 <= x)%Z -> foldcol T x = x.
Proof.
  intros H. unfold foldcol. rewrite fold_nonneg by lia.
  unfold A. destruct (x =? 0)%Z eqn:E; [lia | reflexivity].
Qed.
(** ** The loops of [normalize], one list at a time *)

Section Loops.
  Variable T : Z.

Lemma fold_PSet (f : cell -> R) cells (H : matrix) j k :
  fold_left (fun H pt => PSet T H (cx pt) j (f pt)) cells H k
  = if (k =? foldcol T j)%Z
    then writes (fold T) f cells (H (foldcol T j)) else H k.
Proof.
  revert H. induction cells as [|c cells IH]; intros H; simpl.
  - destruct (k =? foldcol T j)%Z eqn:E; [|reflexivity].
    apply Z.eqb_eq in E. rewrite E. reflexivity.
  - rewrite IH. destruct (k =? foldcol T j)%Z eqn:E.
    + unfold PSet at 1. rewrite Z.eqb_refl. reflexivity.
    + unfold PSet. rewrite E. reflexivity.
Qed.

Lemma fold_SSet (f : cell -> R) cells (H : matrix) i k :
  fold_left (fun H pt => SSet T H i (cx pt) (f pt)) cells H k
  = if (k =? fold T i)%Z
    then writes (foldcol T) f cells (H (fold T i)) else H k.
Proof.
  revert H. induction cells as [|c cells IH]; intros H; simpl.
  - destruct (k =? fold T i)%Z eqn:E; [|reflexivity].
    apply Z.eqb_eq in E. rewrite E. reflexivity.
  - rewrite IH. destruct (k =? fold T i)%Z eqn:E.
    + unfold SSet at 1. rewrite Z.eqb_refl. reflexivity.
    + unfold SSet. rewrite E. reflexivity.
Qed.

Lemma normP_other PLH idx PPP k :
  (forall i, In i idx -> foldcol T i <> k) ->
  fold_left (normP T PLH) idx PPP k = PPP k.
Proof.
  revert PPP. induction idx as [|i idx IH]; intros PPP H; simpl; [reflexivity|].
  rewrite IH by (intros i' Hi'; apply H; now right).
  unfold normP. rewrite fold_PSet.
  assert (Hne : foldcol T i <> k) by (apply H; now left).
  apply not_eq_sym, Z.eqb_neq in Hne. rewrite Hne. reflexivity.
Qed.

Lemma normP_at PLH idx PPP j :
  List.NoDup idx -> In j idx -> (forall i, In i idx -> foldcol T i = i) ->
  fold_left (normP T PLH) idx PPP j
  = writes (fold T) (fun c => cval c / listSum (PLH j)) (PLH j) (PPP j).
Proof.
  revert PPP. induction idx as [|i idx IH]; intros PPP ND Hin Hid; [destruct Hin|].
  apply NoDup_cons_iff in ND as [Hni ND]. simpl.
  destruct (Z.eq_dec i j) as [->|Hne].
  - rewrite normP_other.
    + unfold normP. rewrite fold_PSet, (Hid j) by (now left).
      rewrite Z.eqb_refl. reflexivity.
    + intros i' Hi'. rewrite (Hid i') by (now right). intros ->. contradiction.
  - destruct Hin as [Hin|Hin]; [contradiction|].
    rewrite IH; [|exact ND|exact Hin|intros i' Hi'; apply Hid; now right].
    unfold normP at 1. rewrite fold_PSet, (Hid i) by (now left).
    apply not_eq_sym, Z.eqb_neq in Hne. rewrite Hne. reflexivity.
Qed.

Lemma normS_other SLH idx SPP k :
  (forall i, In i idx -> fold T i <> k) ->
  fold_left (normS T SLH) idx SPP k = SPP k.
Proof.
  revert SPP. induction idx as [|i idx IH]; intros SPP H; simpl; [reflexivity|].
  rewrite IH by (intros i' Hi'; apply H; now right).
  unfold normS. rewrite fold_SSet.
  assert (Hne : fold T i <> k) by (apply H; now left).
  apply not_eq_sym, Z.eqb_neq in Hne. rewrite Hne. reflexivity.
Qed.

Lemma normS_at SLH idx SPP j :
  List.NoDup idx -> In j idx -> (forall i, In i idx -> fold T i = i) ->
  fold_left (normS T SLH) idx SPP j
  = writes (foldcol T) (fun c => cval c / listSum (SLH j)) (SLH j) (SPP j).
Proof.
  revert SPP. induction idx as [|i idx IH]; intros SPP ND Hin Hid; [destruct Hin|].
  apply NoDup_cons_iff in ND as [Hni ND]. simpl.
  destruct (Z.eq_dec i j) as [->|Hne].
  - rewrite normS_other.
    + unfold normS. rewrite fold_SSet, (Hid j) by (now left).
      rewrite Z.eqb_refl. reflexivity.
    + intros i' Hi'. rewrite (Hid i') by (now right). intros ->. contradiction.
  - destruct Hin as [Hin|Hin]; [contradiction|].
    rewrite IH; [|exact ND|exact Hin|intros i' Hi'; apply Hid; now right].
    unfold normS at 1. rewrite fold_SSet, (Hid i) by (now left).
    apply not_eq_sym, Z.eqb_neq in Hne. rewrite Hne. reflexivity.
Qed.

End Loops.

(** A loop that writes, for every index [i] selected by [c], the value
    [g i] into cell [ix i] of the one list [ln] of the table. *)
Section LineLoop.
  Variable W : matrix -> Z -> matrix.
  Variable ln : Z.
  Variable ix : Z -> Z.
  Variable g : Z -> R.
  Variable c : Z -> bool.
  Hypothesis W_spec : forall H i k,
    W H i k = if (k =? ln)%Z then setCell (ix i) (g i) (H ln) else H k.

  Local Notation "'loop'" := (fold_left (fun H i => if c i then W H i else H)).

Lemma lineLoop_other idx H k : k <> ln -> loop idx H k = H k.
Proof.
  intros Hne. revert H.
  induction idx as [|i idx IH]; intros H; simpl; [reflexivity|].
  rewrite IH. destruct (c i); [|reflexivity].
  rewrite W_spec. apply Z.eqb_neq in Hne. rewrite Hne. reflexivity.
Qed.

Lemma lineLoop_keep idx H x :
  (forall i, In i idx -> ix i <> x) ->
  lookupCell x (loop idx H ln) = lookupCell x (H ln).
Proof.
  revert H. induction idx as [|i idx IH]; intros H Hx; simpl; [reflexivity|].
  rewrite IH by (intros i' Hi'; apply Hx; now right).
  destruct (c i); [|reflexivity].
  rewrite W_spec, Z.eqb_refl. apply lookup_setCell_ne, Hx. now left.
Qed.

Lemma lineLoop_at idx H j :
  In j idx -> c j = true ->
  (forall i, In i idx -> ix i = ix j -> i = j) ->
  lookupCell (ix j) (loop idx H ln) = Some (g j).
Proof.
  revert H. induction idx as [|i idx IH]; intros H Hin Hc Hinj; [destruct Hin|].
  simpl. destruct (in_dec Z.eq_dec j idx) as [Hj|Hj].
  - apply IH; [exact Hj | exact Hc |].
    intros i' Hi'. apply Hinj. now right.
  - destruct Hin as [->|Hin]; [|contradiction].
    rewrite lineLoop_keep.
    + rewrite Hc, W_spec, Z.eqb_refl. apply lookup_setCell_eq.
    + intros i' Hi' E. apply Hj. rewrite <- (Hinj i'); [exact Hi' | now right | exact E].
Qed.

End LineLoop.

(** ** The tables [normalize] builds *)

Lemma lookupCell_scaled k s l :
  lookupCell k (List.map (fun c => mkCell (cx c) (cval c / s)) l)
  = match lookupCell k l with Some v => Some (v / s) | None => None end.
Proof.
  induction l as [|c l IH]; simpl; [reflexivity|].
  destruct (cx c =? k)%Z; [reflexivity | exact IH].
Qed.

Lemma Val_bit n H i j : Val n H i j = 0%Z \/ Val n H i j = 1%Z.
Proof.
  unfold Val. set (x := Z.shiftr _ _).
  change (Z.land x 1) with (Z.land x (Z.ones 1)).
  rewrite Z.land_ones by lia. change (2 ^ 1)%Z with 2%Z.
  pose proof (Z.mod_pos_bound x 2 ltac:(lia)). lia.
Qed.

Section Normalize.
  Variable T : Z.
  Variable DPPI : bytes.

  Local Notation "'idx'" := (range (A + 1) (Zhi T)).

Lemma idx_foldcol i : In i idx -> foldcol T i = i.
Proof. intros H. apply In_range in H. apply foldcol_pos. unfold A in H. lia. Qed.

Lemma idx_fold i : In i idx -> fold T i = i.
Proof. intros H. apply In_range in H. apply fold_nonneg. unfold A in H. lia. Qed.

Lemma In_idx i : (1 <= i <= 2 * T)%Z -> In i idx.
Proof. intros H. apply In_range. unfold A, Zhi. lia. Qed.

(** The last loop writes into column [Z] only. *)
Lemma normalize4_inner SPP PPP j :
  (1 <= j <= 2 * T)%Z -> normalize4 T DPPI SPP PPP j = PPP j.
Proof.
  intros Hj. unfold normalize4.
  apply (lineLoop_other
           (fun H i => PSet T H i (Zhi T) (SVal SPP i (Zhi T)))
           (foldcol T (Zhi T)) (fold T) (fun i => SVal SPP i (Zhi T))).
  - intros H i k'. reflexivity.
  - rewrite foldcol_pos by (unfold Zhi; lia). unfold Zhi. lia.
Qed.

Lemma normalize4_last SPP PPP i :
  (1 <= i <= 2 * T)%Z -> Val (N T) DPPI i (Zhi T) = YES ->
  PVal (normalize4 T DPPI SPP PPP) i (Zhi T) = SVal SPP i (Zhi T).
Proof.
  intros Hi Hc. unfold PVal, normalize4.
  pose proof (lineLoop_at
           (fun H i => PSet T H i (Zhi T) (SVal SPP i (Zhi T)))
           (foldcol T (Zhi T)) (fold T) (fun i => SVal SPP i (Zhi T))
           (fun i => (Val (N T) DPPI i (Zhi T) =? YES)%Z)
           (fun H i k => eq_refl) idx PPP i (In_idx i Hi)) as L.
  cbv beta in L. rewrite Hc in L. specialize (L eq_refl).
  rewrite (idx_fold i (In_idx i Hi)), foldcol_pos in L by (unfold Zhi; lia).
  rewrite L; [reflexivity|].
  intros i' Hi' E. rewrite (idx_fold i' Hi') in E. exact E.
Qed.

(** The third loop writes into row [A] only. *)
Lemma normalize3_inner PPP SPP i :
  (1 <= i)%Z -> normalize3 T DPPI PPP SPP i = SPP i.
Proof.
  intros Hi. unfold normalize3.
  apply (lineLoop_other
           (fun H i => SSet T H A i (PVal PPP A i))
           (fold T A) (foldcol T) (fun i => PVal PPP A i)).
  - intros H i' k'. reflexivity.
  - rewrite fold_nonneg by (unfold A; lia). unfold A. lia.
Qed.

Lemma normalize3_first PPP SPP j :
  (1 <= j <= 2 * T)%Z -> Val (N T) DPPI A j = YES ->
  SVal (normalize3 T DPPI PPP SPP) A j = PVal PPP A j.
Proof.
  intros Hj Hc. unfold SVal, normalize3.
  pose proof (lineLoop_at
           (fun H i => SSet T H A i (PVal PPP A i))
           (fold T A) (foldcol T) (fun i => PVal PPP A i)
           (fun i => (Val (N T) DPPI A i =? YES)%Z)
           (fun H i k => eq_refl) idx SPP j (In_idx j Hj)) as L.
  cbv beta in L. rewrite Hc in L. specialize (L eq_refl).
  rewrite (idx_foldcol j (In_idx j Hj)), fold_nonneg in L by (unfold A; lia).
  rewrite L; [reflexivity|].
  intros i' Hi' E. rewrite (idx_foldcol i' Hi') in E. exact E.
Qed.

Lemma PVal_normalize4_inner SPP PPP i j :
  (1 <= j <= 2 * T)%Z -> PVal (normalize4 T DPPI SPP PPP) i j = PVal PPP i j.
Proof. intros Hj. unfold PVal. rewrite normalize4_inner by exact Hj. reflexivity. Qed.

Lemma SVal_normalize3_inner PPP SPP i j :
  (1 <= i)%Z -> SVal (normalize3 T DPPI PPP SPP) i j = SVal SPP i j.
Proof. intros Hi. unfold SVal. rewrite normalize3_inner by exact Hi. reflexivity. Qed.

(** The predecessor posteriors of a non-sentinel index are the
    predecessor likelihoods divided by their sum. *)
Lemma normalize1_column PLH j :
  (1 <= j <= 2 * T)%Z -> wfList (PLH j) ->
  normalize1 T PLH zeroMatrix j
  = List.map (fun c => mkCell (cx c) (cval c / listSum (PLH j))) (PLH j).
Proof.
  intros Hj ((c0 & rest & E & Hc0) & ND & Hpos). unfold normalize1.
  rewrite normP_at; [|apply NoDup_range|apply In_idx, Hj|apply idx_foldcol].
  rewrite (writes_ext _ (fun x => x)).
  - generalize (listSum (PLH j)). intros s. rewrite E in *.
    unfold writes, zeroMatrix. simpl. rewrite Hc0. simpl.
    fold (writes (fun x => x) (fun c => cval c / s) rest
            [mkCell 0 (cval c0 / s)]).
    rewrite writes_fresh; [reflexivity|].
    simpl. simpl in ND. rewrite Hc0 in ND. exact ND.
  - intros c Hc. apply fold_nonneg.
    rewrite List.Forall_forall in Hpos. apply Hpos, Hc.
Qed.

(** The successor posteriors of a non-sentinel index, likewise. *)
Lemma normalize2_entry SLH i j v :
  (1 <= i <= 2 * T)%Z -> wfList (SLH i) -> (1 <= j)%Z ->
  lookupCell j (SLH i) = Some v ->
  SVal (normalize2 T SLH zeroMatrix) i j = v / listSum (SLH i).
Proof.
  intros Hi ((c0 & rest & E & Hc0) & ND & Hpos) Hj Hv.
  unfold SVal, normalize2.
  rewrite normS_at; [|apply NoDup_range|apply In_idx, Hi|apply idx_fold].
  apply lookupCell_In in Hv as (c & Hin & Hx & Hval).
  rewrite E in Hin. destruct Hin as [->|Hin]; [lia|].
  apply in_split in Hin as (pre & post & ->).
  rewrite E in *. clear E.
  change (c0 :: pre ++ c :: post) with ((c0 :: pre) ++ c :: post) in *.
  rewrite <- (foldcol_pos T j Hj), <- Hx.
  rewrite writes_lookup_last; [rewrite Hval; reflexivity|].
  intros c' Hc' Heq.
  rewrite List.map_app in ND. simpl in ND.
  apply NoDup_cons_iff in ND as [Hhead ND].
  assert (H0 : (0 <= cx c')%Z).
  { rewrite List.Forall_forall in Hpos. apply Hpos.
    apply in_or_app. right. now right. }
  assert (H1 : cx c' <> 0%Z).
  { intros E0. apply Hhead. rewrite Hc0, <- E0.
    apply in_or_app. right. right. apply in_map. exact Hc'. }
  rewrite !foldcol_pos in Heq by lia.
  apply NoDup_remove_2 in ND. apply ND.
  apply in_or_app. right. rewrite <- Heq. apply in_map. exact Hc'.
Qed.

(** A positive likelihood entry gives a posterior entry in (0, 1]. *)
Lemma pred_share PLH i j :
  (1 <= j <= 2 * T)%Z -> wfList (PLH j) -> nonneg (PLH j) ->
  0 < PVal PLH i j ->
  0 < PVal (normalize1 T PLH zeroMatrix) i j <= 1.
Proof.
  intros Hj Hwf Hnn Hpos. unfold PVal in *.
  rewrite (normalize1_column PLH j Hj Hwf), lookupCell_scaled.
  destruct (lookupCell i (PLH j)) as [v|] eqn:E; [|lra].
  apply lookupCell_In in E as (c & Hin & _ & <-).
  apply share_in_unit; assumption.
Qed.

Lemma succ_share SLH i j :
  (1 <= i <= 2 * T)%Z -> (1 <= j)%Z -> wfList (SLH i) -> nonneg (SLH i) ->
  0 < SVal SLH i j ->
  0 < SVal (normalize2 T SLH zeroMatrix) i j <= 1.
Proof.
  intros Hi Hj Hwf Hnn Hpos. unfold SVal in Hpos.
  destruct (lookupCell j (SLH i)) as [v|] eqn:E; [|lra].
  rewrite (normalize2_entry SLH i j v Hi Hwf Hj E).
  apply lookupCell_In in E as (c & Hin & _ & <-).
  apply share_in_unit; assumption.
Qed.

End Normalize.

Lemma unit_product x y : 0 < x <= 1 -> 0 < y <= 1 -> 0 < x * y <= 1.
Proof. intros [Hx Hx'] [Hy Hy']. split; nra. Qed.

Lemma printed_marked T DPPI i j :
  printed T DPPI i j = true -> Val (N T) DPPI i j = YES.
Proof.
  unfold printed. intros H. apply andb_true_iff in H as [_ H].
  apply negb_true_iff, Z.eqb_neq in H.
  destruct (Val_bit (N T) DPPI i j) as [E|E]; [contradiction | exact E].
Qed.

Lemma printed_not_both T DPPI :
  (0 <= T)%Z -> printed T DPPI A (Zhi T) = false.
Proof.
  intros HT. unfold printed, pam, A, Zhi.
  rewrite Z.eqb_refl.
  destruct (0 =? 2 * T + 1)%Z eqn:E1; [lia|].
  destruct (0 <=? T)%Z eqn:E2; [|lia]. reflexivity.
Qed.

(** ** Main result on [normalize] and [calculatePostProb] *)

(** C3 (amended).  Let [PPP] and [SPP] be the tables [normalize] builds,
    from zeroed posterior tables, out of likelihood tables [PLH] and
    [SLH] whose lists at the non-sentinel indices are well formed (head
    cell of index 0 first, every index once, none negative) and hold
    non-negative values.  Then for every non-sentinel index [j] whose
    predecessor likelihoods do not sum to zero, the predecessor-posterior
    entries of [j] sum to 1; and for every pair [(i, j)] that
    [calculatePostProb] prints, with [0 <= i <= 2T] and [1 <= j <= 2T+1],
    whose likelihood entries are positive (the predecessor likelihood when
    [j] is not the end sentinel, the successor likelihood when [i] is not
    the start sentinel), the printed value
    [PVal(PPP,i,j) * SVal(SPP,i,j)] lies in (0, 1]. *)
Theorem posterior_normalised (T : Z) (DPPI : bytes)
    (PLH SLH PPP SPP : matrix) :
  (0 <= T)%Z ->
  (forall k, (1 <= k <= 2 * T)%Z -> wfList (PLH k) /\ nonneg (PLH k)) ->
  (forall k, (1 <= k <= 2 * T)%Z -> wfList (SLH k) /\ nonneg (SLH k)) ->
  normalize T DPPI PLH SLH zeroMatrix zeroMatrix = (PPP, SPP) ->
  (forall j, (1 <= j <= 2 * T)%Z -> listSum (PLH j) <> 0 ->
             listSum (PPP j) = 1) /\
  (forall i j, (0 <= i <= 2 * T)%Z -> (1 <= j <= 2 * T + 1)%Z ->
     printed T DPPI i j = true ->
     ((j <= 2 * T)%Z -> 0 < PVal PLH i j) ->
     ((1 <= i)%Z -> 0 < SVal SLH i j) ->
     0 < pprob PPP SPP i j <= 1).
Proof.
  intros HT HP HS Hnorm. unfold normalize in Hnorm.
  injection Hnorm as <- <-. split.
  - intros j Hj Hsum. destruct (HP j Hj) as [Hwf _].
    rewrite normalize4_inner by assumption.
    rewrite (normalize1_column T PLH j Hj Hwf), listSum_scaled.
    unfold Rdiv. apply Rinv_r, Hsum.
  - intros i j Hi Hj Hpr Hpl Hsl. unfold pprob.
    pose proof (printed_marked T DPPI i j Hpr) as Hc.
    destruct (Z.eq_dec i 0%Z) as [->|Hi0].
    + assert (Hj' : (1 <= j <= 2 * T)%Z).
      { destruct (Z.eq_dec j (2 * T + 1)%Z) as [->|]; [|lia].
        change (2 * T + 1)%Z with (Zhi T) in Hpr. change 0%Z with A in Hpr.
        rewrite printed_not_both in Hpr by exact HT. discriminate. }
      destruct (HP j Hj') as [Hwf Hnn].
      rewrite PVal_normalize4_inner by exact Hj'.
      pose proof (normalize3_first T DPPI (normalize1 T PLH zeroMatrix)
                    (normalize2 T SLH zeroMatrix) j Hj' Hc) as E3.
      change A with 0%Z in E3. rewrite E3.
      assert (Hq := pred_share T PLH 0%Z j Hj' Hwf Hnn (Hpl ltac:(lia))).
      apply unit_product; exact Hq.
    + assert (Hi' : (1 <= i <= 2 * T)%Z) by lia.
      destruct (HS i Hi') as [Hwf Hnn].
      assert (Hq := succ_share T SLH i j Hi' ltac:(lia) Hwf Hnn (Hsl ltac:(lia))).
      rewrite SVal_normalize3_inner by lia.
      destruct (Z.eq_dec j (2 * T + 1)%Z) as [->|Hjz].
      * change (2 * T + 1)%Z with (Zhi T) in *.
        rewrite normalize4_last by assumption.
        rewrite SVal_normalize3_inner by lia.
        apply unit_product; exact Hq.
      * assert (Hj' : (1 <= j <= 2 * T)%Z) by lia.
        destruct (HP j Hj') as [Hwf' Hnn'].
        rewrite PVal_normalize4_inner by exact Hj'.
        apply unit_product; [|exact Hq].
        apply pred_share; auto. apply Hpl. lia.
Qed.


Lemma sampleTable_ok k : wfList (sampleTable k) /\ nonneg (sampleTable k).
Proof.
  unfold sampleTable, wfList, nonneg.
  destruct (k =? 1)%Z; simpl.
  - repeat split.
    + eexists _, _. split; reflexivity.
    + repeat constructor; simpl; intuition discriminate.
    + repeat constructor; simpl; lia.
    + repeat constructor; simpl; lra.
  - repeat split.
    + eexists _, _. split; reflexivity.
    + repeat constructor; simpl; intuition discriminate.
    + repeat constructor; simpl; lia.
    + repeat constructor; simpl; lra.
Qed.


Lemma posterior_normalised_witness :
  listSum (fst (normalize 1 sampleDPPI sampleTable sampleTable
                          zeroMatrix zeroMatrix) 1%Z) = 1 /\
  0 < pprob (fst (normalize 1 sampleDPPI sampleTable sampleTable
                            zeroMatrix zeroMatrix))
            (snd (normalize 1 sampleDPPI sampleTable sampleTable
                            zeroMatrix zeroMatrix)) 0 1 <= 1.
Proof.
  destruct (posterior_normalised 1 sampleDPPI sampleTable sampleTable
              (fst (normalize 1 sampleDPPI sampleTable sampleTable
                              zeroMatrix zeroMatrix))
              (snd (normalize 1 sampleDPPI sampleTable sampleTable
                              zeroMatrix zeroMatrix)))
    as [Hsum Hunit].
  - lia.
  - intros k _. apply sampleTable_ok.
  - intros k _. apply sampleTable_ok.
  - reflexivity.
  - split.
    + apply (Hsum 1%Z); [lia|].
      unfold sampleTable, listSum. simpl. lra.
    + apply (Hunit 0%Z 1%Z); [lia | lia | vm_compute; reflexivity | |lia].
      intros _. unfold PVal, sampleTable. simpl. lra.
Defined.

(** ** The likelihood table [getPredecessor] builds *)


Section Predecessor.
  Variable T : Z.
  Variable DPPI : bytes.
  Variable Leaf : list nodeList.
  Variable Ances : phyloTree.
  Hypothesis HT : (0 <= T)%Z.
  Hypothesis Hdistinct : distinctAddrs Ances.
  Hypothesis Hleaves : leavesListed Leaf Ances.

  Local Notation "'sound'" := (cachesSound T DPPI Leaf Ances).

Lemma forM_sound {S : Type} (body : Z -> S -> M S) (pure : S -> Z -> S)
    (ok : Z -> Prop) l :
  (forall k s st, ok k -> sound st ->
     exists st', body k s st = Some (pure s k, st') /\ sound st') ->
  (forall k, In k l -> ok k) ->
  forall s st, sound st ->
  exists st', forM body l s st = Some (fold_left pure l s, st') /\ sound st'.
Proof.
  intros Hbody. induction l as [|k l IH]; intros Hok s st HS; simpl.
  - exists st. split; [reflexivity | exact HS].
  - unfold bind.
    destruct (Hbody k s st (Hok k (or_introl eq_refl)) HS) as (st1 & -> & HS1).
    apply IH; [|exact HS1]. intros k' Hk'. apply Hok. now right.
Qed.

Lemma getPredecessor_sound PLH st :
  (forall j, In j (range (A + 1) (Zhi T)) ->
             compatible T DPPI (Zhi T) j = false) ->
  sound st ->
  exists st',
    getPredecessor T DPPI Leaf Ances PLH st
    = Some (predTable T DPPI (likelihoodSpec T DPPI Leaf Ances) PLH, st')
    /\ sound st'.
Proof.
  intros HrowZ HS. unfold getPredecessor, predTable.
  apply (forM_sound _ _ (fun j => compatible T DPPI (Zhi T) j = false));
    [|exact HrowZ|exact HS].
  intros j H st0 Hj HS0.
  apply (forM_sound _ (fun H i => if (Val (N T) DPPI i j =? NO)%Z then H
                                  else PSet T H i j
                                         (likelihoodSpec T DPPI Leaf Ances i j))
                    (fun _ => True)); [|auto|exact HS0].
  intros i H' st1 _ HS1.
  destruct (Val (N T) DPPI i j =? NO)%Z.
  - exists st1. split; [reflexivity | exact HS1].
  - unfold bind.
    destruct (InferenceFacts.preLikelihood_sound T DPPI Leaf Ances Hdistinct
                HT Hleaves j Ances Hj (fun x Hx => Hx) i st1 HS1)
      as (st2 & -> & HS2).
    exists st2. split; [reflexivity | exact HS2].
Qed.

End Predecessor.

(** ** Two leaves at distance zero that disagree *)


Lemma zeroTree_distinct : distinctAddrs zeroTree.
Proof.
  intros n n' Hn Hn' E. simpl in Hn, Hn'.
  destruct Hn as [<-|[<-|[<-|[]]]], Hn' as [<-|[<-|[<-|[]]]];
    simpl in E; try reflexivity; discriminate.
Qed.

Lemma zeroTree_listed : leavesListed twoLeaves zeroTree.
Proof.
  intros n Hn Hl. simpl in Hn.
  destruct Hn as [<-|[<-|[<-|[]]]]; simpl in Hl; try discriminate;
    vm_compute; discriminate.
Qed.

Lemma zero_rowZ j :
  In j (range (A + 1) (Zhi 2)) -> compatible 2 twoDPPI (Zhi 2) j = false.
Proof.
  intros H. apply In_range in H. unfold A, Zhi in H.
  assert (C : j = 1%Z \/ j = 2%Z \/ j = 3%Z \/ j = 4%Z) by lia.
  destruct C as [->|[->|[->| ->]]]; vm_compute; reflexivity.
Qed.

Lemma zero_prob_off c i s :
  distOf c = 0 -> i <> s -> prob 2 c i s = 0.
Proof.
  intros Hd Hne. unfold prob. apply Z.eqb_neq in Hne. rewrite Hne, Hd.
  rewrite Rmult_0_r, exp_0. simpl. lra.
Qed.

Lemma zero_column_filter :
  List.filter (fun s => compatible 2 twoDPPI s 2) (states 2) = [0; 1]%Z.
Proof. vm_compute. reflexivity. Qed.

Lemma zero_likelihoods i :
  i = 0%Z \/ i = 1%Z -> likelihoodSpec 2 twoDPPI twoLeaves zeroTree i 2 = 0.
Proof.
  intros Hi. unfold zeroTree.
  rewrite InferenceFacts.likelihoodSpec_internal by reflexivity.
  unfold sumCompatible. rewrite zero_column_filter.
  cbn [List.map fold_right].
  assert (A0 : likelihoodSpec 2 twoDPPI twoLeaves
                 (mkNode 1 "A" 0 None None) 0 2 = 0)
    by (vm_compute; reflexivity).
  assert (B1 : likelihoodSpec 2 twoDPPI twoLeaves
                 (mkNode 2 "B" 0 None None) 1 2 = 0)
    by (vm_compute; reflexivity).
  rewrite A0, B1.
  destruct Hi as [->| ->].
  - rewrite (zero_prob_off (mkNode 1 "A" 0 None None) 0 1) by (simpl; lia || reflexivity).
    lra.
  - rewrite (zero_prob_off (mkNode 2 "B" 0 None None) 1 0) by (simpl; lia || reflexivity).
    lra.
Qed.

Lemma zero_column (val : Z -> Z -> R) :
  predTable 2 twoDPPI val zeroMatrix 2%Z
  = [mkCell 0 (val 0%Z 2%Z); mkCell 1 (val 1%Z 2%Z)].
Proof. vm_compute. reflexivity. Qed.

Lemma zero_caches_sound :
  cachesSound 2 twoDPPI twoLeaves zeroTree (mkCaches ∅ ∅).
Proof.
  split; intros n i j v _ H; simpl in H; rewrite lookup_empty in H;
    discriminate.
Qed.

(** C3 as stated fails for the tree [(A:0,B:0);] with the genomes
    [A = 1 2] and [B = 2 1]: the pair [(1, 2)] is printed, every
    predecessor likelihood of index 2 is 0, so is their sum, and the
    quotients by it neither sum to 1 nor give a printed value in
    (0, 1].  (Over the reals the quotient [0 / 0] is 0; the program's
    [double] division gives NaN, which is outside (0, 1] as well.) *)
Lemma zero_length_branches_break_normalisation :
  exists PPP SPP st',
    inferPosteriors 2 twoDPPI twoLeaves zeroTree (mkCaches ∅ ∅)
    = Some ((PPP, SPP), st') /\
    printed 2 twoDPPI 1 2 = true /\
    ~ (0 < pprob PPP SPP 1 2 <= 1) /\
    listSum (PPP 2%Z) <> 1.
Proof.
  destruct (getPredecessor_sound 2 twoDPPI twoLeaves zeroTree
              ltac:(lia) zeroTree_distinct zeroTree_listed
              zeroMatrix (mkCaches ∅ ∅) zero_rowZ zero_caches_sound)
    as (st' & E & _).
  unfold inferPosteriors, bind. rewrite E. unfold ret, normalize.
  eexists _, _, st'. split; [reflexivity|].
  set (PLH := predTable 2 twoDPPI
                (likelihoodSpec 2 twoDPPI twoLeaves zeroTree) zeroMatrix).
  assert (EC : PLH 2%Z = [mkCell 0 0; mkCell 1 0]).
  { unfold PLH. rewrite zero_column.
    rewrite !zero_likelihoods by auto. reflexivity. }
  assert (Hwf : wfList (PLH 2%Z)).
  { rewrite EC. split; [eexists _, _; split; reflexivity|].
    split; repeat constructor; simpl; intuition (discriminate || lia). }
  assert (Hsum : listSum (PLH 2%Z) = 0).
  { rewrite EC. unfold listSum. simpl. lra. }
  split; [vm_compute; reflexivity|]. split.
  - unfold pprob. rewrite PVal_normalize4_inner by lia.
    unfold PVal. rewrite normalize1_column by (exact Hwf || lia).
    rewrite lookupCell_scaled, EC. simpl. lra.
  - rewrite normalize4_inner by lia.
    rewrite normalize1_column by (exact Hwf || lia).
    rewrite listSum_scaled, Hsum. lra.
Qed.

End PosteriorFacts.

(* ===================================================================== *)
(** * Properties of re-rooting *)
(* ===================================================================== *)

Module RerootFacts.
Import Inference Reroot.

Local Open Scope R_scope.

(** ** Attributes of the re-rooted tree, on pure trees *)

Section Collect.
  Context {A : Type} (g : Z -> string -> R -> bool -> list A).

Lemma collect_node a nm d l r :
  collect g (mkNode a nm d l r)
  = g a nm d (isLeaf (mkNode a nm d l r)) ++ collectOpt g l ++ collectOpt g r.
Proof.
  unfold collect. cbn [nodes flat_map addrOf nameOf distOf].
  rewrite flat_map_app. destruct l, r; reflexivity.
Qed.

Lemma collect_setD d t :
  exists rest,
    collect g t = g (addrOf t) (nameOf t) (distOf t) (isLeaf t) ++ rest /\
    collect g (setD d t) = g (addrOf t) (nameOf t) d (isLeaf t) ++ rest.
Proof.
  destruct t as [a nm d0 l r]. exists (collectOpt g l ++ collectOpt g r).
  unfold setD. rewrite !collect_node. split; reflexivity.
Qed.

(** Attributes of the nodes of the path, all internal. *)
Definition pathAttrs (fs : list frame) : list A :=
  flat_map (fun f => g (fa f) (fnm f) (fd f) false) fs.
Definition sideAttrs (fs : list frame) : list A :=
  flat_map (fun f => collectOpt g (fsib f)) fs.

Lemma collect_plugFrame f sub :
  Permutation (collect g (plugFrame f sub))
              (collect g sub ++ g (fa f) (fnm f) (fd f) false
               ++ collectOpt g (fsib f)).
Proof.
  unfold plugFrame. destruct (fside f); rewrite collect_node.
  - replace (isLeaf (mkNode (fa f) (fnm f) (fd f) (fsib f) (Some sub)))
      with false by (destruct (fsib f); reflexivity).
    cbn [collectOpt]. solve_Permutation.
  - cbn [collectOpt isLeaf]. solve_Permutation.
Qed.

Lemma collect_plug fs : forall sub,
  Permutation (collect g (plug sub fs))
              (collect g sub ++ pathAttrs fs ++ sideAttrs fs).
Proof.
  induction fs as [|f fs IH]; intros sub; cbn [plug].
  - unfold pathAttrs, sideAttrs. simpl. now rewrite app_nil_r.
  - eapply perm_trans; [apply IH|].
    eapply perm_trans; [apply Permutation_app_tail, collect_plugFrame|].
    unfold pathAttrs, sideAttrs. cbn [flat_map]. solve_Permutation.
Qed.

(** Attributes of the nodes of the path after [rerootTree]: only the last
    one can have become a leaf. *)
Fixpoint upAttrs (fs : list frame) : list A :=
  match fs with
  | [] => []
  | f :: fs' =>
      g (fa f) (fnm f) (fd f)
        (match fs' with
         | [] => match fsib f with None => true | Some _ => false end
         | _ :: _ => false
         end) ++ upAttrs fs'
  end.

Lemma up_None fs : up fs = None <-> fs = [].
Proof. destruct fs; simpl; split; congruence. Qed.

Lemma collect_up fs :
  Permutation (collectOpt g (up fs)) (upAttrs fs ++ sideAttrs fs).
Proof.
  induction fs as [|f fs IH]; [reflexivity|].
  cbn [up upAttrs collectOpt]. unfold sideAttrs in *. cbn [flat_map].
  destruct (up fs) as [p|] eqn:Eup.
  - assert (Hfs : exists f' fs', fs = f' :: fs').
    { destruct fs; [discriminate | eauto]. }
    destruct Hfs as (f' & fs' & Hfs). rewrite Hfs at 1.
    cbn [collectOpt] in IH.
    destruct (fside f); [|destruct (fsib f) as [sb|] eqn:Esib];
      rewrite collect_node; cbn [collectOpt];
      try (replace (isLeaf (mkNode (fa f) (fnm f) (fd f) (fsib f) (Some p)))
             with false by (destruct (fsib f); reflexivity));
      cbn [isLeaf]; rewrite IH; solve_Permutation.
  - apply up_None in Eup. subst fs. cbn [upAttrs flat_map].
    destruct (fside f); rewrite collect_node; cbn [collectOpt];
      destruct (fsib f); cbn [isLeaf collectOpt]; solve_Permutation.
Qed.

End Collect.

Lemma sideAttrs_shift {A} (g : Z -> string -> R -> bool -> list A) fs :
  forall d,
  sideAttrs g (shift d fs) = sideAttrs g fs.
Proof.
  unfold sideAttrs. induction fs as [|f fs IH]; intros d; simpl; [reflexivity|].
  now rewrite IH.
Qed.

(** ** Branch lengths *)

Definition gDist : Z -> string -> R -> bool -> list R := fun _ _ d _ => [d].

Lemma dists_collect t : dists t = collect gDist t.
Proof.
  unfold dists, collect, gDist. induction (nodes t) as [|n l IH]; simpl; congruence.
Qed.

Lemma dists_cons t : dists t = distOf t :: branchLengths t.
Proof. unfold branchLengths, dists. destruct t. reflexivity. Qed.

Lemma distOf_plug fs : forall sub, distOf (plug sub fs) = lastD (distOf sub) fs.
Proof.
  induction fs as [|f fs IH]; intros sub; simpl; [reflexivity|].
  rewrite IH. unfold plugFrame. destruct (fside f); reflexivity.
Qed.

Lemma pathAttrs_dist fs : pathAttrs gDist fs = List.map fd fs.
Proof. unfold pathAttrs, gDist. induction fs; simpl; congruence. Qed.

Lemma upAttrs_dist fs : upAttrs gDist fs = List.map fd fs.
Proof. unfold gDist. induction fs as [|f fs IH]; simpl; congruence. Qed.

Lemma shift_dists fs : forall d,
  d :: List.map fd fs = List.map fd (shift d fs) ++ [lastD d fs].
Proof.
  induction fs as [|f fs IH]; intros d; simpl; [reflexivity|].
  now rewrite IH.
Qed.

Lemma branchLengths_rerooted anc sub fs :
  fs <> [] ->
  Permutation (branchLengths (rerooted anc sub fs))
              (0 :: branchLengths (plug sub fs)).
Proof.
  intros Hne.
  pose proof (collect_plug gDist fs sub) as H1.
  rewrite <- (dists_collect (plug sub fs)), <- (dists_collect sub),
    pathAttrs_dist in H1.
  rewrite (dists_cons (plug sub fs)), (dists_cons sub), distOf_plug in H1.
  assert (H1' : Permutation (lastD (distOf sub) fs :: branchLengths (plug sub fs))
                  (lastD (distOf sub) fs ::
                     branchLengths sub ++ List.map fd (shift (distOf sub) fs)
                     ++ sideAttrs gDist fs)).
  { eapply perm_trans; [exact H1|].
    change ((distOf sub :: branchLengths sub) ++ List.map fd fs ++ sideAttrs gDist fs)
      with (distOf sub :: branchLengths sub ++ List.map fd fs ++ sideAttrs gDist fs).
    eapply perm_trans; [apply Permutation_middle|].
    rewrite app_assoc.
    change (distOf sub :: List.map fd fs ++ sideAttrs gDist fs)
      with ((distOf sub :: List.map fd fs) ++ sideAttrs gDist fs).
    rewrite shift_dists. solve_Permutation. }
  apply Permutation_cons_inv in H1'.
  assert (H2 : Permutation (branchLengths (rerooted anc sub fs))
                 (collectOpt gDist (up (shift (distOf sub) fs))
                  ++ collect gDist (setD 0 sub))).
  { destruct fs as [|f fs']; [congruence|]. unfold rerooted, branchLengths.
    destruct (fside f); rewrite dists_collect, collect_node; cbn [tl gDist app collectOpt];
      solve_Permutation. }
  eapply perm_trans; [exact H2|].
  rewrite collect_up, upAttrs_dist, sideAttrs_shift.
  destruct (collect_setD gDist 0 sub) as (rest & E1 & E2).
  rewrite E2. rewrite <- dists_collect, dists_cons in E1.
  unfold gDist in E1, E2 |- *. simpl in E1. injection E1 as <-.
  simpl. rewrite H1'. solve_Permutation.
Qed.

(** ** Leaf names *)

Definition gLeaf : Z -> string -> R -> bool -> list string :=
  fun _ nm _ leaf => if leaf then [nm] else [].

Lemma leafNames_collect t : leafNames t = collect gLeaf t.
Proof.
  unfold leafNames, collect, gLeaf.
  induction (nodes t) as [|n l IH]; simpl; [reflexivity|].
  destruct (isLeaf n); simpl; congruence.
Qed.

Lemma pathAttrs_leaf fs : pathAttrs gLeaf fs = [].
Proof. unfold pathAttrs, gLeaf. induction fs; simpl; auto. Qed.

Lemma upAttrs_leaf fs : upAttrs gLeaf fs = extraLeaf fs.
Proof.
  unfold gLeaf. induction fs as [|f fs IH]; [reflexivity|].
  cbn [upAttrs extraLeaf]. destruct fs as [|f' fs'].
  - simpl. destruct (fsib f); reflexivity.
  - rewrite IH. reflexivity.
Qed.

Lemma extraLeaf_shift fs : forall d, extraLeaf (shift d fs) = extraLeaf fs.
Proof.
  induction fs as [|f fs IH]; intros d; [reflexivity|].
  destruct fs as [|f' fs']; [reflexivity|].
  cbn [shift extraLeaf] in *. apply (IH (fd f)).
Qed.

Lemma leafNames_rerooted anc sub fs :
  fs <> [] ->
  Permutation (leafNames (rerooted anc sub fs))
              (leafNames (plug sub fs) ++ extraLeaf fs).
Proof.
  intros Hne.
  pose proof (collect_plug gLeaf fs sub) as H1.
  rewrite <- (leafNames_collect (plug sub fs)), pathAttrs_leaf in H1.
  assert (Hsub : collect gLeaf (setD 0 sub) = collect gLeaf sub).
  { destruct (collect_setD gLeaf 0 sub) as (rest & E1 & E2).
    rewrite E1, E2. reflexivity. }
  assert (H2 : Permutation (leafNames (rerooted anc sub fs))
                 (collectOpt gLeaf (up (shift (distOf sub) fs))
                  ++ collect gLeaf sub)).
  { rewrite <- Hsub. destruct fs as [|f fs']; [congruence|].
    unfold rerooted.
    destruct (fside f); rewrite leafNames_collect, collect_node;
      cbn [collectOpt].
    - replace (isLeaf (mkNode anc "NEWROOT" 0 (up (shift (distOf sub) (f :: fs')))
                         (Some (setD 0 sub)))) with false
        by (destruct (up (shift (distOf sub) (f :: fs'))); reflexivity).
      cbn [gLeaf app]. solve_Permutation.
    - cbn [isLeaf gLeaf app]. solve_Permutation. }
  eapply perm_trans; [exact H2|].
  rewrite collect_up, upAttrs_leaf, sideAttrs_shift, extraLeaf_shift, H1.
  solve_Permutation.
Qed.

(** ** [modifyBranchLen] on a path *)

Lemma frameAt_ext h h' below par f :
  h' !! fa f = h !! fa f -> frameAt h below par f -> frameAt h' below par f.
Proof. unfold frameAt. intros ->. auto. Qed.

Lemma pathOK_ext h h' par fs : forall below,
  (forall x, In x (List.map fa fs) -> h' !! x = h !! x) ->
  pathOK h par below fs -> pathOK h' par below fs.
Proof.
  induction fs as [|f fs IH]; intros below Hag; simpl; [auto|].
  intros [H1 H2]. split.
  - eapply frameAt_ext; [apply Hag; now left | exact H1].
  - apply IH; [|exact H2]. intros x Hx. apply Hag. now right.
Qed.

Lemma parentOf_shift d fs par : parentOf (shift d fs) par = parentOf fs par.
Proof. destruct fs; reflexivity. Qed.

Lemma map_fa_shift fs : forall d, List.map fa (shift d fs) = List.map fa fs.
Proof. induction fs as [|f fs IH]; intros d; simpl; [reflexivity|]. now rewrite IH. Qed.

Lemma modifyBranchLen_path fs : forall fuel h below bn,
  pathOK h None below fs ->
  List.NoDup (below :: List.map fa fs) ->
  h !! below = Some bn ->
  (length fs <= fuel)%nat ->
  exists h', modifyBranchLen fuel h (parentOf fs None) below = Some h' /\
             pathOK h' None below (shift (distalpha bn) fs) /\
             (forall x, ~ In x (List.map fa fs) -> h' !! x = h !! x).
Proof.
  induction fs as [|f fs IH]; intros fuel h below bn HP ND Hb Hfuel.
  - exists h. destruct fuel; simpl; auto.
  - destruct fuel as [|fuel]; [simpl in Hfuel; lia|].
    destruct HP as [(n & Hn & Hnm & Hd & HL & HR & Hpar) HP].
    apply NoDup_cons_iff in ND as [Nb ND]. simpl in Nb, ND.
    pose proof ND as ND'. apply NoDup_cons_iff in ND' as [Nf NDfs].
    cbn [modifyBranchLen parentOf]. rewrite Hn, Hpar.
    destruct (IH fuel h (fa f) n HP ND Hn) as (h1 & -> & HP1 & Hsame);
      [simpl in Hfuel; lia|].
    assert (Hb1 : h1 !! below = Some bn).
    { rewrite Hsame; [exact Hb | tauto]. }
    assert (Hn1 : h1 !! fa f = Some n).
    { rewrite Hsame; [exact Hn | exact Nf]. }
    rewrite Hb1. unfold update. rewrite Hn1.
    eexists. split; [reflexivity|]. split; [|].
    + cbn [shift pathOK]. split.
      * exists (setDist (distalpha bn) n). rewrite lookup_insert_eq.
        cbn [fa fnm fd fside fsib]. rewrite parentOf_shift.
        unfold sibAddr in *. simpl. auto 7.
      * rewrite Hd in HP1. eapply pathOK_ext; [|exact HP1].
        intros x Hx. rewrite map_fa_shift in Hx.
        apply lookup_insert_ne. intros <-. contradiction.
    + intros x Hx. simpl in Hx. rewrite lookup_insert_ne by tauto.
      apply Hsame. tauto.
Qed.

(** ** [rerootTree] on a path *)

Lemma sibsApart_weaken xs xs' fs :
  (forall x, In x xs' -> In x xs) -> sibsApart xs fs -> sibsApart xs' fs.
Proof.
  intros Hin. unfold sibsApart. apply List.Forall_impl.
  intros f Hf x Hx Hx'. apply (Hf x Hx). auto.
Qed.

Lemma rerootLoop_path rest : forall fuel h f,
  upDone h f None ->
  pathOK h None (fa f) rest ->
  List.NoDup (fa f :: List.map fa rest) ->
  sibsApart (fa f :: List.map fa rest) rest ->
  (length rest <= fuel)%nat ->
  exists h', rerootLoop fuel h (fa f) (parentOf rest None) = Some h' /\
             allDone h' (f :: rest) /\
             (forall x, ~ In x (fa f :: List.map fa rest) -> h' !! x = h !! x).
Proof.
  induction rest as [|g rest IH]; intros fuel h f Hf HP ND HS Hfuel.
  - exists h. destruct fuel; simpl; auto.
  - destruct fuel as [|fuel]; [simpl in Hfuel; lia|].
    destruct HP as [(pn & Hpn & Pnm & Pd & PL & PR & Ppar) HP].
    destruct Hf as (vn & Hvn & Vnm & Vd & VL & VR).
    apply NoDup_cons_iff in ND as [Nf ND]. simpl in Nf.
    pose proof ND as ND'. apply NoDup_cons_iff in ND' as [Ng NDrest].
    assert (Nfg : fa g <> fa f) by (intros E; apply Nf; left; exact E).
    inversion HS as [|? ? HSg HSrest]; subst.
    cbn [rerootLoop parentOf]. rewrite Hpn.
    (* the slot of [p] that held [v] is cleared *)
    set (pn1 := if fside g then setChildR None pn else setChildL None pn).
    assert (E1 : (if decide (childR pn = Some (fa f))
                  then <[fa g := setChildR None pn]> h
                  else <[fa g := setChildL None pn]> h)
                 = <[fa g := pn1]> h).
    { unfold pn1. destruct (fside g) eqn:Sg.
      - rewrite decide_True by exact PR. reflexivity.
      - rewrite decide_False; [reflexivity|]. rewrite PR. intros E.
        apply (HSg _ E). now left. }
    rewrite E1. clear E1.
    rewrite lookup_insert_ne by exact Nfg. rewrite Hvn.
    (* [v] takes [p] in its free slot *)
    set (vn1 := match childR vn with
                | None => setChildR (Some (fa g)) vn
                | Some _ => setChildL (Some (fa g)) vn
                end).
    assert (E2 : match childR vn with
                 | None => <[fa f := setChildR (Some (fa g)) vn]> (<[fa g := pn1]> h)
                 | Some _ => <[fa f := setChildL (Some (fa g)) vn]> (<[fa g := pn1]> h)
                 end = <[fa f := vn1]> (<[fa g := pn1]> h)).
    { unfold vn1. destruct (childR vn); reflexivity. }
    rewrite E2. clear E2.
    rewrite lookup_insert_ne by (intros E; apply Nfg; symmetry; exact E).
    rewrite lookup_insert_eq.
    assert (Ppar1 : parent pn1 = parentOf rest None).
    { unfold pn1. destruct (fside g); exact Ppar. }
    rewrite Ppar1.
    set (h3 := <[fa g := setParent (Some (fa f)) pn1]>
                 (<[fa f := vn1]> (<[fa g := pn1]> h))).
    assert (Hout : forall x, x <> fa f -> x <> fa g -> h3 !! x = h !! x).
    { intros x X1 X2. unfold h3.
      rewrite !lookup_insert_ne by congruence. reflexivity. }
    destruct (IH fuel h3 g) as (h' & -> & HD & Hsame).
    + exists (setParent (Some (fa f)) pn1). unfold h3.
      rewrite lookup_insert_eq. unfold pn1, slots.
      destruct (fside g); simpl; rewrite ?PL, ?PR; auto.
    + eapply pathOK_ext; [|exact HP]. intros x Hx. apply Hout.
      * intros ->. apply Nf. now right.
      * intros ->. contradiction.
    + exact ND.
    + eapply sibsApart_weaken; [|exact HSrest]. intros x Hx. now right.
    + simpl in Hfuel. lia.
    + exists h'. split; [reflexivity|]. split.
      * cbn [allDone parentOf]. split; [|exact HD].
        exists vn1. split.
        { rewrite Hsame by exact Nf. unfold h3.
          rewrite lookup_insert_ne by exact Nfg. apply lookup_insert_eq. }
        unfold vn1, slots in *.
        destruct (fside f); simpl in VL, VR |- *; rewrite VR.
        { simpl. rewrite VL. auto. }
        destruct (sibAddr f); simpl; rewrite ?VL; auto.
      * intros x Hx. simpl in Hx. rewrite Hsame by (simpl; tauto).
        apply Hout; intros ->; apply Hx; auto.
Qed.

(** ** Trees in the heap *)

Definition gAddr : Z -> string -> R -> bool -> list Z := fun a _ _ _ => [a].

Lemma addrs_collect t : addrs t = collect gAddr t.
Proof.
  unfold addrs, collect, gAddr. induction (nodes t) as [|n l IH]; simpl; congruence.
Qed.

Lemma addrs_node a nm d l r :
  addrs (mkNode a nm d l r)
  = a :: match l with Some c => addrs c | None => [] end
      ++ match r with Some c => addrs c | None => [] end.
Proof.
  rewrite addrs_collect, collect_node. unfold gAddr. simpl.
  destruct l, r; simpl; rewrite <- ?addrs_collect; reflexivity.
Qed.

Lemma addrs_plug sub fs :
  Permutation (addrs (plug sub fs))
              (addrs sub ++ List.map fa fs ++ sideAddrs fs).
Proof.
  rewrite !addrs_collect. eapply perm_trans; [apply collect_plug|].
  apply Permutation_app_head.
  assert (E1 : pathAttrs gAddr fs = List.map fa fs).
  { unfold pathAttrs, gAddr. induction fs; simpl; congruence. }
  assert (E2 : sideAttrs gAddr fs = sideAddrs fs).
  { clear. unfold sideAttrs, sideAddrs.
    induction fs as [|f fs IH]; simpl; [reflexivity|].
    rewrite <- IH. destruct (fsib f); cbn [collectOpt];
      rewrite ?addrs_collect; reflexivity. }
  rewrite E1, E2. reflexivity.
Qed.

Lemma addrOf_in t : In (addrOf t) (addrs t).
Proof. destruct t. rewrite addrs_node. now left. Qed.

Lemma repr_ext h h' t :
  (forall x, In x (addrs t) -> h' !! x = h !! x) -> repr h t -> repr h' t.
Proof.
  induction t as [a nm d l r IHl IHr] using phyloTree_induction.
  intros Hag. rewrite addrs_node in Hag. cbn [repr].
  intros (Hn & Hl & Hr). split; [|split].
  - rewrite Hag by (now left). exact Hn.
  - destruct l as [c|]; [|exact I]. apply IHl; [|exact Hl].
    intros x Hx. apply Hag. right. apply in_or_app. now left.
  - destruct r as [c|]; [|exact I]. apply IHr; [|exact Hr].
    intros x Hx. apply Hag. right. apply in_or_app. now right.
Qed.

Lemma wf_repr h t : forall par, wf h par t -> repr h t.
Proof.
  induction t as [a nm d l r IHl IHr] using phyloTree_induction.
  intros par. cbn [wf repr].
  intros ((n & Hn & Hnm & Hd & HL & HR & _) & Hl & Hr). split; [|split].
  - exists n. auto.
  - destruct l as [c|]; [|exact I]. eapply IHl, Hl.
  - destruct r as [c|]; [|exact I]. eapply IHr, Hr.
Qed.

Lemma addrOf_plugFrame f sub : addrOf (plugFrame f sub) = fa f.
Proof. unfold plugFrame. destruct (fside f); reflexivity. Qed.

Lemma wf_plug fs : forall h par sub,
  wf h par (plug sub fs) ->
  wf h (parentOf fs par) sub /\ pathOK h par (addrOf sub) fs /\ sidesOK h fs.
Proof.
  induction fs as [|f fs IH]; intros h par sub H; cbn [plug] in H.
  - repeat split; [exact H | constructor].
  - destruct (IH h par _ H) as (Hw & HP & HS). rewrite addrOf_plugFrame in HP.
    unfold plugFrame in Hw. cbn [parentOf pathOK].
    destruct (fside f) eqn:Sf; cbn [wf] in Hw;
      destruct Hw as ((n & Hn & Hnm & Hd & HL & HR & Hpar) & Hl & Hr).
    + split; [exact Hr|]. split.
      * split; [|exact HP]. exists n. rewrite Sf. unfold sibAddr. auto 7.
      * constructor; [|exact HS]. destruct (fsib f); [eapply wf_repr, Hl | exact I].
    + split; [exact Hl|]. split.
      * split; [|exact HP]. exists n. rewrite Sf. unfold sibAddr. auto 7.
      * constructor; [|exact HS]. destruct (fsib f); [eapply wf_repr, Hr | exact I].
Qed.

Lemma repr_up h fs :
  allDone h fs -> sidesOK h fs ->
  match up fs with
  | Some t => repr h t /\ Some (addrOf t) = parentOf fs None
  | None => True
  end.
Proof.
  induction fs as [|f fs IH]; [exact (fun _ _ => I)|].
  intros [(n & Hn & Hnm & Hd & HL & HR) HD] HS.
  inversion HS as [|? ? Hsib HS']; subst.
  specialize (IH HD HS'). cbn [up parentOf].
  destruct (up fs) as [p|] eqn:Eup.
  - destruct IH as [Hp Hpa]. rewrite <- Hpa in HL, HR. unfold slots in HL, HR.
    destruct (fside f); [|destruct (fsib f) as [sb|] eqn:Esib];
      unfold sibAddr in *; rewrite ?Esib in *; simpl in HL, HR;
      (split; [cbn [repr]; split; [exists n; simpl; auto 6 | split; auto] | reflexivity]).
  - apply up_None in Eup. subst fs. simpl in HL, HR.
    destruct (fside f); unfold sibAddr in *; simpl in HL, HR;
      (split; [cbn [repr]; split; [exists n; simpl; auto 6 | split; auto] | reflexivity]).
Qed.

(** ** Auxiliary facts for [modifyTree] *)

Lemma wf_lookup h t : forall par x,
  wf h par t -> In x (addrs t) -> h !! x <> None.
Proof.
  induction t as [a nm d l r IHl IHr] using phyloTree_induction.
  intros par x. rewrite addrs_node. cbn [wf].
  intros ((n & Hn & _) & Hl & Hr) [<-|Hx]; [congruence|].
  apply in_app_or in Hx as [Hx|Hx].
  - destruct l as [c|]; [eapply IHl; eauto | destruct Hx].
  - destruct r as [c|]; [eapply IHr; eauto | destruct Hx].
Qed.

Lemma upDone_ext h h' f next :
  h' !! fa f = h !! fa f -> upDone h f next -> upDone h' f next.
Proof. unfold upDone. intros ->. auto. Qed.

Lemma allDone_ext h h' fs :
  (forall x, In x (List.map fa fs) -> h' !! x = h !! x) ->
  allDone h fs -> allDone h' fs.
Proof.
  induction fs as [|f fs IH]; intros Hag; simpl; [auto|].
  intros [H1 H2]. split.
  - eapply upDone_ext; [apply Hag; now left | exact H1].
  - apply IH; [|exact H2]. intros x Hx. apply Hag. now right.
Qed.

Lemma sidesOK_ext h h' fs :
  (forall x, In x (sideAddrs fs) -> h' !! x = h !! x) ->
  sidesOK h fs -> sidesOK h' fs.
Proof.
  unfold sidesOK, sideAddrs. induction fs as [|f fs IH]; intros Hag H;
    [constructor|].
  inversion H as [|? ? Hf Hfs]; subst. constructor.
  - destruct (fsib f) as [sb|] eqn:E; [|exact I].
    eapply repr_ext; [|exact Hf]. intros x Hx. apply Hag.
    cbn [flat_map]. rewrite E. apply in_or_app. now left.
  - apply IH; [|exact Hfs]. intros x Hx. apply Hag.
    cbn [flat_map]. apply in_or_app. now right.
Qed.

Lemma sidesOK_shift h fs : forall d, sidesOK h fs -> sidesOK h (shift d fs).
Proof.
  unfold sidesOK. induction fs as [|f fs IH]; intros d H; [constructor|].
  inversion H; subst. constructor; [assumption | apply IH; assumption].
Qed.

Lemma sideAddrs_shift fs : forall d, sideAddrs (shift d fs) = sideAddrs fs.
Proof.
  unfold sideAddrs. induction fs as [|f fs IH]; intros d; simpl; [reflexivity|].
  now rewrite IH.
Qed.

Lemma sibsApart_shift xs fs : forall d,
  sibsApart xs fs -> sibsApart xs (shift d fs).
Proof.
  unfold sibsApart. induction fs as [|f fs IH]; intros d H; [constructor|].
  inversion H; subst. constructor; [assumption | apply IH; assumption].
Qed.

Lemma sibAddr_in f fs x :
  In f fs -> sibAddr f = Some x -> In x (sideAddrs fs).
Proof.
  intros Hf Hx. unfold sideAddrs. apply in_flat_map. exists f. split; [exact Hf|].
  unfold sibAddr in Hx. destruct (fsib f) as [sb|]; [|discriminate].
  injection Hx as <-. apply addrOf_in.
Qed.

Lemma sibsApart_NoDup xs fs :
  (forall x, In x xs -> In x (sideAddrs fs) -> False) -> sibsApart xs fs.
Proof.
  intros Hdis. unfold sibsApart. apply List.Forall_forall.
  intros f Hf x Hx Hin. apply (Hdis x Hin). eapply sibAddr_in; eauto.
Qed.


Lemma length_shift fs : forall d, length (shift d fs) = length fs.
Proof. induction fs as [|f fs IH]; intros d; simpl; [reflexivity|]. now rewrite IH. Qed.

Lemma modifyTree_repr fuel h sub f rest anc :
  wf h None (plug sub (f :: rest)) ->
  List.NoDup (addrs (plug sub (f :: rest))) ->
  h !! anc = None ->
  (length (f :: rest) <= fuel)%nat ->
  exists h', modifyTree fuel h (addrOf sub) anc = Some h' /\
             repr h' (rerooted anc sub (f :: rest)).
Proof.
  intros Hwf ND Hanc Hfuel.
  destruct (wf_plug (f :: rest) h None sub Hwf) as (Hsub & HP & HS).
  assert (NDall : List.NoDup (addrs sub ++ List.map fa (f :: rest)
                              ++ sideAddrs (f :: rest))).
  { eapply Permutation_NoDup; [apply addrs_plug | exact ND]. }
  assert (Hanc_out : ~ In anc (addrs sub ++ List.map fa (f :: rest)
                               ++ sideAddrs (f :: rest))).
  { intros Hin. eapply Permutation_in in Hin; [|symmetry; apply addrs_plug].
    exact (wf_lookup h _ None anc Hwf Hin Hanc). }
  destruct sub as [aA nmA dA lA rA].
  set (kids := match lA with Some c => addrs c | None => [] end
               ++ match rA with Some c => addrs c | None => [] end) in *.
  rewrite addrs_node in NDall, Hanc_out. fold kids in NDall, Hanc_out.
  cbn [addrOf]. cbn [wf parentOf] in Hsub.
  destruct Hsub as ((an & Han & Anm & Ad & AL & AR & Apar) & HlA & HrA).
  (* separation of the addresses *)
  assert (NA : ~ In aA (kids ++ List.map fa (f :: rest) ++ sideAddrs (f :: rest))).
  { apply NoDup_cons_iff in NDall. tauto. }
  assert (NDpath : List.NoDup (aA :: List.map fa (f :: rest))).
  { constructor.
    - intros Hin. apply NA. apply in_or_app. right. apply in_or_app. now left.
    - apply NoDup_cons_iff in NDall as [_ N2].
      apply NoDup_app_remove_l in N2. apply NoDup_app_remove_r in N2. exact N2. }
  assert (Nanc : anc <> aA /\ ~ In anc kids /\ ~ In anc (List.map fa (f :: rest))
                 /\ ~ In anc (sideAddrs (f :: rest))).
  { repeat split.
    - intros E. apply Hanc_out. apply in_or_app. left. left. congruence.
    - intros Hk. apply Hanc_out. apply in_or_app. left. right. exact Hk.
    - intros Hk. apply Hanc_out. apply in_or_app. right. apply in_or_app. now left.
    - intros Hk. apply Hanc_out. apply in_or_app. right. apply in_or_app. now right. }
  destruct Nanc as (NancA & NancK & NancP & NancS).
  assert (Dside : forall x, In x (sideAddrs (f :: rest)) ->
                            x <> aA /\ ~ In x (List.map fa (f :: rest)) /\ x <> anc).
  { intros x Hx. split; [|split].
    - intros ->. apply NA. rewrite !in_app_iff. auto.
    - intros Hp. apply NoDup_cons_iff in NDall as [_ N2].
      apply NoDup_app_remove_l in N2.
      exact (AssemblerFacts.NoDup_app_disjoint _ _ x N2 Hp Hx).
    - intros ->. contradiction. }
  assert (Dkids : forall x, In x kids ->
                            x <> aA /\ ~ In x (List.map fa (f :: rest)) /\ x <> anc).
  { intros x Hx. split; [|split].
    - intros ->. apply NA. rewrite !in_app_iff. auto.
    - intros Hp. apply NoDup_cons_iff in NDall as [_ N2].
      apply (AssemblerFacts.NoDup_app_disjoint _ _ x N2 Hx).
      apply in_or_app. now left.
    - intros ->. contradiction. }
  assert (Apart : sibsApart (aA :: List.map fa (f :: rest)) (f :: rest)).
  { apply sibsApart_NoDup. intros x [<-|Hx] Hs.
    - destruct (Dside _ Hs). congruence.
    - destruct (Dside _ Hs) as (_ & H & _). contradiction. }

  (* AllocVar(anc) *)
  unfold modifyTree. cbv zeta.
  set (newroot := mkTreeNode None None None 0 "NEWROOT").
  set (h0 := <[anc := newroot]> h).
  assert (H0out : forall x, x <> anc -> h0 !! x = h !! x).
  { intros x Hx. unfold h0. apply lookup_insert_ne. congruence. }
  assert (Han0 : h0 !! aA = Some an) by (rewrite H0out; auto).
  rewrite Han0, Apar. cbn [parentOf].
  (* modifyBranchLen(Ances->parent, Ances) *)
  destruct (modifyBranchLen_path (f :: rest) fuel h0 aA an)
    as (h1 & E1 & HP1 & H1out); [|exact NDpath|exact Han0|exact Hfuel|].
  { eapply pathOK_ext; [|exact HP]. intros x Hx. apply H0out.
    intros ->. contradiction. }
  cbn [parentOf] in E1. rewrite E1. clear E1. rewrite Ad in HP1.
  cbn [shift pathOK] in HP1.
  destruct HP1 as [(nrn & Hnr & Nnm & Nd & NL & NR & Npar) HP1].
  cbn [fa fnm fd fside fsib] in Hnr, Nnm, Nd, NL, NR, HP1.
  unfold sibAddr in NL, NR. cbn [fsib] in NL, NR. fold (sibAddr f) in NL, NR.
  assert (NfA : fa f <> aA).
  { intros E. apply NoDup_cons_iff in NDpath as [N _]. apply N. left. exact E. }
  assert (Han1 : h1 !! aA = Some an).
  { rewrite H1out; [exact Han0|]. apply NoDup_cons_iff in NDpath. tauto. }
  (* Ances->distalpha = 0 *)
  unfold update at 1. rewrite Han1.
  set (an2 := setDist 0 an).
  set (h2 := <[aA := an2]> h1).
  assert (Han2 : h2 !! aA = Some an2) by apply lookup_insert_eq.
  rewrite Han2. unfold an2 at 1. cbn [parent setDist]. rewrite Apar.
  cbn [parentOf].
  assert (Hnr2 : h2 !! fa f = Some nrn).
  { unfold h2. rewrite lookup_insert_ne by congruence. exact Hnr. }
  rewrite Hnr2.
  assert (Eside : bool_decide (childR nrn = Some aA) = fside f).
  { rewrite NR. destruct (fside f) eqn:Sf.
    - apply bool_decide_eq_true_2. reflexivity.
    - apply bool_decide_eq_false_2. intros E.
      inversion Apart as [|? ? Hf0 _]; subst. apply (Hf0 _ E). now left. }
  rewrite Eside.
  (* the children of the new root *)
  assert (Hanc2 : h2 !! anc = Some newroot).
  { unfold h2. rewrite lookup_insert_ne by congruence.
    rewrite H1out by exact NancP. unfold h0. apply lookup_insert_eq. }
  unfold update at 1. rewrite Hanc2.
  set (ancn1 := if fside f
                then setChildR (Some aA) (setChildL None newroot)
                else setChildL (Some aA) (setChildR None newroot)).
  set (h3 := <[anc := ancn1]> h2).
  (* Ances->parent = anc *)
  assert (Han3 : h3 !! aA = Some an2).
  { unfold h3. rewrite lookup_insert_ne by congruence. exact Han2. }
  unfold update at 1. rewrite Han3.
  set (an4 := setParent (Some anc) an2).
  set (h4 := <[aA := an4]> h3).
  (* nr->child[..] = NULL *)
  assert (Hnr4 : h4 !! fa f = Some nrn).
  { unfold h4, h3. rewrite !lookup_insert_ne; [exact Hnr2| |congruence].
    intros ->. apply NancP. now left. }
  unfold update at 1. rewrite Hnr4.
  set (nrn1 := (if fside f then setChildR None else setChildL None) nrn).
  set (h5 := <[fa f := nrn1]> h4).
  assert (H5out : forall x, x <> anc -> x <> aA -> ~ In x (List.map fa (f :: rest)) ->
                            h5 !! x = h !! x).
  { intros x X1 X2 X3. unfold h5, h4, h3, h2.
    rewrite !lookup_insert_ne; try congruence.
    - rewrite H1out by exact X3. apply H0out, X1.
    - intros E. apply X3. left. exact E. }

  (* rerootTree(nr) *)
  set (f1 := mkFrame (fa f) (fnm f) dA (fside f) (fsib f)).
  assert (Hnr5 : h5 !! fa f = Some nrn1) by apply lookup_insert_eq.
  assert (Npar1 : parent nrn1 = parentOf (shift (fd f) rest) None).
  { unfold nrn1. destruct (fside f); exact Npar. }
  assert (NDrest : List.NoDup (fa f :: List.map fa rest)).
  { apply NoDup_cons_iff in NDpath as [_ N]. exact N. }
  unfold rerootTree. rewrite Hnr5, Npar1.
  destruct (rerootLoop_path (shift (fd f) rest) fuel h5 f1)
    as (h6 & E6 & HD6 & H6out).
  { exists nrn1. split; [exact Hnr5|]. unfold nrn1, slots, sibAddr in *.
    cbn [f1 fa fnm fd fside fsib].
    destruct (fside f); simpl; rewrite ?NL, ?NR; auto. }
  { eapply pathOK_ext; [|exact HP1]. intros x Hx. rewrite map_fa_shift in Hx.
    assert (Xf : x <> fa f).
    { intros ->. apply NoDup_cons_iff in NDrest. tauto. }
    assert (XA : x <> aA).
    { intros ->. apply NoDup_cons_iff in NDpath as [N _]. apply N. now right. }
    assert (Xanc : x <> anc).
    { intros ->. apply NancP. now right. }
    unfold h5, h4, h3, h2. rewrite !lookup_insert_ne by congruence.
    reflexivity. }
  { cbn [f1 fa]. rewrite map_fa_shift. exact NDrest. }
  { apply sibsApart_shift. inversion Apart as [|? ? _ Hrest]; subst.
    eapply sibsApart_weaken; [|exact Hrest].
    cbn [f1 fa]. rewrite map_fa_shift. intros x Hx. right. exact Hx. }
  { rewrite length_shift. simpl in Hfuel. lia. }
  cbn [f1 fa] in E6. rewrite E6. clear E6.
  (* r->parent = NULL *)
  pose proof HD6 as [(n6 & Hn6 & _) _]. cbn [f1 fa] in Hn6.
  unfold update at 1. rewrite Hn6.
  set (h7 := <[fa f := setParent None n6]> h6).
  assert (Hanc7 : h7 !! anc = Some ancn1).
  { unfold h7. rewrite lookup_insert_ne by (intros E; apply NancP; left; exact E).
    rewrite H6out.
    - unfold h5, h4. rewrite !lookup_insert_ne; [apply lookup_insert_eq| |].
      + congruence.
      + intros E. apply NancP. left. exact E.
    - cbn [f1 fa]. rewrite map_fa_shift. exact NancP. }
  rewrite Hanc7.
  set (ancn2 := if fside f then setChildL (Some (fa f)) ancn1
                else setChildR (Some (fa f)) ancn1).
  exists (<[anc := ancn2]> h7). split.
  { unfold ancn2, ancn1, update. destruct (fside f); simpl; rewrite Hanc7;
      reflexivity. }
  set (h8 := <[anc := ancn2]> h7).
  assert (H8out : forall x, x <> anc -> x <> aA -> ~ In x (List.map fa (f :: rest)) ->
                            h8 !! x = h !! x).
  { intros x X1 X2 X3. unfold h8, h7.
    rewrite !lookup_insert_ne; [| intros E; apply X3; left; exact E | congruence].
    rewrite H6out; [apply H5out; assumption|].
    cbn [f1 fa]. rewrite map_fa_shift. exact X3. }

  (* the subtree of the former ancestor *)
  assert (Han8 : h8 !! aA = Some an4).
  { unfold h8, h7. rewrite !lookup_insert_ne by congruence.
    rewrite H6out.
    - unfold h5. rewrite lookup_insert_ne by congruence. apply lookup_insert_eq.
    - cbn [f1 fa]. rewrite map_fa_shift.
      apply NoDup_cons_iff in NDpath as [N _]. exact N. }
  assert (R1 : repr h8 (setD 0 (mkNode aA nmA dA lA rA))).
  { cbn [setD repr]. split; [|split].
    - exists an4. split; [exact Han8|]. unfold an4, an2. simpl. auto.
    - destruct lA as [c|]; [|exact I].
      eapply repr_ext; [|eapply wf_repr, HlA]. intros x Hx.
      assert (Hk : In x kids) by (unfold kids; apply in_or_app; now left).
      destruct (Dkids x Hk) as (? & ? & ?). apply H8out; assumption.
    - destruct rA as [c|]; [|exact I].
      eapply repr_ext; [|eapply wf_repr, HrA]. intros x Hx.
      assert (Hk : In x kids) by (unfold kids; apply in_or_app; now right).
      destruct (Dkids x Hk) as (? & ? & ?). apply H8out; assumption. }
  (* the reversed path *)
  assert (HD8 : allDone h8 (shift dA (f :: rest))).
  { cbn [shift]. fold f1. eapply allDone_ext with (h := h7).
    - intros x Hx. unfold h8. apply lookup_insert_ne. intros <-.
      cbn [f1 fa List.map] in Hx. rewrite map_fa_shift in Hx. contradiction.
    - destruct HD6 as [(n6' & Hn6' & D1 & D2 & D3 & D4) HDrest].
      cbn [f1 fa] in Hn6'. rewrite Hn6 in Hn6'. injection Hn6' as <-.
      split.
      + exists (setParent None n6). split; [apply lookup_insert_eq|].
        simpl. auto.
      + eapply allDone_ext; [|exact HDrest]. intros x Hx.
        rewrite map_fa_shift in Hx. unfold h7. apply lookup_insert_ne.
        intros <-. apply NoDup_cons_iff in NDrest. tauto. }
  assert (HS8 : sidesOK h8 (shift dA (f :: rest))).
  { apply sidesOK_shift. eapply sidesOK_ext; [|exact HS].
    intros x Hx. destruct (Dside x Hx) as (? & ? & ?). apply H8out; assumption. }
  pose proof (repr_up h8 _ HD8 HS8) as RU.
  unfold rerooted. cbn [distOf].
  destruct (up (shift dA (f :: rest))) as [t|] eqn:Eup;
    [|apply up_None in Eup; discriminate].
  destruct RU as [Rt Et]. cbn [shift parentOf fa] in Et. injection Et as Et.
  assert (Hanc8 : h8 !! anc = Some ancn2) by apply lookup_insert_eq.
  destruct (fside f) eqn:Sf; cbn [repr]; (split; [|split; assumption]);
    exists ancn2; (split; [exact Hanc8|]);
    unfold ancn2, ancn1, newroot; simpl; rewrite Et; auto.
Qed.

Lemma repr_unique h t : forall t',
  repr h t -> repr h t' -> addrOf t = addrOf t' -> t = t'.
Proof.
  induction t as [a nm d l r IHl IHr] using phyloTree_induction.
  intros [a' nm' d' l' r']. cbn [repr addrOf].
  intros ((n & Hn & Hnm & Hd & HL & HR) & Hl & Hr)
         ((n' & Hn' & Hnm' & Hd' & HL' & HR') & Hl' & Hr') <-.
  rewrite Hn in Hn'. injection Hn' as <-.
  assert (El : l = l').
  { rewrite HL in HL'. destruct l as [c|], l' as [c'|]; try discriminate;
      [|reflexivity]. injection HL' as E. f_equal. apply IHl; assumption. }
  assert (Er : r = r').
  { rewrite HR in HR'. destruct r as [c|], r' as [c'|]; try discriminate;
      [|reflexivity]. injection HR' as E. f_equal. apply IHr; assumption. }
  congruence.
Qed.

(** ** The two parsed trees *)

Lemma exHeap_wf : wf exHeap None (plug exSub exPath).
Proof.
  unfold exHeap, exSub, exPath. cbn [plug plugFrame fside fa fnm fd fsib wf].
  repeat split; eexists; (split; [reflexivity|]); simpl; auto 7.
Qed.

Lemma exHeap_NoDup : List.NoDup (addrs (plug exSub exPath)).
Proof.
  change (List.NoDup [1; 2; 3; 4; 5]%Z).
  repeat constructor; simpl; intuition lia.
Qed.

Lemma exHeapUnary_wf : wf exHeapUnary None (plug exSub exPathUnary).
Proof.
  unfold exHeapUnary, exSub, exPathUnary.
  cbn [plug plugFrame fside fa fnm fd fsib wf].
  repeat split; eexists; (split; [reflexivity|]); simpl; auto 7.
Qed.

Lemma exHeapUnary_NoDup : List.NoDup (addrs (plug exSub exPathUnary)).
Proof.
  change (List.NoDup [1; 2; 3; 4]%Z).
  repeat constructor; simpl; intuition lia.
Qed.

(** ** Main results on re-rooting *)

(** C8 (as amended).  Take a tree in the heap, with consistent parent
    links and distinct nodes, whose designated ancestor (the root of
    [sub]) lies below the structural root along the path [f :: rest], and
    a fresh address [anc].  With fuel for the length of the path,
    [modifyTree] terminates and leaves in the heap the tree
    [rerooted anc sub (f :: rest)], rooted at the new node [anc], named
    NEWROOT, of [distalpha] 0: the subtree of the former ancestor hangs
    below it on a branch of length 0, the nodes of the path follow in
    reverse order, each on the branch length of the node that was below
    it.  The branch lengths of the new tree are those of the old tree
    plus one branch of length 0.  The leaf names of the new tree are
    those of the old tree, plus the name of the old root when the old
    root had a single child. *)
Theorem modifyTree_reroots (fuel : nat) (h : gmap Z treeNode)
    (sub : phyloTree) (f : frame) (rest : list frame) (anc : Z) :
  wf h None (plug sub (f :: rest)) ->
  List.NoDup (addrs (plug sub (f :: rest))) ->
  h !! anc = None ->
  (length (f :: rest) <= fuel)%nat ->
  exists h' t',
    modifyTree fuel h (addrOf sub) anc = Some h' /\
    repr h' t' /\ t' = rerooted anc sub (f :: rest) /\
    addrOf t' = anc /\ nameOf t' = "NEWROOT"%string /\ distOf t' = 0 /\
    Permutation (branchLengths t') (0 :: branchLengths (plug sub (f :: rest))) /\
    Permutation (leafNames t')
                (leafNames (plug sub (f :: rest)) ++ extraLeaf (f :: rest)) /\
    (extraLeaf (f :: rest) = [] ->
     Permutation (leafNames t') (leafNames (plug sub (f :: rest)))).
Proof.
  intros Hwf ND Hanc Hfuel.
  destruct (modifyTree_repr fuel h sub f rest anc Hwf ND Hanc Hfuel)
    as (h' & E & Hr).
  exists h', (rerooted anc sub (f :: rest)).
  assert (Hne : f :: rest <> []) by discriminate.
  pose proof (leafNames_rerooted anc sub (f :: rest) Hne) as PL.
  repeat split; auto.
  - unfold rerooted. destruct (fside f); reflexivity.
  - unfold rerooted. destruct (fside f); reflexivity.
  - unfold rerooted. destruct (fside f); reflexivity.
  - apply branchLengths_rerooted, Hne.
  - intros E0. rewrite E0, app_nil_r in PL. exact PL.
Qed.

Lemma modifyTree_reroots_witness :
  exists h',
    modifyTree 1 exHeap 2 6 = Some h' /\
    repr h' (rerooted 6 exSub exPath) /\
    Permutation (leafNames (rerooted 6 exSub exPath))
                (leafNames (plug exSub exPath)).
Proof.
  assert (Hanc : exHeap !! 6%Z = None) by reflexivity.
  assert (Hfuel : (length exPath <= 1)%nat) by (simpl; lia).
  destruct (modifyTree_reroots 1 exHeap exSub _ [] 6
              exHeap_wf exHeap_NoDup Hanc Hfuel)
    as (h' & t' & E & Hr & -> & _ & _ & _ & _ & _ & HL).
  exists h'. split; [exact E|]. split; [exact Hr|]. apply HL. reflexivity.
Defined.

(** C8 (the claim as stated fails).  On the tree parsed from
    [((A:1,B:2)@:3,C:4);] the re-rooted tree has the five branch lengths
    0, 1, 2, 3, 4 where the parsed tree has the four lengths 1, 2, 3, 4:
    the multiset is not preserved.  On the tree parsed from
    [((A:1,B:2)@:3);], whose root has a single child, the old root [IN2]
    is a leaf of the re-rooted tree: the leaf names are not preserved. *)
Lemma reroot_changes_lengths_and_leaves :
  (exists h', modifyTree 1 exHeap 2 6 = Some h' /\
     forall t', repr h' t' -> addrOf t' = 6%Z ->
       ~ Permutation (branchLengths t') (branchLengths (plug exSub exPath))) /\
  (exists h', modifyTree 1 exHeapUnary 2 6 = Some h' /\
     forall t', repr h' t' -> addrOf t' = 6%Z ->
       ~ Permutation (leafNames t') (leafNames (plug exSub exPathUnary))).
Proof.
  split.
  - destruct (modifyTree_repr 1 exHeap exSub _ [] 6 exHeap_wf exHeap_NoDup)
      as (h' & E & Hr); [reflexivity | simpl; lia |].
    exists h'. split; [exact E|]. intros t' Ht' Ha.
    assert (t' = rerooted 6 exSub exPath) as ->.
    { symmetry. eapply repr_unique; [exact Hr | exact Ht' |].
      rewrite Ha. reflexivity. }
    intros HP. apply Permutation_length in HP.
    assert (Hne : exPath <> []) by discriminate.
    pose proof (Permutation_length (branchLengths_rerooted 6 exSub exPath Hne)) as HQ.
    rewrite HP in HQ. simpl in HQ. lia.
  - destruct (modifyTree_repr 1 exHeapUnary exSub _ [] 6
                exHeapUnary_wf exHeapUnary_NoDup)
      as (h' & E & Hr); [reflexivity | simpl; lia |].
    exists h'. split; [exact E|]. intros t' Ht' Ha.
    assert (t' = rerooted 6 exSub exPathUnary) as ->.
    { symmetry. eapply repr_unique; [exact Hr | exact Ht' |].
      rewrite Ha. reflexivity. }
    intros HP. apply Permutation_length in HP.
    assert (Hne : exPathUnary <> []) by discriminate.
    pose proof (Permutation_length (leafNames_rerooted 6 exSub exPathUnary Hne)) as HQ.
    rewrite HP, length_app in HQ. simpl in HQ. lia.
Qed.

End RerootFacts.

(* ===================================================================== *)
(** * Further facts: signed element ids and the bit matrices *)
(* ===================================================================== *)

Module BitMatrixFacts.
Import Index Inference Posterior.

(** X1.  The index folding and [pam] are inverse to each other: a signed
    element id [e] with [1 <= |e| <= T] is folded into the non-sentinel
    range [1..2T], [pam] gives [e] back, and [pam] of the [map]ped index is
    [-e]; both sentinels [A] and [Z] are printed as 0. *)
Theorem pam_decodes_fold (T e : Z) :
  1 <= Z.abs e <= T ->
  1 <= fold T e <= 2 * T /\
  pam T (fold T e) = e /\
  pam T (map T (fold T e)) = - e /\
  pam T A = 0 /\ pam T (Zhi T) = 0.
Proof.
  intros He. unfold fold, pam, map, Zhi, A.
  repeat (case_match; try lia).
Qed.

Lemma pam_decodes_fold_witness :
  fold 3 (-2) = 5 /\ pam 3 5 = -2 /\ pam 3 (map 3 5) = 2.
Proof.
  destruct (pam_decodes_fold 3 (-2)) as (_ & H1 & H2 & _); [simpl; lia|].
  split; [reflexivity|]. split; [exact H1 | exact H2].
Defined.

(** ** Bits *)

Lemma Val_testbit n H i j :
  0 <= i * n + j ->
  Val n H i j
  = Z.b2z (Z.testbit (H ((i * n + j) / 8)) ((i * n + j) mod 8)).
Proof.
  intros Hpos. unfold Val, X.
  rewrite Z.quot_div_nonneg, Z.rem_mod_nonneg by lia.
  set (x := H _). set (b := (_ mod 8)).
  assert (Hb : 0 <= b) by (subst b; apply Z.mod_pos_bound; lia).
  change (Z.land (Z.shiftr x b) 1) with (Z.land (Z.shiftr x b) (Z.ones 1)).
  rewrite Z.land_ones by lia. change (2 ^ 1) with 2.
  rewrite <- Z.bit0_mod, Z.shiftr_spec by lia. reflexivity.
Qed.

Lemma testbit_one b k : 0 <= b -> 0 <= k ->
  Z.testbit (Z.shiftl 1 b) k = (k =? b).
Proof.
  intros Hb Hk. rewrite Z.shiftl_spec by lia.
  destruct (k =? b) eqn:E.
  - apply Z.eqb_eq in E. subst. rewrite Z.sub_diag. reflexivity.
  - apply Z.eqb_neq in E. destruct (Z.lt_ge_cases (k - b) 0) as [Hn|Hn].
    + apply Z.testbit_neg_r, Hn.
    + change 1 with (Z.ones 1). rewrite Z.ones_spec_high by lia. reflexivity.
Qed.

Lemma testbit_mask b k : 0 <= b < 8 -> 0 <= k < 8 ->
  Z.testbit (HI - Z.shiftl 1 b) k = negb (k =? b).
Proof.
  intros Hb Hk. unfold HI.
  assert (Cb : b = 0 \/ b = 1 \/ b = 2 \/ b = 3 \/ b = 4 \/ b = 5 \/ b = 6 \/ b = 7)
    by lia.
  assert (Ck : k = 0 \/ k = 1 \/ k = 2 \/ k = 3 \/ k = 4 \/ k = 5 \/ k = 6 \/ k = 7)
    by lia.
  destruct Cb as [->|[->|[->|[->|[->|[->|[->| ->]]]]]]];
    destruct Ck as [->|[->|[->|[->|[->|[->|[->| ->]]]]]]]; reflexivity.
Qed.

(** Different positions of the [N x N] bit matrix are different bits. *)
Lemma position_inj n i j i' j' :
  0 <= i -> 0 <= i' -> 0 <= j < n -> 0 <= j' < n ->
  (i * n + j) / 8 = (i' * n + j') / 8 ->
  (i * n + j) mod 8 = (i' * n + j') mod 8 ->
  i = i' /\ j = j'.
Proof.
  intros Hi Hi' Hj Hj' Ea Eb.
  assert (E : i * n + j = i' * n + j').
  { rewrite (Z.div_mod (i * n + j) 8), (Z.div_mod (i' * n + j') 8) by lia.
    rewrite Ea, Eb. reflexivity. }
  assert (i = i') by nia. subst. split; [reflexivity | lia].
Qed.


(** Reading any bit after one [Set]. *)
Lemma Val_setBit T H i j v i' j' :
  0 <= fold T i -> 0 <= foldcol T j < N T ->
  0 <= i' -> 0 <= j' < N T ->
  Val (N T) (setBit T H i j v) i' j'
  = if (i' =? fold T i) && (j' =? foldcol T j)
    then (if v =? 1 then 1 else 0)
    else Val (N T) H i' j'.
Proof.
  intros Hi Hj Hi' Hj'.
  assert (Hpos : 0 <= fold T i * N T + foldcol T j) by nia.
  assert (Hpos' : 0 <= i' * N T + j') by nia.
  rewrite !Val_testbit by exact Hpos'.
  unfold setBit, X.
  rewrite Z.quot_div_nonneg, Z.rem_mod_nonneg by lia.
  set (p := fold T i * N T + foldcol T j) in *.
  set (p' := i' * N T + j') in *.
  assert (Hb : 0 <= p mod 8 < 8) by (apply Z.mod_pos_bound; lia).
  assert (Hb' : 0 <= p' mod 8 < 8) by (apply Z.mod_pos_bound; lia).
  destruct (p' / 8 =? p / 8) eqn:Ea.
  - apply Z.eqb_eq in Ea.
    destruct (Z.eq_dec (p' mod 8) (p mod 8)) as [Eb|Eb].
    + destruct (position_inj (N T) i' j' (fold T i) (foldcol T j))
        as [-> ->]; try assumption.
      rewrite !Z.eqb_refl. simpl.
      destruct (v =? 1).
      * rewrite Z.lor_spec, testbit_one, Eb, Z.eqb_refl by lia.
        rewrite orb_true_r. reflexivity.
      * rewrite Z.land_spec, testbit_mask, Eb, Z.eqb_refl by lia.
        rewrite andb_false_r. reflexivity.
    + assert (Hne : (i' =? fold T i) && (j' =? foldcol T j) = false).
      { apply andb_false_iff.
        destruct (Z.eq_dec i' (fold T i)) as [->|Hn];
          [|left; apply Z.eqb_neq, Hn].
        destruct (Z.eq_dec j' (foldcol T j)) as [->|Hn];
          [|right; apply Z.eqb_neq, Hn].
        contradiction Eb. reflexivity. }
      rewrite Hne. apply Z.eqb_neq in Eb.
      destruct (v =? 1).
      * rewrite Z.lor_spec, testbit_one, Eb by lia.
        rewrite orb_false_r, Ea. reflexivity.
      * rewrite Z.land_spec, testbit_mask, Eb by lia.
        rewrite andb_true_r, Ea. reflexivity.
  - assert (Hne : (i' =? fold T i) && (j' =? foldcol T j) = false).
    { apply andb_false_iff.
      destruct (Z.eq_dec i' (fold T i)) as [->|Hn];
        [|left; apply Z.eqb_neq, Hn].
      destruct (Z.eq_dec j' (foldcol T j)) as [->|Hn];
        [|right; apply Z.eqb_neq, Hn].
      apply Z.eqb_neq in Ea. contradiction Ea. reflexivity. }
    rewrite Hne. reflexivity.
Qed.

(** The value of a C [int] expression whose exact result is [x]
    (two's complement, 32 bits). *)
Definition wrap (x : Z) : Z := (x + 2 ^ 31) mod 2 ^ 32 - 2 ^ 31.

(** [int pos = i * N + j], as [Val] and [Set] compute it. *)
Definition position (n i j : Z) : Z := wrap (wrap (i * n) + j).

Lemma wrap_exact x : - 2 ^ 31 <= x <= IndexFacts.INT_MAX -> wrap x = x.
Proof.
  unfold wrap, IndexFacts.INT_MAX. intros H.
  rewrite Z.mod_small by lia. lia.
Qed.

(** While [N * N] fits an [int], every position of the [N] x [N] matrix
    is computed exactly and lies in the [N*N/X+1] bytes [initSets]
    allocates. *)
Lemma position_exact n i j :
  n * n <= IndexFacts.INT_MAX -> 0 <= i < n -> 0 <= j < n ->
  position n i j = i * n + j /\
  0 <= i * n + j < n * n /\
  0 <= Z.quot (i * n + j) X < Z.quot (wrap (n * n)) X + 1.
Proof.
  intros Hn Hi Hj.
  assert (B : 0 <= i * n + j < n * n) by nia.
  assert (Bi : 0 <= i * n <= IndexFacts.INT_MAX) by nia.
  unfold position.
  rewrite (wrap_exact (i * n)) by (unfold IndexFacts.INT_MAX in *; lia).
  rewrite (wrap_exact (i * n + j)) by (unfold IndexFacts.INT_MAX in *; lia).
  rewrite (wrap_exact (n * n)) by (unfold IndexFacts.INT_MAX in *; lia).
  split; [reflexivity|]. split; [exact B|].
  unfold X. rewrite !Z.quot_div_nonneg by lia.
  split; [apply Z.div_pos; lia|].
  assert ((i * n + j) / 8 <= (n * n) / 8) by (apply Z.div_le_mono; lia).
  lia.
Qed.

(** X2.  [Set] followed by [Val], for a matrix whose size [N * N] fits an
    [int]: the position [i * N + j] of every cell is then computed without
    overflow and lies inside the allocated bytes; after
    [Set(H, i, j, value)] the bit at the folded position
    [(fold i, foldcol j)] reads [YES] when [value] is [YES] and [NO]
    otherwise, and every other bit of the matrix reads as before.  The
    column is [foldcol j], so a write to column [A] lands in column [Z]
    and column [A] itself never changes. *)
Theorem Set_then_Val (T : Z) (H : bytes) (i j v i' j' : Z) :
  N T * N T <= IndexFacts.INT_MAX ->
  0 <= fold T i < N T -> 0 <= foldcol T j < N T ->
  0 <= i' < N T -> 0 <= j' < N T ->
  (position (N T) (fold T i) (foldcol T j) = fold T i * N T + foldcol T j /\
   position (N T) i' j' = i' * N T + j' /\
   0 <= Z.quot (fold T i * N T + foldcol T j) X
     < Z.quot (wrap (N T * N T)) X + 1 /\
   0 <= Z.quot (i' * N T + j') X < Z.quot (wrap (N T * N T)) X + 1) /\
  (Val (N T) (setBit T H i j v) (fold T i) (foldcol T j)
   = if v =? YES then YES else NO) /\
  ((i', j') <> (fold T i, foldcol T j) ->
   Val (N T) (setBit T H i j v) i' j' = Val (N T) H i' j') /\
  (0 <= T -> Val (N T) (setBit T H i A v) i' A = Val (N T) H i' A).
Proof.
  intros HN Hi Hj Hi' Hj'.
  assert (Hi0 : 0 <= fold T i) by lia.
  assert (Hi0' : 0 <= i') by lia.
  split; [|split; [|split]].
  - destruct (position_exact (N T) (fold T i) (foldcol T j) HN Hi Hj)
      as (P1 & _ & P2).
    destruct (position_exact (N T) i' j' HN Hi' Hj') as (P3 & _ & P4).
    repeat split; try assumption; lia.
  - rewrite Val_setBit by assumption. rewrite !Z.eqb_refl. reflexivity.
  - intros Hne. rewrite Val_setBit by assumption.
    destruct (i' =? fold T i) eqn:E1; [|reflexivity].
    destruct (j' =? foldcol T j) eqn:E2; [|reflexivity].
    apply Z.eqb_eq in E1, E2. subst. contradiction Hne. reflexivity.
  - intros HT.
    assert (Ec : foldcol T A = Zhi T) by reflexivity.
    rewrite Val_setBit; [|assumption|rewrite Ec; unfold N, Zhi; lia
                         |assumption|unfold N, Zhi, A; lia].
    rewrite Ec. replace (A =? Zhi T) with false
      by (symmetry; apply Z.eqb_neq; unfold A, Zhi; lia).
    rewrite andb_false_r. reflexivity.
Qed.

Lemma Set_then_Val_witness :
  Val 6 (setBit 2 (fun _ => 0) (-1) 0 YES) 3 5 = YES /\
  Val 6 (setBit 2 (fun _ => 0) (-1) 0 YES) 3 0 = NO.
Proof.
  assert (H0 : N 2 * N 2 <= IndexFacts.INT_MAX) by (vm_compute; discriminate).
  assert (H1 : 0 <= fold 2 (-1) < N 2)
    by (vm_compute; split; [discriminate | reflexivity]).
  assert (H2 : 0 <= foldcol 2 0 < N 2)
    by (vm_compute; split; [discriminate | reflexivity]).
  assert (H3 : 0 <= 3 < N 2) by (vm_compute; split; [discriminate | reflexivity]).
  assert (H4 : 0 <= 0 < N 2) by (vm_compute; split; [discriminate | reflexivity]).
  destruct (Set_then_Val 2 (fun _ => 0) (-1) 0 YES 3 0 H0 H1 H2 H3 H4)
    as (_ & E1 & E2 & _).
  split; [exact E1|]. apply E2. vm_compute. discriminate.
Defined.

End BitMatrixFacts.

(* ===================================================================== *)
(** * Further facts: what [initSets] marks *)
(* ===================================================================== *)

Module InitSetsFacts.
Import Index Inference Posterior.

Section Marks.
  Variable T : Z.
  Hypothesis HT : 0 <= T.

(** Canonical indices. *)
Definition inRange (i j : Z) : Prop := 0 <= i <= Zhi T /\ 0 <= j <= Zhi T.

(** The canonical pairs [initSets] records: the first index is not the end
    sentinel, the second is not the start sentinel, and the pair is not
    (start, end). *)
Definition okPair (ci cj : Z) : Prop :=
  0 <= ci <= 2 * T /\ 1 <= cj <= Zhi T /\ (ci = 0 -> cj <> Zhi T).

(** The arguments [(x, y, x', y')] of one group of calls in [initSets]
    denote the canonical pair [(ci, cj)] and its image on the other
    strand. *)
Definition goodCall (q : Z * Z * Z * Z) (ci cj : Z) : Prop :=
  let '(x, y, x', y') := q in
  okPair ci cj /\ fold T x = ci /\ foldcol T y = cj /\ fold T y = cj /\
  fold T x' = map T cj /\ foldcol T y' = map T ci.

Definition recordQ (st : bytes * nodeList) (q : Z * Z * Z * Z)
  : bytes * nodeList :=
  let '(x, y, x', y') := q in record T st x y x' y'.

Lemma okPair_mirror ci cj : okPair ci cj -> okPair (map T cj) (map T ci).
Proof.
  unfold okPair, map, Zhi, A. intros H.
  repeat (case_match; try lia).
Qed.

Lemma okPair_map_map ci cj :
  okPair ci cj -> map T (map T ci) = ci /\ map T (map T cj) = cj.
Proof.
  intros (H1 & H2 & _).
  split; apply IndexFacts.map_map; unfold Zhi in *; lia.
Qed.

(** The bits of a matrix after the two [Set] calls of one group. *)
Lemma two_sets_bits H q ci cj i j :
  goodCall q ci cj -> inRange i j ->
  let '(x, y, x', y') := q in
  (Val (N T) (setBit T (setBit T H x y YES) x' y' YES) i j = 1 <->
   (i = ci /\ j = cj) \/ (i = map T cj /\ j = map T ci) \/
   Val (N T) H i j = 1).
Proof.
  destruct q as [[[x y] x'] y']. intros (Hok & Ex & Ey & _ & Ex' & Ey') [Hi Hj].
  pose proof (okPair_mirror ci cj Hok) as Hok'.
  destruct Hok as (H1 & H2 & _), Hok' as (H1' & H2' & _).
  assert (HN : N T = Zhi T + 1) by reflexivity.
  rewrite (BitMatrixFacts.Val_setBit T _ x' y' YES i j);
    [|rewrite Ex'; lia|rewrite Ey'; lia|lia|lia].
  rewrite (BitMatrixFacts.Val_setBit T H x y YES i j);
    [|rewrite Ex; lia|rewrite Ey; lia|lia|lia].
  rewrite Ex, Ey, Ex', Ey'.
  change (YES =? 1) with true. cbv iota.
  pose proof (PosteriorFacts.Val_bit (N T) H i j) as Hbit.
  destruct (Z.eqb_spec i (map T cj)), (Z.eqb_spec j (map T ci)),
           (Z.eqb_spec i ci), (Z.eqb_spec j cj); simpl; intuition lia.
Qed.


(** The canonical pair of a group of calls. *)
Definition canon (q : Z * Z * Z * Z) : Z * Z :=
  let '(x, y, _, _) := q in (fold T x, foldcol T y).

Definition goodQ (q : Z * Z * Z * Z) : Prop :=
  goodCall q (fst (canon q)) (snd (canon q)).

(** [(i, j)] is the pair of one of the groups [qs], or its image on the
    other strand. *)
Definition marked (qs : list (Z * Z * Z * Z)) (i j : Z) : Prop :=
  exists q, In q qs /\
    ((i = fst (canon q) /\ j = snd (canon q)) \/
     (i = map T (snd (canon q)) /\ j = map T (fst (canon q)))).

(** [k] is a column that [updatePS] marks for one of the groups [qs]. *)
Definition colMarked (qs : list (Z * Z * Z * Z)) (k : Z) : Prop :=
  exists q, In q qs /\
    ((k = snd (canon q) /\ snd (canon q) <> Zhi T) \/
     (k = map T (fst (canon q)) /\ fst (canon q) <> 0)).

Lemma updatePS_there b q k :
  goodQ q ->
  let '(x, y, _, _) := q in
  (there (updatePS T b x y) k = YES <->
   (k = snd (canon q) /\ snd (canon q) <> Zhi T) \/
   (k = map T (fst (canon q)) /\ fst (canon q) <> 0) \/
   there b k = YES) /\
  P (updatePS T b x y) = P b /\
  leafName (updatePS T b x y) = leafName b.
Proof.
  destruct q as [[[x y] x'] y']. unfold goodQ, goodCall, canon. simpl.
  intros ((H1 & H2 & H3) & _ & _ & Ey & _ & _).
  unfold updatePS. rewrite Ey.
  set (ci := fold T x) in *. set (cj := foldcol T y) in *.
  unfold A, YES.
  destruct (Z.eqb_spec ci 0) as [E0|E0]; [|destruct (Z.eqb_spec cj (Zhi T)) as [EZ|EZ]];
    unfold setThere; simpl; (split; [|split; reflexivity]).
  - specialize (H3 E0). destruct (Z.eqb_spec k cj); intuition lia.
  - destruct (Z.eqb_spec k (map T ci)); intuition lia.
  - destruct (Z.eqb_spec k cj), (Z.eqb_spec k (map T ci)); intuition lia.
Qed.

(** One group of calls. *)
Lemma recordQ_spec D b q :
  goodQ q ->
  let st' := recordQ (D, b) q in
  (forall i j, inRange i j ->
     (Val (N T) (fst st') i j = 1 <-> marked [q] i j \/ Val (N T) D i j = 1) /\
     (Val (N T) (P (snd st')) i j = 1 <->
      marked [q] i j \/ Val (N T) (P b) i j = 1)) /\
  (forall k, there (snd st') k = YES <-> colMarked [q] k \/ there b k = YES) /\
  leafName (snd st') = leafName b.
Proof.
  intros Hq. pose proof Hq as Hq'. unfold goodQ in Hq'.
  pose proof (updatePS_there) as U.
  destruct q as [[[x y] x'] y']. simpl.
  assert (M : forall i j, marked [(x, y, x', y')] i j <->
            (i = fold T x /\ j = foldcol T y) \/
            (i = map T (foldcol T y) /\ j = map T (fold T x))).
  { intros i j. unfold marked. split.
    - intros (q & [<-|[]] & H). exact H.
    - intros H. eexists. split; [now left | exact H]. }
  assert (C : forall k, colMarked [(x, y, x', y')] k <->
            (k = foldcol T y /\ foldcol T y <> Zhi T) \/
            (k = map T (fold T x) /\ fold T x <> 0)).
  { intros k. unfold colMarked. split.
    - intros (q & [<-|[]] & H). exact H.
    - intros H. eexists. split; [now left | exact H]. }
  split; [|split].
  - intros i j Hij. rewrite M. split.
    + pose proof (two_sets_bits D (x, y, x', y') _ _ i j Hq' Hij) as B.
      simpl in B. rewrite B. tauto.
    + specialize (U (mkLeaf (leafName b)
                       (setBit T (setBit T (P b) x y YES) x' y' YES) (there b))
                    (x, y, x', y') 0 Hq).
      simpl in U. destruct U as (_ & -> & _). simpl.
      pose proof (two_sets_bits (P b) (x, y, x', y') _ _ i j Hq' Hij) as B.
      simpl in B. rewrite B. tauto.
  - intros k. rewrite C.
    specialize (U (mkLeaf (leafName b)
                     (setBit T (setBit T (P b) x y YES) x' y' YES) (there b))
                  (x, y, x', y') k Hq).
    simpl in U. destruct U as (-> & _ & _). simpl. tauto.
  - specialize (U (mkLeaf (leafName b)
                     (setBit T (setBit T (P b) x y YES) x' y' YES) (there b))
                  (x, y, x', y') 0 Hq).
    simpl in U. destruct U as (_ & _ & ->). reflexivity.
Qed.

Lemma marked_cons q qs i j : marked (q :: qs) i j <-> marked [q] i j \/ marked qs i j.
Proof.
  unfold marked. split.
  - intros (q' & [<-|Hin] & H); [left | right]; eexists; split; eauto. now left.
  - intros [(q' & [<-|[]] & H)|(q' & Hin & H)]; eexists; split; eauto;
      [now left | now right].
Qed.

Lemma colMarked_cons q qs k :
  colMarked (q :: qs) k <-> colMarked [q] k \/ colMarked qs k.
Proof.
  unfold colMarked. split.
  - intros (q' & [<-|Hin] & H); [left | right]; eexists; split; eauto. now left.
  - intros [(q' & [<-|[]] & H)|(q' & Hin & H)]; eexists; split; eauto;
      [now left | now right].
Qed.

(** Any number of groups. *)
Lemma fold_recordQ_spec qs :
  Forall goodQ qs -> forall D b,
  let st' := fold_left recordQ qs (D, b) in
  (forall i j, inRange i j ->
     (Val (N T) (fst st') i j = 1 <-> marked qs i j \/ Val (N T) D i j = 1) /\
     (Val (N T) (P (snd st')) i j = 1 <->
      marked qs i j \/ Val (N T) (P b) i j = 1)) /\
  (forall k, there (snd st') k = YES <-> colMarked qs k \/ there b k = YES) /\
  leafName (snd st') = leafName b.
Proof.
  induction 1 as [|q qs Hq _ IH]; intros D b.
  - simpl. split; [|split; [|reflexivity]].
    + intros i j _. unfold marked. split; split; intros; try tauto;
        destruct H as [(q & [] & _)|H]; exact H.
    + intros k. unfold colMarked. split; intros; try tauto.
      destruct H as [(q & [] & _)|H]; exact H.
  - simpl fold_left.
    destruct (recordQ (D, b) q) as [D1 b1] eqn:E1.
    pose proof (recordQ_spec D b q Hq) as S1. rewrite E1 in S1. simpl in S1.
    destruct S1 as (S1 & S1t & S1n).
    specialize (IH D1 b1). cbv zeta in IH. destruct IH as (S2 & S2t & S2n).
    cbv zeta. split; [|split].
    + intros i j Hij. destruct (S1 i j Hij) as [A1 A2].
      destruct (S2 i j Hij) as [B1 B2].
      rewrite B1, B2, A1, A2, !(marked_cons q qs). tauto.
    + intros k. rewrite S2t, S1t, (colMarked_cons q qs). tauto.
    + rewrite S2n. exact S1n.
Qed.


(** ** The calls [initSets] makes for a chromosome *)

(** The groups of calls after the first one: the inner adjacencies, then
    the adjacency of the last element with the end sentinel. *)
Fixpoint innerCalls (prev : Z) (rest : list Z) : list (Z * Z * Z * Z) :=
  match rest with
  | [] => [(prev, Zhi T, A, - prev)]
  | e :: rest' => (prev, e, - e, - prev) :: innerCalls e rest'
  end.

Definition callsOf (ch : list Z) : list (Z * Z * Z * Z) :=
  match ch with
  | [] => []
  | e0 :: rest => (A, e0, - e0, Zhi T) :: innerCalls e0 rest
  end.

Lemma initInner_calls rest : forall st prev,
  (let (st2, last) := initInner T st prev rest in
   record T st2 last (Zhi T) A (- last))
  = fold_left recordQ (innerCalls prev rest) st.
Proof.
  induction rest as [|e rest IH]; intros st prev; simpl; [reflexivity|].
  apply IH.
Qed.

Lemma initChrom_calls st ch :
  initChrom T st ch = fold_left recordQ (callsOf ch) st.
Proof.
  destruct ch as [|e0 rest]; [reflexivity|].
  unfold initChrom, callsOf. simpl fold_left.
  apply initInner_calls.
Qed.

Lemma fold_initChrom_calls g : forall st,
  fold_left (initChrom T) g st = fold_left recordQ (flat_map callsOf g) st.
Proof.
  induction g as [|ch g IH]; intros st; simpl; [reflexivity|].
  rewrite fold_left_app, IH, initChrom_calls. reflexivity.
Qed.

(** Element ids are non-zero and at most [T] in absolute value. *)
Definition okElement (e : Z) : Prop := 1 <= Z.abs e <= T.

Lemma innerCalls_good rest : forall prev,
  okElement prev -> Forall okElement rest ->
  Forall goodQ (innerCalls prev rest).
Proof.
  induction rest as [|e rest IH]; intros prev Hp Hr; simpl.
  - constructor; [|constructor].
    unfold okElement in Hp.
    unfold goodQ, goodCall, canon, okPair, foldcol, fold, map, Zhi, A; simpl.
    repeat (case_match; try lia).
  - apply Forall_cons_iff in Hr as [He Hr].
    constructor; [|apply IH; assumption].
    unfold okElement in Hp, He.
    unfold goodQ, goodCall, canon, okPair, foldcol, fold, map, Zhi, A; simpl.
    repeat (case_match; try lia).
Qed.

Lemma callsOf_good ch : Forall okElement ch -> Forall goodQ (callsOf ch).
Proof.
  destruct ch as [|e0 rest]; intros H; [constructor|].
  apply Forall_cons_iff in H as [He Hr]. simpl.
  constructor; [|apply innerCalls_good; assumption].
  unfold okElement in He.
  unfold goodQ, goodCall, canon, okPair, foldcol, fold, map, Zhi, A; simpl.
  repeat (case_match; try lia).
Qed.

Lemma genome_good g :
  Forall (Forall okElement) g -> Forall goodQ (flat_map callsOf g).
Proof.
  induction 1 as [|ch g Hc _ IH]; simpl; [constructor|].
  apply Forall_app. split; [apply callsOf_good, Hc | exact IH].
Qed.

(** ** What the marked pairs look like *)

Lemma marked_okPair qs i j :
  Forall goodQ qs -> marked qs i j -> okPair i j.
Proof.
  intros Hq (q & Hin & H). rewrite List.Forall_forall in Hq.
  specialize (Hq q Hin). unfold goodQ in Hq.
  destruct q as [[[x y] x'] y']. destruct Hq as (Hok & _).
  destruct H as [[-> ->]|[-> ->]]; [exact Hok | apply okPair_mirror, Hok].
Qed.

Lemma marked_mirror qs i j :
  Forall goodQ qs -> marked qs i j -> marked qs (map T j) (map T i).
Proof.
  intros Hq (q & Hin & H). rewrite List.Forall_forall in Hq.
  specialize (Hq q Hin). unfold goodQ in Hq.
  destruct q as [[[x y] x'] y']. destruct Hq as (Hok & _).
  destruct (okPair_map_map _ _ Hok) as [M1 M2].
  exists (x, y, x', y'). split; [exact Hin|].
  destruct H as [[-> ->]|[-> ->]]; [right | left]; rewrite ?M1, ?M2; auto.
Qed.

Lemma colMarked_iff qs k :
  Forall goodQ qs -> 1 <= k <= 2 * T ->
  (colMarked qs k <-> exists i, 0 <= i <= Zhi T /\ marked qs i k).
Proof.
  intros Hq Hk. rewrite List.Forall_forall in Hq. split.
  - intros (q & Hin & H). specialize (Hq q Hin). unfold goodQ in Hq.
    destruct q as [[[x y] x'] y']. destruct Hq as (Hok & _).
    pose proof (okPair_mirror _ _ Hok) as Hok'.
    destruct Hok as (H1 & H2 & H3), Hok' as (H1' & H2' & H3').
    destruct H as [[-> _]|[-> _]].
    + exists (fst (canon (x, y, x', y'))). split; [unfold Zhi; lia|].
      exists (x, y, x', y'). split; [exact Hin | left; auto].
    + exists (map T (snd (canon (x, y, x', y')))). split; [unfold Zhi; lia|].
      exists (x, y, x', y'). split; [exact Hin | right; auto].
  - intros (i & Hi & q & Hin & H). specialize (Hq q Hin). unfold goodQ in Hq.
    destruct q as [[[x y] x'] y']. destruct Hq as (Hok & _).
    exists (x, y, x', y'). split; [exact Hin|].
    destruct Hok as (H1 & H2 & H3).
    destruct H as [[-> ->]|[-> E]].
    + left. split; [reflexivity | unfold Zhi; lia].
    + right. split; [exact E|]. intros E0. rewrite E0 in E.
      unfold map, A, Zhi in E. simpl in E. lia.
Qed.


(** ** All leaves *)

Definition calls (g : string * list (list Z)) : list (Z * Z * Z * Z) :=
  flat_map callsOf (snd g).

Definition okGenomes (genomes : list (string * list (list Z))) : Prop :=
  Forall (fun g => Forall (Forall okElement) (snd g)) genomes.

(** What the leaf [lf] built from the genome [g] holds. *)
Definition leafOf (g : string * list (list Z)) (lf : nodeList) : Prop :=
  leafName lf = fst g /\
  (forall i j, inRange i j ->
     (Val (N T) (P lf) i j = 1 <-> marked (calls g) i j)) /\
  (forall k, there lf k = YES <-> colMarked (calls g) k).

Definition leavesInv (done : list (string * list (list Z)))
    (D : bytes) (Leaf : list nodeList) : Prop :=
  Forall2 leafOf done Leaf /\
  (forall i j, inRange i j ->
     (Val (N T) D i j = 1 <-> exists g, In g done /\ marked (calls g) i j)).

Lemma Val_zero n i j : Val n (fun _ => 0) i j = 0.
Proof. unfold Val. rewrite Z.shiftr_0_l. reflexivity. Qed.

Lemma leaves_fold genomes :
  okGenomes genomes -> forall done D Leaf,
  leavesInv done D Leaf ->
  leavesInv (done ++ genomes)
    (fst (fold_left
       (fun (acc : bytes * list nodeList) (g : string * list (list Z)) =>
          let (DPPI, Leaf) := acc in
          let b := mkLeaf (fst g) (fun _ => 0) (fun _ => 0) in
          let (DPPI, b) := fold_left (initChrom T) (snd g) (DPPI, b) in
          (DPPI, Leaf ++ [b]))
       genomes (D, Leaf)))
    (snd (fold_left
       (fun (acc : bytes * list nodeList) (g : string * list (list Z)) =>
          let (DPPI, Leaf) := acc in
          let b := mkLeaf (fst g) (fun _ => 0) (fun _ => 0) in
          let (DPPI, b) := fold_left (initChrom T) (snd g) (DPPI, b) in
          (DPPI, Leaf ++ [b]))
       genomes (D, Leaf))).
Proof.
  induction 1 as [|g genomes Hg _ IH]; intros done D Leaf [HL HD].
  - simpl. rewrite app_nil_r. split; assumption.
  - simpl fold_left.
    rewrite fold_initChrom_calls.
    pose proof (fold_recordQ_spec (calls g) (genome_good _ Hg) D
                  (mkLeaf (fst g) (fun _ => 0) (fun _ => 0))) as S.
    cbv zeta in S. fold (calls g).
    destruct (fold_left recordQ (calls g)
                (D, mkLeaf (fst g) (fun _ => 0) (fun _ => 0))) as [D1 b1].
    simpl in S. destruct S as (S1 & S2 & S3).
    replace (done ++ g :: genomes) with ((done ++ [g]) ++ genomes)
      by (rewrite <- app_assoc; reflexivity).
    apply IH. split.
    + apply Forall2_app; [exact HL|]. constructor; [|constructor].
      split; [exact S3|]. split.
      * intros i j Hij. destruct (S1 i j Hij) as [_ B]. rewrite B, Val_zero.
        intuition lia.
      * intros k. rewrite S2. simpl. unfold YES. intuition lia.
    + intros i j Hij. destruct (S1 i j Hij) as [B _]. rewrite B, (HD i j Hij).
      split.
      * intros [M|(g' & Hin & M)].
        -- exists g. split; [apply in_or_app; right; now left | exact M].
        -- exists g'. split; [apply in_or_app; now left | exact M].
      * intros (g' & Hin & M). apply in_app_or in Hin as [Hin|[<-|[]]].
        -- right. exists g'. auto.
        -- left. exact M.
Qed.

Lemma initSets_inv genomes :
  okGenomes genomes ->
  leavesInv genomes (fst (initSets T genomes)) (snd (initSets T genomes)).
Proof.
  intros Hg. unfold initSets.
  apply (leaves_fold genomes Hg [] (fun _ => 0) []).
  split; [constructor|].
  intros i j _. rewrite Val_zero. split; [lia|].
  intros (g & [] & _).
Qed.

End Marks.


Lemma Forall2_pick_l {X Y} (R : X -> Y -> Prop) l l' x :
  Forall2 R l l' -> In x l -> exists y, In y l' /\ R x y.
Proof.
  induction 1 as [|a b l l' Hab _ IH]; intros Hin; [destruct Hin|].
  destruct Hin as [<-|Hin].
  - exists b. split; [now left | exact Hab].
  - destruct (IH Hin) as (y & Hy & Hr). exists y. split; [now right | exact Hr].
Qed.

Lemma Forall2_pick_r {X Y} (R : X -> Y -> Prop) l l' y :
  Forall2 R l l' -> In y l' -> exists x, In x l /\ R x y.
Proof.
  induction 1 as [|a b l l' Hab _ IH]; intros Hin; [destruct Hin|].
  destruct Hin as [<-|Hin].
  - exists a. split; [now left | exact Hab].
  - destruct (IH Hin) as (x & Hx & Hr). exists x. split; [now right | exact Hr].
Qed.

Lemma leafOf_names T gs lfs :
  Forall2 (leafOf T) gs lfs -> List.map leafName lfs = List.map fst gs.
Proof.
  induction 1 as [|g lf gs lfs (Hn & _) _ IH]; [reflexivity|].
  simpl. rewrite Hn, IH. reflexivity.
Qed.

Lemma twoGenomes_ok : okGenomes 2 twoGenomes.
Proof.
  unfold okGenomes, twoGenomes, okElement.
  repeat constructor; simpl; lia.
Qed.

(** The genome loop of [initSets] alone never marks a pair in row [Z] or
    in column [A] of the compatibility matrix, nor the pair [(A, Z)] of
    the two sentinels: the end sentinel has no successor and the start
    sentinel no predecessor.
    (Genomes hold element ids between 1 and [T] in absolute value.) *)
Theorem DPPI_sentinel_lines_unmarked (T : Z)
    (genomes : list (string * list (list Z))) (i j : Z) :
  0 <= T -> okGenomes T genomes ->
  0 <= i <= Zhi T -> 0 <= j <= Zhi T ->
  Val (N T) (fst (initSets T genomes)) (Zhi T) j = NO /\
  Val (N T) (fst (initSets T genomes)) i A = NO /\
  Val (N T) (fst (initSets T genomes)) A (Zhi T) = NO.
Proof.
  intros HT Hg Hi Hj.
  destruct (initSets_inv T HT genomes Hg) as [_ HD].
  assert (K : forall a b, inRange T a b ->
            Val (N T) (fst (initSets T genomes)) a b = 1 -> okPair T a b).
  { intros a b Hab E. apply (HD a b Hab) in E as (g & Hin & M).
    apply (marked_okPair T (calls T g)); [|exact M].
    apply genome_good; [exact HT|].
    unfold okGenomes in Hg. rewrite List.Forall_forall in Hg. apply Hg, Hin. }
  unfold NO. repeat split.
  - destruct (PosteriorFacts.Val_bit (N T) (fst (initSets T genomes)) (Zhi T) j)
      as [E|E]; [exact E|].
    apply K in E; [|unfold inRange, Zhi in *; lia].
    unfold okPair, Zhi in E. lia.
  - destruct (PosteriorFacts.Val_bit (N T) (fst (initSets T genomes)) i A)
      as [E|E]; [exact E|].
    apply K in E; [|unfold inRange, Zhi, A in *; lia].
    unfold okPair, A in E. lia.
  - destruct (PosteriorFacts.Val_bit (N T) (fst (initSets T genomes)) A (Zhi T))
      as [E|E]; [exact E|].
    apply K in E; [|unfold inRange, Zhi, A in *; lia].
    unfold okPair, A in E. intuition lia.
Qed.

Lemma DPPI_sentinel_lines_unmarked_witness :
  Val 6 twoDPPI 5 2 = NO /\ Val 6 twoDPPI 3 0 = NO.
Proof.
  destruct (DPPI_sentinel_lines_unmarked 2 twoGenomes 3 2) as (H1 & H2 & _).
  - lia.
  - exact twoGenomes_ok.
  - unfold Zhi. lia.
  - unfold Zhi. lia.
  - split; [exact H1 | exact H2].
Defined.

(** The compatibility matrix the genome loop of [initSets] builds is
    invariant under strand reversal: the pair [(i, j)] is marked exactly
    when the pair [(map j, map i)] is. *)
Theorem DPPI_strand_symmetric (T : Z)
    (genomes : list (string * list (list Z))) (i j : Z) :
  0 <= T -> okGenomes T genomes ->
  0 <= i <= Zhi T -> 0 <= j <= Zhi T ->
  Val (N T) (fst (initSets T genomes)) (map T j) (map T i)
  = Val (N T) (fst (initSets T genomes)) i j.
Proof.
  intros HT Hg Hi Hj.
  destruct (initSets_inv T HT genomes Hg) as [_ HD].
  set (D := fst (initSets T genomes)) in *.
  assert (Hm : inRange T (map T j) (map T i)).
  { split; apply IndexFacts.map_range; assumption. }
  assert (K : forall a b, inRange T a b ->
            Val (N T) D a b = 1 -> Val (N T) D (map T b) (map T a) = 1).
  { intros a b Hab E. pose proof Hab as [Ha Hb].
    apply (HD a b Hab) in E as (g & Hin & M).
    apply HD; [split; apply IndexFacts.map_range; assumption|].
    exists g. split; [exact Hin|].
    apply marked_mirror; [exact HT| |exact M].
    apply genome_good; [exact HT|].
    unfold okGenomes in Hg. rewrite List.Forall_forall in Hg. apply Hg, Hin. }
  destruct (PosteriorFacts.Val_bit (N T) D i j) as [E|E].
  - destruct (PosteriorFacts.Val_bit (N T) D (map T j) (map T i)) as [E'|E'];
      [congruence|].
    apply K in E'; [|exact Hm].
    rewrite !IndexFacts.map_map in E' by assumption. congruence.
  - rewrite E. apply K; [split; assumption | exact E].
Qed.

Lemma DPPI_strand_symmetric_witness :
  Val 6 twoDPPI (map 2 2) (map 2 1) = Val 6 twoDPPI 1 2.
Proof.
  apply (DPPI_strand_symmetric 2 twoGenomes 1 2).
  - lia.
  - exact twoGenomes_ok.
  - unfold Zhi. lia.
  - unfold Zhi. lia.
Defined.

(** The genome loop of [initSets] creates one leaf record per genome, in
    order and under the genome's name, and the compatibility matrix is
    exactly the union of the leaves' adjacency matrices: a pair is marked
    in [DPPI] if and only if some leaf has it. *)
Theorem DPPI_is_union_of_leaves (T : Z)
    (genomes : list (string * list (list Z))) :
  0 <= T -> okGenomes T genomes ->
  List.map leafName (snd (initSets T genomes)) = List.map fst genomes /\
  (forall i j, 0 <= i <= Zhi T -> 0 <= j <= Zhi T ->
     (Val (N T) (fst (initSets T genomes)) i j = YES <->
      exists lf, In lf (snd (initSets T genomes)) /\
                 Val (N T) (P lf) i j = YES)).
Proof.
  intros HT Hg. destruct (initSets_inv T HT genomes Hg) as [HL HD].
  split.
  - apply (leafOf_names T), HL.
  - intros i j Hi Hj. unfold YES.
    rewrite (HD i j (conj Hi Hj)). split.
    + intros (g & Hin & M).
      destruct (Forall2_pick_l _ _ _ g HL Hin) as (lf & Hlf & _ & HP & _).
      exists lf. split; [exact Hlf|]. apply HP; [split; assumption | exact M].
    + intros (lf & Hlf & E).
      destruct (Forall2_pick_r _ _ _ lf HL Hlf) as (g & Hin & _ & HP & _).
      exists g. split; [exact Hin|]. apply HP; [split; assumption | exact E].
Qed.

Lemma DPPI_is_union_of_leaves_witness :
  List.map leafName twoLeaves = ["A"%string; "B"%string].
Proof.
  destruct (DPPI_is_union_of_leaves 2 twoGenomes) as [H _].
  - lia.
  - exact twoGenomes_ok.
  - exact H.
Defined.

(** For every leaf and every non-sentinel index [k], the genome loop of
    [initSets] sets the marker [there[k]] exactly when the leaf's
    adjacency matrix holds some predecessor of [k]. *)
Theorem there_iff_leaf_has_predecessor (T : Z)
    (genomes : list (string * list (list Z))) (lf : nodeList) (k : Z) :
  0 <= T -> okGenomes T genomes ->
  In lf (snd (initSets T genomes)) -> 1 <= k <= 2 * T ->
  (there lf k = YES <->
   exists i, 0 <= i <= Zhi T /\ Val (N T) (P lf) i k = YES).
Proof.
  intros HT Hg Hlf Hk. destruct (initSets_inv T HT genomes Hg) as [HL _].
  destruct (Forall2_pick_r _ _ _ lf HL Hlf) as (g & Hin & _ & HP & Ht).
  assert (Hq : Forall (goodQ T) (calls T g)).
  { apply genome_good; [exact HT|].
    unfold okGenomes in Hg. rewrite List.Forall_forall in Hg. apply Hg, Hin. }
  rewrite Ht, (colMarked_iff T _ k Hq Hk). unfold YES.
  split; intros (i & Hi & H); exists i; (split; [exact Hi|]);
    apply (HP i k); try exact H; unfold inRange, Zhi in *; lia.
Qed.

Lemma there_iff_leaf_has_predecessor_witness :
  forall lf, In lf twoLeaves ->
    (there lf 2 = YES <-> exists i, 0 <= i <= Zhi 2 /\ Val 6 (P lf) i 2 = YES).
Proof.
  intros lf Hlf.
  apply (there_iff_leaf_has_predecessor 2 twoGenomes lf 2).
  - lia.
  - exact twoGenomes_ok.
  - exact Hlf.
  - lia.
Defined.

End InitSetsFacts.

(* ===================================================================== *)
(** * Further facts: the sparse tables and the inference pass *)
(* ===================================================================== *)

Module TableFacts.
Import Index Inference Posterior.

Local Open Scope R_scope.

(** X3.  Writing then reading the sparse tables: after
    [PSet(H, i, j, v)] the cell at the folded position
    [(fold i, foldcol j)] reads [v] and every other cell reads as before,
    and likewise for [SSet] and [SVal]; a cell never written reads 0. *)
Theorem sparse_set_then_get (T : Z) (H : matrix) (i j : Z) (v : R) (i' j' : Z) :
  PVal (PSet T H i j v) i' j'
  = (if (i' =? fold T i)%Z && (j' =? foldcol T j)%Z then v else PVal H i' j') /\
  SVal (SSet T H i j v) i' j'
  = (if (i' =? fold T i)%Z && (j' =? foldcol T j)%Z then v else SVal H i' j') /\
  PVal zeroMatrix i' j' = 0 /\ SVal zeroMatrix i' j' = 0.
Proof.
  repeat split.
  - unfold PVal, PSet.
    destruct (Z.eqb_spec j' (foldcol T j)) as [->|Hj].
    + destruct (Z.eqb_spec i' (fold T i)) as [->|Hi]; simpl.
      * rewrite PosteriorFacts.lookup_setCell_eq. reflexivity.
      * rewrite PosteriorFacts.lookup_setCell_ne by auto. reflexivity.
    + rewrite andb_false_r. reflexivity.
  - unfold SVal, SSet.
    destruct (Z.eqb_spec i' (fold T i)) as [->|Hi]; [|reflexivity].
    destruct (Z.eqb_spec j' (foldcol T j)) as [->|Hj]; simpl.
    + rewrite PosteriorFacts.lookup_setCell_eq. reflexivity.
    + rewrite PosteriorFacts.lookup_setCell_ne by auto. reflexivity.
  - unfold PVal, zeroMatrix. simpl. destruct i'; reflexivity.
  - unfold SVal, zeroMatrix. simpl. destruct j'; reflexivity.
Qed.

(** X4.  The two sentinel loops of [normalize]: for every non-sentinel
    index [j] with [(A, j)] compatible the successor posterior of
    [(A, j)] is a copy of its predecessor posterior, and for every
    non-sentinel [i] with [(i, Z)] compatible the predecessor posterior of
    [(i, Z)] is a copy of its successor posterior; no other cell of a
    non-sentinel column of [PPP] or of a non-sentinel row of [SPP] is
    touched by these loops. *)
Theorem normalize_copies_at_sentinels (T : Z) (DPPI : bytes)
    (PLH SLH PPP0 SPP0 PPP SPP : matrix) :
  normalize T DPPI PLH SLH PPP0 SPP0 = (PPP, SPP) ->
  (forall j, (1 <= j <= 2 * T)%Z -> Val (N T) DPPI A j = YES ->
             SVal SPP A j = PVal PPP A j) /\
  (forall i, (1 <= i <= 2 * T)%Z -> Val (N T) DPPI i (Zhi T) = YES ->
             PVal PPP i (Zhi T) = SVal SPP i (Zhi T)) /\
  (forall i j, (1 <= j <= 2 * T)%Z ->
             PVal PPP i j = PVal (normalize1 T PLH PPP0) i j) /\
  (forall i j, (1 <= i)%Z ->
             SVal SPP i j = SVal (normalize2 T SLH SPP0) i j).
Proof.
  unfold normalize. intros [= <- <-]. repeat split.
  - intros j Hj Hc.
    rewrite PosteriorFacts.normalize3_first by assumption.
    rewrite PosteriorFacts.PVal_normalize4_inner by assumption. reflexivity.
  - intros i Hi Hc. apply PosteriorFacts.normalize4_last; assumption.
  - intros i j Hj. apply PosteriorFacts.PVal_normalize4_inner, Hj.
  - intros i j Hi. apply PosteriorFacts.SVal_normalize3_inner, Hi.
Qed.

Lemma normalize_copies_at_sentinels_witness :
  SVal (snd (normalize 1 sampleDPPI sampleTable sampleTable
                       zeroMatrix zeroMatrix)) A 1
  = PVal (fst (normalize 1 sampleDPPI sampleTable sampleTable
                         zeroMatrix zeroMatrix)) A 1.
Proof.
  destruct (normalize_copies_at_sentinels 1 sampleDPPI sampleTable sampleTable
              zeroMatrix zeroMatrix
              (fst (normalize 1 sampleDPPI sampleTable sampleTable
                              zeroMatrix zeroMatrix))
              (snd (normalize 1 sampleDPPI sampleTable sampleTable
                              zeroMatrix zeroMatrix)) eq_refl) as (H & _).
  apply H; [lia | vm_compute; reflexivity].
Defined.


(** ** Well-formed lists *)

Lemma setCell_cx_in i v l x :
  In x (List.map cx (setCell i v l)) <-> x = i \/ In x (List.map cx l).
Proof.
  induction l as [|c l IH]; simpl; [intuition|].
  destruct (Z.eqb_spec (cx c) i) as [E|E]; simpl.
  - intuition congruence.
  - rewrite IH. intuition.
Qed.

Lemma setCell_wf i v l : (0 <= i)%Z -> wfList l -> wfList (setCell i v l).
Proof.
  intros Hi ((c0 & rest & -> & Hc0) & ND & Hpos). split; [|split].
  - simpl. destruct (cx c0 =? i)%Z; eexists _, _; split; try reflexivity; exact Hc0.
  - clear Hc0 Hpos. revert ND. generalize (c0 :: rest). clear c0 rest.
    induction l as [|c l IH]; simpl; intros ND.
    + repeat constructor. intros [].
    + destruct (Z.eqb_spec (cx c) i) as [E|E]; simpl; [exact ND|].
      apply NoDup_cons_iff in ND as [Hn ND]. constructor; [|apply IH, ND].
      rewrite setCell_cx_in. intuition.
  - rewrite List.Forall_forall in *. intros c Hc.
    assert (Hin : In (cx c) (List.map cx (setCell i v (c0 :: rest))))
      by (apply in_map, Hc).
    apply setCell_cx_in in Hin as [->|Hin]; [exact Hi|].
    apply in_map_iff in Hin as (c' & <- & Hc'). apply Hpos, Hc'.
Qed.

Lemma zeroMatrix_wf k : wfList (zeroMatrix k).
Proof.
  unfold zeroMatrix. split; [|split].
  - eexists _, _. split; reflexivity.
  - repeat constructor. intros [].
  - repeat constructor. simpl. lia.
Qed.

Lemma PSet_wf T H i j v :
  (0 <= fold T i)%Z -> (forall k, wfList (H k)) ->
  forall k, wfList (PSet T H i j v k).
Proof.
  intros Hi HH k. unfold PSet.
  destruct (k =? foldcol T j)%Z; [apply setCell_wf; auto | apply HH].
Qed.

Lemma SSet_wf T H i j v :
  (0 <= foldcol T j)%Z -> (forall k, wfList (H k)) ->
  forall k, wfList (SSet T H i j v k).
Proof.
  intros Hj HH k. unfold SSet.
  destruct (k =? fold T i)%Z; [apply setCell_wf; auto | apply HH].
Qed.

(** ** The table of [getPredecessor] *)

Section PredTable.
  Variable T : Z.
  Variable DPPI : bytes.
  Variable val : Z -> Z -> R.

(** The inner loop of [getPredecessor], over the rows [rows]. *)
Definition innerLoop (j : Z) (rows : list Z) (H : matrix) : matrix :=
  fold_left (fun H i => if (Val (N T) DPPI i j =? NO)%Z then H
                        else PSet T H i j (val i j)) rows H.

Lemma innerLoop_cons j i rows H :
  innerLoop j (i :: rows) H
  = innerLoop j rows (if (Val (N T) DPPI i j =? NO)%Z then H
                      else PSet T H i j (val i j)).
Proof. reflexivity. Qed.

Lemma inner_wf j rows :
  (forall i, In i rows -> (0 <= i)%Z) ->
  forall H, (forall k, wfList (H k)) -> forall k, wfList (innerLoop j rows H k).
Proof.
  induction rows as [|i rows IH]; intros Hpos H HH; [exact HH|].
  rewrite innerLoop_cons.
  apply IH; [intros; apply Hpos; now right|].
  destruct (Val (N T) DPPI i j =? NO)%Z; [exact HH|].
  apply PSet_wf; [|exact HH].
  rewrite PosteriorFacts.fold_nonneg; apply Hpos; now left.
Qed.

Lemma inner_other j rows : forall H k,
  k <> foldcol T j -> innerLoop j rows H k = H k.
Proof.
  induction rows as [|i rows IH]; intros H k Hk; [reflexivity|].
  rewrite innerLoop_cons, IH by exact Hk.
  destruct (Val (N T) DPPI i j =? NO)%Z; [reflexivity|].
  unfold PSet. apply Z.eqb_neq in Hk. rewrite Hk. reflexivity.
Qed.

Lemma inner_lookup j rows x :
  List.NoDup rows -> (forall i, In i rows -> (0 <= i)%Z) -> (0 <= x)%Z ->
  forall H,
  lookupCell x (innerLoop j rows H (foldcol T j))
  = if existsb (Z.eqb x) rows && negb (Val (N T) DPPI x j =? NO)%Z
    then Some (val x j) else lookupCell x (H (foldcol T j)).
Proof.
  intros ND Hpos Hx. induction rows as [|i rows IH]; intros H; [reflexivity|].
  apply NoDup_cons_iff in ND as [Hni ND].
  rewrite innerLoop_cons, IH; [|exact ND|intros; apply Hpos; now right].
  cbn [existsb].
  destruct (Z.eqb_spec x i) as [->|Hne]; cbn [orb].
  - assert (E : existsb (Z.eqb i) rows = false).
    { apply not_true_is_false. intros E. apply existsb_exists in E as (y & Hy & Ey).
      apply Z.eqb_eq in Ey. subst. contradiction. }
    rewrite E. cbn [andb].
    destruct (Val (N T) DPPI i j =? NO)%Z; cbn [negb]; [reflexivity|].
    unfold PSet. rewrite Z.eqb_refl, PosteriorFacts.fold_nonneg by exact Hx.
    rewrite PosteriorFacts.lookup_setCell_eq. reflexivity.
  - destruct (existsb (Z.eqb x) rows && negb (Val (N T) DPPI x j =? NO)%Z);
      [reflexivity|].
    destruct (Val (N T) DPPI i j =? NO)%Z; [reflexivity|].
    unfold PSet. rewrite Z.eqb_refl.
    rewrite PosteriorFacts.fold_nonneg by (apply Hpos; now left).
    apply PosteriorFacts.lookup_setCell_ne. auto.
Qed.

Lemma outer_other js rows : forall H k,
  (forall j, In j js -> foldcol T j <> k) ->
  fold_left (fun H j => innerLoop j rows H) js H k = H k.
Proof.
  induction js as [|j js IH]; intros H k Hk; simpl; [reflexivity|].
  rewrite IH by (intros; apply Hk; now right).
  apply inner_other. apply not_eq_sym, Hk. now left.
Qed.

Lemma outer_lookup js rows j x :
  List.NoDup js -> In j js -> (forall j', In j' js -> (1 <= j')%Z) ->
  List.NoDup rows -> (forall i, In i rows -> (0 <= i)%Z) -> (0 <= x)%Z ->
  forall H,
  lookupCell x (fold_left (fun H j => innerLoop j rows H) js H j)
  = if existsb (Z.eqb x) rows && negb (Val (N T) DPPI x j =? NO)%Z
    then Some (val x j) else lookupCell x (H j).
Proof.
  intros NDj Hj Hjs NDi Hpos Hx.
  induction js as [|j0 js IH]; intros H; [destruct Hj|]. simpl.
  apply NoDup_cons_iff in NDj as [Hn NDj].
  assert (Fj : forall j', In j' (j0 :: js) -> foldcol T j' = j').
  { intros j' Hj'. apply PosteriorFacts.foldcol_pos, Hjs, Hj'. }
  destruct (Z.eq_dec j0 j) as [->|Hne].
  - rewrite outer_other.
    + pose proof (inner_lookup j rows x NDi Hpos Hx H) as L.
      rewrite (Fj j) in L by (now left). exact L.
    + intros j' Hj'. rewrite (Fj j') by (now right). intros ->. contradiction.
  - destruct Hj as [Hj|Hj]; [contradiction|].
    rewrite IH; [|exact NDj|exact Hj|intros; apply Hjs; now right].
    rewrite inner_other; [reflexivity|].
    rewrite (Fj j0) by (now left). auto.
Qed.

Lemma predTable_outer H :
  predTable T DPPI val H
  = fold_left (fun H j => innerLoop j (range A (Zhi T)) H)
              (range (A + 1) (Zhi T)) H.
Proof. reflexivity. Qed.

Lemma predTable_wf H :
  (forall k, wfList (H k)) ->
  forall k, wfList (predTable T DPPI val H k).
Proof.
  intros HH. rewrite predTable_outer.
  generalize (range (A + 1) (Zhi T)). intros js. revert H HH.
  induction js as [|j js IH]; intros H HH; simpl; [exact HH|].
  apply IH. apply inner_wf; [|exact HH].
  intros i Hi. apply PosteriorFacts.In_range in Hi. unfold A in Hi. lia.
Qed.

Lemma predTable_lookup i j :
  (0 <= i <= 2 * T)%Z -> (1 <= j <= 2 * T)%Z ->
  PVal (predTable T DPPI val zeroMatrix) i j
  = if (Val (N T) DPPI i j =? NO)%Z then 0 else val i j.
Proof.
  intros Hi Hj. unfold PVal. rewrite predTable_outer.
  rewrite outer_lookup.
  - assert (E : existsb (Z.eqb i) (range A (Zhi T)) = true).
    { apply existsb_exists. exists i. split; [|apply Z.eqb_refl].
      apply PosteriorFacts.In_range. unfold A, Zhi. lia. }
    rewrite E. simpl.
    destruct (Val (N T) DPPI i j =? NO)%Z; simpl; [|reflexivity].
    unfold zeroMatrix. simpl. destruct i; reflexivity.
  - apply PosteriorFacts.NoDup_range.
  - apply PosteriorFacts.In_range. unfold A, Zhi. lia.
  - intros j' Hj'. apply PosteriorFacts.In_range in Hj'. unfold A in Hj'. lia.
  - apply PosteriorFacts.NoDup_range.
  - intros i' Hi'. apply PosteriorFacts.In_range in Hi'. unfold A in Hi'. lia.
  - lia.
Qed.

End PredTable.


(** X5.  [getPredecessor], run on zeroed tables, succeeds and fills [PLH]
    with the pre-likelihood at the ancestor of exactly the compatible
    pairs: for [0 <= i <= 2T] and [1 <= j <= 2T] the cell [(i, j)] reads
    the value of the recursion when [(i, j)] is marked in [DPPI] and 0
    otherwise.  Every list of the table starts with the head cell of
    index 0 and holds every index once, none negative.  (Hypotheses as for
    [preLikelihood]: distinct node addresses, every leaf in the leaf list,
    row [Z] of [DPPI] unmarked, sound caches.) *)
Theorem getPredecessor_fills_compatible_pairs (T : Z) (DPPI : bytes)
    (Leaf : list nodeList) (Ances : phyloTree) (st : caches) :
  (0 <= T)%Z ->
  distinctAddrs Ances ->
  leavesListed Leaf Ances ->
  (forall j, In j (range (A + 1) (Zhi T)) ->
             compatible T DPPI (Zhi T) j = false) ->
  cachesSound T DPPI Leaf Ances st ->
  exists PLH st',
    getPredecessor T DPPI Leaf Ances zeroMatrix st = Some (PLH, st') /\
    cachesSound T DPPI Leaf Ances st' /\
    (forall k, wfList (PLH k)) /\
    (forall i j, (0 <= i <= 2 * T)%Z -> (1 <= j <= 2 * T)%Z ->
       PVal PLH i j
       = if compatible T DPPI i j
         then likelihoodSpec T DPPI Leaf Ances i j else 0).
Proof.
  intros HT HD HL HZ HS.
  destruct (PosteriorFacts.getPredecessor_sound T DPPI Leaf Ances HT HD HL
              zeroMatrix st HZ HS) as (st' & E & HS').
  eexists _, st'. split; [exact E|]. split; [exact HS'|]. split.
  - apply predTable_wf, zeroMatrix_wf.
  - intros i j Hi Hj. rewrite predTable_lookup by assumption.
    unfold compatible, NO, YES.
    destruct (PosteriorFacts.Val_bit (N T) DPPI i j) as [-> | ->]; reflexivity.
Qed.

Lemma getPredecessor_fills_compatible_pairs_witness :
  exists PLH st',
    getPredecessor 2 twoDPPI twoLeaves zeroTree zeroMatrix (mkCaches ∅ ∅)
    = Some (PLH, st') /\
    PVal PLH 1 2 = likelihoodSpec 2 twoDPPI twoLeaves zeroTree 1 2.
Proof.
  destruct (getPredecessor_fills_compatible_pairs 2 twoDPPI twoLeaves zeroTree
              (mkCaches ∅ ∅) ltac:(lia) PosteriorFacts.zeroTree_distinct
              PosteriorFacts.zeroTree_listed PosteriorFacts.zero_rowZ
              PosteriorFacts.zero_caches_sound)
    as (PLH & st' & E & _ & _ & HV).
  exists PLH, st'. split; [exact E|].
  rewrite (HV 1%Z 2%Z) by lia. reflexivity.
Defined.

End TableFacts.

(* ===================================================================== *)
(** * Further facts: the successor table *)
(* ===================================================================== *)

Module SuccessorFacts.
Import Index Inference Posterior.

Local Open Scope R_scope.

(** A write of value [v] into cell [c] of list [r], with the indices
    already folded, and a sequence of such writes. *)
Definition setAt (H : matrix) (w : Z * Z * R) : matrix :=
  let '(r, c, v) := w in
  fun k => if (k =? r)%Z then setCell c v (H r) else H k.

Definition applyWrites (ws : list (Z * Z * R)) (H : matrix) : matrix :=
  fold_left setAt ws H.

Definition at_ (r c : Z) (w : Z * Z * R) : Prop :=
  fst (fst w) = r /\ snd (fst w) = c.

Lemma SSet_setAt T H i j v :
  SSet T H i j v = setAt H (fold T i, foldcol T j, v).
Proof. reflexivity. Qed.

Lemma setAt_lookup H w r c :
  lookupCell c (setAt H w r)
  = if (r =? fst (fst w))%Z && (c =? snd (fst w))%Z
    then Some (snd w) else lookupCell c (H r).
Proof.
  destruct w as [[r' c'] v]. simpl.
  destruct (Z.eqb_spec r r') as [->|Hr]; simpl; [|reflexivity].
  destruct (Z.eqb_spec c c') as [->|Hc].
  - apply PosteriorFacts.lookup_setCell_eq.
  - apply PosteriorFacts.lookup_setCell_ne. auto.
Qed.

Lemma applyWrites_none ws r c : forall H,
  (forall w, In w ws -> ~ at_ r c w) ->
  lookupCell c (applyWrites ws H r) = lookupCell c (H r).
Proof.
  unfold applyWrites.
  induction ws as [|w ws IH]; intros H Hn; simpl; [reflexivity|].
  rewrite IH by (intros; apply Hn; now right).
  rewrite setAt_lookup.
  destruct (Z.eqb_spec r (fst (fst w))) as [E1|E1]; simpl; [|reflexivity].
  destruct (Z.eqb_spec c (snd (fst w))) as [E2|E2]; [|reflexivity].
  exfalso. apply (Hn w); [now left | split; auto].
Qed.

Lemma applyWrites_some ws r c v : forall H,
  (exists w, In w ws /\ at_ r c w) ->
  (forall w, In w ws -> at_ r c w -> snd w = v) ->
  lookupCell c (applyWrites ws H r) = Some v.
Proof.
  unfold applyWrites.
  induction ws as [|w ws IH]; intros H (w0 & Hin & Hat) Hv; [destruct Hin|].
  simpl.
  destruct (existsb (fun w => (fst (fst w) =? r)%Z && (snd (fst w) =? c)%Z) ws)
    eqn:E.
  - apply existsb_exists in E as (w1 & Hw1 & E).
    apply andb_true_iff in E as [E1 E2]. apply Z.eqb_eq in E1, E2.
    apply IH; [exists w1; split; [exact Hw1 | split; assumption]|].
    intros; apply Hv; [now right | assumption].
  - assert (Hn : forall w', In w' ws -> ~ at_ r c w').
    { intros w' Hw' [A1 A2].
      assert (existsb (fun w => (fst (fst w) =? r)%Z && (snd (fst w) =? c)%Z) ws
              = true); [|congruence].
      apply existsb_exists. exists w'. split; [exact Hw'|].
      rewrite A1, A2, !Z.eqb_refl. reflexivity. }
    fold (applyWrites ws (setAt H w)). rewrite applyWrites_none by exact Hn.
    destruct Hin as [<-|Hin]; [|exfalso; apply (Hn w0 Hin Hat)].
    rewrite setAt_lookup. destruct Hat as [<- <-]. rewrite !Z.eqb_refl. simpl.
    f_equal. apply Hv; [now left | split; reflexivity].
Qed.

(** Loops as sequences of writes. *)
Lemma loop_writes {X} (f : X -> list (Z * Z * R)) (body : matrix -> X -> matrix) l :
  (forall H x, body H x = applyWrites (f x) H) ->
  forall H, fold_left body l H = applyWrites (flat_map f l) H.
Proof.
  intros Hb. induction l as [|x l IH]; intros H; simpl; [reflexivity|].
  rewrite IH, Hb. unfold applyWrites. rewrite fold_left_app. reflexivity.
Qed.


Section Successor.
  Variable T : Z.
  Variable PLH : matrix.
  Hypothesis HT : (0 <= T)%Z.

(** The writes of the two loops of [getSuccessor]. *)
Definition firstWrites : list (Z * Z * R) :=
  flat_map (fun j => if positive (PVal PLH A (map T j))
                     then [(fold T j, foldcol T (Zhi T), PVal PLH A (map T j))]
                     else [])
           (range A (Zhi T + 1)).

Definition secondWrites : list (Z * Z * R) :=
  flat_map (fun i =>
              flat_map (fun pt => if positive (cval pt)
                                  then [(fold T (map T i),
                                         foldcol T (map T (cx pt)), cval pt)]
                                  else [])
                       (PLH i))
           (range (A + 1) (Zhi T)).

Lemma getSuccessor_writes SLH :
  getSuccessor T PLH SLH = applyWrites (firstWrites ++ secondWrites) SLH.
Proof.
  unfold getSuccessor. cbv zeta.
  rewrite (loop_writes
             (fun i => flat_map
                         (fun pt => if positive (cval pt)
                                    then [(fold T (map T i),
                                           foldcol T (map T (cx pt)), cval pt)]
                                    else [])
                         (PLH i))).
  - rewrite (loop_writes
               (fun j => if positive (PVal PLH A (map T j))
                         then [(fold T j, foldcol T (Zhi T),
                                PVal PLH A (map T j))]
                         else [])).
    + unfold applyWrites. rewrite fold_left_app. reflexivity.
    + intros H j. destruct (positive (PVal PLH A (map T j))); reflexivity.
  - intros H i. apply loop_writes.
    intros H' pt. destruct (positive (cval pt)); reflexivity.
Qed.

(** The cells of the non-sentinel lists of [PLH]: well formed, with
    indices up to [2T] and non-negative values. *)
Definition okColumns : Prop :=
  forall k, (1 <= k <= 2 * T)%Z ->
    wfList (PLH k) /\ nonneg (PLH k) /\
    Forall (fun c => (cx c <= 2 * T)%Z) (PLH k).

Lemma lookup_of_In l c :
  List.NoDup (List.map cx l) -> In c l -> lookupCell (cx c) l = Some (cval c).
Proof.
  induction l as [|c' l IH]; intros ND Hin; [destruct Hin|].
  simpl in *. apply NoDup_cons_iff in ND as [Hn ND].
  destruct Hin as [->|Hin]; [rewrite Z.eqb_refl; reflexivity|].
  destruct (Z.eqb_spec (cx c') (cx c)) as [E|E]; [|apply IH; assumption].
  exfalso. apply Hn. rewrite E. apply in_map, Hin.
Qed.

Lemma positive_true v : positive v = true <-> 0 < v.
Proof. unfold positive. destruct (Rlt_dec 0 v); intuition discriminate. Qed.

Lemma map_inj a b :
  (0 <= a <= Zhi T)%Z -> (0 <= b <= Zhi T)%Z -> map T a = map T b -> a = b.
Proof.
  intros Ha Hb E.
  rewrite <- (IndexFacts.map_map T a), <- (IndexFacts.map_map T b), E by assumption.
  reflexivity.
Qed.

Lemma In_firstWrites w :
  In w firstWrites ->
  exists j, (0 <= j <= Zhi T)%Z /\ 0 < snd w /\
            w = (j, Zhi T, PVal PLH A (map T j)).
Proof.
  unfold firstWrites. intros H. apply in_flat_map in H as (j & Hj & Hw).
  apply PosteriorFacts.In_range in Hj. unfold A in Hj.
  destruct (positive (PVal PLH A (map T j))) eqn:E; [|destruct Hw].
  destruct Hw as [<-|[]]. exists j. split; [lia|]. split.
  - simpl. apply positive_true, E.
  - rewrite PosteriorFacts.fold_nonneg, PosteriorFacts.foldcol_pos
      by (unfold Zhi; lia). reflexivity.
Qed.

Lemma In_secondWrites w :
  okColumns -> In w secondWrites ->
  exists i c, (1 <= i <= 2 * T)%Z /\ In c (PLH i) /\ 0 < cval c /\
              (0 <= cx c <= 2 * T)%Z /\
              w = (map T i, map T (cx c), cval c).
Proof.
  unfold secondWrites. intros Hok H.
  apply in_flat_map in H as (i & Hi & H).
  apply in_flat_map in H as (c & Hc & Hw).
  apply PosteriorFacts.In_range in Hi. unfold A, Zhi in Hi.
  assert (Hi' : (1 <= i <= 2 * T)%Z) by lia.
  destruct (Hok i Hi') as ((_ & _ & Hpos) & _ & Hb).
  rewrite List.Forall_forall in Hpos, Hb.
  specialize (Hpos c Hc). specialize (Hb c Hc). simpl in Hpos, Hb.
  destruct (positive (cval c)) eqn:E; [|destruct Hw].
  destruct Hw as [<-|[]]. exists i, c.
  repeat split; try assumption; try lia; [apply positive_true, E|].
  assert (R1 : (1 <= map T i <= 2 * T)%Z)
    by (unfold map, A, Zhi; repeat (case_match; try lia)).
  assert (R2 : (1 <= map T (cx c) <= Zhi T)%Z)
    by (unfold map, A, Zhi; repeat (case_match; try lia)).
  rewrite PosteriorFacts.fold_nonneg, PosteriorFacts.foldcol_pos by lia.
  reflexivity.
Qed.


Lemma PVal_nonneg i k :
  okColumns -> (1 <= k <= 2 * T)%Z -> 0 <= PVal PLH i k.
Proof.
  intros Hok Hk. destruct (Hok k Hk) as (_ & Hnn & _).
  unfold PVal. destruct (lookupCell i (PLH k)) as [v|] eqn:E; [|lra].
  apply PosteriorFacts.lookupCell_In in E as (c & Hc & _ & <-).
  unfold nonneg in Hnn. rewrite List.Forall_forall in Hnn. apply Hnn, Hc.
Qed.

Lemma PVal_of_In c k :
  okColumns -> (1 <= k <= 2 * T)%Z -> In c (PLH k) ->
  PVal PLH (cx c) k = cval c.
Proof.
  intros Hok Hk Hc. destruct (Hok k Hk) as ((_ & ND & _) & _).
  unfold PVal. rewrite (lookup_of_In _ c ND Hc). reflexivity.
Qed.

Lemma successor_entry a b :
  okColumns -> (1 <= a <= 2 * T)%Z -> (1 <= b <= Zhi T)%Z ->
  SVal (getSuccessor T PLH zeroMatrix) a b = PVal PLH (map T b) (map T a).
Proof.
  intros Hok Ha Hb. rewrite getSuccessor_writes. unfold SVal.
  assert (Ri : (1 <= map T a <= 2 * T)%Z)
    by (unfold map, A, Zhi; repeat (case_match; try lia)).
  assert (Rx : (0 <= map T b <= 2 * T)%Z)
    by (unfold map, A, Zhi in *; repeat (case_match; try lia)).
  assert (Maa : map T (map T a) = a)
    by (apply IndexFacts.map_map; unfold Zhi; lia).
  assert (Mbb : map T (map T b) = b)
    by (apply IndexFacts.map_map; lia).
  set (v := PVal PLH (map T b) (map T a)).
  (* every write at (a, b) carries the value v, which is positive *)
  assert (W : forall w, In w (firstWrites ++ secondWrites) -> at_ a b w ->
              snd w = v /\ 0 < v).
  { intros w Hw [E1 E2]. apply in_app_or in Hw as [Hw|Hw].
    - apply In_firstWrites in Hw as (j & Hj & Hp & ->). simpl in *.
      subst j b. unfold v.
      change (map T (Zhi T)) with (map T (map T A)).
      rewrite IndexFacts.map_map by (unfold A, Zhi; lia).
      split; [reflexivity | exact Hp].
    - apply (In_secondWrites) in Hw as (i & c & Hi & Hc & Hp & Hx & ->);
        [|exact Hok].
      simpl in *.
      assert (i = map T a) by (rewrite <- E1; symmetry;
                               apply IndexFacts.map_map; unfold Zhi; lia).
      assert (cx c = map T b) by (rewrite <- E2; symmetry;
                                  apply IndexFacts.map_map; unfold Zhi; lia).
      subst i. unfold v. rewrite <- H0, (PVal_of_In c) by assumption.
      split; [reflexivity | exact Hp]. }
  destruct (Rlt_dec 0 v) as [Hv|Hv].
  - (* the entry is written *)
    rewrite (applyWrites_some _ a b v); [reflexivity| |intros; apply W; assumption].
    unfold v in Hv. unfold PVal in Hv.
    destruct (lookupCell (map T b) (PLH (map T a))) as [u|] eqn:E; [|lra].
    apply PosteriorFacts.lookupCell_In in E as (c & Hc & Hx & Hu).
    exists (a, b, cval c). split.
    + apply in_or_app. right. unfold secondWrites.
      apply in_flat_map. exists (map T a). split.
      { apply PosteriorFacts.In_range. unfold A, Zhi. lia. }
      apply in_flat_map. exists c. split; [exact Hc|].
      assert (P : positive (cval c) = true) by (apply positive_true; lra).
      rewrite P. left.
      rewrite Hx, Maa, Mbb.
      rewrite (PosteriorFacts.fold_nonneg T a), (PosteriorFacts.foldcol_pos T b);
        [reflexivity | clear - Hb; lia | clear - Ha; lia].
    + split; reflexivity.
  - (* no write reaches the cell *)
    rewrite applyWrites_none.
    + pose proof (PVal_nonneg (map T b) (map T a) Hok Ri) as Hnn.
      unfold zeroMatrix. simpl. unfold v in *.
      destruct b; simpl; lra.
    + intros w Hw Hat. destruct (W w Hw Hat) as [_ Hp]. contradiction.
Qed.

Lemma setCell_nonneg i v l : 0 <= v -> nonneg l -> nonneg (setCell i v l).
Proof.
  intros Hv. unfold nonneg. induction 1 as [|c l Hc Hl IH]; simpl.
  - constructor; [exact Hv | constructor].
  - destruct (cx c =? i)%Z; constructor; auto.
Qed.

Lemma applyWrites_ok ws : forall H,
  (forall w, In w ws -> (0 <= snd (fst w))%Z /\ 0 <= snd w) ->
  (forall k, wfList (H k) /\ nonneg (H k)) ->
  forall k, wfList (applyWrites ws H k) /\ nonneg (applyWrites ws H k).
Proof.
  unfold applyWrites.
  induction ws as [|w ws IH]; intros H Hw HH; simpl; [exact HH|].
  apply IH; [intros; apply Hw; now right|].
  destruct (Hw w (or_introl eq_refl)) as [Hc Hv].
  destruct w as [[r c] v]. simpl in *. intros k.
  destruct (k =? r)%Z; [|apply HH].
  destruct (HH r) as [W1 W2].
  split; [apply TableFacts.setCell_wf | apply setCell_nonneg]; assumption.
Qed.

Lemma successor_lists k :
  okColumns ->
  wfList (getSuccessor T PLH zeroMatrix k) /\
  nonneg (getSuccessor T PLH zeroMatrix k).
Proof.
  intros Hok. rewrite getSuccessor_writes. apply applyWrites_ok.
  - intros w Hw. apply in_app_or in Hw as [Hw|Hw].
    + apply In_firstWrites in Hw as (j & Hj & Hp & ->). simpl in *.
      unfold Zhi. split; [lia | lra].
    + apply In_secondWrites in Hw as (i & c & Hi & Hc & Hp & Hx & ->);
        [|exact Hok].
      simpl. split; [|lra].
      unfold map, A, Zhi; repeat (case_match; try lia).
  - intros k'. split; [apply TableFacts.zeroMatrix_wf|].
    unfold nonneg, zeroMatrix. constructor; [simpl; lra | constructor].
Qed.

End Successor.

(** X6.  [getSuccessor] mirrors the predecessor table: when the
    non-sentinel lists of [PLH] are well formed, with indices up to [2T]
    and non-negative values, the successor likelihood of [(a, b)], for a
    non-sentinel [a] and [1 <= b <= Z], is the predecessor likelihood of
    the pair read on the other strand, [(map b, map a)]; entries that are
    not positive are left out and read 0.  The lists of [SLH] are well
    formed and hold no negative value. *)
Theorem getSuccessor_mirrors_predecessors (T : Z) (PLH : matrix) :
  (0 <= T)%Z -> okColumns T PLH ->
  (forall a b, (1 <= a <= 2 * T)%Z -> (1 <= b <= Zhi T)%Z ->
     SVal (getSuccessor T PLH zeroMatrix) a b
     = PVal PLH (map T b) (map T a)) /\
  (forall k, wfList (getSuccessor T PLH zeroMatrix k) /\
             nonneg (getSuccessor T PLH zeroMatrix k)).
Proof.
  intros HT Hok. split.
  - intros a b Ha Hb. apply successor_entry; assumption.
  - intros k. apply successor_lists; assumption.
Qed.

Lemma sampleTable_columns : okColumns 1 sampleTable.
Proof.
  intros k _. destruct (PosteriorFacts.sampleTable_ok k) as [W1 W2].
  split; [exact W1|]. split; [exact W2|].
  unfold sampleTable. destruct (k =? 1)%Z; repeat constructor; simpl; lia.
Qed.

Lemma getSuccessor_mirrors_predecessors_witness :
  SVal (getSuccessor 1 sampleTable zeroMatrix) 2 1 = 3.
Proof.
  destruct (getSuccessor_mirrors_predecessors 1 sampleTable ltac:(lia)
              sampleTable_columns) as [H _].
  rewrite (H 2%Z 1%Z) by (unfold Zhi; lia).
  unfold PVal, sampleTable. simpl. reflexivity.
Defined.

End SuccessorFacts.

(* ===================================================================== *)
(** * Further facts: transition probabilities, likelihoods, caches *)
(* ===================================================================== *)

Module LikelihoodFacts.
Import Index Inference.

Local Open Scope R_scope.

Lemma exp_unit x : x <= 0 -> 0 < exp x <= 1.
Proof.
  intros Hx. split; [apply exp_pos|].
  destruct Hx as [Hx | ->]; [|rewrite exp_0; lra].
  left. rewrite <- exp_0. apply exp_increasing, Hx.
Qed.

Lemma prob_same T son i :
  prob T son i i
  = 1 / (2 * IZR T - 1)
    + (2 * IZR T - 2) / (2 * IZR T - 1) * exp (- (2 * IZR T - 1) * distOf son).
Proof. unfold prob. rewrite Z.eqb_refl. reflexivity. Qed.

Lemma prob_other T son i s :
  i <> s ->
  prob T son i s
  = 1 / (2 * IZR T - 1)
    - 1 / (2 * IZR T - 1) * exp (- (2 * IZR T - 1) * distOf son).
Proof. intros H. unfold prob. apply Z.eqb_neq in H. rewrite H. reflexivity. Qed.

(** Bounds shared by the results below. *)
Lemma prob_bounds T son i s :
  (1 <= T)%Z -> 0 <= distOf son ->
  0 <= prob T son i s <= 1 /\
  (0 < distOf son \/ i = s -> 0 < prob T son i s).
Proof.
  intros HT Hd. apply IZR_le in HT.
  set (m := 2 * IZR T - 1). assert (Hm : 1 <= m) by (unfold m; lra).
  assert (He : 0 < exp (- m * distOf son) <= 1).
  { apply exp_unit. nra. }
  assert (Hi : 0 < / m <= 1).
  { split; [apply Rinv_0_lt_compat; lra|].
    rewrite <- Rinv_1. apply Rinv_le_contravar; lra. }
  destruct (Z.eq_dec i s) as [->|Hne].
  - rewrite prob_same. fold m.
    replace (2 * IZR T - 2) with (m - 1) by (unfold m; lra).
    unfold Rdiv. rewrite Rmult_1_l.
    set (e := exp (- m * distOf son)) in *. set (q := / m) in *.
    assert (Hq : m * q = 1) by (unfold q; apply Rinv_r; lra).
    assert (E : q + (m - 1) * q * e = q * (1 - e) + e) by nra.
    rewrite E. split; [split; nra | intros _; nra].
  - rewrite prob_other by exact Hne. fold m.
    unfold Rdiv. rewrite Rmult_1_l.
    set (e := exp (- m * distOf son)) in *. set (q := / m) in *.
    split; [split; nra|].
    intros [Hpos|Heq]; [|contradiction].
    assert (e < 1).
    { unfold e. rewrite <- exp_0. apply exp_increasing. nra. }
    nra.
Qed.

(** X7.  [prob] is a transition probability: for [T >= 1] and a
    non-negative branch parameter every value lies in [0, 1], staying in a
    state and moving to each of [2T - 2] other states add up to 1, and
    with branch parameter 0 the state cannot change. *)
Theorem prob_is_a_distribution (T : Z) (son : phyloTree) (i s : Z) :
  (1 <= T)%Z -> 0 <= distOf son -> i <> s ->
  0 <= prob T son i i <= 1 /\
  0 <= prob T son i s <= 1 /\
  prob T son i i + (2 * IZR T - 2) * prob T son i s = 1 /\
  (distOf son = 0 -> prob T son i i = 1 /\ prob T son i s = 0).
Proof.
  intros HT Hd Hne.
  split; [apply prob_bounds; assumption|].
  split; [apply prob_bounds; assumption|].
  apply IZR_le in HT.
  rewrite prob_same, prob_other by exact Hne.
  split.
  - field. lra.
  - intros ->. rewrite Rmult_0_r, exp_0. split; field; lra.
Qed.

Lemma prob_is_a_distribution_witness :
  prob 2 (mkNode 1 "A" 0 None None) 1 1 = 1 /\
  prob 2 (mkNode 1 "A" 0 None None) 1 3 = 0.
Proof.
  destruct (prob_is_a_distribution 2 (mkNode 1 "A" 0 None None) 1 3)
    as (_ & _ & _ & H).
  - lia.
  - simpl. lra.
  - lia.
  - apply H. reflexivity.
Defined.


(** ** Signs of the likelihoods *)

Lemma sumCompatible_nonneg T DPPI j f ss :
  (forall s, 0 <= f s) -> 0 <= sumCompatible T DPPI j f ss.
Proof.
  intros Hf. unfold sumCompatible.
  induction (List.filter (fun s => compatible T DPPI s j) ss) as [|s l IH];
    simpl; [lra|]. pose proof (Hf s). lra.
Qed.

Lemma leaf_value_nonneg T (lf : nodeList) i j :
  0 <= (if (there lf j =? YES)%Z then IZR (Val (N T) (P lf) i j) else 1).
Proof.
  destruct (there lf j =? YES)%Z; [|lra].
  destruct (PosteriorFacts.Val_bit (N T) (P lf) i j) as [-> | ->]; simpl; lra.
Qed.

Lemma likelihoodSpec_nonneg T DPPI Leaf t :
  (1 <= T)%Z ->
  (forall n, In n (nodes t) -> 0 <= distOf n) ->
  forall i j, 0 <= likelihoodSpec T DPPI Leaf t i j.
Proof.
  intros HT.
  induction t as [a n d l r IHl IHr] using phyloTree_induction.
  intros Hd i j.
  destruct (isLeaf (mkNode a n d l r)) eqn:Leafy.
  - destruct l, r; try discriminate. simpl.
    destruct (findTreeNode Leaf n) as [lf|]; [|lra].
    apply leaf_value_nonneg.
  - rewrite InferenceFacts.likelihoodSpec_internal by exact Leafy.
    apply Rmult_le_pos.
    + destruct l as [c|]; [|lra]. apply sumCompatible_nonneg. intros s.
      apply Rmult_le_pos.
      * apply prob_bounds; [exact HT|].
        apply Hd, InferenceFacts.nodes_childL, InferenceFacts.nodes_self.
      * apply IHl. intros x Hx. apply Hd, InferenceFacts.nodes_childL, Hx.
    + destruct r as [c|]; [|lra]. apply sumCompatible_nonneg. intros s.
      apply Rmult_le_pos.
      * apply prob_bounds; [exact HT|].
        apply Hd, InferenceFacts.nodes_childR, InferenceFacts.nodes_self.
      * apply IHr. intros x Hx. apply Hd, InferenceFacts.nodes_childR, Hx.
Qed.

(** X8.  [preLikelihood] never returns a negative value: on a tree with
    non-negative branch parameters, [T >= 1], distinct node addresses,
    every leaf in the leaf list and sound caches, the call succeeds and
    its value is at least 0. *)
Theorem preLikelihood_nonnegative (T : Z) (DPPI : bytes)
    (Leaf : list nodeList) (root : phyloTree) (i j : Z) (st : caches) :
  (1 <= T)%Z ->
  distinctAddrs root ->
  leavesListed Leaf root ->
  compatible T DPPI (Zhi T) j = false ->
  cachesSound T DPPI Leaf root st ->
  (forall n, In n (nodes root) -> 0 <= distOf n) ->
  exists v st',
    preLikelihood T DPPI Leaf root i j st = Some (v, st') /\ 0 <= v.
Proof.
  intros HT HD HL HZ HS Hd.
  destruct (InferenceFacts.preLikelihood_sound T DPPI Leaf root HD
              ltac:(lia) HL j root HZ (fun x Hx => Hx) i st HS)
    as (st' & E & _).
  eexists _, st'. split; [exact E|].
  apply likelihoodSpec_nonneg; assumption.
Qed.

Lemma preLikelihood_nonnegative_witness :
  exists v st',
    preLikelihood 2 Posterior.twoDPPI Posterior.twoLeaves
                  InferenceFacts.sampleTree 1 2 (mkCaches ∅ ∅)
    = Some (v, st') /\ 0 <= v.
Proof.
  apply preLikelihood_nonnegative.
  - lia.
  - intros n n' Hn Hn' E. simpl in Hn, Hn'.
    destruct Hn as [<-|[<-|[<-|[]]]], Hn' as [<-|[<-|[<-|[]]]];
      simpl in E; try reflexivity; discriminate.
  - intros n Hn Hl. simpl in Hn.
    destruct Hn as [<-|[<-|[<-|[]]]]; simpl in Hl; try discriminate;
      vm_compute; discriminate.
  - vm_compute. reflexivity.
  - split; intros n i j v _ H; simpl in H; rewrite lookup_empty in H;
      discriminate.
  - intros n Hn. simpl in Hn.
    destruct Hn as [<-|[<-|[<-|[]]]]; simpl; lra.
Defined.

(** ** The caches *)

(** X9.  The memo tables answer a repeated request without recomputing:
    after [getLP] (resp. [getLL]) has returned [v] for a key, leaving the
    caches [st'], the same request on [st'] returns [v] and leaves [st']
    as it is, and [getLL] does so without calling [preLikelihood] again
    (whatever recursion it is given, even one that aborts). *)
Theorem memo_tables_hit_on_repeat (T : Z) (pre pre' : Z -> Z -> M R)
    (node : phyloTree) (i j : Z) (st st1 st2 : caches) (v w : R) :
  getLP T node i j st = Some (v, st1) ->
  getLL pre node i j st = Some (w, st2) ->
  getLP T node i j st1 = Some (v, st1) /\
  getLL pre' node i j st2 = Some (w, st2).
Proof.
  unfold getLP, getLL. intros H1 H2. split.
  - destruct (lp_cache st !! (addrOf node, i, j)) as [x|] eqn:E.
    + injection H1 as <- <-. rewrite E. reflexivity.
    + injection H1 as <- <-. simpl. rewrite lookup_insert_eq. reflexivity.
  - destruct (ll_cache st !! (addrOf node, i, j)) as [x|] eqn:E.
    + injection H2 as <- <-. rewrite E. reflexivity.
    + destruct (pre i j st) as [[y st']|]; [|discriminate].
      injection H2 as <- <-. simpl. rewrite lookup_insert_eq. reflexivity.
Qed.

Lemma memo_tables_hit_on_repeat_witness :
  exists st1,
    getLP 2 (mkNode 1 "A" 0 None None) 1 1 st1
    = Some (prob 2 (mkNode 1 "A" 0 None None) 1 1, st1) /\
    getLL (fun _ _ => abort) (mkNode 1 "A" 0 None None) 1 1
          (mkCaches ∅ (<[(1, 1, 1)%Z := 7]> ∅))
    = Some (7, mkCaches ∅ (<[(1, 1, 1)%Z := 7]> ∅)).
Proof.
  eexists.
  apply (memo_tables_hit_on_repeat 2 (fun _ _ => ret 7) (fun _ _ => abort)
           (mkNode 1 "A" 0 None None) 1 1 (mkCaches ∅ ∅)).
  - reflexivity.
  - reflexivity.
Defined.

End LikelihoodFacts.

(* ===================================================================== *)
(** * Further facts: edges, the score table and the edge vector *)
(* ===================================================================== *)

Module EdgeFacts.
Import Assembler ChainSpec.

(** The fields [operator<] compares. *)
Definition keyOf (e : Edge) : Z * Z * Z * Z := (bid1 e, dir1 e, bid2 e, dir2 e).

Ltac order_cases :=
  repeat match goal with
         | |- context [(?x =? ?y)] => destruct (Z.eqb_spec x y); simpl
         | |- context [(?x <? ?y)] => destruct (Z.ltb_spec x y); simpl
         end; intros; try congruence; try lia.

Lemma Edge_lt_irrefl a : Edge_lt a a = false.
Proof. unfold Edge_lt. rewrite !Z.eqb_refl. simpl. apply Z.ltb_irrefl. Qed.

Lemma Edge_lt_trans a b c :
  Edge_lt a b = true -> Edge_lt b c = true -> Edge_lt a c = true.
Proof. unfold Edge_lt. order_cases. Qed.

Lemma Edge_lt_total a b :
  Edge_lt a b = false -> Edge_lt b a = false -> keyOf a = keyOf b.
Proof.
  unfold Edge_lt, keyOf. order_cases.
  f_equal; [f_equal; [f_equal|]|]; lia.
Qed.

Lemma Edge_lt_key a b a' b' :
  keyOf a = keyOf a' -> keyOf b = keyOf b' -> Edge_lt a b = Edge_lt a' b'.
Proof.
  unfold keyOf, Edge_lt. intros [= -> -> -> ->] [= -> -> -> ->]. reflexivity.
Qed.

Lemma unordered_iff_same_key a b :
  (Edge_lt a b = false /\ Edge_lt b a = false) <-> keyOf a = keyOf b.
Proof.
  split.
  - intros [H1 H2]. apply Edge_lt_total; assumption.
  - intros H. rewrite (Edge_lt_key a b a a), (Edge_lt_key b a a a) by auto.
    split; apply Edge_lt_irrefl.
Qed.

(** X10.  [Edge::operator<] is a strict total order on the four fields
    (bid1, dir1, bid2, dir2), compared lexicographically: it is
    irreflexive and transitive, two edges are unordered exactly when the
    four fields agree, and the scores and the weight play no part.  So a
    [map<Edge, double>] holds one entry per oriented block pair. *)
Theorem Edge_order_is_strict_total :
  (forall a, Edge_lt a a = false) /\
  (forall a b c, Edge_lt a b = true -> Edge_lt b c = true ->
                 Edge_lt a c = true) /\
  (forall a b, (Edge_lt a b = false /\ Edge_lt b a = false) <->
               keyOf a = keyOf b) /\
  (forall a b a' b', keyOf a = keyOf a' -> keyOf b = keyOf b' ->
                     Edge_lt a b = Edge_lt a' b').
Proof.
  split; [exact Edge_lt_irrefl|]. split; [exact Edge_lt_trans|].
  split; [|exact Edge_lt_key].
  exact unordered_iff_same_key.
Qed.

(** X11.  [Edge::reverse] applied twice gives the edge back exactly when
    both directions are [1] or [-1]; any other direction value is turned
    into [1] by the first call.  The scores and the weight are never
    changed. *)
Theorem reverse_twice (e : Edge) :
  (reverse (reverse e) = e <-> okDir (dir1 e) /\ okDir (dir2 e)) /\
  weight (reverse e) = weight e /\ score1 (reverse e) = score1 e /\
  score2 (reverse e) = score2 e /\
  bid1 (reverse e) = bid2 e /\ bid2 (reverse e) = bid1 e.
Proof.
  split; [|repeat split].
  destruct e as [b1 d1 b2 d2 s1 s2 w]. unfold reverse, flip, okDir. simpl.
  split.
  - intros [= H1 H2]. revert H1 H2. order_cases.
  - intros [[-> | ->] [-> | ->]]; reflexivity.
Qed.


(** ** The score table *)

(** [a] and [b] are equivalent keys of a [map<Edge, double>]. *)
Definition sameKey (a b : Edge) : bool :=
  negb (Edge_lt a b) && negb (Edge_lt b a).

Lemma sameKey_iff a b : sameKey a b = true <-> keyOf a = keyOf b.
Proof.
  unfold sameKey. rewrite andb_true_iff, !negb_true_iff.
  apply unordered_iff_same_key.
Qed.


Lemma sameKey_sym a b : sameKey a b = sameKey b a.
Proof. unfold sameKey. apply andb_comm. Qed.

Lemma efind_key e e' m : keyOf e = keyOf e' -> efind e m = efind e' m.
Proof.
  intros H. induction m as [|[k v] m IH]; simpl; [reflexivity|].
  rewrite (Edge_lt_key k e k e'), (Edge_lt_key e k e' k), IH by auto.
  reflexivity.
Qed.

(** Reading the table after one assignment. *)
Lemma efind_eset e' e v m :
  efind e' (eset e v m) = if sameKey e' e then Some v else efind e' m.
Proof.
  induction m as [|[k w] m IH]; simpl.
  - unfold sameKey. rewrite andb_comm. destruct (_ && _); reflexivity.
  - destruct (Edge_lt e k) eqn:L1; simpl.
    + fold (sameKey e e'). rewrite (sameKey_sym e e').
      destruct (sameKey e' e); reflexivity.
    + destruct (Edge_lt k e) eqn:L2; simpl.
      * rewrite IH. fold (sameKey k e').
        destruct (sameKey k e') eqn:K; [|reflexivity].
        destruct (sameKey e' e) eqn:K'; [|reflexivity].
        apply sameKey_iff in K, K'.
        rewrite (Edge_lt_key k e e e), Edge_lt_irrefl in L2 by congruence.
        discriminate.
      * assert (Ke : keyOf k = keyOf e) by (apply Edge_lt_total; assumption).
        fold (sameKey k e').
        destruct (sameKey k e') eqn:K.
        -- apply sameKey_iff in K.
           assert (K' : sameKey e' e = true) by (apply sameKey_iff; congruence).
           rewrite K'. reflexivity.
        -- assert (K' : sameKey e' e = false).
           { apply not_true_is_false. intros K'. apply sameKey_iff in K'.
             assert (sameKey k e' = true) by (apply sameKey_iff; congruence).
             congruence. }
           rewrite K'. reflexivity.
Qed.

(** The two keys written for a line [b1 b2 score]. *)
Definition forwardKey (line : Z * Z * Q) : Edge :=
  let '(b1, b2, _) := line in
  newEdge (Z.abs b1) (if b1 <? 0 then -1 else 1)
          (Z.abs b2) (if b2 <? 0 then -1 else 1).

Definition backwardKey (line : Z * Z * Q) : Edge :=
  let '(b1, b2, _) := line in
  newEdge (Z.abs b2) (- (if b2 <? 0 then -1 else 1))
          (Z.abs b1) (- (if b1 <? 0 then -1 else 1)).

Definition mentions (line : Z * Z * Q) (e : Edge) : bool :=
  sameKey e (forwardKey line) || sameKey e (backwardKey line).

(** The same adjacency read from the other end. *)
Definition opposite (e : Edge) : Edge :=
  newEdge (bid2 e) (- dir2 e) (bid1 e) (- dir1 e).

Lemma readLine_table acc line :
  fst (readLine acc line)
  = eset (backwardKey line) (snd line)
         (eset (forwardKey line) (snd line) (fst acc)).
Proof. destruct acc as [m n], line as [[b1 b2] s]. reflexivity. Qed.

Lemma efind_readLine e acc line :
  efind e (fst (readLine acc line))
  = if mentions line e then Some (snd line) else efind e (fst acc).
Proof.
  rewrite readLine_table, !efind_eset. unfold mentions.
  destruct (sameKey e (backwardKey line)); [rewrite orb_true_r; reflexivity|].
  rewrite orb_false_r. reflexivity.
Qed.

Lemma mentions_opposite line e : mentions line (opposite e) = mentions line e.
Proof.
  unfold mentions. destruct line as [[b1 b2] s].
  assert (K : forall a b, sameKey a b = true <-> keyOf a = keyOf b)
    by exact sameKey_iff.
  apply eq_true_iff_eq. rewrite !orb_true_iff, !K.
  unfold opposite, forwardKey, backwardKey, keyOf, newEdge; simpl.
  split; intros [[= E1 E2 E3 E4]|[= E1 E2 E3 E4]]; [right|left|right|left];
    f_equal; try (f_equal; try f_equal); lia.
Qed.

Lemma fold_readLine_split lines : forall acc,
  fold_left readLine lines acc
  = (fst (fold_left readLine lines acc), snd (fold_left readLine lines acc)).
Proof. intros acc. destruct (fold_left readLine lines acc); reflexivity. Qed.

Lemma efind_opposite lines : forall acc e,
  efind (opposite e) (fst acc) = efind e (fst acc) ->
  efind (opposite e) (fst (fold_left readLine lines acc))
  = efind e (fst (fold_left readLine lines acc)).
Proof.
  induction lines as [|line lines IH]; intros acc e H; simpl; [exact H|].
  apply IH. rewrite !efind_readLine, mentions_opposite, H. reflexivity.
Qed.

(** X12.  The score table is symmetric: whatever the file holds,
    [compute_weight] gives an adjacency and the same adjacency read from
    the other end (blocks swapped, both directions negated) the same
    score. *)
Theorem scores_are_symmetric (lines : list (Z * Z * Q)) (b1 d1 b2 d2 : Z) :
  compute_weight b2 (- d2) b1 (- d1) (fst (readScores lines))
  = compute_weight b1 d1 b2 d2 (fst (readScores lines)).
Proof.
  unfold compute_weight, readScores.
  change (newEdge b2 (- d2) b1 (- d1)) with (opposite (newEdge b1 d1 b2 d2)).
  rewrite efind_opposite; reflexivity.
Qed.


Lemma efind_unmentioned lines e : forall acc,
  (forall l, In l lines -> mentions l e = false) ->
  efind e (fst (fold_left readLine lines acc)) = efind e (fst acc).
Proof.
  induction lines as [|line lines IH]; intros acc H; simpl; [reflexivity|].
  rewrite IH by (intros; apply H; now right).
  rewrite efind_readLine, (H line) by (now left). reflexivity.
Qed.

(** X13.  What [compute_weight] reads from the score table: 0 for an
    adjacency that no line of the file mentions (in either reading), and
    otherwise the score of the last line that mentions it; earlier lines
    for the same adjacency are overwritten. *)
Theorem last_mention_gives_the_score (lines : list (Z * Z * Q))
    (b1 d1 b2 d2 : Z) :
  ((forall l, In l lines -> mentions l (newEdge b1 d1 b2 d2) = false) ->
   compute_weight b1 d1 b2 d2 (fst (readScores lines)) = 0%Q) /\
  (forall pre line post,
     lines = pre ++ line :: post ->
     mentions line (newEdge b1 d1 b2 d2) = true ->
     (forall l, In l post -> mentions l (newEdge b1 d1 b2 d2) = false) ->
     compute_weight b1 d1 b2 d2 (fst (readScores lines)) = snd line).
Proof.
  unfold compute_weight, readScores. split.
  - intros H. rewrite efind_unmentioned by exact H. reflexivity.
  - intros pre line post -> Hm Hpost.
    rewrite fold_left_app. simpl.
    rewrite efind_unmentioned by exact Hpost.
    rewrite efind_readLine, Hm. reflexivity.
Qed.

Lemma last_mention_gives_the_score_witness :
  compute_weight 2 (-1) 1 (-1)
    (fst (readScores [(1, 2, (1 # 2)%Q); (3, 4, (1 # 4)%Q); (-2, -1, (3 # 4)%Q)]))
  = (3 # 4)%Q.
Proof.
  destruct (last_mention_gives_the_score
              [(1, 2, (1 # 2)%Q); (3, 4, (1 # 4)%Q); (-2, -1, (3 # 4)%Q)] 2 (-1) 1 (-1))
    as [_ H].
  apply (H [(1, 2, (1 # 2)%Q); (3, 4, (1 # 4)%Q)] (-2, -1, (3 # 4)%Q) []).
  - reflexivity.
  - reflexivity.
  - intros l [].
Defined.

(** ** The block count and the weight table *)

Lemma numblocks_step acc line :
  snd (readLine acc line)
  = Z.max (snd acc) (Z.max (Z.abs (fst (fst line))) (Z.abs (snd (fst line)))).
Proof.
  destruct acc as [m n], line as [[b1 b2] s]. simpl.
  rewrite !Z.gtb_ltb.
  destruct (Z.ltb_spec n (Z.abs b1)).
  - destruct (Z.ltb_spec (Z.abs b1) (Z.abs b2)); lia.
  - destruct (Z.ltb_spec n (Z.abs b2)); lia.
Qed.


Lemma numblocks_bounds lines : forall acc,
  snd acc <= snd (fold_left readLine lines acc) /\
  (forall l, In l lines ->
     Z.abs (fst (fst l)) <= snd (fold_left readLine lines acc) /\
     Z.abs (snd (fst l)) <= snd (fold_left readLine lines acc)).
Proof.
  induction lines as [|line lines IH]; intros acc; simpl.
  - split; [lia | intros l []].
  - destruct (IH (readLine acc line)) as [H1 H2].
    rewrite numblocks_step in H1. split; [lia|].
    intros l [<-|Hl]; [lia | apply H2, Hl].
Qed.

Lemma efind_mentioned lines e v : forall acc,
  efind e (fst (fold_left readLine lines acc)) = Some v ->
  efind e (fst acc) = Some v \/ exists l, In l lines /\ mentions l e = true.
Proof.
  induction lines as [|line lines IH]; intros acc H; simpl in *; [now left|].
  destruct (IH _ H) as [H'|(l & Hl & Hm)].
  - rewrite efind_readLine in H'.
    destruct (mentions line e) eqn:M; [|now left].
    right. exists line. split; [now left | exact M].
  - right. exists l. split; [now right | exact Hm].
Qed.

(** The oriented pairs the double loop of [main] visits, in order. *)
Definition quads (n : Z) : list (Z * Z * Z * Z) :=
  flat_map (fun i =>
    flat_map (fun j => if i =? j then []
                       else [(i, 1, j, 1); (i, 1, j, -1);
                             (i, -1, j, 1); (i, -1, j, -1)])
             (from0 n))
    (from0 n).

Definition edgeOfQ (q : Z * Z * Z * Z) : Edge :=
  let '(i, d1, j, d2) := q in newEdge i d1 j d2.

Definition weightOfQ (scores : emap) (q : Z * Z * Z * Z) : Q :=
  let '(i, d1, j, d2) := q in compute_weight i d1 j d2 scores.

Definition addQ (scores : emap) (mw : emap) (q : Z * Z * Z * Z) : emap :=
  if Qltb 0 (weightOfQ scores q)
  then eset (edgeOfQ q) (weightOfQ scores q) mw else mw.

Lemma fold_left_flat_map {X Y S} (f : S -> Y -> S) (g : X -> list Y) l :
  forall a, fold_left f (flat_map g l) a
            = fold_left (fun a x => fold_left f (g x) a) l a.
Proof.
  induction l as [|x l IH]; intros a; simpl; [reflexivity|].
  rewrite fold_left_app. apply IH.
Qed.

Lemma fold_left_same {X S} (f g : S -> X -> S) l :
  (forall a x, f a x = g a x) -> forall a, fold_left f l a = fold_left g l a.
Proof.
  intros H. induction l as [|x l IH]; intros a; simpl; [reflexivity|].
  rewrite H. apply IH.
Qed.

Lemma computeWeights_quads n scores :
  computeWeights n scores = fold_left (addQ scores) (quads n) [].
Proof.
  unfold computeWeights, quads. rewrite fold_left_flat_map.
  apply fold_left_same. intros mw i.
  rewrite fold_left_flat_map. apply fold_left_same. intros mw' j.
  destruct (i =? j); reflexivity.
Qed.

Lemma In_from0 n i : In i (from0 n) <-> 0 <= i <= n.
Proof.
  unfold from0. rewrite in_map_iff. split.
  - intros (k & <- & Hk). apply in_seq in Hk. lia.
  - intros H. exists (Z.to_nat i). split; [lia|]. apply in_seq. lia.
Qed.

Lemma In_quads n i d1 j d2 :
  In (i, d1, j, d2) (quads n) <->
  0 <= i <= n /\ 0 <= j <= n /\ i <> j /\ okDir d1 /\ okDir d2.
Proof.
  unfold quads, okDir. rewrite in_flat_map. split.
  - intros (i' & Hi & H). apply in_flat_map in H as (j' & Hj & H).
    apply In_from0 in Hi, Hj.
    destruct (Z.eqb_spec i' j'); [destruct H|].
    simpl in H. intuition (try congruence);
      match goal with H : (_, _, _, _) = _ |- _ => injection H as <- <- <- <- end;
      auto; lia.
  - intros (Hi & Hj & Hne & D1 & D2). exists i. split; [apply In_from0, Hi|].
    apply in_flat_map. exists j. split; [apply In_from0, Hj|].
    destruct (Z.eqb_spec i j); [contradiction|].
    simpl. destruct D1 as [-> | ->], D2 as [-> | ->]; auto.
Qed.

(** Assigning a key whose entry, if any, already is [(e, v)]. *)
Lemma eset_In e v m :
  (forall k v', In (k, v') m -> keyOf k = keyOf e -> k = e /\ v' = v) ->
  forall x, In x (eset e v m) <-> x = (e, v) \/ In x m.
Proof.
  induction m as [|[k w] m IH]; intros Hm x; simpl; [intuition|].
  destruct (Edge_lt e k) eqn:L1; simpl; [intuition|].
  destruct (Edge_lt k e) eqn:L2; simpl.
  - rewrite IH by (intros; apply (Hm k0 v'); [now right | assumption]).
    intuition.
  - destruct (Hm k w (or_introl eq_refl)) as [-> ->];
      [apply Edge_lt_total; assumption|]. intuition.
Qed.

Lemma edgeOfQ_inj q q' : keyOf (edgeOfQ q) = keyOf (edgeOfQ q') -> q = q'.
Proof.
  destruct q as [[[i d1] j] d2], q' as [[[i' d1'] j'] d2'].
  unfold keyOf, edgeOfQ, newEdge. simpl. intros [= -> -> -> ->]. reflexivity.
Qed.

Lemma fold_addQ_In scores qs : forall m,
  (forall k v, In (k, v) m -> exists q, k = edgeOfQ q /\ v = weightOfQ scores q) ->
  forall x, In x (fold_left (addQ scores) qs m) <->
            In x m \/
            exists q, In q qs /\ Qltb 0 (weightOfQ scores q) = true /\
                      x = (edgeOfQ q, weightOfQ scores q).
Proof.
  induction qs as [|q qs IH]; intros m Hm x; simpl.
  - split; [now left | intros [H|(q & [] & _)]; exact H].
  - assert (Step : forall y, In y (addQ scores m q) <->
              In y m \/ (Qltb 0 (weightOfQ scores q) = true /\
                         y = (edgeOfQ q, weightOfQ scores q))).
    { intros y. unfold addQ.
      destruct (Qltb 0 (weightOfQ scores q)); [|intuition discriminate].
      rewrite eset_In; [intuition|].
      intros k v' Hin Hk. destruct (Hm k v' Hin) as (q' & -> & ->).
      apply edgeOfQ_inj in Hk. subst. auto. }
    rewrite IH.
    + rewrite Step. split.
      * intros [[H|[H1 H2]]|(q' & Hq' & H)]; auto.
        -- right. exists q. auto.
        -- right. exists q'. split; [now right | exact H].
      * intros [H|(q' & [<-|Hq'] & H1 & H2)]; auto.
        right. exists q'. auto.
    + intros k v Hin. apply Step in Hin as [Hin|[_ [= -> ->]]]; [auto|].
      exists q. auto.
Qed.


Lemma mentioned_in_range lines l b1 d1 b2 d2 :
  In l lines -> mentions l (newEdge b1 d1 b2 d2) = true ->
  0 <= b1 <= snd (readScores lines) /\ 0 <= b2 <= snd (readScores lines) /\
  okDir d1 /\ okDir d2.
Proof.
  intros Hl Hm. unfold readScores.
  destruct (numblocks_bounds lines ([], 0)) as [_ Hb].
  destruct (Hb l Hl) as [B1 B2]. clear Hb.
  destruct l as [[x y] s]. simpl in B1, B2.
  unfold mentions in Hm. apply orb_true_iff in Hm.
  unfold okDir.
  destruct Hm as [Hm|Hm]; apply sameKey_iff in Hm;
    unfold keyOf, forwardKey, backwardKey, newEdge in Hm; simpl in Hm;
    injection Hm as -> -> -> ->;
    destruct (x <? 0), (y <? 0); simpl; repeat split; auto; lia.
Qed.

(** X14.  The weight table [mapWeights] that [main] builds from a score
    file holds exactly the adjacencies between two different blocks whose
    score in the table is positive, each once, under a freshly built edge
    and with its score as weight.  An adjacency of a block with itself, or
    with a zero or negative score, never becomes a candidate edge. *)
Theorem weight_table_holds_positive_scores (lines : list (Z * Z * Q))
    (e : Edge) (w : Q) :
  In (e, w) (computeWeights (snd (readScores lines)) (fst (readScores lines)))
  <->
  exists b1 d1 b2 d2,
    e = newEdge b1 d1 b2 d2 /\ b1 <> b2 /\
    w = compute_weight b1 d1 b2 d2 (fst (readScores lines)) /\
    Qltb 0 w = true.
Proof.
  rewrite computeWeights_quads, fold_addQ_In by (intros k v []).
  split.
  - intros [[]|(q & Hq & Hpos & [= -> ->])].
    destruct q as [[[i d1] j] d2]. apply In_quads in Hq.
    exists i, d1, j, d2. simpl. intuition.
  - intros (b1 & d1 & b2 & d2 & -> & Hne & -> & Hpos). right.
    exists (b1, d1, b2, d2). split; [|split; [exact Hpos | reflexivity]].
    apply In_quads.
    unfold compute_weight in Hpos.
    destruct (efind (newEdge b1 d1 b2 d2) (fst (readScores lines)))
      as [v|] eqn:E; [|discriminate].
    unfold readScores in E.
    apply efind_mentioned in E as [E|(l & Hl & Hm)]; [discriminate|].
    pose proof (mentioned_in_range lines l b1 d1 b2 d2 Hl Hm). intuition.
Qed.

End EdgeFacts.

(* ===================================================================== *)
(** * Further facts: where the edges of the chains come from *)
(* ===================================================================== *)

Module GreedyFacts.
Import Assembler ChainSpec AssemblerFacts.

Lemma reverse_involutive e :
  okDir (dir1 e) -> okDir (dir2 e) -> reverse (reverse e) = e.
Proof.
  destruct e as [b1 d1 b2 d2 s1 s2 w]. unfold reverse, flip, okDir. simpl.
  intros [-> | ->] [-> | ->]; reflexivity.
Qed.

Section Provenance.
  (** A set of edges closed under reversal. *)
  Variable U : Edge -> Prop.
  Hypothesis Urev : forall x, U x -> U (reverse x).

Definition within (m : classes) : Prop :=
  forall k le, In (k, le) m -> Forall U le.

Lemma insertEdge_within le e u o :
  insertEdge le e u = Some o -> Forall U le -> U e ->
  Forall U (chain o) /\ U (edge o).
Proof.
  unfold insertEdge. intros H Hle He.
  destruct (head le) as [fe|]; [|discriminate].
  destruct (last le) as [be|]; [|discriminate].
  injection H as <-.
  repeat case_match; simpl; split; auto;
    try (constructor; auto);
    try (apply List.Forall_app; split; auto).
Qed.

Lemma mergePair_within le1 le2 le1' b :
  mergePair le1 le2 = Some (le1', b) -> Forall U le1 -> Forall U le2 ->
  Forall U le1'.
Proof.
  unfold mergePair. intros H H1 H2.
  destruct (head le1), (last le1), (head le2), (last le2); try discriminate.
  assert (R2 : Forall U (List.map reverse le2)).
  { rewrite List.Forall_map. revert H2. apply List.Forall_impl. exact Urev. }
  assert (R2' : Forall U (List.map reverse (rev le2))).
  { rewrite List.Forall_map. apply List.Forall_rev. revert H2.
    apply List.Forall_impl. exact Urev. }
  injection H as H. revert H.
  rewrite spliceFrontReversed_eq, spliceFront_eq, spliceBack_eq,
    spliceBackReversed_eq.
  repeat case_match; intros [= <- <-]; auto;
    apply List.Forall_app; split; auto using List.Forall_rev.
Qed.

Lemma find_In j m le : find j m = Some le -> In (j, le) m.
Proof.
  induction m as [|[k l] m IH]; simpl; [discriminate|].
  destruct (Z.eqb_spec k j) as [->|Hne]; [intros [= ->]; now left | auto].
Qed.

Lemma erase_In j m k le : In (k, le) (erase j m) -> In (k, le) m.
Proof.
  induction m as [|[k' l] m IH]; simpl; [tauto|].
  destruct (k' =? j); simpl; tauto.
Qed.

Lemma store_In k le m k' l :
  In (k', l) (store k le m) -> l = le \/ In (k', l) m.
Proof.
  induction m as [|[k0 l0] m IH]; simpl; [tauto|].
  destruct (k0 =? k); simpl; intros [H|H]; try (injection H as <- <-); auto.
  destruct (IH H); auto.
Qed.

Lemma assign_In j le m k' l :
  In (k', l) (assign j le m) -> l = le \/ In (k', l) m.
Proof.
  induction m as [|[k0 l0] m IH]; simpl.
  - intros [[= <- <-]|[]]. now left.
  - destruct (k0 =? j); simpl.
    + intros [[= <- <-]|H]; auto.
    + destruct (j <? k0); simpl.
      * intros [[= <- <-]|H]; auto.
      * intros [H|H]; auto. destruct (IH H); auto.
Qed.

Lemma mergeIter_within clsid le1 m j le1' m' :
  mergeIter clsid (Some (le1, m)) j = Some (le1', m') ->
  Forall U le1 -> within m -> Forall U le1' /\ within m'.
Proof.
  unfold mergeIter. intros H H1 Hm.
  destruct (j =? clsid); [injection H as <- <-; auto|].
  destruct (find j m) as [le2|] eqn:F; [|injection H as <- <-; auto].
  destruct (mergePair le1 le2) as [[l b]|] eqn:MP; [|discriminate].
  assert (Hl : Forall U l).
  { eapply mergePair_within; eauto. apply (Hm j), find_In, F. }
  destruct b; injection H as <- <-; split; auto.
  intros k le Hin. apply (Hm k), (erase_In j), Hin.
Qed.

Lemma mergeIter_None clsid l : fold_left (mergeIter clsid) l None = None.
Proof. induction l; simpl; auto. Qed.

Lemma mergeLists_within c clsid le m le' m' :
  mergeLists c clsid le m = Some (le', m') ->
  Forall U le -> within m -> Forall U le' /\ within m'.
Proof.
  unfold mergeLists. generalize (upto c). intros l. revert le m.
  induction l as [|j l IH]; intros le m H H1 Hm; cbn [fold_left] in H.
  - injection H as <- <-. auto.
  - destruct (mergeIter clsid (Some (le, m)) j) as [[l1 m1]|] eqn:E.
    + destruct (mergeIter_within _ _ _ _ _ _ E H1 Hm) as [A1 A2].
      apply (IH l1 m1); assumption.
    + rewrite mergeIter_None in H. discriminate.
Qed.

Lemma within_store k le m : Forall U le -> within m -> within (store k le m).
Proof.
  intros Hle Hm k' l Hin. apply store_In in Hin as [->|Hin]; [exact Hle|].
  apply (Hm k'), Hin.
Qed.

Lemma place_within st e st' :
  place st e = Some st' -> within (mapClasses st) -> U e ->
  within (mapClasses st').
Proof.
  unfold place. intros H Hm He.
  destruct (_ && _); [injection H as <-; exact Hm|].
  destruct (_ && _); [injection H as <-; exact Hm|].
  destruct (scan (mapClasses st) e (mapUsed st)) as [[[r e'] u']|] eqn:S;
    [|discriminate].
  pose proof (scan_spec _ _ _ _ _ _ S) as Sp.
  destruct r as [[k o]|].
  - destruct Sp as (le & Hin & Ho & _ & _ & _).
    destruct (insertEdge_within _ _ _ _ Ho (Hm k le Hin) He) as [Hc _].
    destruct (res o).
    + destruct (mergeLists _ _ _ _) as [[le' m']|] eqn:ML; [|discriminate].
      injection H as <-. simpl.
      destruct (mergeLists_within _ _ _ _ _ _ ML Hc
                  (within_store _ _ _ Hc Hm)) as [H1 H2].
      apply within_store; assumption.
    + injection H as <-. exact Hm.
    + injection H as <-. exact Hm.
  - destruct Sp as [-> ->]. injection H as <-. simpl.
    intros k' l Hin. apply assign_In in Hin as [->|Hin]; [|apply (Hm k'), Hin].
    constructor; [exact He | constructor].
Qed.

End Provenance.


(** The edges that may enter a chain: an edge of the vector that passes
    the threshold, as loaded by the loop or reversed. *)
Definition admitted (w : Q) (scores : emap) (vecEdges : list (Edge * Q))
    (x : Edge) : Prop :=
  exists p, In p vecEdges /\ Qltb (snd p) w = false /\
            (x = loadEdge scores p \/ x = reverse (loadEdge scores p)) /\
            weight x = snd p.

Lemma admitted_reverse w scores vecEdges x :
  Forall (fun p => okEdge (fst p)) vecEdges ->
  admitted w scores vecEdges x -> admitted w scores vecEdges (reverse x).
Proof.
  intros HO (p & Hp & Ht & Hx & Hw). exists p.
  split; [exact Hp|]. split; [exact Ht|]. split; [|exact Hw].
  destruct Hx as [->| ->]; [now right|]. left.
  rewrite List.Forall_forall in HO.
  destruct (loadEdge_okEdge scores p (HO p Hp)) as (D1 & D2 & _).
  apply reverse_involutive; assumption.
Qed.

Lemma loop_within w scores vecEdges l :
  Forall (fun p => okEdge (fst p)) vecEdges ->
  (forall p, In p l -> In p vecEdges) ->
  forall st st',
  fold_left (body w scores) l (Some st) = Some st' ->
  within (admitted w scores vecEdges) (mapClasses st) ->
  within (admitted w scores vecEdges) (mapClasses st').
Proof.
  intros HO. induction l as [|p l IH]; intros Hl st st' H Hm;
    cbn [fold_left] in H.
  - injection H as <-. exact Hm.
  - destruct (body w scores (Some st) p) as [st1|] eqn:B.
    + apply (IH (fun q Hq => Hl q (or_intror Hq)) st1 st' H).
      unfold body in B.
      destruct (Qltb (weight (loadEdge scores p)) w) eqn:Th;
        [injection B as <-; exact Hm|].
      apply (place_within _ (fun x => admitted_reverse w scores vecEdges x HO)
               st _ _ B Hm).
      exists p. rewrite SortFacts.weight_loadEdge in Th.
      split; [apply Hl; now left|]. split; [exact Th|].
      split; [now left | apply SortFacts.weight_loadEdge].
    + clear -H. exfalso. induction l as [|q l IH]; [discriminate|].
      apply IH. exact H.
Qed.

(** X15.  The assembler invents no adjacency: on every edge vector built
    by [main] the greedy loop runs to completion, and every edge of every
    final chain is an edge of the vector whose weight is not below the
    threshold, as the loop loaded it or reversed, and carries that
    weight. *)
Theorem chain_edges_come_from_input (w : Q) (scores : emap)
    (vecEdges : list (Edge * Q)) :
  Forall (fun p => okEdge (fst p)) vecEdges ->
  exists st, greedy w scores vecEdges = Some st /\
    forall k le x, In (k, le) (mapClasses st) -> In x le ->
      exists p, In p vecEdges /\ Qltb (snd p) w = false /\
                (x = loadEdge scores p \/ x = reverse (loadEdge scores p)) /\
                weight x = snd p.
Proof.
  intros HO. destruct (greedy_Inv w scores vecEdges HO) as (st & Hst & _).
  exists st. split; [exact Hst|]. intros k le x Hin Hx.
  assert (W : within (admitted w scores vecEdges) (mapClasses st)).
  { apply (loop_within w scores vecEdges vecEdges HO (fun p Hp => Hp)
             initState st Hst).
    intros k' le' []. }
  pose proof (W k le Hin) as F. rewrite List.Forall_forall in F.
  apply F, Hx.
Qed.

Lemma chain_edges_come_from_input_witness :
  exists st, greedy (8 # 10) [] AssemblerClaims.triangle = Some st /\
    forall k le x, In (k, le) (mapClasses st) -> In x le ->
      exists p, In p AssemblerClaims.triangle /\ weight x = snd p.
Proof.
  destruct (chain_edges_come_from_input (8 # 10) [] AssemblerClaims.triangle
              AssemblerClaims.triangle_ok) as (st & H & P).
  exists st. split; [exact H|]. intros k le x Hin Hx.
  destruct (P k le x Hin Hx) as (p & Hp & _ & _ & Hw). exists p. auto.
Defined.

(** ** [mergeLists] moves edges, it does not drop or copy them *)








End GreedyFacts.

(* ===================================================================== *)
(** * Further facts: what [printLists] writes *)
(* ===================================================================== *)

Module OutputFacts.
Import Assembler ChainSpec AssemblerFacts.

(** The two block columns [printLists] writes to the join file for an
    edge: [e.bid1*e.dir1 << "\t" << e.bid2*e.dir2]. *)
Definition joinEnds (e : Edge) : Z * Z :=
  (bid1 e * dir1 e, bid2 e * dir2 e).

Lemma abs_signed b d : okDir d -> Z.abs (b * d) = Z.abs b.
Proof. intros [-> | ->]; lia. Qed.

Lemma contig_cons e e' le :
  contig (e :: e' :: le)
  = (if bid1 e =? 0 then [] else [bid1 e * dir1 e]) ++ contig (e' :: le).
Proof. reflexivity. Qed.

Lemma blocks_cons e e' le :
  linked (e :: e' :: le) -> blocks (e :: e' :: le) = bid1 e :: blocks (e' :: le).
Proof. simpl. intros (E & _ & _). rewrite E. reflexivity. Qed.

Lemma contig_blocks le :
  Forall okEdge le -> linked le -> le <> [] ->
  List.map Z.abs (contig le) = nonzero (blocks le).
Proof.
  induction le as [|e le IH]; intros HO HL HN; [contradiction|].
  apply Forall_cons_iff in HO as [Oe HO].
  destruct Oe as (D1 & D2 & B1 & B2 & _).
  destruct le as [|e' le].
  - simpl. unfold nonzero. simpl.
    destruct (Z.eqb_spec (bid1 e) 0), (Z.eqb_spec (bid2 e) 0); simpl;
      rewrite ?abs_signed by assumption; repeat f_equal; lia.
  - rewrite contig_cons, blocks_cons by exact HL.
    rewrite List.map_app, IH; [|exact HO|destruct HL as (_ & _ & HL); exact HL
                                |discriminate].
    unfold nonzero at 2. cbn [List.filter].
    destruct (Z.eqb_spec (bid1 e) 0); simpl; [reflexivity|].
    rewrite abs_signed by assumption. f_equal. lia.
Qed.

(** X17.  In the contigs [printLists] writes for the final chains of the
    greedy loop, the sentinel block 0 is never printed, the blocks of a
    contig are the blocks of its chain in order, each with its
    orientation as sign, and no block occurs twice in a contig, in either
    orientation. *)
Theorem contigs_list_each_block_once (w : Q) (scores : emap)
    (vecEdges : list (Edge * Q)) :
  Forall (fun p => okEdge (fst p)) vecEdges ->
  exists st, greedy w scores vecEdges = Some st /\
    forall k le, In (k, le) (mapClasses st) ->
      List.map Z.abs (contig le) = nonzero (blocks le) /\
      ~ In 0 (contig le) /\
      List.NoDup (List.map Z.abs (contig le)).
Proof.
  intros HO. destruct (greedy_Inv w scores vecEdges HO) as (st & Hst & HI).
  exists st. split; [exact Hst|]. intros k le Hin.
  pose proof (Inv_openPath st k le HI Hin) as OP.
  destruct HI as (_ & _ & G & _). apply (in_map snd) in Hin.
  destruct (proj1 (List.Forall_forall _ _) G _ Hin) as (HN & HOk & HL & _).
  pose proof (contig_blocks le HOk HL HN) as E.
  split; [exact E|]. split.
  - intros H0. apply (in_map Z.abs) in H0. rewrite E in H0.
    unfold nonzero in H0. apply filter_In in H0 as [_ H0]. discriminate.
  - rewrite E. exact OP.
Qed.

Lemma contigs_list_each_block_once_witness :
  exists st, greedy 0 [] AssemblerClaims.triangle = Some st /\
    forall k le, In (k, le) (mapClasses st) ->
      List.NoDup (List.map Z.abs (contig le)).
Proof.
  destruct (contigs_list_each_block_once 0 [] AssemblerClaims.triangle
              AssemblerClaims.triangle_ok) as (st & H & P).
  exists st. split; [exact H|]. intros k le Hin. apply (P k le Hin).
Defined.

(** X18.  The block columns of the join file can be read back: for an
    edge between two non-sentinel blocks with directions [1] or [-1], the
    two signed ids [printLists] writes are parsed by the score reader of
    [main] into the same oriented adjacency, so the number [s] read from
    the third column becomes that adjacency's score.  (The weight itself
    is written in decimal with the stream's precision; nothing is said
    about its digits.)  A sentinel end loses its direction: [0 * dir] is
    written as 0 and read back with direction [1]. *)
Theorem join_line_reads_back (e : Edge) (s : Q) :
  okDir (dir1 e) -> okDir (dir2 e) -> 0 < bid1 e -> 0 < bid2 e ->
  EdgeFacts.keyOf (EdgeFacts.forwardKey (joinEnds e, s)) = EdgeFacts.keyOf e /\
  compute_weight (bid1 e) (dir1 e) (bid2 e) (dir2 e)
                 (fst (readScores [(joinEnds e, s)])) = s /\
  EdgeFacts.keyOf
    (EdgeFacts.forwardKey (joinEnds (newEdge 0 (-1) (bid2 e) (dir2 e)), s))
  = EdgeFacts.keyOf (newEdge 0 1 (bid2 e) (dir2 e)).
Proof.
  intros D1 D2 B1 B2.
  assert (K : EdgeFacts.keyOf (EdgeFacts.forwardKey (joinEnds e, s))
              = EdgeFacts.keyOf e).
  { unfold joinEnds, EdgeFacts.forwardKey, EdgeFacts.keyOf, newEdge. simpl.
    destruct D1 as [-> | ->], D2 as [-> | ->];
      repeat match goal with
             | |- context [?x <? 0] => destruct (Z.ltb_spec x 0); try lia
             end; repeat f_equal; lia. }
  split; [exact K|]. split.
  - unfold compute_weight, readScores. cbn [fold_left].
    rewrite (EdgeFacts.efind_readLine _ ([], 0) (joinEnds e, s)).
    assert (M : EdgeFacts.mentions (joinEnds e, s)
                  (newEdge (bid1 e) (dir1 e) (bid2 e) (dir2 e)) = true).
    { unfold EdgeFacts.mentions. apply orb_true_iff. left.
      apply EdgeFacts.sameKey_iff. rewrite K. reflexivity. }
    rewrite M. reflexivity.
  - unfold joinEnds, EdgeFacts.forwardKey, EdgeFacts.keyOf, newEdge. simpl.
    destruct D2 as [-> | ->];
      repeat match goal with
             | |- context [?x <? 0] => destruct (Z.ltb_spec x 0); try lia
             end; repeat f_equal; lia.
Qed.

Lemma join_line_reads_back_witness :
  compute_weight 3 (-1) 5 1
    (fst (readScores [(joinEnds (mkEdge 3 (-1) 5 1 0 0 0), (7 # 10)%Q)]))
  = (7 # 10)%Q.
Proof.
  apply (join_line_reads_back (mkEdge 3 (-1) 5 1 0 0 0) (7 # 10));
    unfold okDir; simpl; auto; lia.
Defined.

End OutputFacts.

(* ===================================================================== *)
(** * Further facts: outgroup leaves in [initSets] *)
(* ===================================================================== *)

Module OutgroupFacts.
Import Index Inference Posterior InitSetsFacts.

(** A leaf as [initSets] sees it through [b->addr]: [node->name],
    [node->outgroup], [node->genome], and the lines of the file
    [<name>.joins] that do not start with [#], each as the two numbers
    [sscanf] reads from it. *)
Record leafInput := mkInput {
  inName : string;
  inOutgroup : bool;
  inGenome : list (list Z);
  inJoins : list (Z * Z)
}.

Section Outgroup.
  Variable T : Z.

(** The body of the [while (fgets ...)] loop for one line [x y] of a
    joins file. *)
Definition initJoin (st : bytes * nodeList) (xy : Z * Z) : bytes * nodeList :=
  let (x, y) := xy in
  if (x =? 0) && negb (y =? 0) then record T st A y (- y) (Zhi T)
  else if negb (x =? 0) && (y =? 0) then record T st x (Zhi T) A (- x)
  else if negb (x =? 0) && negb (y =? 0) then record T st x y (- y) (- x)
  else st.

(** One loop [for (b = leaves; b; b = b->next)] over the leaf list; the
    body works on [DPPI] and on the record [b]. *)
Fixpoint eachLeaf
    (body : leafInput -> bytes * nodeList -> bytes * nodeList)
    (DPPI : bytes) (leaves : list (leafInput * nodeList))
  : bytes * list (leafInput * nodeList) :=
  match leaves with
  | [] => (DPPI, [])
  | (g, b) :: rest =>
      let (DPPI, b) := body g (DPPI, b) in
      let (DPPI, rest) := eachLeaf body DPPI rest in
      (DPPI, (g, b) :: rest)
  end.

(** [static boolean oj = TRUE]; no option changes it. *)
Definition oj : bool := true.

(** [static void initSets(struct nodeList *leaves)] with both loops: the
    genomes of the leaves below the ancestor, then the joins files of the
    outgroup leaves.  All arrays start zeroed ([AllocArray]); an array is
    given by the value of each of its bytes, and the statements about it
    carry the range in which [N * N] fits an [int], outside of which the
    size [N*N/X+1] and the positions [i * N + j] are not the exact ones. *)
Definition initSetsAll (inputs : list leafInput)
  : bytes * list (leafInput * nodeList) :=
  let leaves :=
    List.map (fun g => (g, mkLeaf (inName g) (fun _ => 0) (fun _ => 0))) inputs in
  let (DPPI, leaves) :=
    eachLeaf (fun g st =>
                if inOutgroup g && oj then st
                else fold_left (initChrom T) (inGenome g) st)
             (fun _ => 0) leaves in
  if oj
  then eachLeaf (fun g st =>
                   if negb (inOutgroup g) then st
                   else fold_left initJoin (inJoins g) st)
                DPPI leaves
  else (DPPI, leaves).

(** ** The calls made for a joins file *)

Definition joinCalls (xy : Z * Z) : list (Z * Z * Z * Z) :=
  let (x, y) := xy in
  if (x =? 0) && negb (y =? 0) then [(A, y, - y, Zhi T)]
  else if negb (x =? 0) && (y =? 0) then [(x, Zhi T, A, - x)]
  else if negb (x =? 0) && negb (y =? 0) then [(x, y, - y, - x)]
  else [].

Lemma initJoin_calls st xy :
  initJoin st xy = fold_left (recordQ T) (joinCalls xy) st.
Proof.
  destruct xy as [x y]. unfold initJoin, joinCalls.
  repeat (case_match; try reflexivity).
Qed.

Lemma fold_initJoin_calls js : forall st,
  fold_left initJoin js st = fold_left (recordQ T) (flat_map joinCalls js) st.
Proof.
  induction js as [|xy js IH]; intros st; simpl; [reflexivity|].
  rewrite fold_left_app, IH, initJoin_calls. reflexivity.
Qed.

(** A number of a joins file: 0 for a chromosome end, or an element id. *)
Definition okJoin (xy : Z * Z) : Prop :=
  (fst xy = 0 \/ okElement T (fst xy)) /\ (snd xy = 0 \/ okElement T (snd xy)).

Lemma joinCalls_good xy : okJoin xy -> Forall (goodQ T) (joinCalls xy).
Proof.
  destruct xy as [x y]. unfold okJoin, okElement, joinCalls. simpl.
  intros [Hx Hy].
  destruct (Z.eqb_spec x 0), (Z.eqb_spec y 0); simpl;
    repeat constructor;
    unfold goodQ, goodCall, canon, okPair, foldcol, fold, map, Zhi, A; simpl;
    repeat (case_match; try lia); lia.
Qed.

Lemma joins_good js : Forall okJoin js -> Forall (goodQ T) (flat_map joinCalls js).
Proof.
  induction 1 as [|xy js H _ IH]; simpl; [constructor|].
  apply List.Forall_app. split; [apply joinCalls_good, H | exact IH].
Qed.

(** The calls [initSets] makes for a leaf. *)
Definition callsIn (g : leafInput) : list (Z * Z * Z * Z) :=
  if inOutgroup g then flat_map joinCalls (inJoins g)
  else flat_map (callsOf T) (inGenome g).

Definition okInput (g : leafInput) : Prop :=
  if inOutgroup g then Forall okJoin (inJoins g)
  else Forall (Forall (okElement T)) (inGenome g).

(** ** One loop over the leaves *)

Definition grows (cs : leafInput -> list (Z * Z * Z * Z))
    (p p' : leafInput * nodeList) : Prop :=
  fst p' = fst p /\ leafName (snd p') = leafName (snd p) /\
  (forall i j, inRange T i j ->
     (Val (N T) (P (snd p')) i j = 1 <->
      marked T (cs (fst p)) i j \/ Val (N T) (P (snd p)) i j = 1)) /\
  (forall k, there (snd p') k = YES <->
             colMarked T (cs (fst p)) k \/ there (snd p) k = YES).

Lemma eachLeaf_spec body cs :
  (forall g st, body g st = fold_left (recordQ T) (cs g) st) ->
  forall leaves D,
  Forall (fun p => Forall (goodQ T) (cs (fst p))) leaves ->
  Forall2 (grows cs) leaves (snd (eachLeaf body D leaves)) /\
  (forall i j, inRange T i j ->
     (Val (N T) (fst (eachLeaf body D leaves)) i j = 1 <->
      (exists p, In p leaves /\ marked T (cs (fst p)) i j) \/
      Val (N T) D i j = 1)).
Proof.
  intros Hb. induction leaves as [|[g b] leaves IH]; intros D HG.
  - simpl. split; [constructor|]. intros i j _. split; [tauto|].
    intros [(p & [] & _)|H]; exact H.
  - apply Forall_cons_iff in HG as [Hg HG]. simpl in Hg.
    simpl eachLeaf. rewrite Hb.
    pose proof (fold_recordQ_spec T (cs g) Hg D b) as S. cbv zeta in S.
    destruct (fold_left (recordQ T) (cs g) (D, b)) as [D1 b1].
    simpl in S. destruct S as (S1 & S2 & S3).
    specialize (IH D1 HG).
    destruct (eachLeaf body D1 leaves) as [D2 rest]. simpl in IH |- *.
    destruct IH as [IH1 IH2]. split.
    + constructor; [|exact IH1]. unfold grows. simpl.
      split; [reflexivity|]. split; [exact S3|]. split.
      * intros i j Hij. apply (S1 i j Hij).
      * exact S2.
    + intros i j Hij. rewrite (IH2 i j Hij).
      destruct (S1 i j Hij) as [B _]. rewrite B. split.
      * intros [(p & Hin & M)|[M|M]].
        -- left. exists p. split; [now right | exact M].
        -- left. exists (g, b). split; [now left | exact M].
        -- now right.
      * intros [(p & [<-|Hin] & M)|M].
        -- right. now left.
        -- left. exists p. split; assumption.
        -- right. now right.
Qed.

Lemma marked_nil i j : ~ marked T [] i j.
Proof. intros (q & [] & _). Qed.

Lemma colMarked_nil k : ~ colMarked T [] k.
Proof. intros (q & [] & _). Qed.

Definition ingroupCalls (g : leafInput) : list (Z * Z * Z * Z) :=
  if inOutgroup g then [] else flat_map (callsOf T) (inGenome g).

Definition outgroupCalls (g : leafInput) : list (Z * Z * Z * Z) :=
  if inOutgroup g then flat_map joinCalls (inJoins g) else [].

Lemma marked_callsIn g i j :
  marked T (callsIn g) i j <->
  marked T (outgroupCalls g) i j \/ marked T (ingroupCalls g) i j.
Proof.
  unfold callsIn, outgroupCalls, ingroupCalls.
  destruct (inOutgroup g); split; try tauto;
    intros [H|H]; try exact H; destruct (marked_nil _ _ H).
Qed.

Lemma colMarked_callsIn g k :
  colMarked T (callsIn g) k <->
  colMarked T (outgroupCalls g) k \/ colMarked T (ingroupCalls g) k.
Proof.
  unfold callsIn, outgroupCalls, ingroupCalls.
  destruct (inOutgroup g); split; try tauto;
    intros [H|H]; try exact H; destruct (colMarked_nil _ H).
Qed.

(** What the record [lf] of the leaf [g] holds in the end. *)
Definition leafAll (g : leafInput) (p : leafInput * nodeList) : Prop :=
  fst p = g /\ leafName (snd p) = inName g /\
  (forall i j, inRange T i j ->
     (Val (N T) (P (snd p)) i j = 1 <-> marked T (callsIn g) i j)) /\
  (forall k, there (snd p) k = YES <-> colMarked T (callsIn g) k).

Lemma two_loops inputs l1 l2 :
  Forall2 (grows ingroupCalls)
    (List.map (fun g => (g, mkLeaf (inName g) (fun _ => 0) (fun _ => 0))) inputs)
    l1 ->
  Forall2 (grows outgroupCalls) l1 l2 ->
  Forall2 leafAll inputs l2.
Proof.
  revert l1 l2. induction inputs as [|g inputs IH]; intros l1 l2 H1 H2.
  - inversion H1; subst. inversion H2; subst. constructor.
  - simpl in H1. inversion H1 as [|p0 p1 r0 r1 G1 R1]; subst.
    inversion H2 as [|p1' p2 r1' r2 G2 R2]; subst.
    constructor; [|apply (IH r1 r2 R1 R2)].
    destruct G1 as (F1 & N1 & P1 & T1), G2 as (F2 & N2 & P2 & T2).
    simpl in F1, N1, P1, T1. rewrite F1 in F2, P2, T2.
    split; [exact F2|]. split; [rewrite N2; exact N1|]. split.
    + intros i j Hij. rewrite (P2 i j Hij), (P1 i j Hij), Val_zero.
      rewrite marked_callsIn. intuition lia.
    + intros k. rewrite T2, T1, colMarked_callsIn. unfold YES. intuition lia.
Qed.

Hypothesis HT : 0 <= T.

Lemma ingroupCalls_good g : okInput g -> Forall (goodQ T) (ingroupCalls g).
Proof.
  unfold okInput, ingroupCalls. destruct (inOutgroup g); intros H;
    [constructor | apply genome_good; assumption].
Qed.

Lemma outgroupCalls_good g : okInput g -> Forall (goodQ T) (outgroupCalls g).
Proof.
  unfold okInput, outgroupCalls. destruct (inOutgroup g); intros H;
    [apply joins_good; assumption | constructor].
Qed.

Lemma callsIn_good g : okInput g -> Forall (goodQ T) (callsIn g).
Proof.
  unfold okInput, callsIn. destruct (inOutgroup g); intros H;
    [apply joins_good | apply genome_good]; assumption.
Qed.

Lemma grows_fst cs l l' :
  Forall2 (grows cs) l l' -> List.map fst l' = List.map fst l.
Proof.
  induction 1 as [|p p' l l' (F & _) _ IH]; [reflexivity|].
  simpl. rewrite F, IH. reflexivity.
Qed.

Lemma initSetsAll_inv inputs :
  Forall okInput inputs ->
  Forall2 leafAll inputs (snd (initSetsAll inputs)) /\
  (forall i j, inRange T i j ->
     (Val (N T) (fst (initSetsAll inputs)) i j = 1 <->
      exists g, In g inputs /\ marked T (callsIn g) i j)).
Proof.
  intros HG. unfold initSetsAll, oj.
  set (l0 := List.map _ inputs).
  assert (F0 : List.map fst l0 = inputs).
  { unfold l0. rewrite List.map_map. simpl. apply List.map_id. }
  pose proof (eachLeaf_spec
    (fun g st => if inOutgroup g && true then st
                 else fold_left (initChrom T) (inGenome g) st)
    ingroupCalls) as S1.
  specialize (S1 ltac:(intros g st; unfold ingroupCalls;
    destruct (inOutgroup g); simpl; [reflexivity|apply fold_initChrom_calls])
    l0 (fun _ => 0)).
  destruct S1 as [A1 B1].
  { apply List.Forall_forall. intros p Hp. apply ingroupCalls_good.
    rewrite List.Forall_forall in HG. apply HG. rewrite <- F0.
    apply in_map, Hp. }
  destruct (eachLeaf _ (fun _ => 0) l0) as [D1 l1]. simpl in A1, B1.
  pose proof (eachLeaf_spec
    (fun g st => if negb (inOutgroup g) then st
                 else fold_left initJoin (inJoins g) st)
    outgroupCalls) as S2.
  specialize (S2 ltac:(intros g st; unfold outgroupCalls;
    destruct (inOutgroup g); simpl; [apply fold_initJoin_calls|reflexivity])
    l1 D1).
  pose proof (grows_fst _ _ _ A1) as F1. rewrite F0 in F1.
  destruct S2 as [A2 B2].
  { apply List.Forall_forall. intros p Hp. apply outgroupCalls_good.
    rewrite List.Forall_forall in HG. apply HG. rewrite <- F1.
    apply in_map, Hp. }
  split; [apply (two_loops inputs l1 _ A1 A2)|].
  intros i j Hij. rewrite (B2 i j Hij), (B1 i j Hij), Val_zero. split.
  - intros [(p & Hin & M)|[(p & Hin & M)|H]]; [| |lia].
    + exists (fst p). split; [rewrite <- F1; apply in_map, Hin|].
      apply marked_callsIn. now left.
    + exists (fst p). split; [rewrite <- F0; apply in_map, Hin|].
      apply marked_callsIn. now right.
  - intros (g & Hin & M). apply marked_callsIn in M as [M|M].
    + left. rewrite <- F1 in Hin. apply in_map_iff in Hin as (p & <- & Hp).
      exists p. split; assumption.
    + right. left. rewrite <- F0 in Hin.
      apply in_map_iff in Hin as (p & <- & Hp). exists p. split; assumption.
Qed.

End Outgroup.

Lemma leafAll_fst T inputs l :
  Forall2 (leafAll T) inputs l -> List.map fst l = inputs.
Proof.
  induction 1 as [|g p inputs l (F & _) _ IH]; [reflexivity|].
  simpl. rewrite F, IH. reflexivity.
Qed.

Lemma leafAll_names T inputs l :
  Forall2 (leafAll T) inputs l ->
  List.map (fun p => leafName (snd p)) l = List.map inName inputs.
Proof.
  induction 1 as [|g p inputs l (_ & F & _) _ IH]; [reflexivity|].
  simpl. rewrite F, IH. reflexivity.
Qed.

(** Without outgroup leaves the two loops are the first loop alone. *)
Lemma eachLeaf_skip body D leaves :
  (forall p st, In p leaves -> body (fst p) st = st) ->
  eachLeaf body D leaves = (D, leaves).
Proof.
  revert D. induction leaves as [|[g b] leaves IH]; intros D H; [reflexivity|].
  simpl. rewrite (H (g, b)) by now left.
  rewrite IH by (intros p st Hp; apply H; now right). reflexivity.
Qed.

Lemma eachLeaf_ingroup T inputs : forall D Leaf,
  Forall (fun g => inOutgroup g = false) inputs ->
  let r := eachLeaf
             (fun g st => if inOutgroup g && oj then st
                          else fold_left (initChrom T) (inGenome g) st)
             D (List.map (fun g => (g, mkLeaf (inName g) (fun _ => 0) (fun _ => 0)))
                         inputs) in
  fold_left
    (fun (acc : bytes * list nodeList) (g : string * list (list Z)) =>
       let (DPPI, Leaf) := acc in
       let b := mkLeaf (fst g) (fun _ => 0) (fun _ => 0) in
       let (DPPI, b) := fold_left (initChrom T) (snd g) (DPPI, b) in
       (DPPI, Leaf ++ [b]))
    (List.map (fun g => (inName g, inGenome g)) inputs) (D, Leaf)
  = (fst r, Leaf ++ List.map snd (snd r)).
Proof.
  induction inputs as [|g inputs IH]; intros D Leaf HG.
  - simpl. rewrite app_nil_r. reflexivity.
  - apply Forall_cons_iff in HG as [Hg HG]. simpl. rewrite Hg. simpl.
    destruct (fold_left (initChrom T) (inGenome g)
                (D, mkLeaf (inName g) (fun _ => 0) (fun _ => 0))) as [D1 b1].
    specialize (IH D1 (Leaf ++ [b1]) HG). cbv zeta in IH. rewrite IH.
    destruct (eachLeaf _ D1 _) as [D2 rest]. simpl.
    rewrite <- app_assoc. reflexivity.
Qed.

Lemma eachLeaf_fst body leaves : forall D,
  List.map fst (snd (eachLeaf body D leaves)) = List.map fst leaves.
Proof.
  induction leaves as [|[g b] leaves IH]; intros D; [reflexivity|].
  simpl. destruct (body g (D, b)) as [D1 b1].
  specialize (IH D1). destruct (eachLeaf body D1 leaves) as [D2 rest].
  simpl in IH |- *. rewrite IH. reflexivity.
Qed.

(** With no outgroup leaf, [initSetsAll] is the first loop, [initSets]. *)
Lemma initSetsAll_ingroup T inputs :
  Forall (fun g => inOutgroup g = false) inputs ->
  initSets T (List.map (fun g => (inName g, inGenome g)) inputs)
  = (fst (initSetsAll T inputs), List.map snd (snd (initSetsAll T inputs))).
Proof.
  intros HG. unfold initSets. rewrite (eachLeaf_ingroup T inputs _ [] HG).
  unfold initSetsAll.
  set (l0 := List.map _ inputs).
  assert (F0 : List.map fst l0 = inputs).
  { unfold l0. rewrite List.map_map. simpl. apply List.map_id. }
  pose proof (eachLeaf_fst
    (fun g st => if inOutgroup g && oj then st
                 else fold_left (initChrom T) (inGenome g) st)
    l0 (fun _ => 0)) as F1.
  destruct (eachLeaf _ (fun _ => 0) l0) as [D1 l1]. simpl in F1.
  rewrite F0 in F1.
  unfold oj at 1. simpl fst. simpl snd.
  rewrite eachLeaf_skip; [reflexivity|].
  intros p st Hp. rewrite List.Forall_forall in HG.
  rewrite (HG (fst p)); [reflexivity|]. rewrite <- F1. apply in_map, Hp.
Qed.

Definition twoInputs : list leafInput :=
  [mkInput "A" false [[1; 2]] []; mkInput "O" true [[2; 1]] [(0, 2); (2, -1); (0, 0)]].

(** The record of the outgroup leaf [O] after [initSets]. *)
Definition outLeaf : leafInput * nodeList :=
  nth 1 (snd (initSetsAll 2 twoInputs))
      (mkInput "" false [] [], mkLeaf "" (fun _ => 0) (fun _ => 0)).

Lemma outLeaf_in : In outLeaf (snd (initSetsAll 2 twoInputs)).
Proof. right. left. reflexivity. Qed.

Lemma twoInputs_ok : Forall (okInput 2) twoInputs.
Proof.
  unfold twoInputs, okInput, okJoin, okElement.
  repeat constructor; simpl; lia.
Qed.

(** X19.  [initSets] with outgroup leaves, whose adjacencies are read
    from joins files instead of genomes: there is still one leaf record
    per leaf, in order and under its name; the compatibility matrix is
    the union of the leaves' adjacency matrices, is invariant under
    strand reversal, and marks nothing in row [Z], in column [A] or at
    [(A, Z)].  (Genomes and joins files hold element ids between 1 and
    [T] in absolute value; a joins file may also hold 0 for a chromosome
    end.  The matrix size [N * N] fits an [int], so that every position
    is computed exactly and lies in the allocated bytes.) *)
Theorem DPPI_with_outgroups (T : Z) (inputs : list leafInput) (i j : Z) :
  0 <= T -> N T * N T <= IndexFacts.INT_MAX -> Forall (okInput T) inputs ->
  0 <= i <= Zhi T -> 0 <= j <= Zhi T ->
  let DPPI := fst (initSetsAll T inputs) in
  let Leaf := snd (initSetsAll T inputs) in
  List.map fst Leaf = inputs /\
  List.map (fun p => leafName (snd p)) Leaf = List.map inName inputs /\
  (Val (N T) DPPI i j = YES <->
   exists p, In p Leaf /\ Val (N T) (P (snd p)) i j = YES) /\
  Val (N T) DPPI (map T j) (map T i) = Val (N T) DPPI i j /\
  Val (N T) DPPI (Zhi T) j = NO /\
  Val (N T) DPPI i A = NO /\
  Val (N T) DPPI A (Zhi T) = NO.
Proof.
  intros HT _ HG Hi Hj DPPI Leaf.
  destruct (initSetsAll_inv T HT inputs HG) as [HL HD].
  fold DPPI in HD. fold Leaf in HL.
  assert (Good : forall g, In g inputs -> Forall (goodQ T) (callsIn T g)).
  { intros g Hin. apply callsIn_good; [exact HT|].
    rewrite List.Forall_forall in HG. apply HG, Hin. }
  assert (K : forall a b, inRange T a b ->
            Val (N T) DPPI a b = 1 -> okPair T a b).
  { intros a b Hab E. apply (HD a b Hab) in E as (g & Hin & M).
    apply (marked_okPair T (callsIn T g)); [apply Good, Hin | exact M]. }
  assert (S : forall a b, inRange T a b ->
            Val (N T) DPPI a b = 1 -> Val (N T) DPPI (map T b) (map T a) = 1).
  { intros a b Hab E. pose proof Hab as [Ha Hb].
    apply (HD a b Hab) in E as (g & Hin & M).
    apply HD; [split; apply IndexFacts.map_range; assumption|].
    exists g. split; [exact Hin|].
    apply marked_mirror; [exact HT | apply Good, Hin | exact M]. }
  split; [apply (leafAll_fst T), HL|].
  split; [apply (leafAll_names T), HL|].
  split; [|split; [|unfold NO; repeat split]].
  - unfold YES. rewrite (HD i j (conj Hi Hj)). split.
    + intros (g & Hin & M).
      destruct (Forall2_pick_l _ _ _ g HL Hin) as (p & Hp & _ & _ & HP & _).
      exists p. split; [exact Hp|]. apply HP; [split; assumption | exact M].
    + intros (p & Hp & E).
      destruct (Forall2_pick_r _ _ _ p HL Hp) as (g & Hin & _ & _ & HP & _).
      exists g. split; [exact Hin|]. apply HP; [split; assumption | exact E].
  - destruct (PosteriorFacts.Val_bit (N T) DPPI i j) as [E|E].
    + destruct (PosteriorFacts.Val_bit (N T) DPPI (map T j) (map T i))
        as [E'|E']; [congruence|].
      apply S in E'; [|split; apply IndexFacts.map_range; assumption].
      rewrite !IndexFacts.map_map in E' by assumption. congruence.
    + rewrite E. apply S; [split; assumption | exact E].
  - destruct (PosteriorFacts.Val_bit (N T) DPPI (Zhi T) j) as [E|E]; [exact E|].
    apply K in E; [|unfold inRange, Zhi in *; lia].
    unfold okPair, Zhi in E. lia.
  - destruct (PosteriorFacts.Val_bit (N T) DPPI i A) as [E|E]; [exact E|].
    apply K in E; [|unfold inRange, Zhi, A in *; lia].
    unfold okPair, A in E. lia.
  - destruct (PosteriorFacts.Val_bit (N T) DPPI A (Zhi T)) as [E|E]; [exact E|].
    apply K in E; [|unfold inRange, Zhi, A in *; lia].
    unfold okPair, A in E. intuition lia.
Qed.

Lemma DPPI_with_outgroups_witness :
  Val 6 (fst (initSetsAll 2 twoInputs)) (map 2 3) (map 2 2)
  = Val 6 (fst (initSetsAll 2 twoInputs)) 2 3.
Proof.
  destruct (DPPI_with_outgroups 2 twoInputs 2 3) as (_ & _ & _ & H & _).
  - lia.
  - vm_compute. discriminate.
  - exact twoInputs_ok.
  - unfold Zhi. lia.
  - unfold Zhi. lia.
  - exact H.
Defined.

Lemma foldcol_ends T : 0 <= T -> foldcol T (Zhi T) = foldcol T 0.
Proof.
  intros HT. unfold foldcol, fold, Zhi, A.
  repeat (case_match; try lia).
Qed.

Lemma marked_joins T js i j :
  0 <= T ->
  (marked T (flat_map (joinCalls T) js) i j <->
   exists x y, In (x, y) js /\ (x <> 0 \/ y <> 0) /\
     ((i = fold T x /\ j = foldcol T y) \/
      (i = map T (foldcol T y) /\ j = map T (fold T x)))).
Proof.
  intros HT. unfold marked. split.
  - intros (q & Hin & H). apply in_flat_map in Hin as ([x y] & Hxy & Hq).
    exists x, y. split; [exact Hxy|].
    unfold joinCalls in Hq.
    destruct (Z.eqb_spec x 0) as [Ex|Ex], (Z.eqb_spec y 0) as [Ey|Ey];
      simpl in Hq; [destruct Hq| | |];
      destruct Hq as [<-|[]]; (split; [lia|]);
      unfold canon in H; simpl in H; subst;
      rewrite ?(foldcol_ends T HT) in H; exact H.
  - intros (x & y & Hin & Hn & H).
    destruct (Z.eqb_spec x 0) as [Ex|Ex], (Z.eqb_spec y 0) as [Ey|Ey];
      [lia| | |].
    + exists (A, y, - y, Zhi T). split.
      * apply in_flat_map. exists (x, y). split; [exact Hin|].
        unfold joinCalls. subst x. simpl.
        destruct (Z.eqb_spec y 0); [lia|]. now left.
      * unfold canon. simpl. subst x. exact H.
    + exists (x, Zhi T, A, - x). split.
      * apply in_flat_map. exists (x, y). split; [exact Hin|].
        unfold joinCalls. subst y. simpl.
        destruct (Z.eqb_spec x 0); [lia|]. now left.
      * unfold canon. simpl. subst y. rewrite (foldcol_ends T HT). exact H.
    + exists (x, y, - y, - x). split.
      * apply in_flat_map. exists (x, y). split; [exact Hin|].
        unfold joinCalls.
        destruct (Z.eqb_spec x 0); [lia|]. destruct (Z.eqb_spec y 0); [lia|].
        now left.
      * unfold canon. simpl. exact H.
Qed.

(** X20.  What an outgroup leaf holds after [initSets]: its adjacency
    matrix marks exactly the pairs of the lines of its joins file, each
    on both strands, where a 0 in the first column stands for the start
    sentinel and a 0 in the second for the end sentinel; a line [0 0] is
    ignored, and so is any genome stored for the leaf.  (The matrix size
    [N * N] fits an [int].) *)
Theorem outgroup_leaf_holds_its_joins (T : Z) (inputs : list leafInput)
    (p : leafInput * nodeList) (i j : Z) :
  0 <= T -> N T * N T <= IndexFacts.INT_MAX -> Forall (okInput T) inputs ->
  In p (snd (initSetsAll T inputs)) -> inOutgroup (fst p) = true ->
  0 <= i <= Zhi T -> 0 <= j <= Zhi T ->
  (Val (N T) (P (snd p)) i j = YES <->
   exists x y, In (x, y) (inJoins (fst p)) /\ (x <> 0 \/ y <> 0) /\
     ((i = fold T x /\ j = foldcol T y) \/
      (i = map T (foldcol T y) /\ j = map T (fold T x)))).
Proof.
  intros HT _ HG Hp Ho Hi Hj.
  destruct (initSetsAll_inv T HT inputs HG) as [HL _].
  destruct (Forall2_pick_r _ _ _ p HL Hp) as (g & Hin & F & _ & HP & _).
  unfold YES. rewrite (HP i j (conj Hi Hj)). rewrite <- F.
  unfold callsIn. rewrite Ho. apply marked_joins, HT.
Qed.

Lemma outgroup_leaf_holds_its_joins_witness :
  Val 6 (P (snd outLeaf)) 2 3 = YES.
Proof.
  apply (outgroup_leaf_holds_its_joins 2 twoInputs outLeaf 2 3).
  - lia.
  - vm_compute. discriminate.
  - exact twoInputs_ok.
  - exact outLeaf_in.
  - reflexivity.
  - unfold Zhi. lia.
  - unfold Zhi. lia.
  - exists 2, (-1). split; [|split; [lia | left; split; reflexivity]].
    simpl. right. now left.
Defined.

(** X21.  For every leaf, ingroup or outgroup, and every non-sentinel
    index [k], [initSets] sets the marker [there[k]] exactly when the
    leaf's adjacency matrix holds some predecessor of [k]; so the leaf
    case of [preLikelihood] returns the observed bit precisely for the
    columns in which the leaf has evidence, and 1 for the others.  (The
    matrix size [N * N] fits an [int].) *)
Theorem there_iff_some_predecessor (T : Z) (inputs : list leafInput)
    (p : leafInput * nodeList) (k : Z) :
  0 <= T -> N T * N T <= IndexFacts.INT_MAX -> Forall (okInput T) inputs ->
  In p (snd (initSetsAll T inputs)) -> 1 <= k <= 2 * T ->
  (there (snd p) k = YES <->
   exists i, 0 <= i <= Zhi T /\ Val (N T) (P (snd p)) i k = YES).
Proof.
  intros HT _ HG Hp Hk.
  destruct (initSetsAll_inv T HT inputs HG) as [HL _].
  destruct (Forall2_pick_r _ _ _ p HL Hp) as (g & Hin & _ & _ & HP & Ht).
  assert (Hq : Forall (goodQ T) (callsIn T g)).
  { apply callsIn_good; [exact HT|].
    rewrite List.Forall_forall in HG. apply HG, Hin. }
  rewrite Ht, (colMarked_iff T _ k Hq Hk). unfold YES.
  split; intros (i & Hi & H); exists i; (split; [exact Hi|]);
    apply (HP i k); try exact H; unfold inRange, Zhi in *; lia.
Qed.

Lemma there_iff_some_predecessor_witness :
  there (snd outLeaf) 2 = YES <->
  exists i, 0 <= i <= Zhi 2 /\ Val 6 (P (snd outLeaf)) i 2 = YES.
Proof.
  apply (there_iff_some_predecessor 2 twoInputs outLeaf 2).
  - lia.
  - vm_compute. discriminate.
  - exact twoInputs_ok.
  - exact outLeaf_in.
  - lia.
Defined.

End OutgroupFacts.

(* ===================================================================== *)
(** * Further facts: marking the outgroup leaves *)
(* ===================================================================== *)

Module OutgroupMarkFacts.
Import Inference Reroot.

(** [static boolean isLeaf(struct phyloTree *node)], on the heap. *)
Definition isLeafNode (n : treeNode) : bool :=
  match childL n, childR n with
  | None, None => true
  | _, _ => false
  end.

(** The loop [for (tt = tr; tt; tt = tt->parent) if (tt == Ances) break;]
    of [identifyOutgroup]: the value of [tt] after it.  [fuel] bounds the
    number of parent links followed. *)
Fixpoint climb (fuel : nat) (h : gmap Z treeNode) (Ances : Z) (tt : option Z)
  : option (option Z) :=
  match tt with
  | None => Some None
  | Some a =>
      if Z.eq_dec a Ances then Some (Some a)
      else match fuel with
           | O => None
           | S fuel' =>
               match h !! a with
               | None => None
               | Some n => climb fuel' h Ances (parent n)
               end
           end
  end.

(** [static void identifyOutgroup(struct phyloTree *tree)].  [trs] is the
    chain of [next] links from [tree]; the field [outgroup] of the nodes
    is kept in a map of its own, by address. *)
Fixpoint identifyOutgroup (fuel : nat) (h : gmap Z treeNode) (Ances : Z)
    (trs : list Z) (outgroup : gmap Z bool) : option (gmap Z bool) :=
  match trs with
  | [] => Some outgroup
  | tr :: rest =>
      match h !! tr with
      | None => None
      | Some n =>
          if isLeafNode n
          then match climb fuel h Ances (Some tr) with
               | None => None
               | Some stop =>
                   identifyOutgroup fuel h Ances rest
                     (<[tr := match stop with None => true | Some _ => false end]>
                        outgroup)
               end
          else identifyOutgroup fuel h Ances rest outgroup
      end
  end.

(** The leaf [x] of [t] lies in the subtree of [t] rooted at the address
    [Ances]. *)
Definition below (Ances : Z) (t x : phyloTree) : Prop :=
  exists s, In s (nodes t) /\ addrOf s = Ances /\ In x (nodes s).

Lemma climb_mono h Ances : forall f f' tt r,
  (f <= f')%nat -> climb f h Ances tt = Some r -> climb f' h Ances tt = Some r.
Proof.
  induction f as [|f IH]; intros f' tt r Hle H.
  - destruct tt as [a|]; [|destruct f'; exact H].
    simpl in H. destruct f'; simpl; destruct (Z.eq_dec a Ances);
      try exact H; discriminate.
  - destruct f' as [|f']; [lia|].
    destruct tt as [a|]; [|exact H]. simpl in H |- *.
    destruct (Z.eq_dec a Ances); [exact H|].
    destruct (h !! a) as [nd|]; [|discriminate].
    apply (IH f' _ _ ltac:(lia) H).
Qed.

Lemma nodes_size x : forall s,
  In x (nodes s) -> (length (nodes x) <= length (nodes s))%nat.
Proof.
  induction s as [a nm d l r IHl IHr] using phyloTree_induction.
  intros [<-|H]; [lia|]. cbn [nodes length]. rewrite length_app.
  apply in_app_or in H as [H|H].
  - destruct l as [c|]; [|destruct H]. specialize (IHl H). simpl in IHl. lia.
  - destruct r as [c|]; [|destruct H]. specialize (IHr H). simpl in IHr. lia.
Qed.

Lemma nodes_within x : forall s t,
  In x (nodes s) -> In s (nodes t) -> In x (nodes t).
Proof.
  intros s t Hx. revert t.
  induction t as [a nm d l r IHl IHr] using phyloTree_induction.
  intros [<-|H]; [exact Hx|]. cbn [nodes]. right.
  apply in_app_or in H as [H|H]; apply in_or_app.
  - destruct l as [c|]; [|destruct H]. left. apply IHl, H.
  - destruct r as [c|]; [|destruct H]. right. apply IHr, H.
Qed.

Lemma nodes_nonempty t : (1 <= length (nodes t))%nat.
Proof. destruct t. simpl. lia. Qed.

Definition kids (c : option phyloTree) : list phyloTree :=
  match c with Some t => nodes t | None => [] end.

Lemma nodes_kids a nm d l r :
  nodes (mkNode a nm d l r) = mkNode a nm d l r :: kids l ++ kids r.
Proof. reflexivity. Qed.

Section Climb.
  Variable h : gmap Z treeNode.
  Variable Ances : Z.

(** From a node of the child [c] of [t]: what holds for [c] holds for
    [t]. *)
Lemma climb_step (t c : phyloTree) (par : option Z) (x : phyloTree) (f : nat) :
  (length (nodes c) < length (nodes t))%nat ->
  In c (nodes t) ->
  (exists n, h !! addrOf t = Some n /\ parent n = par) ->
  (forall s, In s (nodes t) -> addrOf s = Ances -> In x (nodes s) ->
             s = t \/ In s (nodes c)) ->
  In x (nodes c) ->
  (below Ances c x ->
   climb (f + length (nodes c)) h Ances (Some (addrOf x)) = Some (Some Ances)) ->
  (~ below Ances c x -> forall r,
   climb (S f) h Ances (Some (addrOf t)) = Some r ->
   climb (S f + length (nodes c)) h Ances (Some (addrOf x)) = Some r) ->
  (below Ances t x ->
   climb (f + length (nodes t)) h Ances (Some (addrOf x)) = Some (Some Ances)) /\
  (~ below Ances t x -> forall r,
   climb f h Ances par = Some r ->
   climb (f + length (nodes t)) h Ances (Some (addrOf x)) = Some r).
Proof.
  intros Hsz Hc (n & Hn & Hp) Honly Hx IHa IHb.
  destruct (Classical_Prop.classic (below Ances c x)) as [B|B].
  - assert (Bt : below Ances t x).
    { destruct B as (s & Hs & E & Hxs). exists s. split; [|split; assumption].
      apply (nodes_within s c t Hs Hc). }
    split; [|intros NB; destruct (NB Bt)].
    intros _. apply (climb_mono h Ances (f + length (nodes c))); [lia|].
    apply IHa, B.
  - specialize (IHb B). destruct (Z.eq_dec (addrOf t) Ances) as [E|E].
    + assert (Bt : below Ances t x).
      { exists t. split; [apply InferenceFacts.nodes_self|]. split; [exact E|].
        apply (nodes_within x c t Hx Hc). }
      split; [|intros NB; destruct (NB Bt)].
      intros _. apply (climb_mono h Ances (S f + length (nodes c))); [lia|].
      apply IHb. simpl. destruct (Z.eq_dec (addrOf t) Ances); [|contradiction].
      rewrite E. reflexivity.
    + assert (NBt : ~ below Ances t x).
      { intros (s & Hs & Es & Hxs).
        destruct (Honly s Hs Es Hxs) as [->|Hs']; [contradiction|].
        apply B. exists s. split; [exact Hs'|]. split; assumption. }
      split; [intros Bt; destruct (NBt Bt)|].
      intros _ r Hr.
      apply (climb_mono h Ances (S f + length (nodes c))); [lia|].
      apply IHb. simpl. destruct (Z.eq_dec (addrOf t) Ances); [contradiction|].
      rewrite Hn, Hp. exact Hr.
Qed.

Lemma addrs_kids a nm d l r :
  addrs (mkNode a nm d l r)
  = a :: List.map addrOf (kids l) ++ List.map addrOf (kids r).
Proof. unfold addrs. rewrite nodes_kids. simpl. rewrite List.map_app. reflexivity. Qed.

Lemma kids_smaller a nm d l r s :
  In s (kids l ++ kids r) ->
  (length (nodes s) < length (nodes (mkNode a nm d l r)))%nat.
Proof.
  intros H. rewrite nodes_kids. cbn [length]. rewrite length_app.
  apply in_app_or in H as [H|H].
  - destruct l as [c|]; [|destruct H]. apply nodes_size in H. simpl. lia.
  - destruct r as [c|]; [|destruct H]. apply nodes_size in H. simpl. lia.
Qed.

Lemma climb_up : forall (t : phyloTree) (par : option Z),
  wf h par t -> List.NoDup (addrs t) ->
  forall (x : phyloTree) (f : nat), In x (nodes t) ->
  (below Ances t x ->
   climb (f + length (nodes t)) h Ances (Some (addrOf x)) = Some (Some Ances)) /\
  (~ below Ances t x -> forall r,
   climb f h Ances par = Some r ->
   climb (f + length (nodes t)) h Ances (Some (addrOf x)) = Some r).
Proof.
  induction t as [a nm d l r IHl IHr] using phyloTree_induction.
  intros par Hwf ND x f Hx.
  set (t := mkNode a nm d l r) in *.
  assert (Hwf' := Hwf). cbn [wf] in Hwf'.
  destruct Hwf' as ((n & Hn & _ & _ & _ & _ & Hp) & Wl & Wr).
  unfold t in ND. rewrite addrs_kids in ND. apply List.NoDup_cons_iff in ND as [Ha ND].
  pose proof (List.NoDup_app_remove_r _ _ ND) as NDl.
  pose proof (List.NoDup_app_remove_l _ _ ND) as NDr.
  assert (Apart : forall y, In y (kids l) -> In y (kids r) -> False).
  { intros y Hl Hr. apply (in_map addrOf) in Hl, Hr.
    revert ND Hl Hr. generalize (List.map addrOf (kids l)) as u.
    induction u as [|z u IH]; intros ND Hl Hr; [destruct Hl|].
    simpl in ND. apply List.NoDup_cons_iff in ND as [Hz ND].
    destruct Hl as [->|Hl]; [|apply (IH ND Hl Hr)].
    apply Hz, in_or_app. now right. }
  unfold t in Hx. rewrite nodes_kids in Hx. fold t in Hx.
  destruct Hx as [<-|Hx].
  - (* the root of [t] itself *)
    replace (f + length (nodes t))%nat with (S (f + (length (nodes t) - 1)))
      by (pose proof (nodes_nonempty t); lia).
    cbn [climb]. change (addrOf t) with a.
    destruct (Z.eq_dec a Ances) as [E|E].
    + split; [intros _; rewrite E; reflexivity|].
      intros NB. destruct NB. exists t.
      split; [apply InferenceFacts.nodes_self|].
      split; [exact E | apply InferenceFacts.nodes_self].
    + rewrite Hn, Hp. split.
      * intros (s & Hs & Es & Hts). exfalso.
        unfold t in Hs. rewrite nodes_kids in Hs. fold t in Hs.
        destruct Hs as [<-|Hs].
        -- apply E. exact Es.
        -- pose proof (kids_smaller a nm d l r s Hs). fold t in H.
           pose proof (nodes_size t s Hts). lia.
      * intros _ r0 Hr. apply (climb_mono h Ances f); [lia | exact Hr].
  - apply in_app_or in Hx as [Hx|Hx].
    + destruct l as [c|]; [|destruct Hx]. simpl in Hx, IHl, Wl.
      simpl in NDl. fold (addrs c) in NDl.
      destruct (IHl (Some a) Wl NDl x f Hx) as [Ia _].
      destruct (IHl (Some a) Wl NDl x (S f) Hx) as [_ Ib].
      apply (climb_step t c par x f).
      * apply (kids_smaller a nm d (Some c) r c). apply in_or_app. left.
        apply InferenceFacts.nodes_self.
      * unfold t. rewrite nodes_kids. right. apply in_or_app. left.
        apply InferenceFacts.nodes_self.
      * exists n. split; assumption.
      * intros s Hs _ Hxs. unfold t in Hs. rewrite nodes_kids in Hs.
        destruct Hs as [<-|Hs]; [now left|]. right.
        apply in_app_or in Hs as [Hs|Hs]; [exact Hs|]. exfalso.
        apply (Apart x); [exact Hx|].
        destruct r as [c'|]; [|destruct Hs]. simpl in Hs |- *.
        apply (nodes_within x s c' Hxs Hs).
      * exact Hx.
      * exact Ia.
      * exact Ib.
    + destruct r as [c|]; [|destruct Hx]. simpl in Hx, IHr, Wr.
      simpl in NDr. fold (addrs c) in NDr.
      destruct (IHr (Some a) Wr NDr x f Hx) as [Ia _].
      destruct (IHr (Some a) Wr NDr x (S f) Hx) as [_ Ib].
      apply (climb_step t c par x f).
      * apply (kids_smaller a nm d l (Some c) c). apply in_or_app. right.
        apply InferenceFacts.nodes_self.
      * unfold t. rewrite nodes_kids. right. apply in_or_app. right.
        apply InferenceFacts.nodes_self.
      * exists n. split; assumption.
      * intros s Hs _ Hxs. unfold t in Hs. rewrite nodes_kids in Hs.
        destruct Hs as [<-|Hs]; [now left|]. right.
        apply in_app_or in Hs as [Hs|Hs]; [|exact Hs]. exfalso.
        apply (Apart x); [|exact Hx].
        destruct l as [c'|]; [|destruct Hs]. simpl in Hs |- *.
        apply (nodes_within x s c' Hxs Hs).
      * exact Hx.
      * exact Ia.
      * exact Ib.
Qed.

End Climb.

Lemma wf_node h : forall t par x,
  wf h par t -> In x (nodes t) ->
  exists n, h !! addrOf x = Some n /\ isLeafNode n = isLeaf x.
Proof.
  induction t as [a nm d l r IHl IHr] using phyloTree_induction.
  intros par x Hwf Hx. assert (Hwf' := Hwf). cbn [wf] in Hwf'.
  destruct Hwf' as ((n & Hn & _ & _ & Hl & Hr & _) & Wl & Wr).
  rewrite nodes_kids in Hx. destruct Hx as [<-|Hx].
  - exists n. split; [exact Hn|]. unfold isLeafNode. rewrite Hl, Hr.
    destruct l, r; reflexivity.
  - apply in_app_or in Hx as [Hx|Hx].
    + destruct l as [c|]; [|destruct Hx]. apply (IHl (Some a) x Wl Hx).
    + destruct r as [c|]; [|destruct Hx]. apply (IHr (Some a) x Wr Hx).
Qed.

Definition leafAddrs (xs : list phyloTree) : list Z :=
  List.map addrOf (List.filter isLeaf xs).

Lemma loop_marks fuel h Ances (flag : Z -> bool) : forall xs,
  (forall x, In x xs ->
     exists n, h !! addrOf x = Some n /\ isLeafNode n = isLeaf x) ->
  (forall x, In x xs -> isLeaf x = true ->
     exists stop, climb fuel h Ances (Some (addrOf x)) = Some stop /\
       flag (addrOf x) = match stop with None => true | Some _ => false end) ->
  forall og, exists og',
    identifyOutgroup fuel h Ances (List.map addrOf xs) og = Some og' /\
    forall a, og' !! a = if in_dec Z.eq_dec a (leafAddrs xs)
                         then Some (flag a) else og !! a.
Proof.
  induction xs as [|x xs IH]; intros Hn Hc og.
  - exists og. split; [reflexivity|]. intros a. reflexivity.
  - destruct (Hn x ltac:(now left)) as (n & En & El).
    assert (Hn' : forall y, In y xs ->
              exists n, h !! addrOf y = Some n /\ isLeafNode n = isLeaf y).
    { intros y Hy. apply Hn. now right. }
    assert (Hc' : forall y, In y xs -> isLeaf y = true ->
              exists stop, climb fuel h Ances (Some (addrOf y)) = Some stop /\
                flag (addrOf y) = match stop with None => true | Some _ => false end).
    { intros y Hy. apply Hc. now right. }
    cbn [List.map identifyOutgroup]. rewrite En, El.
    unfold leafAddrs. cbn [List.filter].
    destruct (isLeaf x) eqn:L.
    + destruct (Hc x ltac:(now left) L) as (stop & Es & Ef).
      rewrite Es.
      destruct (IH Hn' Hc'
                  (<[addrOf x := match stop with None => true | Some _ => false end]> og))
        as (og' & E & H).
      exists og'. split; [exact E|]. intros a. rewrite (H a).
      cbn [List.map]. fold (leafAddrs xs).
      destruct (in_dec Z.eq_dec a (leafAddrs xs)) as [I|I];
        destruct (in_dec Z.eq_dec a (addrOf x :: leafAddrs xs)) as [J|J];
        try reflexivity.
      * destruct J. now right.
      * destruct J as [<-|J]; [|contradiction].
        rewrite lookup_insert_eq, Ef. reflexivity.
      * rewrite lookup_insert_ne; [reflexivity|].
        intros <-. apply J. now left.
    + destruct (IH Hn' Hc' og) as (og' & E & H).
      exists og'. split; [exact E|]. exact H.
Qed.

(** X22.  [identifyOutgroup] sets [outgroup] on every leaf: to [FALSE]
    for the leaves in the subtree of the designated ancestor, to [TRUE]
    for all the others; the field of an internal node is never written.  The tree is well formed
    in memory, with parent links, and its nodes are chained by [next] in
    the order [adjustNextInTree] gives them. *)
Theorem identifyOutgroup_marks_leaves_outside_ancestor
    (h : gmap Z treeNode) (t : phyloTree) (Ances : Z) (og : gmap Z bool) :
  wf h None t -> List.NoDup (addrs t) ->
  exists og',
    identifyOutgroup (length (nodes t)) h Ances (addrs t) og = Some og' /\
    (forall x, In x (nodes t) -> isLeaf x = true ->
       (below Ances t x -> og' !! addrOf x = Some false) /\
       (~ below Ances t x -> og' !! addrOf x = Some true)) /\
    (forall x, In x (nodes t) -> isLeaf x = false ->
       og' !! addrOf x = og !! addrOf x) /\
    (forall a, ~ In a (addrs t) -> og' !! a = og !! a).
Proof.
  intros Hwf ND.
  set (fuel := length (nodes t)).
  set (flag := fun a => match climb fuel h Ances (Some a) with
                        | Some None => true
                        | _ => false
                        end).
  assert (Hup : forall x, In x (nodes t) ->
            (below Ances t x ->
             climb fuel h Ances (Some (addrOf x)) = Some (Some Ances)) /\
            (~ below Ances t x ->
             climb fuel h Ances (Some (addrOf x)) = Some None)).
  { intros x Hx. destruct (climb_up h Ances t None Hwf ND x 0%nat Hx) as [U1 U2].
    split; [exact U1|]. intros NB. apply (U2 NB). reflexivity. }
  destruct (loop_marks fuel h Ances flag (nodes t)) with (og := og)
    as (og' & E & H).
  - intros x Hx. apply (wf_node h t None x Hwf Hx).
  - intros x Hx _. destruct (Hup x Hx) as [U1 U2].
    destruct (Classical_Prop.classic (below Ances t x)) as [B|B].
    + exists (Some Ances). split; [apply U1, B|]. unfold flag.
      rewrite (U1 B). reflexivity.
    + exists None. split; [apply U2, B|]. unfold flag.
      rewrite (U2 B). reflexivity.
  - exists og'. split; [exact E|].
    assert (Leaf_in : forall x, In x (nodes t) -> isLeaf x = true ->
              In (addrOf x) (leafAddrs (nodes t))).
    { intros x Hx L. unfold leafAddrs. apply in_map, filter_In. now split. }
    split; [|split].
    + intros x Hx L. destruct (Hup x Hx) as [U1 U2].
      specialize (H (addrOf x)).
      destruct (in_dec Z.eq_dec (addrOf x) (leafAddrs (nodes t))) as [I|I];
        [|destruct (I (Leaf_in x Hx L))].
      split; intros B; rewrite H; unfold flag;
        [rewrite (U1 B) | rewrite (U2 B)]; reflexivity.
    + intros x Hx L. rewrite (H (addrOf x)).
      destruct (in_dec Z.eq_dec (addrOf x) (leafAddrs (nodes t))) as [I|I];
        [|reflexivity].
      exfalso. unfold leafAddrs in I. apply in_map_iff in I as (y & Ey & Hy).
      apply filter_In in Hy as [Hy Ly].
      assert (y = x); [|congruence].
      revert ND Hx Hy Ey. unfold addrs. generalize (nodes t) as u.
      induction u as [|z u IH]; intros ND Hx Hy Ey; [destruct Hx|].
      simpl in ND. apply List.NoDup_cons_iff in ND as [Hz ND].
      destruct Hx as [->|Hx], Hy as [->|Hy]; try reflexivity.
      * destruct Hz. rewrite <- Ey. apply in_map, Hy.
      * destruct Hz. rewrite Ey. apply in_map, Hx.
      * apply (IH ND Hx Hy Ey).
    + intros a Ha. rewrite (H a).
      destruct (in_dec Z.eq_dec a (leafAddrs (nodes t))) as [I|I];
        [|reflexivity].
      destruct Ha. unfold leafAddrs in I. apply in_map_iff in I as (y & <- & Hy).
      apply filter_In in Hy as [Hy _]. apply in_map, Hy.
Qed.

Lemma identifyOutgroup_marks_leaves_outside_ancestor_witness :
  exists og',
    identifyOutgroup 5 exHeap 2 (addrs (plug exSub exPath)) ∅ = Some og' /\
    og' !! 3 = Some false /\ og' !! 5 = Some true.
Proof.
  destruct (identifyOutgroup_marks_leaves_outside_ancestor
              exHeap (plug exSub exPath) 2 ∅
              RerootFacts.exHeap_wf RerootFacts.exHeap_NoDup)
    as (og' & E & HL & _).
  exists og'. split; [exact E|]. split.
  - apply (HL (mkNode 3 "A" 1 None None)); [simpl; tauto | reflexivity |].
    exists exSub. split; [simpl; tauto|]. split; [reflexivity | simpl; tauto].
  - apply (HL (mkNode 5 "C" 4 None None)); [simpl; tauto | reflexivity |].
    intros (s & Hs & Es & Hx). simpl in Hs.
    destruct Hs as [<-|[<-|[<-|[<-|[<-|[]]]]]]; simpl in Es; try discriminate.
    simpl in Hx. destruct Hx as [Hx|[Hx|[Hx|[]]]]; discriminate Hx.
Defined.

End OutgroupMarkFacts.
